(** * pyxray: unified call-graph construction, reachability and centrality

    A shallow embedding of the call-graph engine of pyxray
    (scripts/augment_partial_cg.py, scripts/stitch.py,
    scripts/unify_cg_all_binary.py, scripts/reach_sane.py and
    scripts/call_chain.py) together with the properties its design
    document states about it.

    Conventions of the embedding:
    - a Python [str] is a [string]; a Python [int] is a [Z];
    - a Python [set] is a [gset]; a [dict] that is only looked up is a
      [gmap]; a [dict] whose iteration order is observable is an
      association list in insertion order;
    - a method that mutates [self] is a function from state to state; a
      method that can raise returns a [result]. *)

From Stdlib Require Import Ascii String ZArith QArith Sorted.
From stdpp Require Import gmap strings list sets.

Local Open Scope string_scope.
Local Open Scope list_scope.
Local Open Scope Z_scope.

(** ** Exceptions *)

Inductive exn : Type :=
  | ValueError (msg : string)
  | RuntimeError
  | KeyError
  | IndexError
  | UnboundLocalError
  | ZeroDivisionError
  | AttributeError
  | NetworkXError.

Inductive result (A : Type) : Type :=
  | Ok (a : A)
  | Raise (e : exn).
Arguments Ok {A} a.
Arguments Raise {A} e.

#[global] Instance result_ret : MRet result := fun _ a => Ok a.
#[global] Instance result_bind : MBind result := fun _ _ k m =>
  match m with
  | Ok a => k a
  | Raise e => Raise e
  end.

#[global] Instance result_fmap : FMap result := fun _ _ f m =>
  match m with
  | Ok a => Ok (f a)
  | Raise e => Raise e
  end.

(** [for x in l: st = body(st, x)] where the body may raise. *)
Fixpoint for_each {S X} (body : S -> X -> result S) (l : list X) (st : S)
  : result S :=
  match l with
  | [] => Ok st
  | x :: l' => st' ← body st x; for_each body l' st'
  end.

(** [[f(x) for x in l]] where [f] may raise. *)
Definition map_result {X Y} (f : X -> result Y) (l : list X) : result (list Y) :=
  for_each (fun acc x => y ← f x; Ok (acc ++ [y])) l [].

Definition of_option {A} (o : option A) (e : exn) : result A :=
  match o with
  | Some a => Ok a
  | None => Raise e
  end.

(** ** Python list operations *)

Module PyList.

Fixpoint insert_by {A} (key : A -> Z) (x : A) (l : list A) : list A :=
  match l with
  | [] => [x]
  | y :: l' => if decide (key x <= key y) then x :: y :: l'
               else y :: insert_by key x l'
  end.

(** [sorted(l, key=key)]: the sort is stable, items with equal keys keep
    their order. *)
Definition sorted_by {A} (key : A -> Z) (l : list A) : list A :=
  foldr (insert_by key) [] l.

End PyList.

(** ** Python dictionaries whose order is observed

    A [dict] as the list of its items in insertion order: assigning to a
    present key keeps its place, assigning to a new key appends. *)

Module ODict.

Fixpoint set {K V} `{EqDecision K} (k : K) (v : V) (d : list (K * V))
  : list (K * V) :=
  match d with
  | [] => [(k, v)]
  | (k', v') :: d' =>
      if decide (k' = k) then (k, v) :: d' else (k', v') :: set k v d'
  end.

Fixpoint get {K V} `{EqDecision K} (k : K) (d : list (K * V)) : option V :=
  match d with
  | [] => None
  | (k', v') :: d' => if decide (k' = k) then Some v' else get k d'
  end.

(** [d[k] = f(d[k])] for a present key; nothing happens otherwise. *)
Fixpoint alter {K V} `{EqDecision K} (f : V -> V) (k : K) (d : list (K * V))
  : list (K * V) :=
  match d with
  | [] => []
  | (k', v') :: d' =>
      if decide (k' = k) then (k', f v') :: d' else (k', v') :: alter f k d'
  end.

End ODict.

(** ** Directed graphs (the fragment of networkx the scripts use) *)

Module Graph.

(** [nx.DiGraph]: nodes in insertion order, arcs without multiplicity. *)
Record DiGraph : Type := mkDiGraph {
  vertices : list Z;
  arcs : list (Z * Z)
}.

Definition empty_graph : DiGraph := mkDiGraph [] [].

Definition add_vertex (n : Z) (l : list Z) : list Z :=
  if decide (n ∈ l) then l else l ++ [n].

(** [G.add_node(n)] *)
Definition add_node (n : Z) (g : DiGraph) : DiGraph :=
  mkDiGraph (add_vertex n (vertices g)) (arcs g).

(** [G.add_edge(u, v)]: both endpoints become nodes when they are not. *)
Definition add_edge (u v : Z) (g : DiGraph) : DiGraph :=
  mkDiGraph (add_vertex v (add_vertex u (vertices g)))
            (if decide ((u, v) ∈ arcs g) then arcs g else arcs g ++ [(u, v)]).

Definition swap (e : Z * Z) : Z * Z := (e.2, e.1).

(** [for e in es: G.add_edge(e[0], e[1])] *)
Definition add_edges (g : DiGraph) (es : list (Z * Z)) : DiGraph :=
  foldl (fun g e => add_edge e.1 e.2 g) g es.

(** [G.reverse()] *)
Definition reverse (g : DiGraph) : DiGraph :=
  mkDiGraph (vertices g) (swap <$> arcs g).

Definition successors (g : DiGraph) (n : Z) : list Z :=
  (filter (fun e => e.1 = n) (arcs g)).*2.

Definition predecessors (g : DiGraph) (n : Z) : list Z :=
  (filter (fun e => e.2 = n) (arcs g)).*1.

(** [G.out_degree(n)] and [G.in_degree(n)] *)
Definition out_degree (g : DiGraph) (n : Z) : nat := length (successors g n).
Definition in_degree (g : DiGraph) (n : Z) : nat := length (predecessors g n).

(** One breadth-first layer: the set together with every successor of
    one of its members. *)
Definition expand (g : DiGraph) (R : gset Z) : gset Z :=
  R ∪ list_to_set (filter (fun e => e.1 ∈ R) (arcs g)).*2.

Fixpoint layers (g : DiGraph) (k : nat) (s : Z) : gset Z :=
  match k with
  | O => {[ s ]}
  | S k' => expand g (layers g k' s)
  end.

(** The search discovers at most one new node per arc, so this many
    layers exhaust it. *)
Definition search_depth (g : DiGraph) : nat := S (length (arcs g)).

(** [nx.descendants(G, source)]: every node reachable from [source]
    by breadth-first search, [source] itself excluded; a source that is
    not a node of the graph is an error. *)
Definition descendants (g : DiGraph) (s : Z) : result (gset Z) :=
  if decide (s ∈ vertices g)
  then Ok (layers g (search_depth g) s ∖ {[ s ]})
  else Raise NetworkXError.

Fixpoint first_some {A B} (f : A -> option B) (l : list A) : option B :=
  match l with
  | [] => None
  | a :: l' => match f a with
               | Some b => Some b
               | None => first_some f l'
               end
  end.

(** A walk with exactly [k] arcs from [s] to [t], searched depth-first
    along [successors]. *)
Fixpoint find_walk (g : DiGraph) (k : nat) (s t : Z) : option (list Z) :=
  match k with
  | O => if decide (s = t) then Some [s] else None
  | S k' =>
      cons s <$> first_some (fun m => find_walk g k' m t) (successors g s)
  end.

(** A search for a path with the fewest arcs: the lengths in rising
    order, each length depth-first along [successors].  The scripts call
    [nx.shortest_path] of networkx, which is a parameter of the model
    (see [Chain]); this search is one function of the kind networkx
    promises, used to run the model on examples. *)
Definition search_path (g : DiGraph) (s t : Z) : option (list Z) :=
  if decide (s ∈ vertices g /\ t ∈ vertices g)
  then first_some (fun k => find_walk g k s t) (seq 0 (S (search_depth g)))
  else None.

End Graph.

(** ** Unified call graph documents

    [{nodes: {idx -> {name, package?, library?}}, edges: [[src, dst], ...]}].
    The node table is kept in document order, each key already read as
    an integer. *)

Module Unified.

Record node : Type := mkNode {
  name : string;
  package : option string;
  library : option string
}.

Record callgraph : Type := mkCallgraph {
  nodes : list (Z * node);
  edges : list (Z * Z)
}.

Definition empty_callgraph : callgraph := mkCallgraph [] [].

End Unified.

(** ** Python string operations *)

Module PyStr.

(** [c in s] for a one-character [c] *)
Fixpoint has_char (c : ascii) (s : string) : bool :=
  match s with
  | EmptyString => false
  | String a s' => if decide (a = c) then true else has_char c s'
  end.

(** [s.startswith(p)] *)
Fixpoint startswith (s p : string) : bool :=
  match p, s with
  | EmptyString, _ => true
  | String b p', String a s' => if decide (a = b) then startswith s' p' else false
  | String _ _, EmptyString => false
  end.

(** [s.endswith(p)] *)
Fixpoint endswith (s p : string) : bool :=
  if decide (s = p) then true
  else match s with
       | EmptyString => false
       | String _ s' => endswith s' p
       end.

(** [p in s] for strings *)
Fixpoint contains (s p : string) : bool :=
  if startswith s p then true
  else match s with
       | EmptyString => false
       | String _ s' => contains s' p
       end.

(** [s.replace(a, b)] for one-character [a] and [b] *)
Fixpoint replace (a b : ascii) (s : string) : string :=
  match s with
  | EmptyString => EmptyString
  | String c s' => String (if decide (c = a) then b else c) (replace a b s')
  end.

(** [s.lstrip(c)] for a one-character [c] *)
Fixpoint lstrip (c : ascii) (s : string) : string :=
  match s with
  | EmptyString => EmptyString
  | String a s' => if decide (a = c) then lstrip c s' else s
  end.

(** [s.rstrip(c)] for a one-character [c] *)
Fixpoint rstrip (c : ascii) (s : string) : string :=
  match s with
  | EmptyString => EmptyString
  | String a s' =>
      match rstrip c s' with
      | EmptyString => if decide (a = c) then EmptyString else String a EmptyString
      | r => String a r
      end
  end.

(** [s.removesuffix(p)] *)
Fixpoint removesuffix (s p : string) : string :=
  if decide (s = p) then EmptyString
  else match s with
       | EmptyString => EmptyString
       | String a s' => if endswith s' p then String a (removesuffix s' p) else s
       end.

(** [s.split(c)] for a one-character [c] *)
Fixpoint split (c : ascii) (s : string) : list string :=
  match s with
  | EmptyString => [EmptyString]
  | String a s' =>
      if decide (a = c) then EmptyString :: split c s'
      else match split c s' with
           | [] => [String a EmptyString]
           | h :: t => String a h :: t
           end
  end.

(** [s.split("//")] *)
Fixpoint split_dslash (s : string) : list string :=
  match s with
  | EmptyString => [EmptyString]
  | String a s' =>
      match s' with
      | String b s'' =>
          if decide (a = "/"%char /\ b = "/"%char)
          then EmptyString :: split_dslash s''
          else match split_dslash s' with
               | [] => [String a EmptyString]
               | h :: t => String a h :: t
               end
      | EmptyString => [String a EmptyString]
      end
  end.

(** [sep.join(l)] *)
Fixpoint join (sep : string) (l : list string) : string :=
  match l with
  | [] => EmptyString
  | [x] => x
  | x :: l' => x +:+ sep +:+ join sep l'
  end.

End PyStr.

(** ** Reachability detector (scripts/reach_sane.py) *)

Module Reach.
Import Unified.

(** The fields of [ReachabilityDetector] the computation reads or
    writes ([fasten] and [output] only steer logging and the final
    write). *)
Record detector : Type := mkDetector {
  d_package : string;
  pypi : bool;
  unified_cg_path : string;
  callgraph : Unified.callgraph;
  graph : Graph.DiGraph;
  entrypoints : gset Z;
  reachable_idxs : gset Z;
  final_callgraph : Unified.callgraph;
  n2idx : gmap string Z;
  idx2n : gmap Z string;
  n2pkg : gmap string string
}.

(** The files on disk: path to parsed document. *)
Definition files : Type := gmap string Unified.callgraph.

(** [ReachabilityDetector.__init__] *)
Definition init (package path : string) (fs : files) : result detector :=
  '(is_pypi, package') ←
     (if PyStr.has_char ":" package then Ok (true, package)
      else if PyStr.has_char "/" package then Ok (false, package +:+ ":1")
      else Raise (ValueError ("Unrecognized package naming format: " +:+ package)));
  if decide (is_Some (fs !! path))
  then Ok (mkDetector package' is_pypi path Unified.empty_callgraph Graph.empty_graph ∅ ∅
             Unified.empty_callgraph ∅ ∅ ∅)
  else Raise (ValueError ("No file exists at " +:+ path +:+ ". Aborting...")).

(** [load_callgraph] *)
Definition load_callgraph (fs : files) (d : detector) : result detector :=
  cg ← of_option (fs !! unified_cg_path d) KeyError;
  Ok (mkDetector (d_package d) (pypi d) (unified_cg_path d) cg (graph d)
        (entrypoints d) (reachable_idxs d) (final_callgraph d)
        (n2idx d) (idx2n d) (n2pkg d)).

(** The maps and the graph that the first loop of [create_graph]
    builds. *)
Record tables : Type := mkTables {
  t_graph : Graph.DiGraph;
  t_n2idx : gmap string Z;
  t_idx2n : gmap Z string;
  t_n2pkg : gmap string string
}.

Definition create_graph_node (t : tables) (entry : Z * node) : result tables :=
  let '(idx, v) := entry in
  n2pkg' ←
    match library v with
    | None =>
        match package v with
        | None => Raise RuntimeError
        | Some pkg => Ok (<[name v := pkg]> (t_n2pkg t))
        end
    | Some _ => Ok (t_n2pkg t)
    end;
  Ok (mkTables (Graph.add_node idx (t_graph t))
               (<[name v := idx]> (t_n2idx t))
               (<[idx := name v]> (t_idx2n t))
               n2pkg').

(** [create_graph] *)
Definition create_graph (d : detector) : result detector :=
  t ← for_each create_graph_node (nodes (callgraph d))
        (mkTables Graph.empty_graph (n2idx d) (idx2n d) (n2pkg d));
  let g := Graph.add_edges (t_graph t) (edges (callgraph d)) in
  Ok (mkDetector (d_package d) (pypi d) (unified_cg_path d) (callgraph d) g
        (entrypoints d) (reachable_idxs d) (final_callgraph d)
        (t_n2idx t) (t_idx2n t) (t_n2pkg t)).

(** [find_entrypoints] *)
Definition find_entrypoints (d : detector) : result detector :=
  eps ← for_each
        (fun (acc : gset Z) (np : string * string) =>
           if decide (np.2 = d_package d)
           then idx ← of_option (n2idx d !! np.1) KeyError; Ok ({[ idx ]} ∪ acc)
           else Ok acc)
        (map_to_list (n2pkg d)) ∅;
  Ok (mkDetector (d_package d) (pypi d) (unified_cg_path d) (callgraph d)
        (graph d) eps (reachable_idxs d) (final_callgraph d)
        (n2idx d) (idx2n d) (n2pkg d)).

(** [calculate_reachable] *)
Definition calculate_reachable (d : detector) : result detector :=
  r ← for_each
        (fun (acc : gset Z) (idx : Z) =>
           idxs ← Graph.descendants (graph d) idx;
           Ok (acc ∪ idxs ∪ {[ idx ]}))
        (elements (entrypoints d)) (reachable_idxs d);
  Ok (mkDetector (d_package d) (pypi d) (unified_cg_path d) (callgraph d)
        (graph d) (entrypoints d) r (final_callgraph d)
        (n2idx d) (idx2n d) (n2pkg d)).

(** [generate_final_callgraph]; the warning about an edge that leaves
    the reachable set is only logged. *)
Definition generate_final_callgraph (d : detector) : detector :=
  let R := reachable_idxs d in
  let fc := final_callgraph d in
  let ns := nodes fc ++ filter (fun iv => iv.1 ∈ R) (nodes (callgraph d)) in
  let es := edges fc ++
            filter (fun e => e.1 ∈ R /\ e.2 ∈ R) (edges (callgraph d)) in
  mkDetector (d_package d) (pypi d) (unified_cg_path d) (callgraph d)
    (graph d) (entrypoints d) R (mkCallgraph ns es)
    (n2idx d) (idx2n d) (n2pkg d).

(** [reach], up to the write of [final_callgraph] *)
Definition reach (fs : files) (d : detector) : result detector :=
  d ← load_callgraph fs d;
  d ← create_graph d;
  d ← find_entrypoints d;
  d ← calculate_reachable d;
  Ok (generate_final_callgraph d).

(** [main]: construct the detector and run it. *)
Definition run (package path : string) (fs : files) : result detector :=
  d ← init package path fs; reach fs d.

End Reach.

(** ** Call-chain and centrality calculator (scripts/call_chain.py) *)

Module Chain.
Import Unified.

(** The fields of [ChainCalculator]; [None] is Python's [None].  The
    quotient [centrality] is kept as an exact fraction where Python
    rounds it to a float. *)
Record calculator : Type := mkCalculator {
  symbol : string;
  reached_cg_path : string;
  symbol_idx : option Z;
  callgraph : Unified.callgraph;
  graph : option Graph.DiGraph;
  n2idx : gmap string Z;
  idx2n : gmap Z string;
  n2pkg : gmap string string;
  call_chains : option (list (list Z));
  num_leaves : nat;
  centrality : Q;
  named_chains : list (list string)
}.

Definition files : Type := gmap string Unified.callgraph.

(** [ChainCalculator.__init__] *)
Definition init (path sym : string) (fs : files) : result calculator :=
  if decide (is_Some (fs !! path))
  then Ok (mkCalculator sym path None Unified.empty_callgraph None ∅ ∅ ∅
             None 0 0%Q [])
  else Raise (ValueError ("No file exists at " +:+ path +:+ ". Aborting...")).

(** [load_callgraph] *)
Definition load_callgraph (fs : files) (c : calculator) : result calculator :=
  cg ← of_option (fs !! reached_cg_path c) KeyError;
  Ok (mkCalculator (symbol c) (reached_cg_path c) (symbol_idx c) cg (graph c)
        (n2idx c) (idx2n c) (n2pkg c) (call_chains c) (num_leaves c)
        (centrality c) (named_chains c)).

(** What the node loop of [create_graph] updates. *)
Record tables : Type := mkTables {
  t_graph : Graph.DiGraph;
  t_symbol_idx : option Z;
  t_n2idx : gmap string Z;
  t_idx2n : gmap Z string;
  t_n2pkg : gmap string string
}.

Definition create_graph_node (sym : string) (t : tables) (entry : Z * node)
  : tables :=
  let '(idx, v) := entry in
  let n2pkg' :=
    match library v with
    | None =>
        let pkg := match package v with
                   | None => "foo"
                   | Some pkg => pkg
                   end in
        <[name v := pkg]> (t_n2pkg t)
    | Some _ => t_n2pkg t
    end in
  mkTables (Graph.add_node idx (t_graph t))
           (if decide (name v = sym) then Some idx else t_symbol_idx t)
           (<[name v := idx]> (t_n2idx t))
           (<[idx := name v]> (t_idx2n t))
           n2pkg'.

(** [create_graph]: the second component is the returned status, -1 when
    the symbol names no node and 0 otherwise. *)
Definition create_graph (c : calculator) : calculator * Z :=
  let t := foldl (create_graph_node (symbol c))
             (mkTables Graph.empty_graph (symbol_idx c) (n2idx c) (idx2n c)
                (n2pkg c))
             (nodes (callgraph c)) in
  match t_symbol_idx t with
  | None =>
      (mkCalculator (symbol c) (reached_cg_path c) None (callgraph c) (graph c)
         (t_n2idx t) (t_idx2n t) (t_n2pkg t) (call_chains c) (num_leaves c)
         (centrality c) (named_chains c), -1)
  | Some sidx =>
      let g := Graph.add_edges (t_graph t) (edges (callgraph c)) in
      (mkCalculator (symbol c) (reached_cg_path c) (Some sidx) (callgraph c)
         (Some g) (t_n2idx t) (t_idx2n t) (t_n2pkg t) (call_chains c)
         (num_leaves c) (centrality c) (named_chains c), 0)
  end.

Section paths.

(** [nx.shortest_path(G, source, target)] of networkx on an unweighted
    graph; [None] stands for its exceptions [NodeNotFound] and
    [NetworkXNoPath].  Which of several shortest paths it returns is
    decided by the traversal inside networkx, so the function is a
    parameter of the model; the properties assume of it what networkx
    documents, see [shortest_path_contract]. *)
Variable shortest_path : Graph.DiGraph -> Z -> Z -> option (list Z).

(** The body of the loop of [find_callchains] over the nodes of the
    reversed graph: the state is [(paths, num_leaves)]. *)
Definition visit_leaf (G : Graph.DiGraph) (sidx : option Z)
    (st : list (list Z) * nat) (node : Z) : list (list Z) * nat :=
  let '(paths, leaves) := st in
  if decide (Graph.out_degree G node = 0%nat)
  then
    match sidx ≫= (fun s => shortest_path G s node) with
    | Some sps => (paths ++ [sps], S leaves)
    | None => (paths, S leaves)
    end
  else (paths, leaves).

(** [find_callchains] *)
Definition find_callchains (c : calculator) : result calculator :=
  g ← of_option (graph c) AttributeError;
  let G := Graph.reverse g in
  let '(paths, leaves) :=
    foldl (visit_leaf G (symbol_idx c)) ([], 0%nat) (Graph.vertices G) in
  let rpaths := reverse <$> paths in
  if decide (leaves = 0%nat) then Raise ZeroDivisionError
  else
    Ok (mkCalculator (symbol c) (reached_cg_path c) (symbol_idx c)
          (callgraph c) (graph c) (n2idx c) (idx2n c) (n2pkg c)
          (Some rpaths) leaves
          (Z.of_nat (length rpaths) # Pos.of_nat leaves)
          (named_chains c)).

(** [[self.idx2n[i] for i in c]] *)
Definition name_chain (i2n : gmap Z string) (chain : list Z)
  : result (list string) :=
  map_result (fun i => of_option (i2n !! i) KeyError) chain.

(** [process], up to logging and the write of the chains; the first
    component is the returned list. *)
Definition process (fs : files) (c : calculator)
  : result (list (list string) * calculator) :=
  c ← load_callgraph fs c;
  let '(c, ret) := create_graph c in
  if decide (ret < 0) then Ok ([], c)
  else
    c ← find_callchains c;
    chains ← of_option (call_chains c) AttributeError;
    named ← map_result (name_chain (idx2n c)) chains;
    let sorted := PyList.sorted_by (fun ch => Z.of_nat (length ch)) named in
    Ok (sorted,
        mkCalculator (symbol c) (reached_cg_path c) (symbol_idx c)
          (callgraph c) (graph c) (n2idx c) (idx2n c) (n2pkg c)
          (call_chains c) (num_leaves c) (centrality c) sorted).

(** [find_call_chains(reached_cg_path, symbol)] of the RQ3 scripts: the
    chains and the centrality of one query. *)
Definition find_call_chains (path sym : string) (fs : files)
  : result (list (list string) * Q) :=
  c ← init path sym fs;
  '(chains, c) ← process fs c;
  Ok (chains, centrality c).

End paths.

End Chain.

(** ** Native library merger (scripts/unify_cg_all_binary.py) *)

(** The stitched graph of the interpreted side, as the stitcher writes
    it: [{nodes: {idx -> {URI, metadata: {package, bridges}}}, edges}]. *)
Module Stitched.

Record bridge : Type := mkBridge {
  b_symbol : string;
  b_library : string
}.

#[global] Instance bridge_eq_dec : EqDecision bridge.
Proof. solve_decision. Defined.

Record node : Type := mkNode {
  URI : string;
  package : string;
  bridges : option (list bridge)
}.

Record callgraph : Type := mkCallgraph {
  nodes : list (Z * node);
  edges : list (Z * Z)
}.

End Stitched.

(** A native call graph document:
    [{library, nodes: {idx -> {name}}, edges: [[src, dst], ...]}]. *)
Module Native.

Record callgraph : Type := mkCallgraph {
  library : string;
  nodes : list (Z * string);
  edges : list (Z * Z)
}.

End Native.

Module Unify.

(** The fields of [Unifier] that [unify] works on.  The outer level of
    [egress_per_name_per_lib] is only looked up; the inner dictionaries
    are sorted, so their order is kept. *)
Record unifier : Type := mkUnifier {
  next_index : Z;
  final_nodes : list (Z * Unified.node);
  final_edges : list (Z * Z);
  n2idx : gmap string Z;
  idx2n : gmap Z string;
  egress_per_name_per_lib : gmap string (list (string * Z))
}.

Definition init : unifier := mkUnifier 0 [] [] ∅ ∅ ∅.

(** [self.egress_per_name_per_lib[name]] on the [defaultdict] *)
Definition egress_of (u : unifier) (name : string) : list (string * Z) :=
  default [] (egress_per_name_per_lib u !! name).

(** [self.egress_per_name_per_lib[name][lib] = c] *)
Definition set_egress (name lib : string) (c : Z) (u : unifier) : unifier :=
  mkUnifier (next_index u) (final_nodes u) (final_edges u) (n2idx u) (idx2n u)
    (<[name := ODict.set lib c (egress_of u name)]> (egress_per_name_per_lib u)).

(** [new_idx = self.get_and_bump_idx()] followed by the four
    assignments that register [node] under [new_idx] and [name]. *)
Definition with_node (name : string) (node : Unified.node) (u : unifier)
  : unifier :=
  mkUnifier (next_index u + 1)
    (ODict.set (next_index u) node (final_nodes u))
    (final_edges u)
    (<[name := next_index u]> (n2idx u))
    (<[next_index u := name]> (idx2n u))
    (egress_per_name_per_lib u).

(** [self.final_edges.append(e)] *)
Definition with_edge (e : Z * Z) (u : unifier) : unifier :=
  mkUnifier (next_index u) (final_nodes u) (final_edges u ++ [e]) (n2idx u)
    (idx2n u) (egress_per_name_per_lib u).

(** The node loop of [load_socgs] for one document; the state carries
    the [old2new] map of the document. *)
Definition load_socg_node (library : string) (st : unifier * gmap Z Z)
    (entry : Z * string) : unifier * gmap Z Z :=
  let '(u, old2new) := st in
  let '(k, name) := entry in
  let '(u, old2new) :=
    match n2idx u !! name with
    | None =>
        let new_node := Unified.mkNode name None (Some library) in
        let new_idx := next_index u in
        (with_node name new_node u, <[k := new_idx]> old2new)
    | Some idx => (u, <[k := idx]> old2new)
    end in
  (set_egress name library 0 u, old2new).

(** The edge loop of [load_socgs] for one document. *)
Definition load_socg_edge (library : string) (old2new : gmap Z Z)
    (u : unifier) (e : Z * Z) : result unifier :=
  newsrc ← of_option (old2new !! e.1) KeyError;
  newdst ← of_option (old2new !! e.2) KeyError;
  srcname ← of_option (idx2n u !! newsrc) KeyError;
  let u := with_edge (newsrc, newdst) u in
  match ODict.get library (egress_of u srcname) with
  | Some c => Ok (set_egress srcname library (c + 1) u)
  | None => Ok (set_egress srcname library 1 u)
  end.

Definition load_socg (u : unifier) (doc : Native.callgraph) : result unifier :=
  let '(u, old2new) :=
    foldl (load_socg_node (Native.library doc)) (u, ∅) (Native.nodes doc) in
  for_each (load_socg_edge (Native.library doc) old2new) (Native.edges doc) u.

(** [load_socgs] *)
Definition load_socgs (socgs : list Native.callgraph) (u : unifier)
  : result unifier :=
  for_each load_socg socgs u.

(** One bridge of a node of the interpreted side. *)
Definition process_bridge (new_idx : Z) (u : unifier) (b : Stitched.bridge)
  : unifier :=
  match n2idx u !! Stitched.b_symbol b with
  | Some hop_idx =>
      set_egress (Stitched.b_symbol b) (Stitched.b_library b) (-1)
        (with_edge (new_idx, hop_idx) u)
  | None => u
  end.

(** The node loop of [process_pycg]. *)
Definition process_pycg_node (st : unifier * gmap Z Z)
    (entry : Z * Stitched.node) : unifier * gmap Z Z :=
  let '(u, old2new) := st in
  let '(old_idx, node) := entry in
  let name := Stitched.URI node in
  let new_node := Unified.mkNode name (Some (Stitched.package node)) None in
  let new_idx := next_index u in
  let u := with_node name new_node u in
  let u := match Stitched.bridges node with
           | Some bs => foldl (process_bridge new_idx) u bs
           | None => u
           end in
  (u, <[old_idx := new_idx]> old2new).

Definition process_pycg_edge (old2new : gmap Z Z) (u : unifier) (e : Z * Z)
  : result unifier :=
  newsrc ← of_option (old2new !! e.1) KeyError;
  newdst ← of_option (old2new !! e.2) KeyError;
  Ok (with_edge (newsrc, newdst) u).

(** [process_pycg] *)
Definition process_pycg (pycg : Stitched.callgraph) (u : unifier)
  : result unifier :=
  let '(u, old2new) := foldl process_pycg_node (u, ∅) (Stitched.nodes pycg) in
  for_each (process_pycg_edge old2new) (Stitched.edges pycg) u.

(** The library [decide_final_libs] settles on for one tally.  The value
    of the [if] is computed and then overwritten, as in the script. *)
Definition final_library_of (tally : list (string * Z)) : result string :=
  let sorted_epln := PyList.sorted_by snd tally in
  first ← of_option (head sorted_epln) IndexError;
  final_library ←
    (if decide (first.2 = -1) then Ok first.1
     else fst <$> of_option (last sorted_epln) IndexError);
  let final_library := first.1 in
  Ok final_library.

Definition decide_final_lib (u : unifier) (entry : Z * Unified.node)
  : result (Z * Unified.node) :=
  let '(idx, node) := entry in
  match Unified.library node with
  | Some lib =>
      final_library ← final_library_of (egress_of u (Unified.name node));
      Ok (idx, Unified.mkNode (Unified.name node) (Unified.package node)
                 (Some final_library))
  | None => Ok (idx, node)
  end.

(** [decide_final_libs] *)
Definition decide_final_libs (u : unifier) : result unifier :=
  ns ← map_result (decide_final_lib u) (final_nodes u);
  Ok (mkUnifier (next_index u) ns (final_edges u) (n2idx u) (idx2n u)
        (egress_per_name_per_lib u)).

(** [unify], from the loaded documents to the final state *)
Definition unify_state (pycg : Stitched.callgraph)
    (socgs : list Native.callgraph) : result unifier :=
  u ← load_socgs socgs init;
  u ← process_pycg pycg u;
  decide_final_libs u.

(** [unify] *)
Definition unify (pycg : Stitched.callgraph) (socgs : list Native.callgraph)
  : result Unified.callgraph :=
  u ← unify_state pycg socgs;
  Ok (Unified.mkCallgraph (final_nodes u) (final_edges u)).

End Unify.

(** ** Partial call graph documents

    [{product, version, nodes, modules: {internal: {file -> {sourceFile,
    namespaces: {idx -> {namespace, metadata}}}}, external: {...}},
    graph: {internalCalls, externalCalls}}].  Dictionaries are kept in
    document order; the keys of [namespaces] are read as integers.  An
    endpoint of an external call that [int] cannot convert is [None]. *)

Module Partial.

Record metadata : Type := mkMetadata {
  bridges : option (list Stitched.bridge);
  others : list (string * string)
}.

Record namespace : Type := mkNamespace {
  ns_name : string;
  ns_metadata : metadata
}.

Record module : Type := mkModule {
  sourceFile : string;
  namespaces : list (Z * namespace)
}.

Record callgraph : Type := mkCallgraph {
  product : string;
  version : string;
  nodes : Z;
  internal : list (string * module);
  external : list (string * module);
  internalCalls : list (Z * Z);
  externalCalls : list (option Z * option Z)
}.

(** The namespaces of all modules, in the order of the nested loops
    [for km, vm in modules.items(): for kn, vn in vm['namespaces'].items()]. *)
Definition all_namespaces (ms : list (string * module)) : list (Z * namespace) :=
  flat_map (fun m => namespaces m.2) ms.

End Partial.

(** ** Multi-package stitcher (scripts/stitch.py) *)

Module Stitch.

(** [external_stats[package]] *)
Record stats : Type := mkStats {
  total : nat;
  found : Z;
  missed : Z;
  which_missed : gset string
}.

(** The fields of [MyStitcher] that [add_internal] and
    [resolve_externals] work on. *)
Record stitcher : Type := mkStitcher {
  final_nodes : list (Z * Stitched.node);
  final_edges : list (Z * Z);
  next_index : Z;
  n2idx : gmap string Z;
  idx2n : gmap Z string;
  n2fqn : gmap string string;
  old2new : gmap string (gmap Z Z);
  num_externals_found : Z;
  num_externals_missed : Z;
  num_externals_ignored : Z;
  num_None_dst : Z;
  pynames_not_found : gset string;
  external_stats : gmap string stats
}.

Definition init : stitcher := mkStitcher [] [] 0 ∅ ∅ ∅ ∅ 0 0 0 0 ∅ ∅.

(** [ns.replace('/', '.').lstrip('.').rstrip('.').removesuffix('()')] *)
Definition newname_of (ns : string) : string :=
  PyStr.removesuffix
    (PyStr.rstrip "." (PyStr.lstrip "." (PyStr.replace "/" "." ns))) "()".

(** [name + ':' + version] *)
Definition package_of (cg : Partial.callgraph) : string :=
  Partial.product cg +:+ ":" +:+ Partial.version cg.

(** [self.final_edges.append(e)] *)
Definition with_edge (e : Z * Z) (st : stitcher) : stitcher :=
  mkStitcher (final_nodes st) (final_edges st ++ [e]) (next_index st)
    (n2idx st) (idx2n st) (n2fqn st) (old2new st) (num_externals_found st)
    (num_externals_missed st) (num_externals_ignored st) (num_None_dst st)
    (pynames_not_found st) (external_stats st).

(** The body of the namespace loops of [add_internal]; the state
    carries [oldidx2newidx]. *)
Definition add_internal_ns (package : string) (acc : stitcher * gmap Z Z)
    (entry : Z * Partial.namespace) : stitcher * gmap Z Z :=
  let '(st, oldidx2newidx) := acc in
  let '(oldidx, vn) := entry in
  let newname := newname_of (Partial.ns_name vn) in
  let newnode :=
    Stitched.mkNode newname package
      (Partial.bridges (Partial.ns_metadata vn)) in
  let newidx := next_index st in
  (mkStitcher (ODict.set newidx newnode (final_nodes st)) (final_edges st)
     (next_index st + 1) (<[newname := newidx]> (n2idx st))
     (<[newidx := newname]> (idx2n st)) (n2fqn st) (old2new st)
     (num_externals_found st) (num_externals_missed st)
     (num_externals_ignored st) (num_None_dst st) (pynames_not_found st)
     (external_stats st),
   <[oldidx := newidx]> oldidx2newidx).

(** The body of the loop of [add_internal] over [internalCalls]. *)
Definition add_internal_call (oldidx2newidx : gmap Z Z) (st : stitcher)
    (call : Z * Z) : result stitcher :=
  newsrc ← of_option (oldidx2newidx !! call.1) KeyError;
  newdst ← of_option (oldidx2newidx !! call.2) KeyError;
  let st := with_edge (newsrc, newdst) st in
  dstname ← of_option (idx2n st !! newdst) KeyError;
  let dst_name_init := dstname +:+ ".__init__" in
  match n2idx st !! dst_name_init with
  | Some dst_init => Ok (with_edge (newsrc, dst_init) st)
  | None => Ok st
  end.

(** One turn of the outer loop of [add_internal]. *)
Definition add_internal_cg (st : stitcher) (cg : Partial.callgraph)
  : result stitcher :=
  let package := package_of cg in
  let '(st, oldidx2newidx) :=
    foldl (add_internal_ns package) (st, ∅)
          (Partial.all_namespaces (Partial.internal cg)) in
  st ← for_each (add_internal_call oldidx2newidx) (Partial.internalCalls cg) st;
  Ok (mkStitcher (final_nodes st) (final_edges st) (next_index st) (n2idx st)
        (idx2n st) (n2fqn st) (<[package := oldidx2newidx]> (old2new st))
        (num_externals_found st) (num_externals_missed st)
        (num_externals_ignored st) (num_None_dst st) (pynames_not_found st)
        (external_stats st)).

(** [add_internal] *)
Definition add_internal (cgs : list Partial.callgraph) (st : stitcher)
  : result stitcher :=
  for_each add_internal_cg cgs st.

(** [self.final_cg], the document that [stitch] writes *)
Definition final_cg (st : stitcher) : Stitched.callgraph :=
  Stitched.mkCallgraph (final_nodes st) (final_edges st).

(** *** External calls *)

(** [get_import_name_pairs]: the ways to cut a dotted name into a module
    part and an attribute part, shortest module part first. *)
Definition get_import_name_pairs (import_name : string) : list (string * string) :=
  let parts := PyStr.split "." import_name in
  (fun i => (PyStr.join "." (take i parts), PyStr.join "." (drop i parts)))
    <$> seq 1 (length parts - 1).

(** [BUGGY_PREFIXES] *)
Definition BUGGY_PREFIXES : list string := ["numpy.distutils"].

Section resolve.

(** [STD_MODULE_PREFIXES] (from [stdlib_list]) and [STR_METHOD_SUFFIXES]
    (from [dir(str)]) depend on the interpreter that runs the script;
    [pyname_to_fqn] imports the name in that interpreter. *)
Variable STD_MODULE_PREFIXES : list string.
Variable STR_METHOD_SUFFIXES : list string.
Variable pyname_to_fqn : string -> option string.

(** [ns.split("//")[-1]] *)
Definition extname_of (ns : string) : string :=
  default EmptyString (last (PyStr.split_dslash ns)).

(** The condition under which [resolve_externals] puts a namespace on
    its blacklist. *)
Definition denylisted (ns : string) : bool :=
  let extname := extname_of ns in
  PyStr.startswith ns "//.builtin"
  || existsb (fun m => PyStr.startswith extname m) STD_MODULE_PREFIXES
  || existsb (fun pref => PyStr.contains extname pref) BUGGY_PREFIXES.

(** [possible_names]: the comprehension is evaluated while the list
    holds [extname] only. *)
Definition possible_names_of (extname : string) : list string :=
  extname ::
  filter (fun n => n <> extname)
         ((fun suf => PyStr.removesuffix extname suf) <$> STR_METHOD_SUFFIXES).

(** [blacklist] and [oldidx2extname] of one document *)
Record ext_tables : Type := mkExtTables {
  blacklist : gset Z;
  oldidx2extname : gmap Z (list string)
}.

Definition scan_external (t : ext_tables) (entry : Z * Partial.namespace)
  : ext_tables :=
  let '(oldidx, vn) := entry in
  let ns := Partial.ns_name vn in
  mkExtTables
    (if denylisted ns then {[ oldidx ]} ∪ blacklist t else blacklist t)
    (<[oldidx := possible_names_of (extname_of ns)]> (oldidx2extname t)).

Definition scan_externals (cg : Partial.callgraph) : ext_tables :=
  foldl scan_external (mkExtTables ∅ ∅)
        (Partial.all_namespaces (Partial.external cg)).

(** What the loops over [dstnames] and [options] read and write. *)
Record scan : Type := mkScan {
  s_n2fqn : gmap string string;
  s_edges : list (Z * Z);
  s_found : bool;
  s_found_externals : Z;
  s_num_found : Z
}.

(** [for name in options: if name in self.n2idx.keys(): ...] *)
Definition try_option (n2i : gmap string Z) (newsrc : Z) (sc : scan)
    (name : string) : scan :=
  match n2i !! name with
  | Some newdst =>
      mkScan (s_n2fqn sc) (s_edges sc ++ [(newsrc, newdst)]) true
        (if s_found sc then s_found_externals sc else s_found_externals sc + 1)
        (if s_found sc then s_num_found sc else s_num_found sc + 1)
  | None => sc
  end.

(** [for dname in dstnames: ...] *)
Definition try_dname (n2i : gmap string Z) (newsrc : Z) (sc : scan)
    (dname : string) : scan :=
  let options := [dname; dname +:+ ".__init__"] in
  let '(fqn, n2fqn') :=
    match s_n2fqn sc !! dname with
    | Some fqn => (fqn, s_n2fqn sc)
    | None =>
        let fqn := default "NONE" (pyname_to_fqn dname) in
        (fqn, <[dname := fqn]> (s_n2fqn sc))
    end in
  let options :=
    if decide (fqn <> "NONE")
    then foldl (fun opts f => if decide (f ∈ opts) then opts else opts ++ [f])
               options [fqn; fqn +:+ ".__init__"]
    else options in
  foldl (try_option n2i newsrc)
        (mkScan n2fqn' (s_edges sc) (s_found sc) (s_found_externals sc)
           (s_num_found sc))
        options.

(** The variables of the loop over [externalCalls] next to the
    stitcher; [src] and [dst] are [None] while unbound. *)
Record call_state : Type := mkCallState {
  cs_st : stitcher;
  cs_src : option Z;
  cs_dst : option Z;
  found_externals : Z;
  missed_externals : Z;
  unresolved : gset string
}.

(** [self.num_externals_ignored += k] *)
Definition add_ignored (k : Z) (st : stitcher) : stitcher :=
  mkStitcher (final_nodes st) (final_edges st) (next_index st) (n2idx st)
    (idx2n st) (n2fqn st) (old2new st) (num_externals_found st)
    (num_externals_missed st) (num_externals_ignored st + k) (num_None_dst st)
    (pynames_not_found st) (external_stats st).

(** [self.num_None_dst += 1] *)
Definition bump_None_dst (st : stitcher) : stitcher :=
  mkStitcher (final_nodes st) (final_edges st) (next_index st) (n2idx st)
    (idx2n st) (n2fqn st) (old2new st) (num_externals_found st)
    (num_externals_missed st) (num_externals_ignored st) (num_None_dst st + 1)
    (pynames_not_found st) (external_stats st).

(** The [try] block: [src = int(call[0]); dst = int(call[1])], with the
    variables left as they were from the point where [int] raises. *)
Definition parse_call (cs : call_state) (call : option Z * option Z)
  : stitcher * option Z * option Z :=
  match call with
  | (Some a, Some b) => (cs_st cs, Some a, Some b)
  | (Some a, None) => (bump_None_dst (cs_st cs), Some a, cs_dst cs)
  | (None, _) => (bump_None_dst (cs_st cs), cs_src cs, cs_dst cs)
  end.

(** The body of the loop once the call is known not to be blacklisted. *)
Definition resolve_call_live (package : string) (count_externals : nat)
    (t : ext_tables) (st : stitcher) (fe me : Z) (un : gset string)
    (src dst : Z) : result (stitcher * Z * Z * gset string) :=
  o2n ← of_option (old2new st !! package) KeyError;
  newsrc ← of_option (o2n !! src) KeyError;
  match oldidx2extname t !! dst with
  | None => Ok (st, fe, me, un)
  | Some dstnames =>
      let sc := foldl (try_dname (n2idx st) newsrc)
                  (mkScan (n2fqn st) (final_edges st) false fe
                     (num_externals_found st))
                  dstnames in
      if s_found sc then
        Ok (mkStitcher (final_nodes st) (s_edges sc) (next_index st) (n2idx st)
              (idx2n st) (s_n2fqn sc) (old2new st) (s_num_found sc)
              (num_externals_missed st) (num_externals_ignored st)
              (num_None_dst st) (pynames_not_found st) (external_stats st),
            s_found_externals sc, me, un)
      else
        first ← of_option (head dstnames) IndexError;
        let me := me + 1 in
        let un := {[ first ]} ∪ un in
        Ok (mkStitcher (final_nodes st) (s_edges sc) (next_index st) (n2idx st)
              (idx2n st) (s_n2fqn sc) (old2new st) (s_num_found sc)
              (num_externals_missed st + 1) (num_externals_ignored st)
              (num_None_dst st) ({[ first ]} ∪ pynames_not_found st)
              (<[package := mkStats count_externals (s_found_externals sc) me un]>
                 (external_stats st)),
            s_found_externals sc, me, un)
  end.

(** The body of the loop over [externalCalls]. *)
Definition resolve_call (package : string) (count_externals : nat)
    (t : ext_tables) (cs : call_state) (call : option Z * option Z)
  : result call_state :=
  let '(st, src, dst) := parse_call cs call in
  d ← of_option dst UnboundLocalError;
  if decide (d ∈ blacklist t)
  then Ok (mkCallState (add_ignored 1 st) src dst (found_externals cs)
             (missed_externals cs) (unresolved cs))
  else
    s ← of_option src UnboundLocalError;
    '(st, fe, me, un) ←
      resolve_call_live package count_externals t st (found_externals cs)
        (missed_externals cs) (unresolved cs) s d;
    Ok (mkCallState st src dst fe me un).

(** One turn of the outer loop of [resolve_externals].  The variables
    [src] and [dst] are locals of the method, not of the turn: they come
    in with the values the document before left in them and go out with
    the values of the last call of this one. *)
Definition resolve_externals_cg (acc : stitcher * (option Z * option Z))
    (cg : Partial.callgraph) : result (stitcher * (option Z * option Z)) :=
  let '(st, (src, dst)) := acc in
  let t := scan_externals cg in
  cs ← for_each
         (resolve_call (package_of cg) (length (Partial.externalCalls cg)) t)
         (Partial.externalCalls cg)
         (mkCallState st src dst 0 0 ∅);
  Ok (cs_st cs, (cs_src cs, cs_dst cs)).

(** [resolve_externals]: [src] and [dst] are unbound when the method
    starts. *)
Definition resolve_externals (cgs : list Partial.callgraph) (st : stitcher)
  : result stitcher :=
  fst <$> for_each resolve_externals_cg cgs (st, (None, None)).

(** [stitch], from the loaded documents to the final state *)
Definition stitch (cgs : list Partial.callgraph) : result stitcher :=
  st ← add_internal cgs init;
  resolve_externals cgs st.

End resolve.

End Stitch.

(** ** Bridge augmenter (scripts/augment_partial_cg.py) *)

Module Augment.

(** An entry of the bridge document: [{pyname, cfunc, library}]. *)
Record bridge_record : Type := mkBridgeRecord {
  pyname : string;
  cfunc : string;
  library : string
}.

(** [simple_bridge = {'symbol': bridge['cfunc'], 'library': bridge['library']}] *)
Definition simple_bridge (b : bridge_record) : Stitched.bridge :=
  Stitched.mkBridge (cfunc b) (library b).

(** The update of [metadata['bridges']] shared by both kinds of bridge:
    the bridge is appended unless the list holds it already. *)
Definition attach (sb : Stitched.bridge) (n : Partial.namespace)
  : Partial.namespace :=
  let meta := Partial.ns_metadata n in
  Partial.mkNamespace (Partial.ns_name n)
    (Partial.mkMetadata
       (match Partial.bridges meta with
        | Some old_bridges =>
            if decide (sb ∈ old_bridges) then Some old_bridges
            else Some (old_bridges ++ [sb])
        | None => Some [sb]
        end)
       (Partial.others meta)).

(** *** Internal bridges *)

(** [(ns == pyname) or (ns == pyname + '()')] *)
Definition matches_internal (pyname : string) (n : Partial.namespace) : bool :=
  bool_decide (Partial.ns_name n = pyname)
  || bool_decide (Partial.ns_name n = pyname +:+ "()").

(** What [process_internal_bridge] does to one namespace. *)
Definition internal_ns (pyname : string) (sb : Stitched.bridge)
    (n : Partial.namespace) : Partial.namespace :=
  if matches_internal pyname n then
    let n :=
      if PyStr.endswith (Partial.ns_name n) "()" then n
      else Partial.mkNamespace (Partial.ns_name n +:+ "()") (Partial.ns_metadata n) in
    attach sb n
  else n.

Definition map_namespaces (f : Partial.namespace -> Partial.namespace)
    (ms : list (string * Partial.module)) : list (string * Partial.module) :=
  (fun km => (km.1, Partial.mkModule (Partial.sourceFile km.2)
                      ((fun kn => (kn.1, f kn.2)) <$> Partial.namespaces km.2)))
    <$> ms.

Definition with_internal (ms : list (string * Partial.module)) (nodes : Z)
    (cg : Partial.callgraph) : Partial.callgraph :=
  Partial.mkCallgraph (Partial.product cg) (Partial.version cg) nodes ms
    (Partial.external cg) (Partial.internalCalls cg) (Partial.externalCalls cg).

(** The effect of [process_internal_bridge] on the document it loads. *)
Definition internal_bridge_doc (b : bridge_record) (cg : Partial.callgraph)
  : Partial.callgraph :=
  with_internal
    (map_namespaces (internal_ns (pyname b) (simple_bridge b)) (Partial.internal cg))
    (Partial.nodes cg) cg.

(** *** External bridges *)

(** The name a namespace is compared under: separators as dots, leading
    dots stripped, and the top-level name put in front unless one of the
    package's top-level names is there already. *)
Definition clean_of (tl : string) (tls : list string) (ns : string) : string :=
  let clean := PyStr.lstrip "." (PyStr.replace "/" "." ns) in
  if existsb (fun t => PyStr.startswith clean (t +:+ ".")) tls then clean
  else tl +:+ "." +:+ clean.

Definition matches_external (tl : string) (tls : list string)
    (squashed_pyname : string) (n : Partial.namespace) : bool :=
  let clean := clean_of tl tls (Partial.ns_name n) in
  bool_decide (clean = squashed_pyname)
  || bool_decide (clean = squashed_pyname +:+ "()").

(** The inner loop over the namespaces of one module: the first match
    gets the bridge and ends the loop ([break]). *)
Fixpoint attach_first (P : Partial.namespace -> bool) (sb : Stitched.bridge)
    (nss : list (Z * Partial.namespace)) : list (Z * Partial.namespace) * bool :=
  match nss with
  | [] => ([], false)
  | (k, n) :: rest =>
      if P n then ((k, attach sb n) :: rest, true)
      else let '(rest', found) := attach_first P sb rest in
           ((k, n) :: rest', found)
  end.

(** The outer loop over the modules; the flag is [found]. *)
Fixpoint attach_modules (P : Partial.namespace -> bool) (sb : Stitched.bridge)
    (ms : list (string * Partial.module))
  : list (string * Partial.module) * bool :=
  match ms with
  | [] => ([], false)
  | (k, m) :: rest =>
      let '(nss, f1) := attach_first P sb (Partial.namespaces m) in
      let '(rest', f2) := attach_modules P sb rest in
      ((k, Partial.mkModule (Partial.sourceFile m) nss) :: rest', f1 || f2)
  end.

(** The [if not found:] block: a namespace for the bridge, and a module
    for it when the document has none. *)
Definition synthesize (tl squashed_pyname : string) (sb : Stitched.bridge)
    (cg : Partial.callgraph) : Partial.callgraph :=
  let internals := Partial.internal cg in
  let num_nodes := Partial.nodes cg in
  let modname := "/" +:+ tl +:+ "/" in
  let new_ns :=
    modname +:+ PyStr.join "." (tail (PyStr.split "." squashed_pyname)) +:+ "()" in
  let new_internal :=
    Partial.mkNamespace new_ns (Partial.mkMetadata (Some [sb]) []) in
  let new_index := num_nodes in
  let '(internals, num_nodes, new_index) :=
    if decide (modname ∈ internals.*1) then (internals, num_nodes, new_index)
    else
      let bootstrap_mod := Partial.mkNamespace modname (Partial.mkMetadata None []) in
      (internals ++ [(modname, Partial.mkModule "__init__.py"
                                 [(new_index, bootstrap_mod)])],
       num_nodes + 1, num_nodes + 1) in
  let internals :=
    ODict.alter
      (fun m => Partial.mkModule (Partial.sourceFile m)
                  (ODict.set new_index new_internal (Partial.namespaces m)))
      modname internals in
  with_internal internals (num_nodes + 1) cg.

(** The effect of [process_external_bridge] on the document it loads,
    for the top-level name [tl] of the bridge, the top-level names [tls]
    of its package and the name [squashed_pyname] behind the last [//]. *)
Definition external_bridge_doc (tl : string) (tls : list string)
    (squashed_pyname : string) (sb : Stitched.bridge) (cg : Partial.callgraph)
  : Partial.callgraph :=
  let '(internals, found) :=
    attach_modules (matches_external tl tls squashed_pyname) sb
                   (Partial.internal cg) in
  let cg := with_internal internals (Partial.nodes cg) cg in
  if found then cg else synthesize tl squashed_pyname sb cg.

(** *** The augmenter *)

(** The fields of [Augmentor]: the maps read at construction and the
    documents loaded so far. *)
Record augmentor : Type := mkAugmentor {
  tl2pkg : list (string * string);
  pkg2aug : gmap string string;
  given_package : string;
  cg_path2cg : gmap string Partial.callgraph
}.

Definition files : Type := gmap string Partial.callgraph.

(** [self.pkg2tl[pkg]]: the top-level names of a package in the order of
    [tl2pkg]. *)
Definition pkg2tl (a : augmentor) (pkg : string) : list string :=
  (filter (fun kv => kv.2 = pkg) (tl2pkg a)).*1.

(** [pyname.split('//')[1]] and [pyname.split('//')[-1]] *)
Definition pyname_to_tl_external (pyname : string) : result string :=
  of_option (PyStr.split_dslash pyname !! 1%nat) IndexError.

Definition pyname_to_squash_external (pyname : string) : string :=
  default EmptyString (last (PyStr.split_dslash pyname)).

(** The document for a path: the one already loaded, else the file;
    [None] when there is no file. *)
Definition load (fs : files) (a : augmentor) (cg_path : string)
  : option Partial.callgraph :=
  match cg_path2cg a !! cg_path with
  | Some cg => Some cg
  | None => fs !! cg_path
  end.

Definition store (cg_path : string) (cg : Partial.callgraph) (a : augmentor)
  : augmentor :=
  mkAugmentor (tl2pkg a) (pkg2aug a) (given_package a)
    (<[cg_path := cg]> (cg_path2cg a)).

(** [process_internal_bridge] *)
Definition process_internal_bridge (fs : files) (a : augmentor)
    (b : bridge_record) : result augmentor :=
  cg_path ← of_option (pkg2aug a !! given_package a) KeyError;
  match load fs a cg_path with
  | None => Ok a
  | Some cg => Ok (store cg_path (internal_bridge_doc b cg) a)
  end.

(** [process_external_bridge] *)
Definition process_external_bridge (fs : files) (a : augmentor)
    (b : bridge_record) : result augmentor :=
  tl ← pyname_to_tl_external (pyname b);
  match ODict.get tl (tl2pkg a) ≫= (fun pkg => pkg2aug a !! pkg) with
  | None => Ok a
  | Some cg_path =>
      match load fs a cg_path with
      | None => Ok a
      | Some cg =>
          pkg ← of_option (ODict.get tl (tl2pkg a)) KeyError;
          Ok (store cg_path
                (external_bridge_doc tl (pkg2tl a pkg)
                   (pyname_to_squash_external (pyname b)) (simple_bridge b) cg)
                a)
      end
  end.

(** [Augmentor.__init__]: the maps as read, no document loaded. *)
Definition init (tl2pkg : list (string * string)) (pkg2aug : gmap string string)
    (given_package : string) : augmentor :=
  mkAugmentor tl2pkg pkg2aug given_package ∅.

(** [augment]: the internal bridges, then the external ones; then every
    document loaded is written to its path. *)
Definition augment (fs : files) (a : augmentor)
    (internal external : list bridge_record) : result files :=
  a ← for_each (process_internal_bridge fs) internal a;
  a ← for_each (process_external_bridge fs) external a;
  Ok (cg_path2cg a ∪ fs).

End Augment.

(** * Properties *)

(** ** Graph search *)

Section graph_facts.
Import Graph.
Variable g : DiGraph.

Definition arc (a b : Z) : Prop := (a, b) ∈ arcs g.

Lemma elem_of_successors n m : m ∈ successors g n <-> arc n m.
Proof.
  unfold successors, arc. rewrite list_elem_of_fmap. split.
  - intros [[a b] [-> [Ha Hin]%list_elem_of_filter]]. simpl in *. by subst.
  - intros H. exists (n, m). split; [done|]. by apply list_elem_of_filter.
Qed.

Lemma elem_of_expand R m :
  m ∈ expand g R <-> m ∈ R \/ exists n, n ∈ R /\ arc n m.
Proof.
  unfold expand, arc. rewrite elem_of_union, elem_of_list_to_set, list_elem_of_fmap.
  split.
  - intros [?|[[a b] [-> [Ha Hin]%list_elem_of_filter]]]; [by left|].
    right. exists a. by simpl in *.
  - intros [?|[n [Hn Harc]]]; [by left|]. right. exists (n, m).
    split; [done|]. by apply list_elem_of_filter.
Qed.

Lemma layers_mono k s : layers g k s ⊆ layers g (S k) s.
Proof. intros m Hm. simpl. apply elem_of_expand. by left. Qed.

Lemma elem_of_layers k s m :
  m ∈ layers g k s <-> bsteps arc k s m.
Proof.
  revert m. induction k as [|k IH]; intros m; simpl.
  - rewrite elem_of_singleton. split.
    + intros ->. constructor.
    + inversion 1; by subst.
  - rewrite elem_of_expand. setoid_rewrite IH. setoid_rewrite bsteps_nsteps. split.
    + intros [(j & Hj & Hs)|(n & (j & Hj & Hs) & Harc)].
      * exists j. split; [lia|done].
      * exists (S j). split; [lia|]. by eapply nsteps_r.
    + intros (j & Hj & Hs). destruct j as [|j].
      * left. exists O. split; [lia|done].
      * apply nsteps_inv_r in Hs as (n & Hs & Harc).
        right. exists n. split; [|done]. exists j. split; [lia|done].
Qed.

Lemma layers_stable k s :
  expand g (layers g k s) = layers g k s ->
  forall j, layers g (k + j) s = layers g k s.
Proof.
  intros Hst j. induction j as [|j IH].
  - by rewrite Nat.add_0_r.
  - rewrite Nat.add_succ_r. simpl. by rewrite IH.
Qed.

Lemma layers_bounded k s :
  layers g k s ⊆ {[ s ]} ∪ list_to_set (arcs g).*2.
Proof.
  induction k as [|k IH]; simpl; [set_solver|].
  intros m [Hm|(n & Hn & Harc)]%elem_of_expand; [by apply IH|].
  apply elem_of_union_r, elem_of_list_to_set, list_elem_of_fmap.
  by exists (n, m).
Qed.

Lemma size_list_to_set_le (l : list Z) :
  (size (list_to_set (C:=gset Z) l) <= length l)%nat.
Proof.
  induction l as [|x l IH].
  - by rewrite list_to_set_nil, size_empty.
  - rewrite list_to_set_cons, size_union_alt, size_singleton. simpl.
    assert (size (list_to_set (C:=gset Z) l ∖ {[x]}) <= size (list_to_set (C:=gset Z) l))%nat
      as Hle.
    { apply subseteq_size. intros y [Hy _]%elem_of_difference. exact Hy. }
    lia.
Qed.

Lemma layers_size k s : (size (layers g k s) <= search_depth g)%nat.
Proof.
  etransitivity; [apply subseteq_size, layers_bounded|].
  rewrite size_union_alt, size_singleton. unfold search_depth.
  pose proof (size_list_to_set_le (arcs g).*2) as H1. rewrite length_fmap in H1.
  assert (size (list_to_set (C:=gset Z) (arcs g).*2 ∖ {[s]})
          <= size (list_to_set (C:=gset Z) (arcs g).*2))%nat as Hle.
  { apply subseteq_size. intros y [Hy _]%elem_of_difference. exact Hy. }
  lia.
Qed.

Lemma layers_grow k s :
  expand g (layers g k s) = layers g k s \/ (S k <= size (layers g k s))%nat.
Proof.
  induction k as [|k IH].
  - right. change (layers g 0 s) with ({[ s ]} : gset Z).
    by rewrite size_singleton.
  - destruct IH as [Hst|Hsz].
    + left. simpl. by rewrite !Hst.
    + destruct (decide (layers g (S k) s = layers g k s)) as [Heq|Hne].
      * left. rewrite Heq. exact Heq.
      * right. assert (layers g k s ⊂ layers g (S k) s) as Hsub.
        { split; [apply layers_mono|]. intros Hback. apply Hne.
          apply set_eq. intros x. split; [apply Hback|apply layers_mono]. }
        apply subset_size in Hsub. lia.
Qed.

Lemma layers_closed s :
  expand g (layers g (search_depth g) s) = layers g (search_depth g) s.
Proof.
  destruct (layers_grow (search_depth g) s) as [?|Hsz]; [done|].
  pose proof (layers_size (search_depth g) s). lia.
Qed.

(** The layers computed by [descendants] hold exactly the nodes a
    chain of arcs leads to. *)
Lemma elem_of_layers_depth s m :
  m ∈ layers g (search_depth g) s <-> rtc arc s m.
Proof.
  split.
  - intros H%elem_of_layers. by eapply rtc_bsteps_2.
  - revert m. apply rtc_ind_r.
    + apply elem_of_layers. constructor.
    + intros y z _ Hyz IH.
      rewrite <- layers_closed. apply elem_of_expand. right. by exists y.
Qed.

Lemma elem_of_descendants s D m :
  descendants g s = Ok D -> m ∈ D <-> rtc arc s m /\ m <> s.
Proof.
  unfold descendants. destruct (decide (s ∈ vertices g)); [|done].
  intros Heq.
  assert (D = layers g (search_depth g) s ∖ {[ s ]}) as -> by congruence.
  rewrite elem_of_difference, elem_of_singleton.
  by rewrite elem_of_layers_depth.
Qed.

(** A walk lists the nodes of a chain of arcs. *)
Inductive walk : list Z -> Prop :=
  | walk_one n : walk [n]
  | walk_cons a b p : arc a b -> walk (b :: p) -> walk (a :: b :: p).

Lemma walk_nsteps p s t :
  walk p -> head p = Some s -> last p = Some t ->
  nsteps arc (pred (length p)) s t.
Proof.
  intros Hw. revert s. induction Hw as [n|a b p Hab Hw IH]; intros s Hs Ht.
  - simpl in *. simplify_eq. constructor.
  - simpl in Hs. simplify_eq. rewrite last_cons_cons in Ht.
    change (pred (length (s :: b :: p))) with (S (pred (length (b :: p)))).
    econstructor; [exact Hab|]. by apply IH.
Qed.

Lemma first_some_Some {A B} (f : A -> option B) l b :
  first_some f l = Some b ->
  exists l1 a l2, l = l1 ++ a :: l2 /\ f a = Some b /\ forall x, x ∈ l1 -> f x = None.
Proof.
  induction l as [|a l IH]; simpl; [done|].
  destruct (f a) as [b'|] eqn:Hfa.
  - intros [= ->]. exists [], a, l. split_and!; [done..|]. by intros x ?%elem_of_nil.
  - intros (l1 & a' & l2 & -> & Hfa' & Hnone)%IH.
    exists (a :: l1), a', l2. split_and!; [done..|].
    intros x [->|?]%elem_of_cons; auto.
Qed.

Lemma first_some_None {A B} (f : A -> option B) l :
  first_some f l = None <-> forall a, a ∈ l -> f a = None.
Proof.
  induction l as [|a l IH]; simpl.
  - split; [by intros _ x ?%elem_of_nil|done].
  - destruct (f a) as [b|] eqn:Hfa.
    + split; [done|]. intros H. rewrite <- Hfa. apply H. by left.
    + rewrite IH. split.
      * intros H x [->|?]%elem_of_cons; auto.
      * intros H x Hx. apply H. by right.
Qed.

Lemma seq_split a n l1 (k : nat) l2 :
  seq a n = l1 ++ k :: l2 -> l1 = seq a (k - a) /\ (a <= k < a + n)%nat.
Proof.
  revert a n. induction l1 as [|x l1 IH]; intros a n Hseq.
  - destruct n as [|n]; simpl in Hseq; [done|].
    injection Hseq as Ha _. subst k. rewrite Nat.sub_diag. split; [done|lia].
  - destruct n as [|n]; simpl in Hseq; [done|].
    injection Hseq as Ha Hrest. subst x.
    apply IH in Hrest as [-> ?]. split; [|lia].
    replace (k - a)%nat with (S (k - S a)) by lia. done.
Qed.

Lemma find_walk_sound k s t p :
  find_walk g k s t = Some p ->
  walk p /\ head p = Some s /\ last p = Some t /\ length p = S k.
Proof.
  revert s p. induction k as [|k IH]; intros s p; simpl.
  - case_decide; [|done]. intros [= <-]. subst. split_and!; [constructor|done..].
  - destruct (first_some _ _) as [q|] eqn:Hq; [|done]. intros [= <-].
    apply first_some_Some in Hq as (l1 & m & l2 & Hl & Hm & _).
    apply IH in Hm as (Hw & Hh & Hl' & Hlen).
    assert (arc s m) as Hsm.
    { apply elem_of_successors. rewrite Hl. apply elem_of_app. right. by left. }
    destruct q as [|m' q]; [done|]. simpl in Hh. simplify_eq.
    split_and!; [by constructor|done|by rewrite last_cons_cons|simpl in *; lia].
Qed.

Lemma find_walk_complete k s t :
  nsteps arc k s t -> is_Some (find_walk g k s t).
Proof.
  induction 1 as [x|k x y z Hxy Hyz IH]; simpl.
  - by case_decide.
  - destruct (first_some _ _) as [q|] eqn:Hq; [done|].
    rewrite first_some_None in Hq.
    rewrite (Hq y) in IH; [by destruct IH|]. by apply elem_of_successors.
Qed.

(** [search_path] answers with a walk from source to target that no
    other walk between them undercuts. *)
Lemma search_path_sound s t p :
  search_path g s t = Some p ->
  walk p /\ head p = Some s /\ last p = Some t /\
  forall q, walk q -> head q = Some s -> last q = Some t ->
            (length p <= length q)%nat.
Proof.
  unfold search_path. case_decide; [|done].
  intros (l1 & k & l2 & Hseq & Hk & Hnone)%first_some_Some.
  apply find_walk_sound in Hk as (Hw & Hh & Hl & Hlen).
  split_and!; [done..|]. intros q Hq Hqh Hql.
  pose proof (walk_nsteps _ _ _ Hq Hqh Hql) as Hsteps.
  destruct (decide (length q < length p)%nat) as [Hlt|]; [exfalso|lia].
  apply find_walk_complete in Hsteps as [q' Hq'].
  rewrite Hnone in Hq'; [done|].
  apply seq_split in Hseq as [-> _]. rewrite Nat.sub_0_r.
  apply elem_of_seq. destruct q; [done|]. simpl in *. lia.
Qed.

Lemma search_path_complete s t :
  s ∈ vertices g -> t ∈ vertices g -> rtc arc s t ->
  is_Some (search_path g s t).
Proof.
  intros Hs Ht Hr. unfold search_path. rewrite decide_True by done.
  apply elem_of_layers_depth, elem_of_layers, bsteps_nsteps in Hr
    as (k & Hk & Hsteps).
  destruct (first_some _ _) as [p|] eqn:Hp; [done|].
  rewrite first_some_None in Hp.
  apply find_walk_complete in Hsteps as [q Hq].
  rewrite Hp in Hq; [done|]. apply elem_of_seq. lia.
Qed.

Lemma search_path_unreachable s t :
  ~ rtc arc s t -> search_path g s t = None.
Proof.
  intros Hn. destruct (search_path g s t) as [p|] eqn:Hp; [|done].
  apply search_path_sound in Hp as (Hw & Hh & Hl & _).
  exfalso. apply Hn. eapply rtc_nsteps_2. by apply walk_nsteps.
Qed.

End graph_facts.

(** What networkx documents of [nx.shortest_path] on an unweighted
    graph: the answer is a path from source to target with the fewest
    arcs, and there is an answer whenever both are nodes of the graph
    and the target can be reached. *)
Record shortest_path_contract
    (sp : Graph.DiGraph -> Z -> Z -> option (list Z)) : Prop := {
  sp_sound : forall g s t p, sp g s t = Some p ->
    walk g p /\ head p = Some s /\ last p = Some t /\
    forall q, walk g q -> head q = Some s -> last q = Some t ->
              (length p <= length q)%nat;
  sp_complete : forall g s t,
    s ∈ Graph.vertices g -> t ∈ Graph.vertices g -> rtc (arc g) s t ->
    is_Some (sp g s t)
}.

Lemma search_path_contract : shortest_path_contract Graph.search_path.
Proof.
  split.
  - intros g s t p. apply search_path_sound.
  - intros g s t. apply search_path_complete.
Qed.

(** ** Loops *)

Lemma for_each_app {S X} (body : S -> X -> result S) l1 l2 st :
  for_each body (l1 ++ l2) st = (st' ← for_each body l1 st; for_each body l2 st').
Proof.
  revert st. induction l1 as [|x l1 IH]; intros st; simpl; [done|].
  destruct (body st x) as [st1|e]; simpl; [apply IH|done].
Qed.

(** Loop invariant: [P pre st] speaks of the items already consumed. *)
Lemma for_each_inv {S X} (P : list X -> S -> Prop) (body : S -> X -> result S)
    l st st' :
  P [] st ->
  (forall pre x s s', P pre s -> body s x = Ok s' -> P (pre ++ [x]) s') ->
  for_each body l st = Ok st' -> P l st'.
Proof.
  intros H0 Hstep. assert (forall pre s, P pre s ->
    for_each body l s = Ok st' -> P (pre ++ l) st') as Hgen.
  { induction l as [|x l IH]; intros pre s HP; simpl.
    - intros [= <-]. by rewrite app_nil_r.
    - destruct (body s x) as [s1|e] eqn:Hb; simpl; [|done].
      intros Hrest. replace (pre ++ x :: l) with ((pre ++ [x]) ++ l)
        by (by rewrite <- app_assoc).
      eapply IH; [|done]. by eapply Hstep. }
  apply (Hgen [] st H0).
Qed.

(** A loop whose body cannot raise on the states it meets runs to the
    end. *)
Lemma for_each_total {S X} (P : S -> Prop) (body : S -> X -> result S) l st :
  P st ->
  (forall s x, P s -> x ∈ l -> exists s', body s x = Ok s' /\ P s') ->
  exists st', for_each body l st = Ok st' /\ P st'.
Proof.
  revert st. induction l as [|x l IH]; intros st HP Hstep; simpl.
  - by exists st.
  - destruct (Hstep st x HP) as (s1 & -> & HP1); [by left|]. simpl.
    apply IH; [done|]. intros s y Hs Hy. apply Hstep; [done|by right].
Qed.

Lemma map_result_total {X Y} (f : X -> result Y) (l : list X) :
  (forall x, x ∈ l -> exists y, f x = Ok y) ->
  exists ys, map_result f l = Ok ys /\ Forall2 (fun x y => f x = Ok y) l ys.
Proof.
  unfold map_result. intros Hf.
  assert (forall acc, exists ys,
            for_each (fun acc x => y ← f x; Ok (acc ++ [y])) l acc = Ok (acc ++ ys) /\
            Forall2 (fun x y => f x = Ok y) l ys) as Hgen.
  { induction l as [|x l IH]; intros acc; simpl.
    - exists []. by rewrite app_nil_r.
    - destruct (Hf x) as [y Hy]; [by left|]. rewrite Hy. simpl.
      destruct IH with (acc := acc ++ [y]) as (ys & Hys & Hall).
      { intros z Hz. apply Hf. by right. }
      exists (y :: ys). rewrite Hys, <- app_assoc. split; [done|by constructor]. }
  apply (Hgen []).
Qed.

Lemma map_result_Ok {X Y} (f : X -> result Y) (l : list X) ys :
  map_result f l = Ok ys -> Forall2 (fun x y => f x = Ok y) l ys.
Proof.
  unfold map_result.
  apply (for_each_inv (fun pre acc => Forall2 (fun x y => f x = Ok y) pre acc)).
  - constructor.
  - intros pre x acc acc' IH Hstep.
    destruct (f x) as [y|] eqn:Hy; simpl in Hstep; [|done]. injection Hstep as <-.
    apply Forall2_app; [done|]. by repeat constructor.
Qed.

Lemma foldl_inv {S X} (P : list X -> S -> Prop) (f : S -> X -> S) l s0 :
  P [] s0 ->
  (forall pre x s, P pre s -> P (pre ++ [x]) (f s x)) ->
  P l (foldl f s0 l).
Proof.
  intros H0 Hstep. induction l as [|x l IH] using rev_ind; [done|].
  rewrite foldl_app. simpl. by apply Hstep.
Qed.

(** ** Ordered dictionaries *)

Section odict_facts.
Context {K V : Type} `{EqDecision K}.
Implicit Types (d : list (K * V)) (k : K) (v : V).

(** The keys after an assignment: a new key goes last. *)
Definition add_key k (ks : list K) : list K :=
  if decide (k ∈ ks) then ks else ks ++ [k].

Lemma elem_of_add_key k ks x : x ∈ add_key k ks <-> x = k \/ x ∈ ks.
Proof.
  unfold add_key. case_decide.
  - split; [by right|]. by intros [->|?].
  - rewrite elem_of_app, list_elem_of_singleton. tauto.
Qed.

Lemma add_key_idemp k ks : add_key k (add_key k ks) = add_key k ks.
Proof.
  unfold add_key at 1. rewrite decide_True; [done|].
  apply elem_of_add_key. by left.
Qed.

Lemma add_key_NoDup k ks : NoDup ks -> NoDup (add_key k ks).
Proof.
  intros Hnd. unfold add_key. case_decide; [done|].
  apply NoDup_app. split_and!; [done| |apply NoDup_singleton].
  intros x Hx ->%list_elem_of_singleton. done.
Qed.

Lemma keys_set k v d : (ODict.set k v d).*1 = add_key k d.*1.
Proof.
  induction d as [|[k' v'] d IH]; cbn [ODict.set].
  - done.
  - case_decide as Hk; rewrite !fmap_cons; cbn [fst].
    + subst k'. unfold add_key. rewrite decide_True; [done|by left].
    + rewrite IH. unfold add_key.
      destruct (decide (k ∈ d.*1)) as [Hin|Hin].
      * rewrite decide_True; [done|by right].
      * rewrite decide_False; [done|].
        intros [?|?]%elem_of_cons; [congruence|done].
Qed.

Lemma set_fresh k v d : k ∉ d.*1 -> ODict.set k v d = d ++ [(k, v)].
Proof.
  induction d as [|[k' v'] d IH]; simpl; [done|].
  intros Hnin. apply not_elem_of_cons in Hnin as [Hne Hnin].
  rewrite decide_False by done. by rewrite IH.
Qed.

Lemma elem_of_set k v d k' v' :
  NoDup d.*1 ->
  (k', v') ∈ ODict.set k v d <->
  (k' = k /\ v' = v) \/ (k' <> k /\ (k', v') ∈ d).
Proof.
  induction d as [|[k0 v0] d IH]; simpl; intros Hnd.
  - rewrite list_elem_of_singleton. split.
    + intros [= -> ->]. by left.
    + intros [[-> ->]|[_ []%elem_of_nil]]. done.
  - apply NoDup_cons in Hnd as [Hk0 Hnd]. case_decide as Hk.
    + subst k0. rewrite !elem_of_cons. split.
      * intros [[= -> ->]|Hin]; [by left|]. right. split; [|by right].
        intros ->. apply Hk0. apply list_elem_of_fmap. by exists (k, v').
      * intros [[-> ->]|[Hne [[= ? ?]|Hin]]]; [by left|done|by right].
    + rewrite !elem_of_cons, (IH Hnd). split.
      * intros [[= -> ->]|[[-> ->]|[Hne Hin]]].
        -- right. split; [done|by left].
        -- by left.
        -- right. split; [done|by right].
      * intros [[-> ->]|[Hne [[= -> ->]|Hin]]].
        -- right. by left.
        -- by left.
        -- right. right. done.
Qed.

Lemma set_not_nil k v d : ODict.set k v d <> [].
Proof. destruct d as [|[k' v'] d]; simpl; [done|]. by case_decide. Qed.

Lemma get_Some k v d : ODict.get k d = Some v -> (k, v) ∈ d.
Proof.
  induction d as [|[k' v'] d IH]; simpl; [done|]. case_decide as Hk.
  - intros [= ->]. subst. by left.
  - intros Hg. right. by apply IH.
Qed.

Lemma get_is_Some k d : k ∈ d.*1 -> is_Some (ODict.get k d).
Proof.
  induction d as [|[k' v'] d IH]; simpl.
  - by intros ?%elem_of_nil.
  - case_decide as Hk; [by eauto|].
    intros [?|?]%elem_of_cons; [congruence|by apply IH].
Qed.

End odict_facts.

(** ** Stable sorting *)

Section sort_facts.
Context {A : Type} (key : A -> Z).

Lemma insert_by_head x l :
  exists y r, PyList.insert_by key x l = y :: r.
Proof. destruct l as [|y l]; simpl; [by eauto|]. case_decide; by eauto. Qed.

Lemma sorted_by_cons a l :
  PyList.sorted_by key (a :: l) = PyList.insert_by key a (PyList.sorted_by key l).
Proof. reflexivity. Qed.

Lemma sorted_by_nil l : PyList.sorted_by key l = [] -> l = [].
Proof.
  destruct l as [|a l]; [done|]. rewrite sorted_by_cons.
  destruct (insert_by_head a (PyList.sorted_by key l)) as (? & ? & ->). done.
Qed.

(** The head of a stable sort is the first of the items with the least
    key. *)
Lemma sorted_by_head l x r :
  PyList.sorted_by key l = x :: r ->
  exists pre post, l = pre ++ x :: post /\
    (forall y, y ∈ pre -> key x < key y) /\
    (forall y, y ∈ post -> key x <= key y).
Proof.
  revert x r. induction l as [|a l IH]; intros x r; [done|].
  rewrite sorted_by_cons.
  destruct (PyList.sorted_by key l) as [|y s] eqn:Hs; simpl.
  - intros [= <- <-]. apply sorted_by_nil in Hs as ->.
    exists [], []. split_and!; [done|..]; by intros y ?%elem_of_nil.
  - destruct (IH y s eq_refl) as (pre & post & -> & Hpre & Hpost).
    case_decide as Hle.
    + intros [= <- <-]. exists [], (pre ++ y :: post). split_and!; [done| |].
      * by intros z ?%elem_of_nil.
      * intros z [Hz|[->|Hz]%elem_of_cons]%elem_of_app.
        -- specialize (Hpre _ Hz). lia.
        -- done.
        -- specialize (Hpost _ Hz). lia.
    + intros [= <- <-]. exists (a :: pre), post. split_and!; [done| |done].
      intros z [->|Hz]%elem_of_cons; [lia|by apply Hpre].
Qed.

End sort_facts.

(** ** Building a graph *)

Section build_facts.
Import Graph.

Lemma elem_of_add_vertex n l x : x ∈ add_vertex n l <-> x = n \/ x ∈ l.
Proof.
  unfold add_vertex. case_decide.
  - split; [by right|]. by intros [->|?].
  - rewrite elem_of_app, list_elem_of_singleton. tauto.
Qed.

Lemma elem_of_arcs_add_edge u v g e :
  e ∈ arcs (add_edge u v g) <-> e = (u, v) \/ e ∈ arcs g.
Proof.
  unfold add_edge. simpl. case_decide.
  - split; [by right|]. by intros [->|?].
  - rewrite elem_of_app, list_elem_of_singleton. tauto.
Qed.

Lemma elem_of_vertices_add_edge u v g x :
  x ∈ vertices (add_edge u v g) <-> x = u \/ x = v \/ x ∈ vertices g.
Proof. unfold add_edge. simpl. rewrite !elem_of_add_vertex. tauto. Qed.

Lemma elem_of_arcs_add_edges es g e :
  e ∈ arcs (add_edges g es) <-> e ∈ es \/ e ∈ arcs g.
Proof.
  revert g. induction es as [|[u v] es IH]; intros g; simpl.
  - rewrite elem_of_nil. tauto.
  - unfold add_edges in *. simpl. rewrite IH, elem_of_arcs_add_edge, elem_of_cons. tauto.
Qed.

Lemma elem_of_vertices_add_edges es g x :
  x ∈ vertices (add_edges g es) <->
  x ∈ vertices g \/ exists e, e ∈ es /\ (x = e.1 \/ x = e.2).
Proof.
  revert g. induction es as [|[u v] es IH]; intros g; simpl.
  - split; [by left|]. intros [?|(e & []%elem_of_nil & _)]. done.
  - unfold add_edges in *. simpl. rewrite IH, elem_of_vertices_add_edge. split.
    + intros [[->|[->|?]]|(e & He & Hx)].
      * right. exists (u, v). split; [by left|by left].
      * right. exists (u, v). split; [by left|by right].
      * by left.
      * right. exists e. split; [by right|done].
    + intros [?|(e & [->|He]%elem_of_cons & Hx)].
      * left. tauto.
      * left. simpl in Hx. tauto.
      * right. by exists e.
Qed.

End build_facts.

(** ** Reachability detector *)

Section reach_facts.
Import Unified Graph Reach.

Definition fresh_tables : tables := mkTables empty_graph ∅ ∅ ∅.

(** What the node loop of [create_graph] establishes. *)
Record tables_ok (ns : list (Z * node)) (t : tables) : Prop := {
  ok_vertices : forall x, x ∈ vertices (t_graph t) <-> x ∈ ns.*1;
  ok_arcs : arcs (t_graph t) = [];
  ok_n2idx : forall n i, t_n2idx t !! n = Some i ->
               exists v, (i, v) ∈ ns /\ name v = n;
  ok_n2pkg : forall n p, t_n2pkg t !! n = Some p ->
               is_Some (t_n2idx t !! n) /\
               exists i v, (i, v) ∈ ns /\ name v = n /\
                           package v = Some p /\ library v = None
}.

Lemma create_graph_nodes_ok ns t :
  for_each create_graph_node ns fresh_tables = Ok t -> tables_ok ns t.
Proof.
  apply (for_each_inv tables_ok).
  - split; simpl; try done.
  - intros pre [idx v] t1 t2 [Hv Ha Hi Hp] Hstep.
    unfold create_graph_node in Hstep.
    destruct (library v) as [l|] eqn:Hl; [|destruct (package v) as [pk|] eqn:Hpk];
      simpl in Hstep; [| |done]; injection Hstep as <-; split; simpl.
    all: try (intros x; rewrite elem_of_add_vertex, fmap_app, elem_of_app, Hv;
              simpl; rewrite list_elem_of_singleton; tauto).
    all: try done.
    all: try (intros n i; destruct (decide (name v = n)) as [<-|Hne];
              [rewrite lookup_insert_eq; intros [= <-]; exists v;
               split; [apply elem_of_app; right; by left|done]
              |rewrite lookup_insert_ne by done; intros (v' & ? & ?)%Hi;
               exists v'; split; [apply elem_of_app; by left|done]]).
    + intros n p [Hn (i & v' & Hin & Hrest)]%Hp. split.
      * destruct (decide (name v = n)) as [<-|Hne];
          [by rewrite lookup_insert_eq|by rewrite lookup_insert_ne].
      * exists i, v'. split; [apply elem_of_app; by left|done].
    + intros n p. destruct (decide (name v = n)) as [<-|Hne].
      * rewrite !lookup_insert_eq. intros [= <-]. split; [by eauto|].
        exists idx, v. split; [apply elem_of_app; right; by left|done].
      * rewrite !lookup_insert_ne by done.
        intros [Hn (i & v' & Hin & Hrest)]%Hp. split; [done|].
        exists i, v'. split; [apply elem_of_app; by left|done].
Qed.

(** With pairwise distinct names the tables are an exact index of the
    node list. *)
Lemma create_graph_nodes_exact ns t :
  for_each create_graph_node ns fresh_tables = Ok t ->
  NoDup ((fun iv => name iv.2) <$> ns) ->
  (forall i v, (i, v) ∈ ns -> t_n2idx t !! name v = Some i) /\
  (forall i v, (i, v) ∈ ns -> library v = None ->
               t_n2pkg t !! name v = package v).
Proof.
  apply (for_each_inv (fun pre t =>
    NoDup ((fun iv => name iv.2) <$> pre) ->
    (forall i v, (i, v) ∈ pre -> t_n2idx t !! name v = Some i) /\
    (forall i v, (i, v) ∈ pre -> library v = None ->
                 t_n2pkg t !! name v = package v))).
  - intros _. split; by intros i v ?%elem_of_nil.
  - intros pre [idx v] t1 t2 IH Hstep Hnd.
    rewrite fmap_app in Hnd. apply NoDup_app in Hnd as (Hnd & Hfresh & _).
    destruct (IH Hnd) as [Hi Hp]. simpl in Hfresh.
    assert (forall i v', (i, v') ∈ pre -> name v' <> name v) as Hne.
    { intros i v' Hin Heq. apply (Hfresh (name v')).
      - apply list_elem_of_fmap. by exists (i, v').
      - rewrite Heq. by left. }
    unfold create_graph_node in Hstep.
    destruct (library v) as [l|] eqn:Hl; [|destruct (package v) as [pk|] eqn:Hpk];
      simpl in Hstep; [| |done]; injection Hstep as <-; simpl; split.
    all: intros i v' [Hin|Hin%list_elem_of_singleton]%elem_of_app;
      [pose proof (Hne _ _ Hin)|injection Hin as -> ->].
    all: rewrite ?lookup_insert_eq, ?lookup_insert_ne by done; eauto.
    all: congruence.
Qed.

Lemma find_entrypoints_loop (n2i : gmap string Z) (n2p : gmap string string)
    (pkg : string) eps :
  for_each
    (fun (acc : gset Z) (np : string * string) =>
       if decide (np.2 = pkg)
       then idx ← of_option (n2i !! np.1) KeyError; Ok ({[ idx ]} ∪ acc)
       else Ok acc)
    (map_to_list n2p) ∅ = Ok eps ->
  forall i, i ∈ eps <-> exists n, n2p !! n = Some pkg /\ n2i !! n = Some i.
Proof.
  intros Hloop i.
  assert (i ∈ eps <-> exists n, (n, pkg) ∈ map_to_list n2p /\ n2i !! n = Some i)
    as ->.
  { revert Hloop i. generalize (map_to_list n2p). intros l.
    apply (for_each_inv (fun pre (acc : gset Z) => forall i,
             i ∈ acc <-> exists n, (n, pkg) ∈ pre /\ n2i !! n = Some i)).
    - intros i. split; [set_solver|]. by intros (n & []%elem_of_nil & _).
    - intros pre [n p] acc acc' IH Hstep i. simpl in Hstep.
      setoid_rewrite elem_of_app. setoid_rewrite list_elem_of_singleton.
      case_decide as Hp.
      + destruct (n2i !! n) as [j|] eqn:Hj; simpl in Hstep; [|done].
        injection Hstep as <-. rewrite elem_of_union, elem_of_singleton, IH.
        subst p. split.
        * intros [ ->|(m & ? & ?)]; [exists n|exists m]; tauto.
        * intros (m & [?|[= ->]] & Hm); [right; by exists m|left; congruence].
      + injection Hstep as <-. rewrite IH. split.
        * intros (m & ? & ?). exists m. tauto.
        * intros (m & [?|[= -> ->]] & Hm); [by exists m|done]. }
  by setoid_rewrite elem_of_map_to_list.
Qed.

Lemma calculate_reachable_loop g (l : list Z) (R0 R : gset Z) :
  for_each
    (fun (acc : gset Z) (idx : Z) =>
       idxs ← descendants g idx; Ok (acc ∪ idxs ∪ {[ idx ]}))
    l R0 = Ok R ->
  forall i, i ∈ R <-> i ∈ R0 \/ exists e, e ∈ l /\ rtc (arc g) e i.
Proof.
  apply (for_each_inv (fun pre (acc : gset Z) => forall i,
           i ∈ acc <-> i ∈ R0 \/ exists e, e ∈ pre /\ rtc (arc g) e i)).
  - intros i. split; [by left|]. by intros [?|(e & []%elem_of_nil & _)].
  - intros pre idx acc acc' IH Hstep i.
    destruct (descendants g idx) as [D|] eqn:HD; simpl in Hstep; [|done].
    injection Hstep as <-.
    rewrite !elem_of_union, elem_of_singleton, IH, (elem_of_descendants _ _ _ _ HD).
    setoid_rewrite elem_of_app. setoid_rewrite list_elem_of_singleton. split.
    + intros [[[?|(e & ? & ?)]|[? _]]| ->]; [by left|right..].
      * exists e. tauto.
      * exists idx. tauto.
      * exists idx. split; [by right|done].
    + intros [?|(e & [?| ->] & Hr)]; [tauto| |].
      * left. left. right. by exists e.
      * destruct (decide (i = idx)); tauto.
Qed.

(** A successful run, stage by stage. *)
Lemma run_stages ident path fs d :
  run ident path fs = Ok d ->
  exists cg t,
    fs !! path = Some cg /\
    callgraph d = cg /\
    d_package d = (if PyStr.has_char ":" ident then ident else ident +:+ ":1") /\
    for_each create_graph_node (nodes cg) fresh_tables = Ok t /\
    graph d = add_edges (t_graph t) (edges cg) /\
    n2idx d = t_n2idx t /\ n2pkg d = t_n2pkg t /\
    (forall i, i ∈ entrypoints d <->
       exists n, t_n2pkg t !! n = Some (d_package d) /\ t_n2idx t !! n = Some i) /\
    (forall i, i ∈ reachable_idxs d <->
       exists e, e ∈ entrypoints d /\ rtc (arc (graph d)) e i) /\
    final_callgraph d =
      mkCallgraph (filter (fun iv => iv.1 ∈ reachable_idxs d) (nodes cg))
        (filter (fun e => e.1 ∈ reachable_idxs d /\ e.2 ∈ reachable_idxs d)
                (edges cg)).
Proof.
  unfold run, init. intros Hrun.
  destruct (if PyStr.has_char ":" ident then _ else _) as [[b pk]|] eqn:Hid;
    simpl in Hrun; [|done].
  assert (pk = if PyStr.has_char ":" ident then ident else ident +:+ ":1") as Hpk.
  { destruct (PyStr.has_char ":" ident), (PyStr.has_char "/" ident); congruence. }
  case_decide as Hex; simpl in Hrun; [|done].
  unfold reach, load_callgraph in Hrun. simpl in Hrun.
  destruct (fs !! path) as [cg|] eqn:Hcg; simpl in Hrun; [|done].
  unfold create_graph in Hrun. simpl in Hrun.
  fold fresh_tables in Hrun.
  destruct (for_each create_graph_node _ _) as [t|] eqn:Ht; simpl in Hrun; [|done].
  unfold find_entrypoints in Hrun. simpl in Hrun.
  destruct (for_each _ (map_to_list _) _) as [eps|] eqn:Heps; simpl in Hrun; [|done].
  unfold calculate_reachable in Hrun. simpl in Hrun.
  destruct (for_each _ (elements eps) _) as [R|] eqn:HR; simpl in Hrun; [|done].
  injection Hrun as <-. exists cg, t. simpl.
  split_and!; try done.
  - by apply find_entrypoints_loop.
  - intros i. rewrite (calculate_reachable_loop _ _ _ _ HR i).
    setoid_rewrite elem_of_elements. split; [|by right].
    by intros [?%elem_of_empty|?].
Qed.

(** Every document whose nodes each carry a package or a library is
    processed to the end. *)
Lemma run_total ident path fs cg :
  fs !! path = Some cg ->
  PyStr.has_char ":" ident || PyStr.has_char "/" ident = true ->
  (forall iv, iv ∈ nodes cg -> is_Some (library iv.2) \/ is_Some (package iv.2)) ->
  exists d, run ident path fs = Ok d.
Proof.
  intros Hcg Hid Hwf. unfold run, init.
  destruct (if PyStr.has_char ":" ident then _ else _) as [[b pk]|] eqn:Hfmt; simpl.
  2: { destruct (PyStr.has_char ":" ident), (PyStr.has_char "/" ident); done. }
  rewrite decide_True by (by rewrite Hcg).
  unfold reach, load_callgraph. simpl. rewrite Hcg. simpl.
  unfold create_graph. simpl. fold fresh_tables.
  destruct (for_each_total (fun _ => True) create_graph_node (nodes cg) fresh_tables I)
    as (t & Ht & _).
  { intros t [idx v] _ Hin. unfold create_graph_node.
    destruct (Hwf _ Hin) as [[l Hl]|[pk' Hpk]]; simpl in *.
    - rewrite Hl. simpl. eauto.
    - rewrite Hpk. destruct (library v); simpl; eauto. }
  rewrite Ht. simpl. pose proof (create_graph_nodes_ok _ _ Ht) as [Hv Ha Hi Hp].
  unfold find_entrypoints. simpl.
  destruct (for_each_total
    (fun acc : gset Z => forall i, i ∈ acc -> exists n, t_n2idx t !! n = Some i)
    (fun (acc : gset Z) (np : string * string) =>
       if decide (np.2 = pk)
       then idx ← of_option (t_n2idx t !! np.1) KeyError; Ok ({[ idx ]} ∪ acc)
       else Ok acc)
    (map_to_list (t_n2pkg t)) ∅) as (eps & Heps & Hepsn).
  { by intros i ?%elem_of_empty. }
  { intros acc [n p] Hacc Hin%elem_of_map_to_list. simpl. case_decide; [|by eauto].
    destruct (Hp _ _ Hin) as [[j Hj] _]. rewrite Hj. simpl. eexists; split; [done|].
    intros i [->%elem_of_singleton|?]%elem_of_union; eauto. }
  rewrite Heps. simpl. unfold calculate_reachable. simpl.
  destruct (for_each_total (fun _ => True)
    (fun (acc : gset Z) (idx : Z) =>
       idxs ← descendants (add_edges (t_graph t) (edges cg)) idx;
       Ok (acc ∪ idxs ∪ {[ idx ]}))
    (elements eps) ∅ I) as (R & HR & _).
  { intros acc idx _ Hin%elem_of_elements. unfold descendants.
    rewrite decide_True; [simpl; eauto|].
    apply elem_of_vertices_add_edges. left. apply Hv.
    destruct (Hepsn _ Hin) as (n & (v & Hv' & _)%Hi).
    apply list_elem_of_fmap. by exists (idx, v). }
  rewrite HR. simpl. eauto.
Qed.

End reach_facts.

(** C10: a package identity with neither [:] nor [/] makes the
    constructor raise [ValueError] whatever the files on disk are, so
    nothing is read and no empty result is produced; an identity with [/]
    and no [:] is accepted as a repository and becomes the identity
    followed by [:1]; an identity with [:] is taken as it is. *)
Theorem init_identity_format (package path : string) (fs : Reach.files) :
  (PyStr.has_char ":" package = false -> PyStr.has_char "/" package = false ->
   Reach.init package path fs
     = Raise (ValueError ("Unrecognized package naming format: " +:+ package)) /\
   Reach.run package path fs
     = Raise (ValueError ("Unrecognized package naming format: " +:+ package))) /\
  (PyStr.has_char ":" package = false -> PyStr.has_char "/" package = true ->
   is_Some (fs !! path) ->
   exists d, Reach.init package path fs = Ok d /\
             Reach.d_package d = package +:+ ":1" /\ Reach.pypi d = false) /\
  (PyStr.has_char ":" package = true -> is_Some (fs !! path) ->
   exists d, Reach.init package path fs = Ok d /\
             Reach.d_package d = package /\ Reach.pypi d = true).
Proof.
  unfold Reach.run, Reach.init. split_and!.
  - by intros -> ->.
  - intros -> -> Hfs. simpl. rewrite decide_True by done. eauto.
  - intros -> Hfs. simpl. rewrite decide_True by done. eauto.
Qed.

Lemma init_identity_format_witness :
  Reach.run "requests" "unified.json" ∅
    = Raise (ValueError "Unrecognized package naming format: requests") /\
  (exists d, Reach.init "psf/requests" "unified.json"
               {[ "unified.json" := Unified.empty_callgraph ]} = Ok d /\
             Reach.d_package d = "psf/requests:1" /\ Reach.pypi d = false) /\
  (exists d, Reach.init "requests:2.31.0" "unified.json"
               {[ "unified.json" := Unified.empty_callgraph ]} = Ok d /\
             Reach.d_package d = "requests:2.31.0" /\ Reach.pypi d = true).
Proof.
  split_and!.
  - apply (init_identity_format "requests" "unified.json" ∅); reflexivity.
  - apply (init_identity_format "psf/requests" "unified.json"
             {[ "unified.json" := Unified.empty_callgraph ]});
      [reflexivity|reflexivity|vm_compute; eauto].
  - apply (init_identity_format "requests:2.31.0" "unified.json"
             {[ "unified.json" := Unified.empty_callgraph ]});
      [reflexivity|vm_compute; eauto].
Defined.

(** C1: on every run that produces an output, the entrypoints lie in the
    reachable set, the reachable set is closed under the edges of the
    input graph, and the output graph keeps exactly the input nodes whose
    id is reachable and exactly the input edges with both endpoints
    reachable; when every edge of the input joins ids of its node table,
    every reachable id is the id of an output node. *)
Theorem reach_output_closed (package path : string) (fs : Reach.files)
    (d : Reach.detector) :
  Reach.run package path fs = Ok d ->
  let cg := Reach.callgraph d in
  let R := Reach.reachable_idxs d in
  let out := Reach.final_callgraph d in
  fs !! path = Some cg /\
  Reach.entrypoints d ⊆ R /\
  (forall n m, n ∈ R -> (n, m) ∈ Unified.edges cg -> m ∈ R) /\
  Unified.nodes out = filter (fun iv => iv.1 ∈ R) (Unified.nodes cg) /\
  Unified.edges out
    = filter (fun e => e.1 ∈ R /\ e.2 ∈ R) (Unified.edges cg) /\
  ((forall e, e ∈ Unified.edges cg ->
      e.1 ∈ (Unified.nodes cg).*1 /\ e.2 ∈ (Unified.nodes cg).*1) ->
   forall i, i ∈ R <-> i ∈ (Unified.nodes out).*1).
Proof.
  intros (cg & t & Hfs & Hcg & _ & Ht & Hg & Hn2i & Hn2p & Heps & HR & Hout)%run_stages.
  simpl. rewrite Hcg, Hout. simpl.
  pose proof (create_graph_nodes_ok _ _ Ht) as [Hv Ha Hi Hp].
  assert (forall a b, arc (Reach.graph d) a b <-> (a, b) ∈ Unified.edges cg) as Harc.
  { intros a b. unfold arc. rewrite Hg, elem_of_arcs_add_edges, Ha, elem_of_nil. tauto. }
  split_and!; try done.
  - intros i Hi'. apply HR. by exists i.
  - intros n m (e & He & Hr)%HR Hnm. apply HR. exists e. split; [done|].
    eapply rtc_r; [done|]. by apply Harc.
  - intros Hwf i. rewrite list_elem_of_fmap. split.
    + intros Hin. assert (i ∈ (Unified.nodes cg).*1) as Hid.
      { apply HR in Hin as (e & He & Hr).
        assert (e ∈ (Unified.nodes cg).*1) as Heid.
        { apply Heps in He as (n & _ & (v & Hv' & _)%Hi).
          apply list_elem_of_fmap. by exists (e, v). }
        clear He. induction Hr as [|a b c Hab _ IH]; [done|].
        apply IH. apply Harc in Hab. by apply (Hwf _ Hab). }
      apply list_elem_of_fmap in Hid as ([j v] & -> & Hjv).
      exists (j, v). split; [done|]. by apply list_elem_of_filter.
    + intros ([j v] & -> & [Hj _]%list_elem_of_filter). done.
Qed.

Lemma reach_output_closed_witness :
  let cg := Unified.mkCallgraph
     [(0, Unified.mkNode "app.main" (Some "app:1.0") None);
      (1, Unified.mkNode "app.helper" (Some "app:1.0") None);
      (2, Unified.mkNode "dep.vuln" (Some "dep:2.0") None);
      (3, Unified.mkNode "dep.other" (Some "dep:2.0") None)]
     [(0, 1); (1, 2); (3, 2)] in
  exists d, Reach.run "app:1.0" "unified.json" {[ "unified.json" := cg ]} = Ok d /\
    Reach.entrypoints d ⊆ Reach.reachable_idxs d /\
    Unified.edges (Reach.final_callgraph d) = [(0, 1); (1, 2)].
Proof.
  intros cg.
  destruct (Reach.run "app:1.0" "unified.json" {[ "unified.json" := cg ]})
    as [d|e] eqn:Hrun; [|by vm_compute in Hrun].
  exists d. split; [done|].
  pose proof (reach_output_closed _ _ _ _ Hrun) as (_ & Heps & _ & _ & He & _).
  split; [exact Heps|].
  vm_compute in Hrun. injection Hrun as <-. reflexivity.
Defined.

Lemma filter_none {A} (P : A -> Prop) `{forall x, Decision (P x)} (l : list A) :
  (forall x, x ∈ l -> ~ P x) -> filter P l = [].
Proof.
  induction l as [|x l IH]; intros Hn; [done|].
  rewrite filter_cons_False by (apply Hn; by left).
  apply IH. intros y Hy. apply Hn. by right.
Qed.

(** C6 (as amended): the detector identifies nodes by name.  On a
    document whose nodes each carry a package or a library, it runs to
    the end with the repository identity normalised to version 1; when
    the node names are pairwise distinct, its entrypoints are exactly the
    library-less nodes whose package equals the identity; and when no
    node has that package, entrypoints and output graph are empty. *)
Theorem entrypoints_by_name (ident path : string) (fs : Reach.files)
    (cg : Unified.callgraph) :
  fs !! path = Some cg ->
  PyStr.has_char ":" ident || PyStr.has_char "/" ident = true ->
  (forall iv, iv ∈ Unified.nodes cg ->
     is_Some (Unified.library iv.2) \/ is_Some (Unified.package iv.2)) ->
  exists d,
    Reach.run ident path fs = Ok d /\
    Reach.callgraph d = cg /\
    Reach.d_package d
      = (if PyStr.has_char ":" ident then ident else ident +:+ ":1") /\
    (NoDup ((fun iv => Unified.name iv.2) <$> Unified.nodes cg) ->
     forall i, i ∈ Reach.entrypoints d <->
       exists v, (i, v) ∈ Unified.nodes cg /\ Unified.library v = None /\
                 Unified.package v = Some (Reach.d_package d)) /\
    ((forall iv, iv ∈ Unified.nodes cg ->
        Unified.package iv.2 <> Some (Reach.d_package d)) ->
     Reach.entrypoints d = ∅ /\
     Reach.final_callgraph d = Unified.empty_callgraph).
Proof.
  intros Hfs Hid Hwf. destruct (run_total _ _ _ _ Hfs Hid Hwf) as [d Hrun].
  exists d. split; [done|].
  apply run_stages in Hrun
    as (cg' & t & Hfs' & Hcg & Hpk & Ht & Hg & Hn2i & Hn2p & Heps & HR & Hout).
  assert (cg' = cg) as -> by congruence.
  pose proof (create_graph_nodes_ok _ _ Ht) as [Hv Ha Hi Hp].
  split_and!; [done..| |].
  - intros Hnd i. destruct (create_graph_nodes_exact _ _ Ht Hnd) as [Hxi Hxp].
    rewrite Heps. split.
    + intros (n & Hn & Hni). destruct (Hi _ _ Hni) as (v & Hin & <-).
      apply Hp in Hn as [_ (j & v' & Hin' & Hname & Hpkg & Hlib)].
      assert (v' = v) as ->.
      { apply list_elem_of_lookup in Hin as [a Ha'], Hin' as [b Hb'].
        assert (a = b) as ->; [|congruence].
        eapply NoDup_lookup; [exact Hnd| |]; rewrite list_lookup_fmap.
        - by rewrite Ha'.
        - rewrite Hb'. simpl. by rewrite Hname. }
      by exists v.
    + intros (v & Hin & Hlib & Hpkg). exists (Unified.name v).
      split; [|by apply Hxi]. by rewrite (Hxp _ _ Hin Hlib).
  - intros Hnone.
    assert (Reach.entrypoints d = ∅) as Hempty.
    { apply set_eq. intros i. rewrite Heps. split; [|by intros ?%elem_of_empty].
      intros (n & (_ & j & v & Hin & _ & Hpkg & _)%Hp & _).
      by destruct (Hnone _ Hin). }
    split; [done|]. rewrite Hout. unfold Unified.empty_callgraph.
    assert (forall i, i ∉ Reach.reachable_idxs d) as HRe.
    { intros i (e & He & _)%HR. rewrite Hempty in He. by apply elem_of_empty in He. }
    f_equal; apply filter_none.
    + intros [i v] _ Hi'. by apply (HRe i).
    + intros [a b] _ [Ha' _]. by apply (HRe a).
Qed.

Lemma entrypoints_by_name_witness :
  let cg := Unified.mkCallgraph
     [(0, Unified.mkNode "app.main" (Some "app:1") None);
      (1, Unified.mkNode "dep.vuln" (Some "dep:2.0") None);
      (2, Unified.mkNode "PyInit_dep" None (Some "dep/_dep.so"))]
     [(0, 1); (1, 2)] in
  exists d, Reach.run "owner/app" "unified.json" {[ "unified.json" := cg ]} = Ok d /\
    Reach.d_package d = "owner/app:1" /\
    Reach.final_callgraph d = Unified.empty_callgraph.
Proof.
  intros cg.
  destruct (entrypoints_by_name "owner/app" "unified.json"
              {[ "unified.json" := cg ]} cg) as (d & Hrun & _ & Hpk & _ & Hnone).
  - reflexivity.
  - reflexivity.
  - intros iv
      [->|[->|[->|[]%elem_of_nil]%elem_of_cons]%elem_of_cons]%elem_of_cons;
      simpl; eauto.
  - exists d. split; [exact Hrun|]. split; [exact Hpk|]. apply Hnone.
    rewrite Hpk. change (if PyStr.has_char ":" "owner/app" then "owner/app"
                         else "owner/app" +:+ ":1") with "owner/app:1".
    intros iv
      [->|[->|[->|[]%elem_of_nil]%elem_of_cons]%elem_of_cons]%elem_of_cons;
      simpl; discriminate.
Defined.

(** C6 as stated fails when two nodes share a name: the package of the
    later node hides the earlier one, which is owned by the application
    and yet is no entrypoint. *)
Lemma entrypoints_collision_counterexample :
  let cg := Unified.mkCallgraph
     [(0, Unified.mkNode "tests" (Some "app:1") None);
      (1, Unified.mkNode "tests" (Some "dep:2") None)]
     [] in
  exists d, Reach.run "app:1" "unified.json" {[ "unified.json" := cg ]} = Ok d /\
    ~ (forall i, i ∈ Reach.entrypoints d <->
         exists v, (i, v) ∈ Unified.nodes cg /\
                   Unified.package v = Some (Reach.d_package d)).
Proof.
  intros cg. eexists. split; [vm_compute; reflexivity|].
  intros Hall. specialize (Hall 0). simpl in Hall.
  assert (0 ∈ (∅ : gset Z)) as Hbad; [|by apply elem_of_empty in Hbad].
  apply Hall. exists (Unified.mkNode "tests" (Some "app:1") None).
  split; [by left|reflexivity].
Qed.


(** ** Call chains and centrality *)

Section reverse_facts.
Variable g : Graph.DiGraph.

Lemma out_degree_reverse n :
  Graph.out_degree (Graph.reverse g) n = Graph.in_degree g n.
Proof.
  unfold Graph.out_degree, Graph.in_degree, Graph.successors, Graph.predecessors.
  f_equal. unfold Graph.reverse. cbn [Graph.arcs].
  induction (Graph.arcs g) as [|[a b] l IH]; [done|].
  rewrite fmap_cons, !filter_cons. cbn [Graph.swap fst snd].
  destruct (decide (b = n)); [|exact IH].
  rewrite !fmap_cons. cbn [fst snd]. f_equal. exact IH.
Qed.

Lemma arc_reverse a b : arc (Graph.reverse g) a b <-> arc g b a.
Proof.
  unfold arc. simpl. rewrite list_elem_of_fmap. split.
  - intros ([x y] & [= -> ->] & Hin). done.
  - intros Hin. by exists (b, a).
Qed.

Lemma rtc_arc_reverse a b : rtc (arc (Graph.reverse g)) a b <-> rtc (arc g) b a.
Proof.
  split.
  - induction 1 as [|x y z Hxy _ IH]; [done|].
    eapply rtc_r; [exact IH|]. by apply arc_reverse.
  - induction 1 as [|x y z Hxy _ IH]; [done|].
    eapply rtc_r; [exact IH|]. by apply arc_reverse.
Qed.

Lemma walk_snoc (h : Graph.DiGraph) p a b :
  walk h p -> last p = Some a -> arc h a b -> walk h (p ++ [b]).
Proof.
  induction 1 as [n|x y q Hxy Hw IH]; intros Hl Hab.
  - simpl in Hl. injection Hl as ->. simpl. constructor; [done|constructor].
  - rewrite last_cons_cons in Hl. simpl. constructor; [done|]. by apply IH.
Qed.

Lemma walk_reverse p :
  walk (Graph.reverse g) p -> walk g (reverse p).
Proof.
  induction 1 as [n|a b q Hab Hw IH].
  - constructor.
  - rewrite reverse_cons. eapply walk_snoc; [exact IH| |by apply arc_reverse].
    rewrite reverse_cons. by rewrite last_snoc.
Qed.

Lemma walk_reverse_inv p :
  walk g p -> walk (Graph.reverse g) (reverse p).
Proof.
  induction 1 as [n|a b q Hab Hw IH].
  - constructor.
  - rewrite reverse_cons. eapply walk_snoc; [exact IH| |by apply arc_reverse].
    rewrite reverse_cons. by rewrite last_snoc.
Qed.

Lemma head_reverse_last {A} (p : list A) : head (reverse p) = last p.
Proof.
  induction p as [|x p IH] using rev_ind; [done|].
  by rewrite reverse_snoc, last_snoc.
Qed.

Lemma last_reverse_head {A} (p : list A) : last (reverse p) = head p.
Proof. destruct p as [|x p]; [done|]. by rewrite reverse_cons, last_snoc. Qed.

End reverse_facts.

Section chain_facts.
Import Unified Chain.
Variable sp : Graph.DiGraph -> Z -> Z -> option (list Z).
Hypothesis sp_ok : shortest_path_contract sp.

Definition fresh_chain_tables : tables := mkTables Graph.empty_graph None ∅ ∅ ∅.

Record chain_tables_ok (sym : string) (ns : list (Z * node)) (t : tables)
  : Prop := {
  cok_vertices : forall x, x ∈ Graph.vertices (t_graph t) <-> x ∈ ns.*1;
  cok_arcs : Graph.arcs (t_graph t) = [];
  cok_symbol_some : (exists iv, iv ∈ ns /\ name iv.2 = sym) ->
                    is_Some (t_symbol_idx t);
  cok_symbol : forall i, t_symbol_idx t = Some i ->
                 exists v, (i, v) ∈ ns /\ name v = sym;
  cok_idx2n : forall i, i ∈ ns.*1 ->
                exists v, (i, v) ∈ ns /\ t_idx2n t !! i = Some (name v);
  cok_idx2n_inv : forall i n, t_idx2n t !! i = Some n ->
                    exists v, (i, v) ∈ ns /\ name v = n
}.

Lemma chain_nodes_ok sym ns :
  chain_tables_ok sym ns (foldl (create_graph_node sym) fresh_chain_tables ns).
Proof.
  apply (foldl_inv (chain_tables_ok sym)).
  - split; simpl; try done.
    + by intros (iv & []%elem_of_nil & _).
    + by intros i []%elem_of_nil.
  - intros pre [idx v] t [Hv Ha Hs1 Hs2 Hi Hinv]. split; simpl.
    + intros x. rewrite elem_of_add_vertex, fmap_app, elem_of_app, Hv. simpl.
      rewrite list_elem_of_singleton. tauto.
    + done.
    + intros (iv & [Hin|Hin%list_elem_of_singleton]%elem_of_app & Hname).
      * case_decide; [done|]. apply Hs1. by exists iv.
      * subst iv. simpl in Hname. by rewrite decide_True.
    + intros i. case_decide as Hn.
      * intros [= <-]. exists v. split; [apply elem_of_app; right; by left|done].
      * intros (v' & ? & ?)%Hs2. exists v'. split; [apply elem_of_app; by left|done].
    + intros i. rewrite fmap_app, elem_of_app. simpl. rewrite list_elem_of_singleton.
      destruct (decide (i = idx)) as [->|Hne].
      * intros _. exists v. rewrite lookup_insert_eq.
        split; [apply elem_of_app; right; by left|done].
      * intros [(v' & ? & ?)%Hi|?]; [|done]. exists v'.
        rewrite lookup_insert_ne by done.
        split; [apply elem_of_app; by left|done].
    + intros i n. destruct (decide (i = idx)) as [->|Hne].
      * rewrite lookup_insert_eq. intros [= <-]. exists v.
        split; [apply elem_of_app; right; by left|done].
      * rewrite lookup_insert_ne by done. intros (v' & ? & ?)%Hinv.
        exists v'. split; [apply elem_of_app; by left|done].
Qed.

Lemma visit_leaf_fold G sidx l ps n :
  foldl (visit_leaf sp G sidx) (ps, n) l =
  (ps ++ omap (fun r => sidx ≫= (fun s => sp G s r))
           (filter (fun r => Graph.out_degree G r = 0%nat) l),
   (n + length (filter (fun r => Graph.out_degree G r = 0%nat) l))%nat).
Proof.
  revert ps n. induction l as [|x l IH]; intros ps n; simpl.
  - by rewrite app_nil_r, Nat.add_0_r.
  - rewrite filter_cons. destruct (decide (Graph.out_degree G x = 0%nat)) as [Hx|Hx].
    + simpl. destruct (sidx ≫= _) as [p|] eqn:Hp; rewrite IH.
      * rewrite <- app_assoc. f_equal. simpl. lia.
      * f_equal. simpl. lia.
    + by rewrite IH.
Qed.

Lemma walk_elems g p (X : Z -> Prop) :
  walk g p -> (forall r, head p = Some r -> X r) ->
  (forall a b, arc g a b -> X b) -> forall x, x ∈ p -> X x.
Proof.
  induction 1 as [n|a b q Hab Hw IH]; intros Hh Hstep x.
  - intros ->%list_elem_of_singleton. by apply Hh.
  - intros [->|Hin]%elem_of_cons; [by apply Hh|].
    apply IH; [|done..]. simpl. intros r [= <-]. by eapply Hstep.
Qed.

Lemma length_omap_le {A B} (f : A -> option B) l :
  (length (omap f l) <= length l)%nat.
Proof.
  induction l as [|x l IH]; [done|]. csimpl.
  destruct (f x); simpl; lia.
Qed.

(** Roots as the design document puts it: the nodes nothing calls. *)
Definition spec_roots (g : Graph.DiGraph) : list Z :=
  filter (fun n => Graph.in_degree g n = 0%nat) (Graph.vertices g).

(** The chain of one root: the shortest path of the reversed graph from
    the symbol to the root that networkx answers with, turned back into
    calling order. *)
Definition chain_to (g : Graph.DiGraph) (sidx r : Z) : option (list Z) :=
  reverse <$> sp (Graph.reverse g) sidx r.

Definition chain_len (ch : list string) : Z := Z.of_nat (length ch).

Lemma elem_of_predecessors g n m : m ∈ Graph.predecessors g n <-> arc g m n.
Proof.
  unfold Graph.predecessors, arc. rewrite list_elem_of_fmap. split.
  - intros [[a b] [-> [Ha Hin]%list_elem_of_filter]]. simpl in *. by subst.
  - intros H. exists (m, n). split; [done|]. by apply list_elem_of_filter.
Qed.

Lemma elem_of_spec_roots g r :
  r ∈ spec_roots g <-> r ∈ Graph.vertices g /\ forall m, ~ arc g m r.
Proof.
  unfold spec_roots, Graph.in_degree. rewrite list_elem_of_filter. split.
  - intros [Hlen Hv]. split; [done|]. intros m Hm%elem_of_predecessors.
    apply nil_length_inv in Hlen. rewrite Hlen in Hm. by apply elem_of_nil in Hm.
  - intros [Hv Hn]. split; [|done].
    destruct (Graph.predecessors g r) as [|m l] eqn:Hp; [done|].
    destruct (Hn m). apply elem_of_predecessors. rewrite Hp. by left.
Qed.

Lemma spec_roots_reverse g :
  spec_roots g
  = filter (fun r => Graph.out_degree (Graph.reverse g) r = 0%nat)
           (Graph.vertices (Graph.reverse g)).
Proof.
  unfold spec_roots. simpl. apply list_filter_iff. intros r.
  by rewrite out_degree_reverse.
Qed.

Lemma omap_chain_to g sidx (l : list Z) :
  omap (chain_to g sidx) l
  = reverse <$> omap (sp (Graph.reverse g) sidx) l.
Proof.
  unfold chain_to. induction l as [|r l IH]; [done|]. csimpl.
  destruct (sp _ _ r); csimpl; by rewrite IH.
Qed.

Lemma chain_to_sound g sidx r p :
  chain_to g sidx r = Some p ->
  walk g p /\ head p = Some r /\ last p = Some sidx /\
  forall q, walk g q -> head q = Some r -> last q = Some sidx ->
            (length p <= length q)%nat.
Proof.
  unfold chain_to. destruct (sp _ _ _) as [p0|] eqn:Hp0; [|done].
  intros [= <-]. apply (sp_sound _ sp_ok) in Hp0 as (Hw & Hh & Hl & Hmin).
  split_and!.
  - by apply walk_reverse.
  - by rewrite head_reverse_last.
  - by rewrite last_reverse_head.
  - intros q Hq Hqh Hql. rewrite length_reverse.
    rewrite <- (length_reverse q). apply Hmin.
    + by apply walk_reverse_inv.
    + by rewrite head_reverse_last.
    + by rewrite last_reverse_head.
Qed.

Lemma chain_to_complete g sidx r :
  sidx ∈ Graph.vertices g -> r ∈ Graph.vertices g ->
  is_Some (chain_to g sidx r) <-> rtc (arc g) r sidx.
Proof.
  intros Hs Hr. unfold chain_to. rewrite fmap_is_Some. split.
  - intros [p Hp]. apply rtc_arc_reverse.
    apply (sp_sound _ sp_ok) in Hp as (Hw & Hh & Hl & _).
    eapply rtc_nsteps_2. by apply walk_nsteps.
  - intros Hrtc. apply (sp_complete _ sp_ok); [done..|]. by apply rtc_arc_reverse.
Qed.

(** One query, with the file present, written as a single expression. *)
Lemma find_call_chains_unfold path sym fs cg :
  fs !! path = Some cg ->
  find_call_chains sp path sym fs =
    let t := foldl (create_graph_node sym) fresh_chain_tables (nodes cg) in
    match t_symbol_idx t with
    | None => Ok ([], 0%Q)
    | Some sidx =>
        let g := Graph.add_edges (t_graph t) (edges cg) in
        let chains := omap (chain_to g sidx) (spec_roots g) in
        if decide (length (spec_roots g) = 0%nat) then Raise ZeroDivisionError
        else
          named ← map_result (name_chain (t_idx2n t)) chains;
          Ok (PyList.sorted_by chain_len named,
              Z.of_nat (length chains) # Pos.of_nat (length (spec_roots g)))
    end.
Proof.
  intros Hfs. unfold find_call_chains, init.
  rewrite decide_True by (by rewrite Hfs). simpl.
  unfold process, load_callgraph. simpl. rewrite Hfs. simpl.
  unfold create_graph. simpl. fold fresh_chain_tables.
  destruct (t_symbol_idx _) as [sidx|] eqn:Hsidx; simpl; [|done].
  unfold find_callchains. simpl.
  rewrite visit_leaf_fold. simpl.
  rewrite <- spec_roots_reverse, <- omap_chain_to.
  destruct (decide (length (spec_roots _) = 0%nat)) as [Hz|Hz]; [done|].
  simpl. destruct (map_result _ _); done.
Qed.

(** The node the query is about, when several carry the name: the last
    one of the document. *)
Lemma symbol_idx_last sym ns t0 :
  t_symbol_idx (foldl (create_graph_node sym) t0 ns)
  = match last (filter (fun iv => name iv.2 = sym) ns) with
    | Some iv => Some iv.1
    | None => t_symbol_idx t0
    end.
Proof.
  induction ns as [|[i v] ns IH] using rev_ind; [done|].
  rewrite foldl_app, filter_app. simpl. rewrite filter_cons, filter_nil. simpl.
  case_decide as Hn.
  - by rewrite last_snoc.
  - by rewrite app_nil_r.
Qed.

(** The graph of a document: its node ids and its edges. *)
Definition doc_graph (cg : Unified.callgraph) : Graph.DiGraph :=
  Graph.mkDiGraph (nodes cg).*1 (edges cg).

Lemma vertices_nodes sym ns t0 :
  Graph.vertices (t_graph (foldl (create_graph_node sym) t0 ns))
  = foldl (fun l i => Graph.add_vertex i l) (Graph.vertices (t_graph t0)) ns.*1.
Proof.
  revert t0. induction ns as [|[i v] ns IH]; intros t0; simpl; [done|].
  by rewrite IH.
Qed.

Lemma add_vertices_NoDup l ids :
  NoDup (l ++ ids) -> foldl (fun l i => Graph.add_vertex i l) l ids = l ++ ids.
Proof.
  revert l. induction ids as [|i ids IH]; intros l Hnd; simpl.
  - by rewrite app_nil_r.
  - unfold Graph.add_vertex at 2. rewrite decide_False.
    + rewrite IH; rewrite <- app_assoc; done.
    + apply NoDup_app in Hnd as (_ & Hdis & _). intros Hin.
      apply (Hdis i Hin). by left.
Qed.

Lemma vertices_add_edges g es :
  (forall e, e ∈ es -> e.1 ∈ Graph.vertices g /\ e.2 ∈ Graph.vertices g) ->
  Graph.vertices (Graph.add_edges g es) = Graph.vertices g.
Proof.
  revert g. induction es as [|e es IH]; intros g Hes; [done|].
  assert (Graph.vertices (Graph.add_edge e.1 e.2 g) = Graph.vertices g) as Hv.
  { destruct (Hes e) as [H1 H2]; [by left|]. unfold Graph.add_edge. simpl.
    unfold Graph.add_vertex. rewrite (decide_True _ _ H1).
    by rewrite decide_True. }
  unfold Graph.add_edges in *. simpl. rewrite IH; [done|].
  intros e' He'. rewrite Hv. apply Hes. by right.
Qed.

Lemma in_degree_zero g r :
  Graph.in_degree g r = 0%nat <-> forall m, ~ arc g m r.
Proof.
  unfold Graph.in_degree. split.
  - intros Hlen m Hm%elem_of_predecessors.
    apply nil_length_inv in Hlen. rewrite Hlen in Hm. by apply elem_of_nil in Hm.
  - intros Hn. destruct (Graph.predecessors g r) as [|m l] eqn:Hp; [done|].
    destruct (Hn m). apply elem_of_predecessors. rewrite Hp. by left.
Qed.

Lemma spec_roots_ext g g' :
  Graph.vertices g = Graph.vertices g' ->
  (forall a b, arc g a b <-> arc g' a b) ->
  spec_roots g = spec_roots g'.
Proof.
  intros Hv Ha. unfold spec_roots. rewrite Hv. apply list_filter_iff.
  intros r. rewrite !in_degree_zero. by setoid_rewrite Ha.
Qed.

Lemma walk_ext g g' p :
  (forall a b, arc g a b -> arc g' a b) -> walk g p -> walk g' p.
Proof.
  intros Ha. induction 1 as [n|a b q Hab Hw IH]; constructor; [by apply Ha|done].
Qed.

Lemma omap_filter {A B} (f : A -> option B) (l : list A) :
  Forall2 (fun r p => f r = Some p) (filter (fun r => is_Some (f r)) l) (omap f l).
Proof.
  induction l as [|x l IH]; [constructor|]. csimpl. rewrite filter_cons.
  destruct (f x) as [y|] eqn:Hx.
  - rewrite decide_True by (by eexists). by constructor.
  - rewrite decide_False; [done|]. by intros [? ?].
Qed.

End chain_facts.


(** C3: for a reachable-subgraph document that names the symbol (its
    node ids pairwise distinct, its edges joining ids of its node table)
    the calculator takes as roots the nodes without incoming edge, in
    document order -- the nodes without outgoing edge of the reversed
    graph --, and asks about the last node that carries the name.  The
    roots from which the symbol can be reached are exactly those that
    get a chain, one each; the chain of a root is a walk from the root
    down to the symbol, the reverse of a walk of the reversed graph,
    that no other such walk undercuts.  The query returns these chains
    by name, shortest first, with the centrality (roots with a chain) /
    (roots); with no root at all the division raises.  This holds
    whichever shortest path networkx picks. *)
Theorem callchains_spec (sp : Graph.DiGraph -> Z -> Z -> option (list Z))
    (path sym : string) (fs : Chain.files) (cg : Unified.callgraph) :
  shortest_path_contract sp ->
  fs !! path = Some cg ->
  (exists iv, iv ∈ Unified.nodes cg /\ Unified.name iv.2 = sym) ->
  NoDup (Unified.nodes cg).*1 ->
  (forall e, e ∈ Unified.edges cg ->
     e.1 ∈ (Unified.nodes cg).*1 /\ e.2 ∈ (Unified.nodes cg).*1) ->
  let G := doc_graph cg in
  let roots := spec_roots G in
  (forall r, r ∈ roots <->
     r ∈ (Unified.nodes cg).*1 /\ forall m, (m, r) ∉ Unified.edges cg) /\
  NoDup roots /\
  roots = filter (fun r => Graph.out_degree (Graph.reverse G) r = 0%nat)
                 (Graph.vertices (Graph.reverse G)) /\
  exists sidx found paths named,
    fst <$> last (filter (fun iv => Unified.name iv.2 = sym) (Unified.nodes cg))
      = Some sidx /\
    (exists v, (sidx, v) ∈ Unified.nodes cg /\ Unified.name v = sym) /\
    found `sublist_of` roots /\
    (forall r, r ∈ roots -> r ∈ found <-> rtc (arc G) r sidx) /\
    Forall2 (fun r p =>
               walk G p /\ head p = Some r /\ last p = Some sidx /\
               walk (Graph.reverse G) (reverse p) /\
               forall q, walk G q -> head q = Some r -> last q = Some sidx ->
                         (length p <= length q)%nat)
            found paths /\
    Forall2 (Forall2 (fun i n =>
               exists v, (i, v) ∈ Unified.nodes cg /\ Unified.name v = n))
            paths named /\
    (roots = [] ->
     Chain.find_call_chains sp path sym fs = Raise ZeroDivisionError) /\
    (roots <> [] ->
     Chain.find_call_chains sp path sym fs
       = Ok (PyList.sorted_by chain_len named,
             Z.of_nat (length found) # Pos.of_nat (length roots))).
Proof.
  intros Hsp Hfs Hsym Hnd Hwf G roots.
  pose proof (chain_nodes_ok sym (Unified.nodes cg)) as [Hv Ha Hs1 Hs2 Hi Hinv].
  rewrite (find_call_chains_unfold sp _ _ _ _ Hfs). cbv zeta.
  pose proof (symbol_idx_last sym (Unified.nodes cg) fresh_chain_tables) as Hlast.
  pose proof (vertices_nodes sym (Unified.nodes cg) fresh_chain_tables) as Hvn.
  set (t := foldl (Chain.create_graph_node sym) fresh_chain_tables (Unified.nodes cg))
    in *.
  destruct (Hs1 Hsym) as [sidx Hsidx]. rewrite Hsidx.
  set (g := Graph.add_edges (Chain.t_graph t) (Unified.edges cg)).
  assert (forall a b, arc g a b <-> arc G a b) as Harc.
  { intros a b. unfold arc, g. rewrite elem_of_arcs_add_edges, Ha, elem_of_nil.
    simpl. tauto. }
  assert (Graph.vertices (Chain.t_graph t) = (Unified.nodes cg).*1) as Hvt.
  { rewrite Hvn. simpl. by rewrite (add_vertices_NoDup []). }
  assert (Graph.vertices g = Graph.vertices G) as Hvert.
  { unfold g. rewrite vertices_add_edges; [done|]. intros e He.
    rewrite Hvt. by apply Hwf. }
  assert (spec_roots g = roots) as Hroots by (by apply spec_roots_ext).
  rewrite Hroots.
  assert (forall r, r ∈ roots <->
            r ∈ (Unified.nodes cg).*1 /\ forall m, (m, r) ∉ Unified.edges cg)
    as Hrootsp.
  { intros r. unfold roots. by rewrite elem_of_spec_roots. }
  assert (sidx ∈ Graph.vertices g) as Hsv.
  { rewrite Hvert. destruct (Hs2 _ Hsidx) as (v & Hin & _).
    apply list_elem_of_fmap. by exists (sidx, v). }
  split_and!; [done|by apply NoDup_filter|apply spec_roots_reverse|].
  set (found := filter (fun r => is_Some (chain_to sp g sidx r)) roots).
  set (paths := omap (chain_to sp g sidx) roots).
  assert (Forall2 (fun r p => chain_to sp g sidx r = Some p) found paths) as Hfp
    by apply omap_filter.
  assert (forall r p, chain_to sp g sidx r = Some p ->
            walk G p /\ head p = Some r /\ last p = Some sidx /\
            walk (Graph.reverse G) (reverse p) /\
            forall q, walk G q -> head q = Some r -> last q = Some sidx ->
                      (length p <= length q)%nat) as Hsound.
  { intros r p Hp. apply (chain_to_sound sp Hsp) in Hp as (Hw & Hh & Hl & Hmin).
    assert (walk G p) as HwG by (eapply walk_ext; [|exact Hw]; by apply Harc).
    split_and!; [done..|by apply walk_reverse_inv|].
    intros q Hq. apply Hmin. eapply walk_ext; [|exact Hq]. by apply Harc. }
  destruct (map_result_total (Chain.name_chain (Chain.t_idx2n t)) paths)
    as (named & Hnamed & Hall).
  { intros ch (r & Hr & Hch)%list_elem_of_omap.
    destruct (map_result_total (fun i => of_option (Chain.t_idx2n t !! i) KeyError) ch)
      as (nc & Hnc & _); [|by exists nc].
    intros i Hin. apply Hsound in Hch as (Hw & Hh & _).
    assert (i ∈ (Unified.nodes cg).*1) as Hid.
    { apply (walk_elems G ch (fun x => x ∈ (Unified.nodes cg).*1) Hw); [| |done].
      - intros r' Hr'. assert (r' = r) as -> by congruence.
        by apply Hrootsp in Hr as [? _].
      - intros a b Hab. by apply (Hwf _ Hab). }
    destruct (Hi _ Hid) as (v & _ & ->). by eexists. }
  exists sidx, found, paths, named. split_and!.
  - rewrite Hlast in Hsidx. simpl in Hsidx.
    destruct (last _) as [iv|]; simpl in *; [done|done].
  - by apply Hs2.
  - apply sublist_filter.
  - intros r Hr. unfold found. rewrite list_elem_of_filter.
    rewrite (chain_to_complete sp Hsp g sidx r Hsv).
    + split; [intros [Hrt _]|intros Hrt; split; [|done]];
        (eapply rtc_subrel; [|exact Hrt]); intros a b; apply Harc.
    + rewrite Hvert. by apply Hrootsp in Hr as [? _].
  - eapply Forall2_impl; [exact Hfp|]. intros r p Hp. by apply Hsound.
  - eapply Forall2_impl; [exact Hall|]. intros ch nc Hnc. simpl in Hnc.
    apply map_result_Ok in Hnc.
    eapply Forall2_impl; [exact Hnc|]. intros i n Hin. simpl in Hin.
    destruct (Chain.t_idx2n t !! i) as [n'|] eqn:Hn'; [|done]. injection Hin as <-.
    by apply Hinv.
  - intros ->. simpl. done.
  - intros Hne. rewrite decide_False by (by destruct roots).
    fold paths. rewrite Hnamed. simpl.
    by rewrite (Forall2_length _ _ _ Hfp).
Qed.

(** The diamond [main -> a -> vuln], [main -> b -> vuln] with a second
    root [tool] that does not reach the symbol: one chain of three
    nodes, centrality 1/2, whichever of the two shortest paths is
    picked. *)
Lemma callchains_spec_witness :
  let cg := Unified.mkCallgraph
     [(0, Unified.mkNode "app.main" (Some "app:1.0") None);
      (1, Unified.mkNode "app.a" (Some "app:1.0") None);
      (2, Unified.mkNode "app.b" (Some "app:1.0") None);
      (3, Unified.mkNode "dep.vuln" (Some "dep:2.0") None);
      (4, Unified.mkNode "app.tool" (Some "app:1.0") None)]
     [(0, 1); (0, 2); (1, 3); (2, 3)] in
  spec_roots (doc_graph cg) = [0; 4] /\
  exists found paths named,
    found `sublist_of` [0; 4] /\
    (0 ∈ found <-> rtc (arc (doc_graph cg)) 0 3) /\
    Forall2 (fun r p => head p = Some r /\ last p = Some 3) found paths /\
    Forall2 (fun p nc => length nc = length p) paths named /\
    Chain.find_call_chains Graph.search_path "reached.json" "dep.vuln"
      {[ "reached.json" := cg ]}
    = Ok (PyList.sorted_by chain_len named, Z.of_nat (length found) # 2).
Proof.
  intros cg. split; [reflexivity|].
  destruct (callchains_spec Graph.search_path "reached.json" "dep.vuln"
              {[ "reached.json" := cg ]} cg search_path_contract)
    as (_ & _ & _ & sidx & found & paths & named & Hsidx & _ & Hsub & Hreach
        & Hpaths & Hnamed & _ & Hrun).
  - reflexivity.
  - exists (3, Unified.mkNode "dep.vuln" (Some "dep:2.0") None).
    split; [|reflexivity]. do 3 apply list_elem_of_further. apply list_elem_of_here.
  - apply (bool_decide_unpack _). vm_compute. reflexivity.
  - intros e He. apply (bool_decide_unpack _).
    revert e He. apply Forall_forall. repeat constructor.
  - injection Hsidx as <-. exists found, paths, named. split_and!.
    + exact Hsub.
    + apply Hreach. apply list_elem_of_here.
    + eapply Forall2_impl; [exact Hpaths|]. intros r p (_ & Hh & Hl & _).
      by split.
    + eapply Forall2_impl; [exact Hnamed|]. intros p nc Hpn.
      symmetry. by eapply Forall2_length.
    + apply Hrun. discriminate.
Defined.

(** Supporting facts for the centrality query: the score of every query
    that returns lies between 0 and 1, and a symbol that names no node
    gives no chain and the initial score 0 without any exception. *)
Lemma centrality_bounds sp path sym fs chains c :
  Chain.find_call_chains sp path sym fs = Ok (chains, c) -> (0 <= c <= 1)%Q.
Proof.
  intros Hq. destruct (fs !! path) as [cg|] eqn:Hfs.
  2: { unfold Chain.find_call_chains, Chain.init in Hq.
       rewrite decide_False in Hq; [done|]. rewrite Hfs. by intros [? ?]. }
  rewrite (find_call_chains_unfold sp _ _ _ _ Hfs) in Hq. cbv zeta in Hq.
  destruct (Chain.t_symbol_idx _) as [sidx|].
  - case_decide as Hz; [done|].
    destruct (map_result _ _) as [named|]; simpl in Hq; [|done].
    injection Hq as _ <-.
    match goal with |- context [omap ?f ?l] =>
      pose proof (length_omap_le f l) as Hle; revert Hz Hle;
      generalize (length (omap f l)); generalize (length l) end.
    intros n m Hn Hle. unfold Qle. simpl.
    rewrite <- positive_nat_Z, Nat2Pos.id by done. lia.
  - injection Hq as _ <-. done.
Qed.

Lemma symbol_absent_no_chains sp path sym fs cg :
  fs !! path = Some cg ->
  (forall iv, iv ∈ Unified.nodes cg -> Unified.name iv.2 <> sym) ->
  Chain.find_call_chains sp path sym fs = Ok ([], 0%Q).
Proof.
  intros Hfs Habs. rewrite (find_call_chains_unfold sp _ _ _ _ Hfs). cbv zeta.
  pose proof (chain_nodes_ok sym (Unified.nodes cg)) as [_ _ _ Hs2 _ _].
  destruct (Chain.t_symbol_idx _) as [sidx|]; [|done].
  destruct (Hs2 sidx eq_refl) as (v & Hin & Hname). by destruct (Habs _ Hin).
Qed.

(** C4, the failing query: a reachable graph in which every node has an
    incoming edge (here one self-recursive function) has no root, and the
    query for a symbol it contains ends in [ZeroDivisionError] instead of
    a zero or undefined centrality, whatever [nx.shortest_path] does. *)
Theorem centrality_zero_roots_raises
    (sp : Graph.DiGraph -> Z -> Z -> option (list Z)) :
  Chain.find_call_chains sp "reached.json" "app.loop"
    {[ "reached.json" :=
         Unified.mkCallgraph
           [(0, Unified.mkNode "app.loop" (Some "app:1.0") None)] [(0, 0)] ]}
  = Raise ZeroDivisionError.
Proof. vm_compute. reflexivity. Qed.

(** ** Native library merger *)

Section unify_facts.
Import Unify.

Lemma egress_of_set_egress name lib c u n :
  egress_of (set_egress name lib c u) n
  = if decide (n = name) then ODict.set lib c (egress_of u name)
    else egress_of u n.
Proof.
  unfold egress_of, set_egress. simpl. case_decide as Hn.
  - subst. by rewrite lookup_insert_eq.
  - by rewrite lookup_insert_ne.
Qed.

(** Facts about the state that hold all through [unify]. *)
Record wf (u : unifier) : Prop := {
  wf_ids : forall i v, (i, v) ∈ final_nodes u -> 0 <= i < next_index u;
  wf_next : 0 <= next_index u;
  wf_nodup : NoDup (final_nodes u).*1;
  wf_idx2n : forall i nm, idx2n u !! i = Some nm -> i < next_index u;
  wf_n2idx : forall nm i, n2idx u !! nm = Some i -> idx2n u !! i = Some nm;
  wf_keys : forall nm, NoDup (egress_of u nm).*1
}.

Lemma wf_init : wf init.
Proof.
  split; simpl; try done.
  - by intros i v ?%elem_of_nil.
  - constructor.
  - intros nm. unfold egress_of. simpl. rewrite lookup_empty. constructor.
Qed.

Lemma wf_set_egress name lib c u : wf u -> wf (set_egress name lib c u).
Proof.
  intros [H1 H2 H3 H4 H5 H6]. split; try done.
  intros nm. rewrite egress_of_set_egress. case_decide; [|done].
  rewrite keys_set. by apply add_key_NoDup.
Qed.

Lemma next_index_fresh u : wf u -> next_index u ∉ (final_nodes u).*1.
Proof.
  intros Hwf ([i v] & Hi & Hin)%list_elem_of_fmap. simpl in Hi. subst i.
  apply (wf_ids _ Hwf) in Hin. lia.
Qed.

Lemma final_nodes_with_node name node u :
  wf u -> final_nodes (with_node name node u)
          = final_nodes u ++ [(next_index u, node)].
Proof. intros Hwf. simpl. apply set_fresh. by apply next_index_fresh. Qed.

Lemma wf_with_node name node u : wf u -> wf (with_node name node u).
Proof.
  intros Hwf. pose proof Hwf as [H1 H2 H3 H4 H5 H6]. split.
  - intros i v. rewrite final_nodes_with_node by done.
    intros [Hin|[= -> ->]%list_elem_of_singleton]%elem_of_app; simpl.
    + apply H1 in Hin. lia.
    + lia.
  - simpl. lia.
  - rewrite final_nodes_with_node by done. rewrite fmap_app.
    apply NoDup_app. split_and!; [done| |apply NoDup_singleton].
    intros x Hx ->%list_elem_of_singleton. by apply (next_index_fresh u).
  - simpl. intros i nm. destruct (decide (i = next_index u)) as [->|Hne].
    + intros _. lia.
    + rewrite lookup_insert_ne by done. intros ?%H4. lia.
  - simpl. intros nm i. destruct (decide (nm = name)) as [->|Hne].
    + rewrite lookup_insert_eq. intros [= <-]. by rewrite lookup_insert_eq.
    + rewrite lookup_insert_ne by done. intros Hn.
      rewrite lookup_insert_ne; [by apply H5|].
      intros <-. apply H5, H4 in Hn. lia.
  - done.
Qed.

Lemma wf_with_edge e u : wf u -> wf (with_edge e u).
Proof. by intros [H1 H2 H3 H4 H5 H6]. Qed.

Lemma egress_of_with_node name node u n :
  egress_of (with_node name node u) n = egress_of u n.
Proof. done. Qed.

Lemma egress_of_with_edge e u n : egress_of (with_edge e u) n = egress_of u n.
Proof. done. Qed.

(** Facts that hold while only native documents have been loaded. *)
Record native_ok (u : unifier) : Prop := {
  nat_nodes : forall i v, (i, v) ∈ final_nodes u ->
                Unified.package v = None /\ is_Some (Unified.library v) /\
                n2idx u !! Unified.name v = Some i;
  nat_n2idx : forall nm i, n2idx u !! nm = Some i ->
                exists v, (i, v) ∈ final_nodes u /\ Unified.name v = nm;
  nat_counts : forall nm l c, (l, c) ∈ egress_of u nm -> 0 <= c;
  nat_tally : forall nm, is_Some (n2idx u !! nm) -> egress_of u nm <> []
}.

Lemma native_ok_init : native_ok init.
Proof.
  split; simpl.
  - by intros i v ?%elem_of_nil.
  - intros nm i. by rewrite lookup_empty.
  - intros nm l c. unfold egress_of. simpl. rewrite lookup_empty.
    by intros ?%elem_of_nil.
  - intros nm. rewrite lookup_empty. by intros [? ?].
Qed.

Lemma native_ok_set_egress name lib c u :
  wf u -> native_ok u -> 0 <= c -> native_ok (set_egress name lib c u).
Proof.
  intros Hwf [H1 H2 H3 H4] Hc. split; try done.
  - intros nm l c'. rewrite egress_of_set_egress. case_decide; [|by apply H3].
    intros [[_ ->]|[_ Hin]]%elem_of_set; [done|by eapply H3|by apply wf_keys].
  - intros nm Hnm. rewrite egress_of_set_egress. case_decide; [|by apply H4].
    apply set_not_nil.
Qed.

Lemma native_ok_new_node name lib u :
  wf u -> native_ok u -> n2idx u !! name = None ->
  native_ok (set_egress name lib 0
               (with_node name (Unified.mkNode name None (Some lib)) u)).
Proof.
  intros Hwf [H1 H2 H3 H4] Hnew.
  set (node := Unified.mkNode name None (Some lib)). split.
  - intros i v. change (final_nodes (set_egress _ _ _ _))
      with (final_nodes (with_node name node u)).
    rewrite final_nodes_with_node by done. simpl.
    intros [Hin|[= -> ->]%list_elem_of_singleton]%elem_of_app.
    + destruct (H1 _ _ Hin) as (Hp & Hl & Hn). split_and!; [done..|].
      rewrite lookup_insert_ne; [done|]. intros Heq. congruence.
    + simpl. split_and!; [done|by eauto|]. by rewrite lookup_insert_eq.
  - intros nm i. change (final_nodes (set_egress _ _ _ _))
      with (final_nodes (with_node name node u)).
    rewrite final_nodes_with_node by done. simpl.
    destruct (decide (nm = name)) as [->|Hne].
    + rewrite lookup_insert_eq. intros [= <-]. exists node.
      split; [apply elem_of_app; right; by left|done].
    + rewrite lookup_insert_ne by done. intros (v & Hin & Hv)%H2.
      exists v. split; [apply elem_of_app; by left|done].
  - intros nm l c. rewrite egress_of_set_egress, !egress_of_with_node.
    case_decide; [|by apply H3].
    intros [[_ ->]|[_ Hin]]%elem_of_set; [done|by eapply H3|by apply wf_keys].
  - intros nm. rewrite egress_of_set_egress, !egress_of_with_node. simpl.
    case_decide as Hn; [intros _; apply set_not_nil|].
    rewrite lookup_insert_ne by done. apply H4.
Qed.

(** The libraries recorded for a name while the native documents are
    loaded, in the order in which they first bring the name. *)
Definition discovered (n : string) (docs : list Native.callgraph) : list string :=
  foldl (fun ks d => if decide (n ∈ (Native.nodes d).*2)
                     then add_key (Native.library d) ks else ks) [] docs.

(** What the node loop of one document has established after the nodes
    [pre], starting from [u0]. *)
Record socg_nodes_ok (lib : string) (u0 : unifier) (pre : list (Z * string))
    (st : unifier * gmap Z Z) : Prop := {
  sn_wf : wf st.1;
  sn_native : native_ok st.1;
  sn_keys : forall n, (egress_of st.1 n).*1
              = if decide (n ∈ pre.*2) then add_key lib (egress_of u0 n).*1
                else (egress_of u0 n).*1;
  sn_old2new : forall k i, st.2 !! k = Some i ->
                 exists nm, idx2n st.1 !! i = Some nm /\
                            lib ∈ (egress_of st.1 nm).*1;
  sn_seen : forall n, n ∈ pre.*2 -> is_Some (n2idx st.1 !! n);
  sn_mono : forall n, is_Some (n2idx u0 !! n) -> is_Some (n2idx st.1 !! n)
}.

Lemma load_socg_nodes_ok lib u0 ns :
  wf u0 -> native_ok u0 ->
  socg_nodes_ok lib u0 ns (foldl (load_socg_node lib) (u0, ∅) ns).
Proof.
  intros Hwf0 Hnat0. apply (foldl_inv (socg_nodes_ok lib u0)).
  - split; cbn [fst snd]; try done.
    + by intros n ?%elem_of_nil.
  - intros pre [k name] [u o2n] [Hwf Hnat Hkeys Ho2n Hseen Hmono].
    cbn [fst snd] in *. cbn [load_socg_node].
    set (node := Unified.mkNode name None (Some lib)).
    assert (exists u1 idx,
      (match n2idx u !! name with
       | Some idx => (u, <[k:=idx]> o2n)
       | None => (with_node name node u, <[k:=next_index u]> o2n)
       end) = (u1, <[k:=idx]> o2n) /\
      wf u1 /\ native_ok (set_egress name lib 0 u1) /\
      (forall n, egress_of u1 n = egress_of u n) /\
      idx2n u1 !! idx = Some name /\
      (forall i nm, idx2n u !! i = Some nm -> idx2n u1 !! i = Some nm) /\
      n2idx u1 !! name = Some idx /\
      (forall n, is_Some (n2idx u !! n) -> is_Some (n2idx u1 !! n)))
      as (u1 & idx & -> & Hwf1 & Hnat1 & He1 & Hidx & Hi2n & Hn2i & Hmono1).
    { destruct (n2idx u !! name) as [idx|] eqn:Hlook.
      - exists u, idx. split_and!; try done.
        + by apply native_ok_set_egress.
        + by apply (wf_n2idx _ Hwf).
      - exists (with_node name node u), (next_index u). split_and!; try done.
        + by apply wf_with_node.
        + by apply native_ok_new_node.
        + simpl. by rewrite lookup_insert_eq.
        + simpl. intros i nm Hi. rewrite lookup_insert_ne; [done|].
          intros <-. apply (wf_idx2n _ Hwf) in Hi. lia.
        + simpl. by rewrite lookup_insert_eq.
        + simpl. intros n Hn. destruct (decide (n = name)) as [->|Hne].
          * rewrite lookup_insert_eq. by eauto.
          * by rewrite lookup_insert_ne. }
    split; simpl.
    + by apply wf_set_egress.
    + done.
    + intros n. rewrite egress_of_set_egress.
      assert (n ∈ (pre ++ [(k, name)]).*2 <-> n ∈ pre.*2 \/ n = name) as Hmem.
      { rewrite fmap_app, elem_of_app. simpl. by rewrite list_elem_of_singleton. }
      destruct (decide (n = name)) as [Hn|Hn].
      * subst n. rewrite keys_set, He1, Hkeys.
        destruct (decide (name ∈ (pre ++ [(k, name)]).*2)) as [_|Hno];
          [|destruct Hno; apply Hmem; by right].
        case_decide; [by rewrite add_key_idemp|done].
      * rewrite He1, Hkeys.
        destruct (decide (n ∈ pre.*2)) as [Hp|Hp];
          destruct (decide (n ∈ (pre ++ [(k, name)]).*2)) as [Hq|Hq]; try done.
        -- destruct Hq. apply Hmem. by left.
        -- apply Hmem in Hq as [?|?]; done.
    + intros k' i. destruct (decide (k' = k)) as [->|Hne].
      * rewrite lookup_insert_eq. intros [= <-]. exists name. split; [done|].
        rewrite egress_of_set_egress, decide_True by done. rewrite keys_set.
        apply elem_of_add_key. by left.
      * rewrite lookup_insert_ne by done. intros (nm & Hnm & Hlib)%Ho2n.
        exists nm. split; [by apply Hi2n|].
        rewrite egress_of_set_egress. case_decide.
        -- subst nm. rewrite keys_set, He1. apply elem_of_add_key. by left.
        -- by rewrite He1.
    + intros n. rewrite fmap_app, elem_of_app. simpl.
      rewrite list_elem_of_singleton. intros [Hn| ->].
      * apply Hmono1. by apply Hseen.
      * by eauto.
    + intros n Hn. by apply Hmono1, Hmono.
Qed.

Lemma add_key_present {K} `{EqDecision K} (k : K) ks :
  k ∈ ks -> add_key k ks = ks.
Proof. intros Hin. unfold add_key. by rewrite decide_True. Qed.

Lemma load_socg_edges_ok lib o2n es u u' :
  wf u -> native_ok u ->
  (forall k i, o2n !! k = Some i ->
     exists nm, idx2n u !! i = Some nm /\ lib ∈ (egress_of u nm).*1) ->
  for_each (load_socg_edge lib o2n) es u = Ok u' ->
  wf u' /\ native_ok u' /\
  (forall n, (egress_of u' n).*1 = (egress_of u n).*1) /\
  n2idx u' = n2idx u /\ idx2n u' = idx2n u /\ final_nodes u' = final_nodes u.
Proof.
  intros Hwf Hnat Ho2n.
  apply (for_each_inv (fun (pre : list (Z * Z)) u' =>
    wf u' /\ native_ok u' /\
    (forall n, (egress_of u' n).*1 = (egress_of u n).*1) /\
    n2idx u' = n2idx u /\ idx2n u' = idx2n u /\ final_nodes u' = final_nodes u)).
  - done.
  - intros pre e u1 u2 (Hwf1 & Hnat1 & Hk1 & Hn1 & Hi1 & Hf1) Hstep.
    unfold load_socg_edge in Hstep.
    destruct (o2n !! e.1) as [newsrc|] eqn:Hsrc; simpl in Hstep; [|done].
    destruct (o2n !! e.2) as [newdst|] eqn:Hdst; simpl in Hstep; [|done].
    destruct (idx2n u1 !! newsrc) as [srcname|] eqn:Hname; simpl in Hstep; [|done].
    destruct (Ho2n _ _ Hsrc) as (nm & Hnm & Hlib).
    assert (nm = srcname) as -> by congruence.
    rewrite egress_of_with_edge in Hstep.
    assert (lib ∈ (egress_of u1 srcname).*1) as Hlib1 by (by rewrite Hk1).
    destruct (get_is_Some _ _ Hlib1) as [c Hc]. rewrite Hc in Hstep.
    injection Hstep as <-.
    assert (0 <= c) as Hc0.
    { eapply (nat_counts _ Hnat1). by apply get_Some. }
    split_and!; try done.
    + by apply wf_set_egress, wf_with_edge.
    + apply native_ok_set_egress; [by apply wf_with_edge| |lia].
      by destruct Hnat1.
    + intros n. rewrite egress_of_set_egress, egress_of_with_edge.
      case_decide as Hn; [|apply Hk1]. subst n.
      rewrite keys_set, add_key_present by done. apply Hk1.
Qed.

Lemma load_socg_ok u doc u' :
  wf u -> native_ok u -> load_socg u doc = Ok u' ->
  wf u' /\ native_ok u' /\
  (forall n, (egress_of u' n).*1
     = if decide (n ∈ (Native.nodes doc).*2)
       then add_key (Native.library doc) (egress_of u n).*1
       else (egress_of u n).*1) /\
  (forall n, n ∈ (Native.nodes doc).*2 -> is_Some (n2idx u' !! n)) /\
  (forall n, is_Some (n2idx u !! n) -> is_Some (n2idx u' !! n)).
Proof.
  intros Hwf Hnat. unfold load_socg.
  pose proof (load_socg_nodes_ok (Native.library doc) u (Native.nodes doc) Hwf Hnat)
    as [Hwf1 Hnat1 Hkeys Ho2n Hseen Hmono].
  destruct (foldl _ _ _) as [u1 o2n]. simpl in *. intros Hedges.
  apply load_socg_edges_ok in Hedges as (Hwf2 & Hnat2 & Hk2 & Hn2 & Hi2 & Hf2);
    [|done..].
  split_and!; [done..| | |].
  - intros n. by rewrite Hk2, Hkeys.
  - intros n Hn. rewrite Hn2. by apply Hseen.
  - intros n Hn. rewrite Hn2. by apply Hmono.
Qed.

Lemma discovered_snoc n docs d :
  discovered n (docs ++ [d])
  = if decide (n ∈ (Native.nodes d).*2)
    then add_key (Native.library d) (discovered n docs)
    else discovered n docs.
Proof. unfold discovered. by rewrite foldl_app. Qed.

(** After [load_socgs]: only native nodes, every name of a document
    registered, nonnegative counts, and the libraries of each name in the
    order of the documents that brought it. *)
Lemma load_socgs_ok docs u :
  load_socgs docs init = Ok u ->
  wf u /\ native_ok u /\
  (forall n, (egress_of u n).*1 = discovered n docs) /\
  (forall d n, d ∈ docs -> n ∈ (Native.nodes d).*2 -> is_Some (n2idx u !! n)).
Proof.
  unfold load_socgs.
  apply (for_each_inv (fun pre u =>
    wf u /\ native_ok u /\
    (forall n, (egress_of u n).*1 = discovered n pre) /\
    (forall d n, d ∈ pre -> n ∈ (Native.nodes d).*2 -> is_Some (n2idx u !! n)))).
  - split_and!; [apply wf_init|apply native_ok_init| |].
    + intros n. unfold egress_of. simpl. by rewrite lookup_empty.
    + by intros d n ?%elem_of_nil.
  - intros pre d u1 u2 (Hwf & Hnat & Hk & Hs) Hstep.
    apply load_socg_ok in Hstep as (Hwf2 & Hnat2 & Hk2 & Hs2 & Hm2); [|done..].
    split_and!; [done..| |].
    + intros n. rewrite discovered_snoc, Hk2, Hk. done.
    + intros d' n [Hin| ->%list_elem_of_singleton]%elem_of_app Hn.
      * apply Hm2. by eapply Hs.
      * by apply Hs2.
Qed.

(** *** The counts *)

(** The number of edges of a native document that leave a node named
    [n]. *)
Definition egress_in (d : Native.callgraph) (n : string) : Z :=
  Z.of_nat (length (filter (fun e => (e.1, n) ∈ Native.nodes d) (Native.edges d))).

(** A document of the library [l] that has a node named [n]. *)
Definition brings (n l : string) (d : Native.callgraph) : Prop :=
  Native.library d = l /\ n ∈ (Native.nodes d).*2.

(** The count [egress_per_name_per_lib[n][l]] after the documents
    [docs]: the node loop of every document of [l] that brings [n] sets
    it back to 0, so it is the number of edges that leave [n] in the
    last of them. *)
Definition counted (docs : list Native.callgraph) (n l : string) (c : Z) : Prop :=
  exists pre d post, docs = pre ++ d :: post /\ brings n l d /\
    Forall (fun d' => ~ brings n l d') post /\ c = egress_in d n.

Lemma load_socg_nodes_counts lib u0 ns :
  wf u0 -> native_ok u0 ->
  let st := foldl (load_socg_node lib) (u0, ∅) ns in
  (forall n l c, (l, c) ∈ egress_of st.1 n ->
     (l = lib /\ n ∈ ns.*2 /\ c = 0) \/
     (~ (l = lib /\ n ∈ ns.*2) /\ (l, c) ∈ egress_of u0 n)) /\
  (forall k i, st.2 !! k = Some i ->
     exists nm, (k, nm) ∈ ns /\ idx2n st.1 !! i = Some nm).
Proof.
  intros Hwf0 Hnat0. cbv zeta.
  induction ns as [|[k name] pre IH] using rev_ind.
  - simpl. split.
    + intros n l c Hin. right. split; [|done]. by intros (_ & []%elem_of_nil).
    + intros k i. by rewrite lookup_empty.
  - pose proof (load_socg_nodes_ok lib u0 pre Hwf0 Hnat0) as [Hwf _ _ _ _ _].
    rewrite foldl_app. destruct IH as [IHa IHb].
    destruct (foldl (load_socg_node lib) (u0, ∅) pre) as [u o2n].
    cbn [fst snd] in *. cbn [foldl load_socg_node].
    assert (forall n, n ∈ (pre ++ [(k, name)]).*2 <-> n ∈ pre.*2 \/ n = name) as Hmem.
    { intros n. rewrite fmap_app, elem_of_app. simpl.
      by rewrite list_elem_of_singleton. }
    assert (exists u1 idx,
      (match n2idx u !! name with
       | Some idx => (u, <[k:=idx]> o2n)
       | None => (with_node name (Unified.mkNode name None (Some lib)) u,
                  <[k:=next_index u]> o2n)
       end) = (u1, <[k:=idx]> o2n) /\
      (forall n, egress_of u1 n = egress_of u n) /\
      idx2n u1 !! idx = Some name /\
      (forall i nm, idx2n u !! i = Some nm -> idx2n u1 !! i = Some nm))
      as (u1 & idx & -> & He1 & Hidx & Hi2n).
    { destruct (n2idx u !! name) as [idx|] eqn:Hlook.
      - exists u, idx. split_and!; try done. by apply (wf_n2idx _ Hwf).
      - eexists _, (next_index u). split_and!; [done|done| |].
        + simpl. by rewrite lookup_insert_eq.
        + simpl. intros i nm Hi. rewrite lookup_insert_ne; [done|].
          intros <-. apply (wf_idx2n _ Hwf) in Hi. lia. }
    cbn [fst snd]. split.
    + intros n l c. rewrite egress_of_set_egress, !He1. rewrite Hmem.
      case_decide as Hn.
      * subst n. intros [[-> ->]|[Hne Hin]]%elem_of_set; [| |by apply wf_keys].
        -- left. split_and!; [done|by right|done].
        -- right. destruct (IHa _ _ _ Hin) as [(-> & _)|[_ Hin0]]; [done|].
           split; [|done]. by intros [-> _].
      * intros [(-> & Hp & ->)|[Hno Hin0]]%IHa.
        -- left. split_and!; [done|by left|done].
        -- right. split; [|done]. intros (-> & [Hp|Hp]); [|done].
           by apply Hno.
    + intros k' i. destruct (decide (k' = k)) as [->|Hne].
      * rewrite lookup_insert_eq. intros [= <-]. exists name.
        split; [apply elem_of_app; right; by left|done].
      * rewrite lookup_insert_ne by done. intros (nm & Hin & Hnm)%IHb.
        exists nm. split; [apply elem_of_app; by left|]. by apply Hi2n.
Qed.

Lemma load_socg_edges_counts (doc : Native.callgraph) o2n u0 u1 u2 :
  NoDup (Native.nodes doc).*1 ->
  wf u1 -> native_ok u1 ->
  (forall k i, o2n !! k = Some i ->
     exists nm, idx2n u1 !! i = Some nm /\
                Native.library doc ∈ (egress_of u1 nm).*1) ->
  (forall k i, o2n !! k = Some i ->
     exists nm, (k, nm) ∈ Native.nodes doc /\ idx2n u1 !! i = Some nm) ->
  (forall n l c, (l, c) ∈ egress_of u1 n ->
     (l = Native.library doc /\ n ∈ (Native.nodes doc).*2 /\ c = 0) \/
     (~ (l = Native.library doc /\ n ∈ (Native.nodes doc).*2) /\
      (l, c) ∈ egress_of u0 n)) ->
  for_each (load_socg_edge (Native.library doc) o2n) (Native.edges doc) u1 = Ok u2 ->
  forall n l c, (l, c) ∈ egress_of u2 n ->
    (brings n l doc /\ c = egress_in doc n) \/
    (~ brings n l doc /\ (l, c) ∈ egress_of u0 n).
Proof.
  intros Hnd Hwf1 Hnat1 Hlib Hname Hzero Hrun.
  set (lib := Native.library doc) in *.
  set (cnt (es : list (Z * Z)) (n : string) :=
         Z.of_nat (length (filter (fun e => (e.1, n) ∈ Native.nodes doc) es))).
  assert (forall k n m, (k, n) ∈ Native.nodes doc -> (k, m) ∈ Native.nodes doc ->
            n = m) as Hfun.
  { intros k n m [a Ha]%list_elem_of_lookup [b Hb]%list_elem_of_lookup.
    assert (a = b) as ->; [|congruence].
    eapply NoDup_lookup; [exact Hnd| |]; rewrite list_lookup_fmap.
    - by rewrite Ha.
    - by rewrite Hb. }
  assert (wf u2 /\ native_ok u2 /\ idx2n u2 = idx2n u1 /\
    (forall nm, (egress_of u2 nm).*1 = (egress_of u1 nm).*1) /\
    forall n l c, (l, c) ∈ egress_of u2 n ->
      ((l = lib /\ n ∈ (Native.nodes doc).*2) /\ c = cnt (Native.edges doc) n) \/
      (~ (l = lib /\ n ∈ (Native.nodes doc).*2) /\ (l, c) ∈ egress_of u0 n))
    as (_ & _ & _ & _ & Hfinal).
  2: { intros n l c Hin.
       destruct (Hfinal n l c Hin) as [[[-> Hn] ->]|[Hno Hin0]].
       - left. by split.
       - right. split; [|done]. intros [<- ?]. by apply Hno. }
  revert Hrun.
  apply (for_each_inv (fun (pre : list (Z * Z)) u =>
    wf u /\ native_ok u /\ idx2n u = idx2n u1 /\
    (forall nm, (egress_of u nm).*1 = (egress_of u1 nm).*1) /\
    forall n l c, (l, c) ∈ egress_of u n ->
      ((l = lib /\ n ∈ (Native.nodes doc).*2) /\ c = cnt pre n) \/
      (~ (l = lib /\ n ∈ (Native.nodes doc).*2) /\ (l, c) ∈ egress_of u0 n))).
  - split_and!; [done..|]. intros n l c [(-> & Hn & ->)|?]%Hzero; [by left|by right].
  - intros pre e ua ub (Hwfa & Hnata & Hia & Hka & Hinv) Hstep.
    assert (wf ub /\ native_ok ub /\
            (forall n, (egress_of ub n).*1 = (egress_of ua n).*1) /\
            idx2n ub = idx2n ua) as (Hwfb & Hnatb & Hkb & Hib).
    { destruct (load_socg_edges_ok lib o2n [e] ua ub Hwfa Hnata)
        as (? & ? & ? & _ & ? & _); [| |done].
      - intros k i Hk. destruct (Hlib k i Hk) as (nm & Hnm & Hl).
        exists nm. by rewrite Hia, Hka.
      - simpl. by rewrite Hstep. }
    split_and!; [done|done|congruence|intros nm; by rewrite Hkb, Hka|].
    unfold load_socg_edge in Hstep.
    destruct (o2n !! e.1) as [newsrc|] eqn:Hsrc; simpl in Hstep; [|done].
    destruct (o2n !! e.2) as [newdst|] eqn:Hdst; simpl in Hstep; [|done].
    destruct (idx2n ua !! newsrc) as [srcname|] eqn:Hsn; simpl in Hstep; [|done].
    destruct (Hname _ _ Hsrc) as (nm & Hnode & Hnm).
    assert (nm = srcname) as -> by (rewrite Hia in Hsn; congruence).
    assert (srcname ∈ (Native.nodes doc).*2) as Hsrcn.
    { apply list_elem_of_fmap. by exists (e.1, srcname). }
    assert (forall n, cnt (pre ++ [e]) n
                      = if decide (n = srcname) then cnt pre n + 1 else cnt pre n)
      as Hcnt.
    { intros n. unfold cnt. rewrite filter_app, length_app.
      rewrite filter_cons, filter_nil.
      destruct (decide (n = srcname)) as [->|Hn].
      - rewrite decide_True by done. simpl. lia.
      - rewrite decide_False; [simpl; lia|]. intros Hin. apply Hn.
        by eapply Hfun. }
    rewrite egress_of_with_edge in Hstep.
    assert (lib ∈ (egress_of ua srcname).*1) as Hin_lib.
    { destruct (Hlib _ _ Hsrc) as (nm & Hnm' & Hl). rewrite Hka.
      assert (nm = srcname) as -> by congruence. done. }
    destruct (get_is_Some _ _ Hin_lib) as [c1 Hc1]. rewrite Hc1 in Hstep.
    injection Hstep as <-. apply get_Some in Hc1.
    assert (c1 = cnt pre srcname) as ->.
    { apply Hinv in Hc1 as [[_ ->]|[Hno _]]; [done|]. by destruct Hno. }
    intros n l c. rewrite egress_of_set_egress, egress_of_with_edge, Hcnt.
    case_decide as Hn.
    + subst n. intros [[-> ->]|[Hne Hin]]%elem_of_set; [| |by apply wf_keys].
      * by left.
      * apply Hinv in Hin as [[[-> _] _]|?]; [done|by right].
    + apply Hinv.
Qed.

Lemma load_socg_counts u doc u' :
  NoDup (Native.nodes doc).*1 -> wf u -> native_ok u ->
  load_socg u doc = Ok u' ->
  forall n l c, (l, c) ∈ egress_of u' n ->
    (brings n l doc /\ c = egress_in doc n) \/
    (~ brings n l doc /\ (l, c) ∈ egress_of u n).
Proof.
  intros Hnd Hwf Hnat. unfold load_socg.
  pose proof (load_socg_nodes_ok (Native.library doc) u (Native.nodes doc) Hwf Hnat)
    as [Hwf1 Hnat1 _ Ho2n _ _].
  pose proof (load_socg_nodes_counts (Native.library doc) u (Native.nodes doc)
                Hwf Hnat) as [Hzero Hname].
  cbv zeta in *. destruct (foldl _ _ _) as [u1 o2n]. cbn [fst snd] in *.
  intros Hedges. by eapply load_socg_edges_counts.
Qed.

Lemma load_socgs_counts docs u :
  Forall (fun d => NoDup (Native.nodes d).*1) docs ->
  load_socgs docs init = Ok u ->
  forall n l c, (l, c) ∈ egress_of u n -> counted docs n l c.
Proof.
  intros Hnd Hrun.
  assert (wf u /\ native_ok u /\
          forall n l c, (l, c) ∈ egress_of u n -> counted docs n l c)
    as (_ & _ & H); [|done].
  revert Hrun Hnd. unfold load_socgs.
  apply (for_each_inv (fun pre u =>
    Forall (fun d => NoDup (Native.nodes d).*1) pre ->
    wf u /\ native_ok u /\
    forall n l c, (l, c) ∈ egress_of u n -> counted pre n l c)).
  - intros _. split_and!; [apply wf_init|apply native_ok_init|].
    intros n l c. unfold egress_of. simpl. rewrite lookup_empty.
    by intros ?%elem_of_nil.
  - intros pre d u1 u2 IH Hstep [Hpre Hd]%Forall_app.
    rewrite Forall_singleton in Hd.
    destruct (IH Hpre) as (Hwf & Hnat & Hc).
    pose proof (load_socg_counts _ _ _ Hd Hwf Hnat Hstep) as Hstep_c.
    apply load_socg_ok in Hstep as (Hwf2 & Hnat2 & _); [|done..].
    split_and!; [done..|].
    intros n l c [[Hb ->]|[Hb Hin]]%Hstep_c.
    + exists pre, d, []. split_and!; [done|done|constructor|done].
    + destruct (Hc _ _ _ Hin) as (p1 & d1 & p2 & -> & Hb1 & Hlast & ->).
      exists p1, d1, (p2 ++ [d]). split_and!; [|done| |done].
      * by rewrite <- app_assoc.
      * apply Forall_app. split; [done|]. by constructor.
Qed.

(** The bridges of the interpreted side, in the order [process_pycg]
    meets them. *)
Definition bridges_of (ns : list (Z * Stitched.node)) : list Stitched.bridge :=
  flat_map (fun e => default [] (Stitched.bridges e.2)) ns.

(** The libraries of a name after the bridges [bs]: a library that only
    a bridge names is recorded behind those already there. *)
Definition with_bridges (n : string) (ks : list string)
    (bs : list Stitched.bridge) : list string :=
  foldl (fun ks b => if decide (Stitched.b_symbol b = n)
                     then add_key (Stitched.b_library b) ks else ks) ks bs.

(** How the tally of the name [n] after some bridges relates to the
    tally before them. *)
Definition bridged_from (u0 u : unifier) (bs : list Stitched.bridge)
    (n : string) : Prop :=
  (egress_of u n).*1 = with_bridges n (egress_of u0 n).*1 bs /\
  forall l c, (l, c) ∈ egress_of u n ->
    ((Stitched.mkBridge n l ∈ bs) /\ c = -1) \/
    ((Stitched.mkBridge n l ∉ bs) /\ (l, c) ∈ egress_of u0 n).

Lemma bridged_from_refl u n : bridged_from u u [] n.
Proof.
  split; [done|]. intros l c Hin. right. split; [|done]. by intros ?%elem_of_nil.
Qed.

Lemma bridged_from_trans u0 u1 u2 bs1 bs2 n :
  bridged_from u0 u1 bs1 n -> bridged_from u1 u2 bs2 n ->
  bridged_from u0 u2 (bs1 ++ bs2) n.
Proof.
  intros [Hk1 Hc1] [Hk2 Hc2]. split.
  - unfold with_bridges in *. by rewrite foldl_app, <- Hk1.
  - intros l c [[Hb ->]|[Hb Hin]]%Hc2.
    + left. split; [|done]. apply elem_of_app. by right.
    + apply Hc1 in Hin as [[Hb1 ->]|[Hb1 Hin]].
      * left. split; [|done]. apply elem_of_app. by left.
      * right. split; [|done]. by intros [?|?]%elem_of_app.
Qed.

Lemma process_bridge_ok new_idx u b :
  wf u ->
  let u' := process_bridge new_idx u b in
  wf u' /\ final_nodes u' = final_nodes u /\ next_index u' = next_index u /\
  n2idx u' = n2idx u /\
  forall n, is_Some (n2idx u !! n) -> bridged_from u u' [b] n.
Proof.
  intros Hwf. unfold process_bridge. destruct b as [sym lib]. simpl.
  destruct (n2idx u !! sym) as [hop|] eqn:Hhop.
  - split_and!; try done.
    + by apply wf_set_egress, wf_with_edge.
    + intros n _. split.
      * rewrite egress_of_set_egress, egress_of_with_edge. simpl.
        case_decide as Hn.
        -- subst n. rewrite decide_True by done. by rewrite keys_set.
        -- by rewrite decide_False.
      * intros l c. rewrite egress_of_set_egress, egress_of_with_edge.
        case_decide as Hn.
        -- subst n. intros [[-> ->]|[Hne Hin]]%elem_of_set; [| |by apply wf_keys].
           ++ left. split; [by left|done].
           ++ right. split; [|done].
              intros [= ?]%list_elem_of_singleton. done.
        -- intros Hin. right. split; [|done].
           intros [= ? ?]%list_elem_of_singleton. done.
  - split_and!; try done. intros n Hn. split.
    + simpl. rewrite decide_False; [done|]. intros ->. rewrite Hhop in Hn.
      by destruct Hn.
    + intros l c Hin. right. split; [|done].
      intros [= -> ->]%list_elem_of_singleton. rewrite Hhop in Hn. by destruct Hn.
Qed.

Lemma process_bridges_ok new_idx u bs :
  wf u ->
  let u' := foldl (process_bridge new_idx) u bs in
  wf u' /\ final_nodes u' = final_nodes u /\ next_index u' = next_index u /\
  n2idx u' = n2idx u /\
  forall n, is_Some (n2idx u !! n) -> bridged_from u u' bs n.
Proof.
  intros Hwf. cbv zeta.
  apply (foldl_inv (fun pre u' =>
    wf u' /\ final_nodes u' = final_nodes u /\ next_index u' = next_index u /\
    n2idx u' = n2idx u /\
    forall n, is_Some (n2idx u !! n) -> bridged_from u u' pre n)).
  - split_and!; try done. intros n _. apply bridged_from_refl.
  - intros pre b u1 (Hwf1 & Hf1 & Hx1 & Hn1 & Hb1).
    destruct (process_bridge_ok new_idx u1 b Hwf1) as (Hwf2 & Hf2 & Hx2 & Hn2 & Hb2).
    split_and!; [done|congruence..|].
    intros n Hn. eapply bridged_from_trans; [by apply Hb1|].
    apply Hb2. by rewrite Hn1.
Qed.

(** The node that [process_pycg] creates for an entry of the stitched
    graph. *)
Definition pycg_node (e : Z * Stitched.node) : Unified.node :=
  Unified.mkNode (Stitched.URI e.2) (Some (Stitched.package e.2)) None.

Definition new_nodes (base : Z) (ns : list (Z * Stitched.node))
  : list (Z * Unified.node) :=
  imap (fun k e => (base + Z.of_nat k, pycg_node e)) ns.

Record pycg_nodes_ok (u0 : unifier) (pre : list (Z * Stitched.node))
    (st : unifier * gmap Z Z) : Prop := {
  pk_wf : wf st.1;
  pk_nodes : final_nodes st.1
             = final_nodes u0 ++ new_nodes (next_index u0) pre;
  pk_next : next_index st.1 = next_index u0 + Z.of_nat (length pre);
  pk_mono : forall n, is_Some (n2idx u0 !! n) -> is_Some (n2idx st.1 !! n);
  pk_bridged : forall n, is_Some (n2idx u0 !! n) ->
                 bridged_from u0 st.1 (bridges_of pre) n
}.

Lemma process_pycg_nodes_ok u0 ns :
  wf u0 -> pycg_nodes_ok u0 ns (foldl process_pycg_node (u0, ∅) ns).
Proof.
  intros Hwf0. apply (foldl_inv (pycg_nodes_ok u0)).
  - split; cbn [fst snd]; try done.
    + unfold new_nodes. simpl. by rewrite app_nil_r.
    + simpl. lia.
    + intros n _. apply bridged_from_refl.
  - intros pre [k nd] [u o2n] [Hwf Hnodes Hnext Hmono Hbr].
    cbn [fst snd] in *. cbn [process_pycg_node].
    set (node := Unified.mkNode (Stitched.URI nd) (Some (Stitched.package nd)) None).
    set (u1 := with_node (Stitched.URI nd) node u).
    assert (wf u1) as Hwf1 by (by apply wf_with_node).
    assert (exists u2,
      (match Stitched.bridges nd with
       | Some bs => foldl (process_bridge (next_index u)) u1 bs
       | None => u1
       end) = u2 /\
      wf u2 /\ final_nodes u2 = final_nodes u1 /\ next_index u2 = next_index u1 /\
      n2idx u2 = n2idx u1 /\
      forall n, is_Some (n2idx u1 !! n) ->
                bridged_from u1 u2 (default [] (Stitched.bridges nd)) n)
      as (u2 & -> & Hwf2 & Hf2 & Hx2 & Hn2 & Hb2).
    { destruct (Stitched.bridges nd) as [bs|]; simpl.
      - eexists. split; [done|]. by apply process_bridges_ok.
      - exists u1. split_and!; try done. intros n _. apply bridged_from_refl. }
    assert (forall n, is_Some (n2idx u !! n) -> is_Some (n2idx u1 !! n)) as Hm1.
    { intros n Hn. simpl. destruct (decide (n = Stitched.URI nd)) as [->|Hne].
      - rewrite lookup_insert_eq. by eauto.
      - by rewrite lookup_insert_ne. }
    split; cbn [fst snd].
    + done.
    + rewrite Hf2. unfold u1. rewrite final_nodes_with_node by done.
      rewrite Hnodes, Hnext. unfold new_nodes. rewrite imap_app. simpl.
      rewrite <- app_assoc, Nat.add_0_r. done.
    + rewrite Hx2. simpl. rewrite Hnext, length_app. simpl. lia.
    + intros n Hn. rewrite Hn2. by apply Hm1, Hmono.
    + intros n Hn. unfold bridges_of. rewrite flat_map_app. simpl.
      rewrite app_nil_r. eapply bridged_from_trans; [by apply Hbr|].
      assert (bridged_from u u2 (default [] (Stitched.bridges nd)) n) as Hb.
      { apply (Hb2 n). by apply Hm1, Hmono. }
      exact Hb.
Qed.

Lemma process_pycg_ok pycg u0 u :
  wf u0 -> process_pycg pycg u0 = Ok u ->
  wf u /\
  final_nodes u
    = final_nodes u0 ++ new_nodes (next_index u0) (Stitched.nodes pycg) /\
  forall n, is_Some (n2idx u0 !! n) ->
            bridged_from u0 u (bridges_of (Stitched.nodes pycg)) n.
Proof.
  intros Hwf0. unfold process_pycg.
  pose proof (process_pycg_nodes_ok u0 (Stitched.nodes pycg) Hwf0)
    as [Hwf1 Hnodes _ _ Hbr].
  destruct (foldl _ _ _) as [u1 o2n]. cbn [fst snd] in *. intros Hedges.
  assert (wf u /\ final_nodes u = final_nodes u1 /\
          egress_per_name_per_lib u = egress_per_name_per_lib u1)
    as (Hwf & Hf & He).
  { revert Hedges. apply (for_each_inv (fun (pre : list (Z * Z)) u =>
      wf u /\ final_nodes u = final_nodes u1 /\
      egress_per_name_per_lib u = egress_per_name_per_lib u1)); [done|].
    intros pre e ua ub (Ha & Hb & Hc) Hstep. unfold process_pycg_edge in Hstep.
    destruct (o2n !! e.1); simpl in Hstep; [|done].
    destruct (o2n !! e.2); simpl in Hstep; [|done].
    injection Hstep as <-. split_and!; [by apply wf_with_edge|done..]. }
  split_and!; [done|congruence|].
  intros n Hn. specialize (Hbr n Hn). unfold bridged_from, egress_of in *.
  by rewrite He.
Qed.

Lemma final_library_of_first tally l :
  final_library_of tally = Ok l ->
  exists c pre post, tally = pre ++ (l, c) :: post /\
    (forall e, e ∈ pre -> c < e.2) /\ (forall e, e ∈ post -> c <= e.2).
Proof.
  unfold final_library_of.
  destruct (PyList.sorted_by snd tally) as [|[l0 c0] r] eqn:Hs; simpl; [done|].
  intros Hl. assert (l = l0) as ->.
  { case_decide; simpl in Hl; [congruence|].
    destruct (last _); simpl in Hl; [congruence|done]. }
  apply sorted_by_head in Hs as (pre & post & -> & Hpre & Hpost).
  by exists c0, pre, post.
Qed.

Lemma final_library_of_total tally :
  tally <> [] -> exists l, final_library_of tally = Ok l.
Proof.
  intros Hne. unfold final_library_of.
  destruct (PyList.sorted_by snd tally) as [|[l0 c0] r] eqn:Hs.
  - by apply sorted_by_nil in Hs.
  - cbn [head of_option mbind result_bind]. case_decide; simpl; [by eauto|].
    destruct (last ((l0, c0) :: r)) as [y|] eqn:Hlast; simpl; [by eauto|].
    by apply last_None in Hlast.
Qed.

Lemma decide_final_libs_ok u u' :
  decide_final_libs u = Ok u' ->
  egress_per_name_per_lib u' = egress_per_name_per_lib u /\
  Forall2 (fun e e' => decide_final_lib u e = Ok e') (final_nodes u) (final_nodes u').
Proof.
  unfold decide_final_libs.
  destruct (map_result _ _) as [ns|] eqn:Hns; simpl; [|done].
  intros [= <-]. simpl. split; [done|]. by apply map_result_Ok.
Qed.

Lemma Forall2_fixed {A} (f : A -> result A) (l k : list A) :
  Forall2 (fun e e' => f e = Ok e') l k ->
  (forall e, e ∈ l -> f e = Ok e) -> k = l.
Proof.
  induction 1 as [|x y l k Hxy _ IH]; intros Hfix; [done|].
  f_equal.
  - rewrite Hfix in Hxy by (by left). congruence.
  - apply IH. intros e He. apply Hfix. by right.
Qed.

Lemma Forall2_impl_elem {A B} (P Q : A -> B -> Prop) l k :
  Forall2 P l k -> (forall x y, x ∈ l -> P x y -> Q x y) -> Forall2 Q l k.
Proof.
  induction 1 as [|x y l k Hxy _ IH]; intros Himp; constructor.
  - apply Himp; [by left|done].
  - apply IH. intros x' y' Hx'. apply Himp. by right.
Qed.

(** The state [unify] ends in: the native nodes as loaded, each with
    its library re-decided, followed by the nodes of the interpreted
    side. *)
Lemma unify_state_stages pycg socgs u :
  unify_state pycg socgs = Ok u ->
  exists u0 u1 natives,
    load_socgs socgs init = Ok u0 /\
    process_pycg pycg u0 = Ok u1 /\
    egress_per_name_per_lib u = egress_per_name_per_lib u1 /\
    final_nodes u = natives ++ new_nodes (next_index u0) (Stitched.nodes pycg) /\
    Forall2 (fun e e' =>
               e'.1 = e.1 /\ Unified.name e'.2 = Unified.name e.2 /\
               Unified.package e'.2 = None /\
               exists l, Unified.library e'.2 = Some l /\
                 final_library_of (egress_of u (Unified.name e.2)) = Ok l)
            (final_nodes u0) natives.
Proof.
  unfold unify_state. intros Hu.
  destruct (load_socgs socgs init) as [u0|] eqn:Hload; simpl in Hu; [|done].
  destruct (process_pycg pycg u0) as [u1|] eqn:Hpy; simpl in Hu; [|done].
  apply load_socgs_ok in Hload as Hl. destruct Hl as (Hwf0 & Hnat0 & _ & _).
  destruct (process_pycg_ok _ _ _ Hwf0 Hpy) as (Hwf1 & Hnodes1 & _).
  apply decide_final_libs_ok in Hu as [He Hall].
  rewrite Hnodes1 in Hall.
  apply Forall2_app_inv_l in Hall as (natives & news & Hnat & Hnew & Hfinal).
  exists u0, u1, natives. split_and!; [done..| |].
  - rewrite Hfinal. f_equal.
    eapply Forall2_fixed; [exact Hnew|].
    intros e (k & nd & -> & _)%elem_of_lookup_imap. done.
  - eapply Forall2_impl_elem; [exact Hnat|]. intros [i v] e' Hin Hd.
    destruct (nat_nodes _ Hnat0 _ _ Hin) as (Hp & [lib Hl] & _).
    unfold decide_final_lib in Hd. rewrite Hl in Hd.
    unfold egress_of in *. rewrite He.
    destruct (final_library_of _) as [l|] eqn:Hfl; simpl in Hd; [|done].
    injection Hd as <-. simpl. split_and!; try done. by exists l.
Qed.

End unify_facts.






(** C2: after [unify], every symbol name that a native document brings
    has a node with a library, and the library [l] of every such node is
    the first entry with the least count in the tally recorded for its
    name: all entries before it have a greater count and none after it
    has a smaller one.  The entries of the tally are, in order, the
    libraries of the documents that brought the name (in document order)
    and then the libraries only bridges name.  The count of a (name,
    library) pair that a bridge of the interpreted side targets is the
    sentinel -1; every other count is at least 0, and it is the number
    of edges that leave the name in the last document of that library
    that brings the name (the keys of a document being pairwise
    distinct). *)
Theorem final_library_is_least (pycg : Stitched.callgraph)
    (socgs : list Native.callgraph) (u : Unify.unifier) :
  Unify.unify_state pycg socgs = Ok u ->
  (forall d n, d ∈ socgs -> n ∈ (Native.nodes d).*2 ->
     exists i v, (i, v) ∈ Unify.final_nodes u /\ Unified.name v = n /\
                 is_Some (Unified.library v)) /\
  forall i v l,
    (i, v) ∈ Unify.final_nodes u -> Unified.library v = Some l ->
    let n := Unified.name v in
    let tally := Unify.egress_of u n in
    let bs := bridges_of (Stitched.nodes pycg) in
    (exists c pre post, tally = pre ++ (l, c) :: post /\
       (forall e, e ∈ pre -> c < e.2) /\ (forall e, e ∈ post -> c <= e.2)) /\
    tally.*1 = with_bridges n (discovered n socgs) bs /\
    NoDup tally.*1 /\
    (forall l' c', (l', c') ∈ tally ->
       ((Stitched.mkBridge n l' ∈ bs) /\ c' = -1) \/
       ((Stitched.mkBridge n l' ∉ bs) /\ 0 <= c')) /\
    (Forall (fun d => NoDup (Native.nodes d).*1) socgs ->
     forall l' c', (l', c') ∈ tally -> Stitched.mkBridge n l' ∉ bs ->
       exists pre d post,
         socgs = pre ++ d :: post /\
         Native.library d = l' /\ n ∈ (Native.nodes d).*2 /\
         Forall (fun d' => ~ (Native.library d' = l' /\ n ∈ (Native.nodes d').*2))
                post /\
         c' = egress_in d n).
Proof.
  intros (u0 & u1 & natives & Hload & Hpy & He & Hnodes & Hall)%unify_state_stages.
  pose proof (fun Hnd => load_socgs_counts socgs u0 Hnd Hload) as Hcnt.
  apply load_socgs_ok in Hload as (Hwf0 & Hnat0 & Hdisc & Hseen).
  destruct (process_pycg_ok _ _ _ Hwf0 Hpy) as (Hwf1 & _ & Hbr).
  assert (forall n, Unify.egress_of u n = Unify.egress_of u1 n) as Heg.
  { intros n. unfold Unify.egress_of. by rewrite He. }
  split.
  - intros d n Hd Hn. destruct (Hseen d n Hd Hn) as [i Hi].
    destruct (nat_n2idx _ Hnat0 _ _ Hi) as (v & Hin & Hv).
    apply list_elem_of_lookup in Hin as [k Hk].
    destruct (Forall2_lookup_l _ _ _ _ _ Hall Hk) as ([i' v'] & Hk' & Hi' & Hn' & _ & l & Hl & _).
    exists i', v'. split_and!.
    + rewrite Hnodes. apply elem_of_app. left. by eapply list_elem_of_lookup_2.
    + simpl in *. congruence.
    + simpl in Hl. by rewrite Hl.
  - intros i v l Hin Hlib. cbv zeta.
    rewrite Hnodes in Hin. apply elem_of_app in Hin as [Hin|Hin].
    2: { apply elem_of_lookup_imap in Hin as (k & nd & [= -> ->] & _). done. }
    apply list_elem_of_lookup in Hin as [k Hk].
    destruct (Forall2_lookup_r _ _ _ _ _ Hall Hk)
      as ([i0 v0] & Hk0 & Hi0 & Hn0 & _ & l0 & Hl0 & Hfl).
    simpl in *. assert (l0 = l) as -> by congruence.
    apply list_elem_of_lookup_2 in Hk0.
    destruct (nat_nodes _ Hnat0 _ _ Hk0) as (_ & _ & Hn2i).
    rewrite <- Hn0 in Hn2i, Hfl.
    assert (is_Some (Unify.n2idx u0 !! Unified.name v)) as Hsome by (by eauto).
    destruct (Hbr _ Hsome) as [Hkeys Hcounts].
    split_and!.
    + by apply final_library_of_first.
    + by rewrite Heg, Hkeys, Hdisc.
    + rewrite Heg. by apply wf_keys.
    + intros l' c'. rewrite Heg. intros [[Hb ->]|[Hb Hin0]]%Hcounts; [by left|].
      right. split; [done|]. by eapply (nat_counts _ Hnat0).
    + intros Hnd l' c'. rewrite Heg. intros [[Hb _]|[_ Hin0]]%Hcounts Hnb; [done|].
      destruct (Hcnt Hnd _ _ _ Hin0) as (pre & d & post & -> & [Hl Hn] & Hpost & ->).
      by exists pre, d, post.
Qed.

(** Two libraries define [foo]: [liba.so] with three edges leaving it,
    [libb.so], loaded second, with one.  [libb.so] owns the node, and the
    counts of the tally are the numbers of edges of the two documents. *)
Lemma final_library_is_least_witness :
  let pycg := Stitched.mkCallgraph [] [] in
  let a := Native.mkCallgraph "liba.so" [(0, "foo"); (1, "x")]
             [(0, 1); (0, 0); (0, 1)] in
  let b := Native.mkCallgraph "libb.so" [(0, "foo"); (1, "y")] [(0, 1)] in
  egress_in a "foo" = 3 /\ egress_in b "foo" = 1 /\
  exists u, Unify.unify_state pycg [a; b] = Ok u /\
    (0, Unified.mkNode "foo" None (Some "libb.so")) ∈ Unify.final_nodes u /\
    (Unify.egress_of u "foo").*1 = ["liba.so"; "libb.so"] /\
    forall l c, (l, c) ∈ Unify.egress_of u "foo" ->
      exists d, d ∈ [a; b] /\ Native.library d = l /\ c = egress_in d "foo".
Proof.
  intros pycg a b. split; [reflexivity|]. split; [reflexivity|].
  destruct (Unify.unify_state pycg [a; b]) as [u|] eqn:Hu; [|by vm_compute in Hu].
  exists u. split; [done|].
  assert ((0, Unified.mkNode "foo" None (Some "libb.so")) ∈ Unify.final_nodes u)
    as Hin.
  { vm_compute in Hu. injection Hu as <-. apply list_elem_of_here. }
  split; [exact Hin|].
  destruct (final_library_is_least pycg [a; b] u Hu) as [_ Hleast].
  destruct (Hleast _ _ _ Hin eq_refl) as (_ & Hkeys & _ & _ & Hcount).
  cbn [Unified.name] in Hkeys, Hcount. split; [rewrite Hkeys; reflexivity|].
  intros l c Hlc.
  assert (Forall (fun d => NoDup (Native.nodes d).*1) [a; b]) as Hnd.
  { apply (bool_decide_unpack _). vm_compute. reflexivity. }
  destruct (Hcount Hnd l c Hlc) as (pre & d & post & Hdocs & Hl & _ & _ & Hc).
  - by intros ?%elem_of_nil.
  - exists d. split; [|done]. rewrite Hdocs. apply elem_of_app. right. by left.
Defined.

(** ** Stitcher: internal namespaces and calls *)

Section stitch_internal_facts.
Import Stitch.

(** The node the stitcher creates for a namespace of a package. *)
Definition stitched_node (e : string * Partial.namespace) : Stitched.node :=
  Stitched.mkNode (newname_of (Partial.ns_name e.2)) e.1
    (Partial.bridges (Partial.ns_metadata e.2)).

(** The namespaces of a document, each with the package identity. *)
Definition entries_of (cg : Partial.callgraph)
  : list (string * Partial.namespace) :=
  (fun ns => (package_of cg, ns.2))
    <$> Partial.all_namespaces (Partial.internal cg).

(** Nodes numbered from 0 in order. *)
Definition numbered (entries : list (string * Partial.namespace))
  : list (Z * Stitched.node) :=
  imap (fun k e => (Z.of_nat k, stitched_node e)) entries.

Lemma elem_of_numbered entries i node :
  (i, node) ∈ numbered entries <->
  exists k e, entries !! k = Some e /\ i = Z.of_nat k /\ node = stitched_node e.
Proof.
  unfold numbered. rewrite elem_of_lookup_imap. split.
  - intros (k & e & [= -> ->] & Hk). by exists k, e.
  - intros (k & e & Hk & -> & ->). by exists k, e.
Qed.

Lemma numbered_snoc entries e :
  numbered (entries ++ [e])
  = numbered entries ++ [(Z.of_nat (length entries), stitched_node e)].
Proof. unfold numbered. rewrite imap_app. simpl. by rewrite Nat.add_0_r. Qed.

Lemma numbered_keys_fresh entries :
  Z.of_nat (length entries) ∉ (numbered entries).*1.
Proof.
  intros ([i node] & Hi & (k & e & Hk & -> & _)%elem_of_numbered)%list_elem_of_fmap.
  simpl in Hi. apply lookup_lt_Some in Hk. lia.
Qed.

Lemma numbered_NoDup entries : NoDup (numbered entries).*1.
Proof.
  induction entries as [|e entries IH] using rev_ind; [constructor|].
  rewrite numbered_snoc, fmap_app. apply NoDup_app. split_and!; [done| |apply NoDup_singleton].
  intros x Hx ->%list_elem_of_singleton. by apply (numbered_keys_fresh entries).
Qed.

(** What holds of the stitcher after the namespaces [entries]. *)
Record stitch_ok (entries : list (string * Partial.namespace)) (st : stitcher)
  : Prop := {
  so_nodes : final_nodes st = numbered entries;
  so_next : next_index st = Z.of_nat (length entries);
  so_n2idx : forall nm i, n2idx st !! nm = Some i ->
               exists node, (i, node) ∈ final_nodes st /\ Stitched.URI node = nm;
  so_idx2n : forall i node, (i, node) ∈ final_nodes st ->
               idx2n st !! i = Some (Stitched.URI node)
}.

Lemma stitch_ok_init : stitch_ok [] init.
Proof.
  split; simpl; try done.
  by intros i node ?%elem_of_nil.
Qed.

Lemma add_internal_nss_ok pkg entries st nss :
  stitch_ok entries st ->
  let r := foldl (add_internal_ns pkg) (st, ∅) nss in
  stitch_ok (entries ++ ((fun ns => (pkg, ns.2)) <$> nss)) r.1 /\
  final_edges r.1 = final_edges st /\
  forall k i, r.2 !! k = Some i -> exists node, (i, node) ∈ final_nodes r.1.
Proof.
  intros Hok. cbv zeta.
  apply (foldl_inv (fun pre (r : stitcher * gmap Z Z) =>
    stitch_ok (entries ++ ((fun ns => (pkg, ns.2)) <$> pre)) r.1 /\
    final_edges r.1 = final_edges st /\
    forall k i, r.2 !! k = Some i -> exists node, (i, node) ∈ final_nodes r.1)).
  - simpl. rewrite app_nil_r. split_and!; [done..|].
    intros k i. by rewrite lookup_empty.
  - intros pre [oldidx vn] [st1 o2n] ([Hn Hx Hni Hin] & He & Ho).
    cbn [fst snd] in *. cbn [add_internal_ns fst snd].
    set (es := entries ++ ((fun ns => (pkg, ns.2)) <$> pre)) in *.
    set (newnode := Stitched.mkNode (newname_of (Partial.ns_name vn)) pkg
                      (Partial.bridges (Partial.ns_metadata vn))).
    assert (ODict.set (next_index st1) newnode (final_nodes st1)
            = numbered (es ++ [(pkg, vn)])) as Hnodes.
    { rewrite set_fresh.
      - by rewrite numbered_snoc, Hn, Hx.
      - rewrite Hn, Hx. apply numbered_keys_fresh. }
    assert (forall i node, (i, node) ∈ final_nodes st1 -> i <> next_index st1)
      as Hfresh.
    { intros i node Hi ->. apply (numbered_keys_fresh es).
      rewrite <- Hx, <- Hn. apply list_elem_of_fmap. by exists (next_index st1, node). }
    split_and!.
    + rewrite fmap_app, app_assoc. simpl. fold es. split; simpl.
      * done.
      * rewrite Hx, length_app. simpl. lia.
      * intros nm i. destruct (decide (nm = newname_of (Partial.ns_name vn))) as [->|Hne].
        -- rewrite lookup_insert_eq. intros [= <-]. exists newnode.
           split; [|done]. rewrite Hnodes, numbered_snoc, <- Hx.
           apply elem_of_app. right. by left.
        -- rewrite lookup_insert_ne by done. intros (node & Hi & Hu)%Hni.
           exists node. split; [|done]. rewrite Hnodes, numbered_snoc, <- Hn.
           apply elem_of_app. by left.
      * intros i node. rewrite Hnodes, numbered_snoc, <- Hn, <- Hx.
        intros [Hi|[= -> ->]%list_elem_of_singleton]%elem_of_app.
        -- rewrite lookup_insert_ne; [by apply Hin|]. intros Heq.
           by apply (Hfresh _ _ Hi).
        -- by rewrite lookup_insert_eq.
    + done.
    + intros k i. simpl. rewrite Hnodes, numbered_snoc, <- Hn, <- Hx.
      destruct (decide (k = oldidx)) as [->|Hne].
      * rewrite lookup_insert_eq. intros [= <-]. exists newnode.
        apply elem_of_app. right. by left.
      * rewrite lookup_insert_ne by done. intros (node & Hi)%Ho.
        exists node. apply elem_of_app. by left.
Qed.

(** The edges one internal call adds. *)
Definition call_edges (st : stitcher) (o2n : gmap Z Z) (call : Z * Z)
  : list (Z * Z) :=
  match o2n !! call.1, o2n !! call.2 with
  | Some newsrc, Some newdst =>
      (newsrc, newdst) ::
      match idx2n st !! newdst ≫= (fun dn => n2idx st !! (dn +:+ ".__init__")) with
      | Some dst_init => [(newsrc, dst_init)]
      | None => []
      end
  | _, _ => []
  end.

Lemma add_internal_calls_ok o2n calls st st' :
  for_each (add_internal_call o2n) calls st = Ok st' ->
  final_nodes st' = final_nodes st /\ next_index st' = next_index st /\
  n2idx st' = n2idx st /\ idx2n st' = idx2n st /\ old2new st' = old2new st /\
  final_edges st' = final_edges st ++ flat_map (call_edges st o2n) calls /\
  forall c, c ∈ calls ->
    is_Some (o2n !! c.1) /\ is_Some (o2n !! c.2) /\
    is_Some (o2n !! c.2 ≫= (fun nd => idx2n st !! nd)).
Proof.
  apply (for_each_inv (fun pre st' =>
    final_nodes st' = final_nodes st /\ next_index st' = next_index st /\
    n2idx st' = n2idx st /\ idx2n st' = idx2n st /\ old2new st' = old2new st /\
    final_edges st' = final_edges st ++ flat_map (call_edges st o2n) pre /\
    forall c, c ∈ pre ->
      is_Some (o2n !! c.1) /\ is_Some (o2n !! c.2) /\
      is_Some (o2n !! c.2 ≫= (fun nd => idx2n st !! nd)))).
  - split_and!; try done.
    + simpl. by rewrite app_nil_r.
    + by intros c ?%elem_of_nil.
  - intros pre call s1 s2 (Hf & Hx & Hn & Hi & Ho & He & Hall) Hstep.
    unfold add_internal_call in Hstep.
    destruct (o2n !! call.1) as [newsrc|] eqn:Hsrc; simpl in Hstep; [|done].
    destruct (o2n !! call.2) as [newdst|] eqn:Hdst; simpl in Hstep; [|done].
    destruct (idx2n s1 !! newdst) as [dstname|] eqn:Hname; simpl in Hstep; [|done].
    rewrite flat_map_app. simpl. rewrite app_nil_r.
    unfold call_edges at 2. rewrite Hsrc, Hdst. rewrite <- Hi, Hname. simpl.
    rewrite <- Hn.
    assert (forall c, c ∈ pre ++ [call] ->
      is_Some (o2n !! c.1) /\ is_Some (o2n !! c.2) /\
      is_Some (o2n !! c.2 ≫= (fun nd => idx2n s1 !! nd))) as Hall'.
    { intros c [Hc| ->%list_elem_of_singleton]%elem_of_app.
      - rewrite Hi. by apply Hall.
      - rewrite Hsrc, Hdst. simpl. rewrite Hname. by eauto. }
    destruct (n2idx s1 !! (dstname +:+ ".__init__")) as [dst_init|] eqn:Hinit;
      injection Hstep as <-; simpl;
      (split_and!; [done..| |exact Hall']);
      rewrite He, <- !app_assoc; done.
Qed.

Lemma call_edges_ext a b o2n call :
  idx2n a = idx2n b -> n2idx a = n2idx b ->
  call_edges a o2n call = call_edges b o2n call.
Proof. intros Hi Hn. unfold call_edges. by rewrite Hi, Hn. Qed.

Lemma add_internal_cg_ok entries st cg st' :
  stitch_ok entries st -> add_internal_cg st cg = Ok st' ->
  stitch_ok (entries ++ entries_of cg) st' /\
  exists o2n,
    old2new st' !! package_of cg = Some o2n /\
    (forall k i, o2n !! k = Some i -> exists node, (i, node) ∈ final_nodes st') /\
    final_edges st'
      = final_edges st ++ flat_map (call_edges st' o2n) (Partial.internalCalls cg) /\
    forall c, c ∈ Partial.internalCalls cg ->
      is_Some (o2n !! c.1) /\ is_Some (o2n !! c.2) /\
      is_Some (o2n !! c.2 ≫= (fun nd => idx2n st' !! nd)).
Proof.
  intros Hok. unfold add_internal_cg.
  pose proof (add_internal_nss_ok (package_of cg) entries st
                (Partial.all_namespaces (Partial.internal cg)) Hok) as Hnss.
  cbv zeta in Hnss. destruct (foldl _ _ _) as [st1 o2n]. cbn [fst snd] in Hnss.
  destruct Hnss as ([Hn Hx Hni Hin] & He & Ho).
  destruct (for_each _ _ st1) as [st2|] eqn:Hcalls; simpl; [|done].
  intros [= <-].
  apply add_internal_calls_ok in Hcalls as (Hf2 & Hx2 & Hn2 & Hi2 & Ho2 & He2 & Hall).
  split.
  - split; simpl.
    + by rewrite Hf2.
    + by rewrite Hx2.
    + rewrite Hn2, Hf2. apply Hni.
    + rewrite Hi2, Hf2. apply Hin.
  - exists o2n. simpl. split_and!.
    + by rewrite lookup_insert_eq.
    + rewrite Hf2. apply Ho.
    + rewrite He2, He. f_equal. apply flat_map_ext. intros call.
      apply call_edges_ext; simpl; congruence.
    + intros c Hc. rewrite Hi2. by apply Hall.
Qed.

Definition all_entries (cgs : list Partial.callgraph)
  : list (string * Partial.namespace) :=
  flat_map entries_of cgs.

Lemma add_internal_ok cgs st :
  add_internal cgs init = Ok st -> stitch_ok (all_entries cgs) st.
Proof.
  unfold add_internal.
  apply (for_each_inv (fun pre st => stitch_ok (all_entries pre) st)).
  - apply stitch_ok_init.
  - intros pre cg s1 s2 Hok Hstep. unfold all_entries.
    rewrite flat_map_app. simpl. rewrite app_nil_r.
    by apply (add_internal_cg_ok _ _ _ _ Hok Hstep).
Qed.

Lemma add_internal_edges_mono cgs entries st st' :
  stitch_ok entries st -> add_internal cgs st = Ok st' ->
  exists new, final_edges st' = final_edges st ++ new.
Proof.
  unfold add_internal. revert entries st.
  induction cgs as [|cg cgs IH]; intros entries st Hok; simpl.
  - intros [= <-]. exists []. by rewrite app_nil_r.
  - destruct (add_internal_cg st cg) as [st1|] eqn:Hcg; simpl; [|done].
    intros Hrest.
    destruct (add_internal_cg_ok _ _ _ _ Hok Hcg) as (Hok1 & o2n & _ & _ & He & _).
    destruct (IH _ _ Hok1 Hrest) as (new & Hnew).
    eexists. by rewrite Hnew, He, <- app_assoc.
Qed.

End stitch_internal_facts.

(** C8: when [add_internal] reaches the document [cg], every pair
    [(s, d)] of its [internalCalls] gets the edge between the global ids
    of [s] and [d], and whenever the names assigned so far hold the name
    of the node of [d] followed by [.__init__], also an edge from the id
    of [s] to the node registered under that name; these are all the
    edges the document adds, and they stay in the final edge list. *)
Theorem constructor_edge_added (pre post : list Partial.callgraph)
    (cg : Partial.callgraph) (st_final : Stitch.stitcher) :
  Stitch.add_internal (pre ++ cg :: post) Stitch.init = Ok st_final ->
  exists st0 st' o2n,
    Stitch.add_internal pre Stitch.init = Ok st0 /\
    Stitch.add_internal_cg st0 cg = Ok st' /\
    Stitch.old2new st' !! Stitch.package_of cg = Some o2n /\
    (forall nm i, Stitch.n2idx st' !! nm = Some i ->
       exists node, (i, node) ∈ Stitch.final_nodes st' /\ Stitched.URI node = nm) /\
    Stitch.final_edges st'
      = Stitch.final_edges st0
        ++ flat_map (call_edges st' o2n) (Partial.internalCalls cg) /\
    forall s d, (s, d) ∈ Partial.internalCalls cg ->
      exists newsrc newdst dnode,
        o2n !! s = Some newsrc /\ o2n !! d = Some newdst /\
        (newdst, dnode) ∈ Stitch.final_nodes st' /\
        Stitch.idx2n st' !! newdst = Some (Stitched.URI dnode) /\
        (newsrc, newdst) ∈ Stitch.final_edges st_final /\
        forall dst_init,
          Stitch.n2idx st' !! (Stitched.URI dnode +:+ ".__init__") = Some dst_init ->
          (newsrc, dst_init) ∈ Stitch.final_edges st_final.
Proof.
  unfold Stitch.add_internal. rewrite for_each_app. intros Hrun.
  destruct (for_each Stitch.add_internal_cg pre Stitch.init) as [st0|] eqn:Hpre;
    simpl in Hrun; [|done].
  destruct (Stitch.add_internal_cg st0 cg) as [st'|] eqn:Hcg; simpl in Hrun; [|done].
  pose proof (add_internal_ok _ _ Hpre) as Hok0.
  destruct (add_internal_cg_ok _ _ _ _ Hok0 Hcg) as (Hok1 & o2n & Ho & Hrange & He & Hall).
  destruct (add_internal_edges_mono _ _ _ _ Hok1 Hrun) as (new & Hnew).
  exists st0, st', o2n. split_and!; [done..|by apply (so_n2idx _ _ Hok1)|done|].
  intros s d Hin. destruct (Hall _ Hin) as ([newsrc Hs] & [newdst Hd] & _).
  simpl in Hs, Hd. destruct (Hrange _ _ Hd) as (dnode & Hdn).
  pose proof (so_idx2n _ _ Hok1 _ _ Hdn) as Hname.
  assert (forall e, e ∈ call_edges st' o2n (s, d) -> e ∈ Stitch.final_edges st_final)
    as Hsub.
  { intros e Hedge. rewrite Hnew, He. apply elem_of_app. left.
    apply elem_of_app. right. apply list_elem_of_In, in_flat_map.
    exists (s, d). split; by apply list_elem_of_In. }
  exists newsrc, newdst, dnode. split_and!; [done..| |].
  - apply Hsub. unfold call_edges. simpl. rewrite Hs, Hd. by left.
  - intros dst_init Hinit. apply Hsub. unfold call_edges. simpl.
    rewrite Hs, Hd, Hname. simpl. rewrite Hinit. right. by left.
Qed.

Lemma constructor_edge_added_witness :
  let cg := Partial.mkCallgraph "pkg" "1" 3
      [("/pkg/", Partial.mkModule "pkg.py"
          [(0, Partial.mkNamespace "/pkg/" (Partial.mkMetadata None []));
           (1, Partial.mkNamespace "/pkg/C" (Partial.mkMetadata None []));
           (2, Partial.mkNamespace "/pkg/C.__init__()" (Partial.mkMetadata None []))])]
      [] [(0, 1)] [] in
  exists st, Stitch.add_internal [cg] Stitch.init = Ok st /\
    (0, 1) ∈ Stitch.final_edges st /\ (0, 2) ∈ Stitch.final_edges st.
Proof.
  intros cg.
  destruct (Stitch.add_internal [cg] Stitch.init) as [st|] eqn:Hrun;
    [|by vm_compute in Hrun].
  exists st. split; [done|].
  destruct (constructor_edge_added [] [] cg st Hrun)
    as (st0 & st' & o2n & Hpre & Hcg & Ho & _ & _ & Hcalls).
  destruct (Hcalls 0 1) as (newsrc & newdst & dnode & Hs & Hd & Hdn & Hname & He & Hinit).
  { apply list_elem_of_here. }
  injection Hpre as <-. vm_compute in Hcg. injection Hcg as <-.
  vm_compute in Ho. injection Ho as <-.
  vm_compute in Hs. injection Hs as <-.
  vm_compute in Hd. injection Hd as <-.
  split; [exact He|]. apply Hinit.
  match type of Hname with ?lhs = _ =>
    assert (lhs = Some "pkg.C") as Hc by (vm_compute; reflexivity) end.
  rewrite Hc in Hname. injection Hname as <-. vm_compute. reflexivity.
Defined.


(** ** Stitcher: external calls *)

Section resolve_facts.
Import Stitch.
Variable STD : list string.
Variable SUF : list string.
Variable oracle : string -> option string.

Lemma elem_of_blacklist cg d :
  d ∈ blacklist (scan_externals STD SUF cg) <->
  exists vn, (d, vn) ∈ Partial.all_namespaces (Partial.external cg) /\
             denylisted STD (Partial.ns_name vn) = true.
Proof.
  unfold scan_externals.
  apply (foldl_inv (fun pre t =>
    d ∈ blacklist t <->
    exists vn, (d, vn) ∈ pre /\ denylisted STD (Partial.ns_name vn) = true)).
  - simpl. split; [by intros ?%elem_of_empty|]. by intros (vn & []%elem_of_nil & _).
  - intros pre [k vn] t IH. simpl.
    setoid_rewrite elem_of_app. setoid_rewrite list_elem_of_singleton.
    destruct (denylisted STD (Partial.ns_name vn)) eqn:Hden.
    + rewrite elem_of_union, elem_of_singleton, IH. split.
      * intros [->|(vn' & ? & ?)]; [exists vn|exists vn']; tauto.
      * intros (vn' & [?|[= -> ->]] & Hd); [right; by exists vn'|by left].
    + rewrite IH. split.
      * intros (vn' & ? & ?). exists vn'. tauto.
      * intros (vn' & [?|[= -> ->]] & Hd); [by exists vn'|congruence].
Qed.

Lemma add_ignored_add j k st :
  add_ignored k (add_ignored j st) = add_ignored (j + k) st.
Proof. unfold add_ignored. simpl. f_equal. lia. Qed.

Lemma add_ignored_0 st : add_ignored 0 st = st.
Proof. destruct st. unfold add_ignored. simpl. f_equal. lia. Qed.

(** What a run of the loop leaves behind, the stale variables [src] and
    [dst] apart. *)
Definition outcome (cs : call_state) : stitcher * Z * Z * gset string :=
  (cs_st cs, found_externals cs, missed_externals cs, unresolved cs).

Definition adjust (k : Z) (o : stitcher * Z * Z * gset string)
  : stitcher * Z * Z * gset string :=
  let '(st, fe, me, un) := o in (add_ignored k st, fe, me, un).

Lemma resolve_call_live_add_ignored pkg total t k st fe me un s d :
  resolve_call_live oracle pkg total t (add_ignored k st) fe me un s d
  = adjust k <$> resolve_call_live oracle pkg total t st fe me un s d.
Proof.
  unfold resolve_call_live. simpl.
  destruct (old2new st !! pkg) as [o2n|]; simpl; [|done].
  destruct (o2n !! s) as [newsrc|]; simpl; [|done].
  destruct (oldidx2extname t !! d) as [dstnames|]; simpl; [|done].
  destruct (s_found _); simpl; [done|].
  destruct (head dstnames); simpl; done.
Qed.

Lemma resolve_call_blacklisted pkg total t cs s d :
  d ∈ blacklist t ->
  resolve_call oracle pkg total t cs (Some s, Some d)
  = Ok (mkCallState (add_ignored 1 (cs_st cs)) (Some s) (Some d)
          (found_externals cs) (missed_externals cs) (unresolved cs)).
Proof. intros Hd. unfold resolve_call. simpl. by rewrite decide_True. Qed.

Lemma resolve_call_kept pkg total t cs s d :
  d ∉ blacklist t ->
  outcome <$> resolve_call oracle pkg total t cs (Some s, Some d)
  = resolve_call_live oracle pkg total t (cs_st cs) (found_externals cs)
      (missed_externals cs) (unresolved cs) s d.
Proof.
  intros Hd. unfold resolve_call. simpl. rewrite decide_False by done.
  destruct (resolve_call_live _ _ _ _ _ _ _ _ _ _) as [[[[st fe] me] un]|]; done.
Qed.

(** A call both of whose endpoints [int] converts. *)
Definition parsed (call : option Z * option Z) : Prop :=
  is_Some call.1 /\ is_Some call.2.

Definition on_blacklist (t : ext_tables) (call : option Z * option Z) : Prop :=
  exists d, call.2 = Some d /\ d ∈ blacklist t.

#[global] Instance on_blacklist_dec t call : Decision (on_blacklist t call).
Proof.
  destruct call as [a [d|]].
  - destruct (decide (d ∈ blacklist t)) as [Hd|Hd].
    + left. by exists d.
    + right. intros (d' & [= <-] & ?). done.
  - right. by intros (d' & [=] & _).
Defined.

Lemma resolve_calls_filter pkg total t calls cs1 cs2 j :
  Forall parsed calls ->
  outcome cs1 = adjust j (outcome cs2) ->
  outcome <$> for_each (resolve_call oracle pkg total t) calls cs1
  = adjust (j + Z.of_nat (length (filter (on_blacklist t) calls)))
      <$> (outcome <$> for_each (resolve_call oracle pkg total t)
                         (filter (fun c => ~ on_blacklist t c) calls) cs2).
Proof.
  intros Hparsed. revert cs1 cs2 j.
  induction Hparsed as [|call calls [[s Hs] [d Hd]] _ IH]; intros cs1 cs2 j Hrel.
  - simpl. rewrite Z.add_0_r. by rewrite Hrel.
  - destruct call as [a b]. simpl in Hs, Hd. subst a b.
    destruct (decide (d ∈ blacklist t)) as [Hbl|Hbl].
    + rewrite filter_cons_True by (by exists d).
      rewrite filter_cons_False by (intros Hn; apply Hn; by exists d).
      cbn [for_each]. rewrite resolve_call_blacklisted by done.
      cbn [mbind result_bind].
      rewrite (IH _ cs2 (j + 1)).
      * do 2 f_equal. simpl. lia.
      * unfold outcome in *. simpl. destruct cs1, cs2. simpl in *.
        injection Hrel as -> -> -> ->. by rewrite add_ignored_add.
    + rewrite filter_cons_False by (intros (d' & [= <-] & ?); done).
      rewrite filter_cons_True by (intros (d' & [= <-] & ?); done).
      cbn [for_each].
      pose proof (resolve_call_kept pkg total t cs1 s d Hbl) as H1.
      pose proof (resolve_call_kept pkg total t cs2 s d Hbl) as H2.
      assert (outcome <$> resolve_call oracle pkg total t cs1 (Some s, Some d)
              = adjust j <$> (outcome <$> resolve_call oracle pkg total t cs2
                                            (Some s, Some d))) as Hstep.
      { rewrite H1, H2. unfold outcome in Hrel. destruct cs1, cs2. simpl in *.
        injection Hrel as -> -> -> ->. apply resolve_call_live_add_ignored. }
      destruct (resolve_call oracle pkg total t cs1 (Some s, Some d)) as [cs1'|];
        destruct (resolve_call oracle pkg total t cs2 (Some s, Some d)) as [cs2'|];
        simpl in Hstep; try done.
      cbn [mbind result_bind]. apply IH.
      apply (f_equal (fun r => match r with Ok x => x | Raise _ => outcome cs1' end))
        in Hstep.
      exact Hstep.
Qed.

End resolve_facts.

(** Supporting facts for the denylist, on calls both of whose endpoints
    [int] converts: the blacklist of a document holds the ids of its
    external namespaces that match the standard-library denylist or the
    known-buggy prefixes; a call to such a callee adds no edge, leaves
    the found and missed counts and the statistics as they are, and adds
    one to the ignored count; and a run of the loop over calls with
    convertible endpoints is the run over the calls that are not
    blacklisted, with the number of blacklisted calls added to the
    ignored count. *)
Theorem denylisted_calls_ignored (STD SUF : list string)
    (oracle : string -> option string) (cg : Partial.callgraph)
    (pkg : string) (total : nat) :
  let t := Stitch.scan_externals STD SUF cg in
  let step := Stitch.resolve_call oracle pkg total t in
  (forall d, d ∈ Stitch.blacklist t <->
     exists vn, (d, vn) ∈ Partial.all_namespaces (Partial.external cg) /\
                Stitch.denylisted STD (Partial.ns_name vn) = true) /\
  (forall cs s d vn,
     (d, vn) ∈ Partial.all_namespaces (Partial.external cg) ->
     Stitch.denylisted STD (Partial.ns_name vn) = true ->
     exists cs', step cs (Some s, Some d) = Ok cs' /\
       Stitch.final_edges (Stitch.cs_st cs') = Stitch.final_edges (Stitch.cs_st cs) /\
       Stitch.num_externals_found (Stitch.cs_st cs')
         = Stitch.num_externals_found (Stitch.cs_st cs) /\
       Stitch.num_externals_missed (Stitch.cs_st cs')
         = Stitch.num_externals_missed (Stitch.cs_st cs) /\
       Stitch.external_stats (Stitch.cs_st cs')
         = Stitch.external_stats (Stitch.cs_st cs) /\
       Stitch.pynames_not_found (Stitch.cs_st cs')
         = Stitch.pynames_not_found (Stitch.cs_st cs) /\
       Stitch.found_externals cs' = Stitch.found_externals cs /\
       Stitch.missed_externals cs' = Stitch.missed_externals cs /\
       Stitch.unresolved cs' = Stitch.unresolved cs /\
       Stitch.num_externals_ignored (Stitch.cs_st cs')
         = Stitch.num_externals_ignored (Stitch.cs_st cs) + 1) /\
  (forall cs calls,
     Forall parsed calls ->
     outcome <$> for_each step calls cs
     = adjust (Z.of_nat (length (filter (on_blacklist t) calls)))
         <$> (outcome <$> for_each step
                (filter (fun c => ~ on_blacklist t c) calls) cs)).
Proof.
  cbv zeta. split_and!.
  - apply elem_of_blacklist.
  - intros cs s d vn Hin Hden.
    assert (d ∈ Stitch.blacklist (Stitch.scan_externals STD SUF cg)) as Hbl.
    { apply elem_of_blacklist. by exists vn. }
    eexists. split; [by apply resolve_call_blacklisted|]. simpl. done.
  - intros cs calls Hparsed.
    rewrite (resolve_calls_filter oracle pkg total _ calls cs cs 0 Hparsed).
    + done.
    + unfold outcome, adjust. by rewrite add_ignored_0.
Qed.

Lemma denylisted_calls_ignored_witness :
  let cg := Partial.mkCallgraph "app" "1" 1
      [("/app/", Partial.mkModule "app.py"
          [(0, Partial.mkNamespace "/app/" (Partial.mkMetadata None []))])]
      [("os", Partial.mkModule ""
          [(1, Partial.mkNamespace "//os//os.path.join" (Partial.mkMetadata None []))])]
      [] [(Some 0, Some 1)] in
  let t := Stitch.scan_externals ["os."; "sys."] ["strip"; "join"] cg in
  let cs := Stitch.mkCallState Stitch.init None None 0 0 ∅ in
  exists cs',
    Stitch.resolve_call (fun _ => None) "app:1" 1 t cs (Some 0, Some 1) = Ok cs' /\
    Stitch.final_edges (Stitch.cs_st cs') = Stitch.final_edges (Stitch.cs_st cs) /\
    Stitch.num_externals_ignored (Stitch.cs_st cs')
      = Stitch.num_externals_ignored (Stitch.cs_st cs) + 1.
Proof.
  intros cg t cs.
  destruct (denylisted_calls_ignored ["os."; "sys."] ["strip"; "join"]
              (fun _ => None) cg "app:1" 1) as (_ & Hstep & _).
  destruct (Hstep cs 0 1
              (Partial.mkNamespace "//os//os.path.join" (Partial.mkMetadata None [])))
    as (cs' & Hcs' & He & _ & _ & _ & _ & _ & _ & _ & Hign).
  - apply list_elem_of_here.
  - reflexivity.
  - exists cs'. split; [exact Hcs'|]. split; [exact He|exact Hign].
Defined.

(** C9, the failing input: the [except] branch of the loop over
    [externalCalls] does not [continue], so a call whose caller [int]
    cannot convert is handled with the caller and the callee of the call
    before it.  Here the second call of [app] names the denylisted
    callee [os.path.join] (key 2) but has a caller that does not
    convert: it is handled as the first call again, adds a second edge
    to [dep.f] and a second found call, and is not counted as ignored. *)
Theorem denylisted_callee_resolved :
  let none := Partial.mkMetadata None [] in
  let app := Partial.mkCallgraph "app" "1" 3
      [("/app/", Partial.mkModule "app.py" [(0, Partial.mkNamespace "/app/" none)])]
      [("dep", Partial.mkModule "" [(1, Partial.mkNamespace "//dep//dep.f" none)]);
       ("os", Partial.mkModule ""
          [(2, Partial.mkNamespace "//os//os.path.join" none)])]
      [] [(Some 0, Some 1); (None, Some 2)] in
  let dep := Partial.mkCallgraph "dep" "1" 2
      [("/dep/", Partial.mkModule "dep.py"
          [(0, Partial.mkNamespace "/dep/" none);
           (1, Partial.mkNamespace "/dep/f()" none)])]
      [] [] [] in
  Stitch.denylisted ["os."] "//os//os.path.join" = true /\
  Stitch.blacklist (Stitch.scan_externals ["os."] [] app) = {[ 2 ]} /\
  exists st,
    Stitch.stitch ["os."] [] (fun _ => None) [app; dep] = Ok st /\
    Stitch.final_nodes st
      = [(0, Stitched.mkNode "app" "app:1" None);
         (1, Stitched.mkNode "dep" "dep:1" None);
         (2, Stitched.mkNode "dep.f" "dep:1" None)] /\
    Stitch.final_edges st = [(0, 2); (0, 2)] /\
    Stitch.num_externals_found st = 2 /\
    Stitch.num_externals_missed st = 0 /\
    Stitch.num_externals_ignored st = 0 /\
    Stitch.num_None_dst st = 1.
Proof.
  intros none app dep. split; [reflexivity|]. split; [vm_compute; reflexivity|].
  eexists. split; [vm_compute; reflexivity|]. repeat split.
Qed.

(** ** Strings *)

Section string_facts.
Import PyStr.
Local Arguments String.append !_ _ / : simpl nomatch.

Lemma string_app_assoc (a b c : string) : (a +:+ b) +:+ c = a +:+ (b +:+ c).
Proof. induction a as [|x a IH]; simpl; [done|]. by rewrite IH. Qed.

Lemma string_app_nil_r (a : string) : a +:+ "" = a.
Proof. induction a as [|x a IH]; simpl; [done|]. by rewrite IH. Qed.

Lemma string_app_inv_head (a b c : string) : a +:+ b = a +:+ c -> b = c.
Proof. induction a as [|x a IH]; simpl; [done|]. intros [= ?]. by apply IH. Qed.

Lemma has_char_app c (a b : string) :
  has_char c (a +:+ b) = has_char c a || has_char c b.
Proof.
  induction a as [|x a IH]; simpl; [done|]. case_decide; [done|apply IH].
Qed.

Lemma replace_app x y (a b : string) :
  replace x y (a +:+ b) = replace x y a +:+ replace x y b.
Proof. induction a as [|c a IH]; simpl; [done|]. by rewrite IH. Qed.

Lemma replace_no_char x y (a : string) :
  has_char x a = false -> replace x y a = a.
Proof.
  induction a as [|c a IH]; simpl; [done|]. case_decide; [done|].
  intros Ha. by rewrite IH.
Qed.

Lemma startswith_app (p a : string) : startswith (p +:+ a) p = true.
Proof.
  induction p as [|c p IH]; simpl; [by destruct a|]. by rewrite decide_True.
Qed.

Lemma endswith_app (a p : string) : endswith (a +:+ p) p = true.
Proof.
  induction a as [|c a IH]; simpl.
  - destruct p; simpl; [done|]. by rewrite decide_True.
  - destruct (decide (String c (a +:+ p) = p)); [done|]. exact IH.
Qed.

Lemma split_not_nil c (a : string) : split c a <> [].
Proof.
  induction a as [|x a IH]; simpl; [done|]. case_decide; [done|].
  by destruct (split c a).
Qed.

Lemma split_app_sep c (a b : string) :
  has_char c a = false -> split c (a +:+ String c b) = a :: split c b.
Proof.
  induction a as [|x a IH]; simpl.
  - intros _. by destruct (decide (c = c)).
  - destruct (decide (x = c)); [done|]. intros Ha. by rewrite IH.
Qed.

Lemma join_cons_char c x (h : string) t :
  join (String c "") (String x h :: t) = String x (join (String c "") (h :: t)).
Proof. destruct t; done. Qed.

Lemma join_split c (a : string) : join (String c "") (split c a) = a.
Proof.
  induction a as [|x a IH]; simpl; [done|]. case_decide as Hx.
  - subst x. destruct (split c a) as [|h t] eqn:Hs; [by apply split_not_nil in Hs|].
    change (join (String c "") ("" :: h :: t))
      with (String c (join (String c "") (h :: t))).
    by rewrite IH.
  - destruct (split c a) as [|h t] eqn:Hs; [by apply split_not_nil in Hs|].
    by rewrite join_cons_char, IH.
Qed.

Lemma lstrip_other c x (a : string) : x <> c -> lstrip c (String x a) = String x a.
Proof. intros Hx. simpl. by destruct (decide (x = c)). Qed.

Lemma lstrip_same c (a : string) : lstrip c (String c a) = lstrip c a.
Proof. simpl. by rewrite decide_True. Qed.

Lemma lstrip_app c (a b : string) :
  a <> "" -> has_char c a = false -> lstrip c (a +:+ b) = a +:+ b.
Proof.
  destruct a as [|x a]; [done|]. simpl. intros _.
  by destruct (decide (x = c)).
Qed.

Lemma replace_same x y (a : string) :
  replace x y (String x a) = String y (replace x y a).
Proof. simpl. by rewrite decide_True. Qed.

End string_facts.

(** ** Bridge augmenter *)

Section augment_facts.
Import Augment.
Local Arguments String.append !_ _ / : simpl nomatch.

Lemma attach_idemp sb n : attach sb (attach sb n) = attach sb n.
Proof.
  unfold attach. simpl. f_equal. f_equal.
  destruct (Partial.bridges (Partial.ns_metadata n)) as [old|].
  - destruct (decide (sb ∈ old)) as [Hin|Hin].
    + by rewrite decide_True.
    + rewrite decide_True; [done|]. apply elem_of_app. right. by left.
  - rewrite decide_True; [done|]. by left.
Qed.

Lemma attach_name sb n : Partial.ns_name (attach sb n) = Partial.ns_name n.
Proof. done. Qed.

Lemma internal_ns_idemp pyname sb n :
  internal_ns pyname sb (internal_ns pyname sb n) = internal_ns pyname sb n.
Proof.
  unfold internal_ns at 2 3.
  destruct (matches_internal pyname n) eqn:Hm; [|unfold internal_ns; by rewrite Hm].
  destruct (PyStr.endswith (Partial.ns_name n) "()") eqn:He.
  - unfold internal_ns.
    assert (matches_internal pyname (attach sb n) = true) as -> by done.
    rewrite attach_name, He. apply attach_idemp.
  - unfold internal_ns.
    assert (Partial.ns_name n = pyname) as Hname.
    { unfold matches_internal in Hm. apply orb_true_iff in Hm as [Hm|Hm];
        apply bool_decide_eq_true in Hm; [done|].
      rewrite Hm, endswith_app in He. done. }
    assert (matches_internal pyname
              (attach sb (Partial.mkNamespace (Partial.ns_name n +:+ "()")
                            (Partial.ns_metadata n))) = true) as ->.
    { unfold matches_internal. simpl. rewrite Hname.
      apply orb_true_iff. right. by apply bool_decide_eq_true. }
    rewrite attach_name. simpl. rewrite endswith_app. apply attach_idemp.
Qed.

Lemma internal_bridge_doc_idemp b cg :
  internal_bridge_doc b (internal_bridge_doc b cg) = internal_bridge_doc b cg.
Proof.
  unfold internal_bridge_doc, with_internal. simpl. f_equal.
  unfold map_namespaces. rewrite <- list_fmap_compose.
  apply list_fmap_ext. intros _ [k m] _. simpl. f_equal. f_equal.
  rewrite <- list_fmap_compose. apply list_fmap_ext. intros _ [kn n] _. simpl.
  f_equal. apply internal_ns_idemp.
Qed.

Lemma attach_first_idemp P sb nss :
  (forall n, P (attach sb n) = P n) ->
  attach_first P sb (attach_first P sb nss).1 = attach_first P sb nss.
Proof.
  intros HP. induction nss as [|[k n] nss IH]; simpl; [done|].
  destruct (P n) eqn:Hn; simpl.
  - by rewrite HP, Hn, attach_idemp.
  - destruct (attach_first P sb nss) as [rest' found] eqn:Hr. simpl in *.
    by rewrite Hn, IH.
Qed.

Lemma attach_modules_idemp P sb ms :
  (forall n, P (attach sb n) = P n) ->
  attach_modules P sb (attach_modules P sb ms).1 = attach_modules P sb ms.
Proof.
  intros HP. induction ms as [|[k m] ms IH]; simpl; [done|].
  pose proof (attach_first_idemp P sb (Partial.namespaces m) HP) as H1.
  destruct (attach_first P sb (Partial.namespaces m)) as [nss f1].
  destruct (attach_modules P sb ms) as [rest' f2]. simpl in *.
  by rewrite H1, IH.
Qed.

(** No namespace of the list passes the test of the loop. *)
Definition unmatched (P : Partial.namespace -> bool)
    (nss : list (Z * Partial.namespace)) : Prop :=
  Forall (fun kn => P kn.2 = false) nss.

Lemma attach_first_unmatched P sb nss :
  unmatched P nss -> attach_first P sb nss = (nss, false).
Proof.
  induction 1 as [|[k n] nss Hn _ IH]; simpl; [done|].
  simpl in Hn. by rewrite Hn, IH.
Qed.

Lemma attach_first_not_found P sb nss :
  (attach_first P sb nss).2 = false -> unmatched P nss.
Proof.
  induction nss as [|[k n] nss IH]; simpl; [constructor|].
  destruct (P n) eqn:Hn; [done|].
  destruct (attach_first P sb nss) as [rest' found]. simpl in *.
  intros ->. constructor; [done|]. by apply IH.
Qed.

Lemma attach_modules_unmatched P sb ms :
  Forall (fun km => unmatched P (Partial.namespaces km.2)) ms ->
  attach_modules P sb ms = (ms, false).
Proof.
  induction 1 as [|[k m] ms Hm _ IH]; simpl; [done|].
  simpl in Hm. rewrite (attach_first_unmatched _ _ _ Hm), IH. by destruct m.
Qed.

Lemma attach_modules_not_found P sb ms :
  (attach_modules P sb ms).2 = false ->
  Forall (fun km => unmatched P (Partial.namespaces km.2)) ms.
Proof.
  induction ms as [|[k m] ms IH]; simpl; [constructor|].
  pose proof (attach_first_not_found P sb (Partial.namespaces m)) as H1.
  destruct (attach_first P sb (Partial.namespaces m)) as [nss f1].
  destruct (attach_modules P sb ms) as [rest' f2]. simpl in *.
  intros [-> ->]%orb_false_iff. constructor; [by apply H1|by apply IH].
Qed.

Lemma attach_first_set P sb k new nss :
  unmatched P nss -> P new = true -> attach sb new = new ->
  attach_first P sb (ODict.set k new nss) = (ODict.set k new nss, true).
Proof.
  intros Hun Hnew Hfix.
  induction Hun as [|[k' n'] nss Hn _ IH]; simpl.
  - by rewrite Hnew, Hfix.
  - case_decide; simpl.
    + by rewrite Hnew, Hfix.
    + simpl in Hn. by rewrite Hn, IH.
Qed.

Lemma attach_modules_alter P sb k new modname ms :
  Forall (fun km => unmatched P (Partial.namespaces km.2)) ms ->
  P new = true -> attach sb new = new -> modname ∈ ms.*1 ->
  let f := fun m => Partial.mkModule (Partial.sourceFile m)
                      (ODict.set k new (Partial.namespaces m)) in
  attach_modules P sb (ODict.alter f modname ms) = (ODict.alter f modname ms, true).
Proof.
  intros Hun Hnew Hfix Hin f.
  induction Hun as [|[k' m'] ms Hm Hms IH]; simpl.
  - by apply elem_of_nil in Hin.
  - simpl in Hm. case_decide as Hk; simpl.
    + rewrite (attach_first_set _ _ _ _ _ Hm Hnew Hfix).
      by rewrite (attach_modules_unmatched _ _ _ Hms).
    + rewrite (attach_first_unmatched _ _ _ Hm), IH.
      * by destruct m'.
      * simpl in Hin. apply elem_of_cons in Hin as [Hin|Hin]; [congruence|done].
Qed.

Lemma external_bridge_doc_found tl tls squashed sb cg :
  (attach_modules (matches_external tl tls squashed) sb (Partial.internal cg)).2 = true ->
  external_bridge_doc tl tls squashed sb (external_bridge_doc tl tls squashed sb cg)
  = external_bridge_doc tl tls squashed sb cg.
Proof.
  intros Hf. unfold external_bridge_doc.
  pose proof (attach_modules_idemp (matches_external tl tls squashed) sb
                (Partial.internal cg) (fun _ => eq_refl)) as Hi.
  destruct (attach_modules (matches_external tl tls squashed) sb (Partial.internal cg))
    as [ms f]. simpl in *. subst f. simpl. by rewrite Hi.
Qed.

(** The two namespaces the [if not found:] block writes. *)
Definition bootstrap_ns (tl : string) : Partial.namespace :=
  Partial.mkNamespace ("/" +:+ tl +:+ "/") (Partial.mkMetadata None []).

Definition synthesized_ns (tl squashed : string) (sb : Stitched.bridge)
  : Partial.namespace :=
  Partial.mkNamespace
    (("/" +:+ tl +:+ "/")
       +:+ PyStr.join "." (tail (PyStr.split "." squashed)) +:+ "()")
    (Partial.mkMetadata (Some [sb]) []).

Lemma attach_synthesized tl squashed sb :
  attach sb (synthesized_ns tl squashed sb) = synthesized_ns tl squashed sb.
Proof. unfold attach. simpl. rewrite decide_True; [done|]. by left. Qed.

Lemma synthesize_eq tl squashed sb cg :
  let modname := "/" +:+ tl +:+ "/" in
  let f k := fun m => Partial.mkModule (Partial.sourceFile m)
                        (ODict.set k (synthesized_ns tl squashed sb)
                           (Partial.namespaces m)) in
  synthesize tl squashed sb cg =
  if decide (modname ∈ (Partial.internal cg).*1)
  then with_internal (ODict.alter (f (Partial.nodes cg)) modname (Partial.internal cg))
         (Partial.nodes cg + 1) cg
  else with_internal
         (ODict.alter (f (Partial.nodes cg + 1)) modname
            (Partial.internal cg
               ++ [(modname, Partial.mkModule "__init__.py"
                               [(Partial.nodes cg, bootstrap_ns tl)])]))
         (Partial.nodes cg + 1 + 1) cg.
Proof. intros modname f. unfold synthesize. fold modname. by destruct (decide _). Qed.

Lemma external_bridge_doc_synthesized tl tls squashed sb cg :
  let P := matches_external tl tls squashed in
  (attach_modules P sb (Partial.internal cg)).2 = false ->
  P (synthesized_ns tl squashed sb) = true ->
  P (bootstrap_ns tl) = false ->
  external_bridge_doc tl tls squashed sb (external_bridge_doc tl tls squashed sb cg)
  = external_bridge_doc tl tls squashed sb cg.
Proof.
  intros P Hnf Hnew Hboot.
  pose proof (attach_modules_not_found _ _ _ Hnf) as Hun.
  assert (external_bridge_doc tl tls squashed sb cg
          = synthesize tl squashed sb
              (with_internal (Partial.internal cg) (Partial.nodes cg) cg)) as ->.
  { unfold external_bridge_doc. fold P.
    by rewrite (attach_modules_unmatched _ _ _ Hun). }
  rewrite synthesize_eq. cbn [Partial.internal Partial.nodes with_internal].
  destruct (decide (("/" +:+ tl +:+ "/") ∈ (Partial.internal cg).*1)) as [Hin|Hin].
  - unfold external_bridge_doc. cbn [Partial.internal Partial.nodes with_internal].
    fold P.
    rewrite (attach_modules_alter P sb _ (synthesized_ns tl squashed sb)
               _ _ Hun Hnew (attach_synthesized _ _ _) Hin).
    done.
  - unfold external_bridge_doc. cbn [Partial.internal Partial.nodes with_internal].
    fold P.
    rewrite (attach_modules_alter P sb _ (synthesized_ns tl squashed sb)).
    + done.
    + apply Forall_app. split; [done|]. constructor; [|constructor].
      constructor; [exact Hboot|constructor].
    + exact Hnew.
    + apply attach_synthesized.
    + rewrite fmap_app. apply elem_of_app. right. by left.
Qed.

(** The name the loop compares for a namespace [/tl/x]. *)
Lemma clean_of_under_tl tl tls (x : string) :
  tl <> "" -> PyStr.has_char "." tl = false -> PyStr.has_char "/" tl = false ->
  PyStr.has_char "/" x = false -> tl ∈ tls ->
  clean_of tl tls ("/" +:+ tl +:+ "/" +:+ x) = tl +:+ "." +:+ x.
Proof.
  intros Hne Hdot Hsl Hx Hin. unfold clean_of.
  change ("/" +:+ tl +:+ "/" +:+ x) with (String "/" (tl +:+ String "/" x)).
  rewrite replace_same, replace_app, (replace_no_char _ _ tl Hsl), replace_same,
    (replace_no_char _ _ x Hx), lstrip_same, (lstrip_app _ _ _ Hne Hdot).
  change (String "." x) with ("." +:+ x).
  assert (existsb (fun t => PyStr.startswith (tl +:+ "." +:+ x) (t +:+ ".")) tls = true)
    as ->; [|done].
  apply existsb_exists. exists tl. split; [by apply list_elem_of_In|].
  rewrite <- string_app_assoc. apply startswith_app.
Qed.

Lemma matches_synthesized tl tls rest sb :
  tl <> "" -> PyStr.has_char "." tl = false -> PyStr.has_char "/" tl = false ->
  PyStr.has_char "/" rest = false -> tl ∈ tls ->
  matches_external tl tls (tl +:+ "." +:+ rest)
    (synthesized_ns tl (tl +:+ "." +:+ rest) sb) = true.
Proof.
  intros Hne Hdot Hsl Hrest Hin. unfold matches_external, synthesized_ns.
  cbn [Partial.ns_name].
  change (tl +:+ "." +:+ rest) with (tl +:+ String "." rest).
  rewrite (split_app_sep _ _ _ Hdot). cbn [tail]. rewrite join_split.
  rewrite !string_app_assoc.
  rewrite (clean_of_under_tl tl tls (rest +:+ "()")); try done.
  - apply orb_true_iff. right. by apply bool_decide_eq_true.
  - by rewrite has_char_app, Hrest.
Qed.

Lemma matches_bootstrap tl tls rest :
  tl <> "" -> PyStr.has_char "." tl = false -> PyStr.has_char "/" tl = false ->
  rest <> "" -> tl ∈ tls ->
  matches_external tl tls (tl +:+ "." +:+ rest) (bootstrap_ns tl) = false.
Proof.
  intros Hne Hdot Hsl Hrest Hin. unfold matches_external, bootstrap_ns.
  cbn [Partial.ns_name].
  rewrite <- (string_app_nil_r ("/" +:+ tl +:+ "/")), !string_app_assoc.
  rewrite clean_of_under_tl by done.
  apply orb_false_iff. split; apply bool_decide_eq_false.
  - intros Heq%string_app_inv_head. destruct rest; [done|].
    simpl in Heq. discriminate.
  - intros Heq%string_app_inv_head.
    destruct rest; simpl in Heq; discriminate.
Qed.

Lemma elem_of_pkg2tl a tl pkg :
  ODict.get tl (tl2pkg a) = Some pkg -> tl ∈ pkg2tl a pkg.
Proof.
  intros Hg%get_Some. unfold pkg2tl. apply list_elem_of_fmap.
  exists (tl, pkg). split; [done|]. by apply list_elem_of_filter.
Qed.

Lemma load_store fs a cg_path cg : load fs (store cg_path cg a) cg_path = Some cg.
Proof. unfold load, store. simpl. by rewrite lookup_insert_eq. Qed.

Lemma store_store a cg_path cg cg' :
  store cg_path cg (store cg_path cg' a) = store cg_path cg a.
Proof. unfold store. simpl. by rewrite insert_insert_eq. Qed.

(** A second run of [process_internal_bridge] on the state the first
    one left. *)
Lemma process_internal_bridge_again fs a b a1 :
  process_internal_bridge fs a b = Ok a1 ->
  process_internal_bridge fs a1 b = Ok a1.
Proof.
  unfold process_internal_bridge.
  destruct (pkg2aug a !! given_package a) as [cg_path|] eqn:Hpath; [|done].
  simpl. destruct (load fs a cg_path) as [cg|] eqn:Hload.
  - intros [= <-]. simpl. rewrite Hpath. simpl.
    by rewrite load_store, internal_bridge_doc_idemp, store_store.
  - intros [= <-]. rewrite Hpath. simpl. by rewrite Hload.
Qed.

(** The same for [process_external_bridge], for a transformation of the
    document that is idempotent on the document loaded. *)
Lemma process_external_bridge_again fs a b a1 :
  (forall tl pkg cg_path cg,
     pyname_to_tl_external (pyname b) = Ok tl ->
     ODict.get tl (tl2pkg a) = Some pkg ->
     pkg2aug a !! pkg = Some cg_path ->
     load fs a cg_path = Some cg ->
     let doc := external_bridge_doc tl (pkg2tl a pkg)
                  (pyname_to_squash_external (pyname b)) (simple_bridge b) in
     doc (doc cg) = doc cg) ->
  process_external_bridge fs a b = Ok a1 ->
  process_external_bridge fs a1 b = Ok a1.
Proof.
  intros Hdoc. unfold process_external_bridge.
  destruct (pyname_to_tl_external (pyname b)) as [tl|e] eqn:Htl; [|done].
  simpl. destruct (ODict.get tl (tl2pkg a)) as [pkg|] eqn:Hpkg; simpl.
  - destruct (pkg2aug a !! pkg) as [cg_path|] eqn:Hpath.
    + destruct (load fs a cg_path) as [cg|] eqn:Hload.
      * intros [= <-]. simpl. rewrite Hpkg. simpl. rewrite Hpath, load_store.
        simpl. unfold pkg2tl at 1. simpl. fold (pkg2tl a pkg).
        by rewrite (Hdoc tl pkg cg_path cg eq_refl Hpkg Hpath Hload), store_store.
      * intros [= <-]. rewrite Hpkg. simpl. by rewrite Hpath, Hload.
    + intros [= <-]. rewrite Hpkg. simpl. by rewrite Hpath.
  - intros [= <-]. by rewrite Hpkg.
Qed.

(** Supporting facts for idempotence, the cases in which it holds:
    applying the augmenter a second time with the same bridge record
    leaves the documents as the first application made them -- so the
    bridge is not listed twice and no further namespace is synthesized --
    for every internal bridge; for every external bridge that finds a
    namespace to carry it; and for every external bridge whose name
    behind the last [//] is [tl.rest], with [tl] the top-level name of the
    record (not empty, without dot or slash) and [rest] not empty and
    without slash.  In every case the bridge list of a namespace is
    unchanged by attaching the bridge once more. *)
Theorem augment_idempotent fs a b a1 :
  (process_internal_bridge fs a b = Ok a1 ->
   process_internal_bridge fs a1 b = Ok a1)
  /\ (forall tl pkg cg_path cg,
        pyname_to_tl_external (pyname b) = Ok tl ->
        ODict.get tl (tl2pkg a) = Some pkg ->
        pkg2aug a !! pkg = Some cg_path ->
        load fs a cg_path = Some cg ->
        (attach_modules
           (matches_external tl (pkg2tl a pkg) (pyname_to_squash_external (pyname b)))
           (simple_bridge b) (Partial.internal cg)).2 = true ->
        process_external_bridge fs a b = Ok a1 ->
        process_external_bridge fs a1 b = Ok a1)
  /\ (forall tl rest,
        pyname_to_tl_external (pyname b) = Ok tl ->
        pyname_to_squash_external (pyname b) = tl +:+ "." +:+ rest ->
        tl <> "" -> PyStr.has_char "." tl = false -> PyStr.has_char "/" tl = false ->
        rest <> "" -> PyStr.has_char "/" rest = false ->
        process_external_bridge fs a b = Ok a1 ->
        process_external_bridge fs a1 b = Ok a1)
  /\ (forall n,
        attach (simple_bridge b) (attach (simple_bridge b) n)
        = attach (simple_bridge b) n).
Proof.
  split; [apply process_internal_bridge_again|].
  split; [|split; [|intros n; apply attach_idemp]].
  - intros tl pkg cg_path cg Htl Hpkg Hpath Hload Hfound.
    apply process_external_bridge_again.
    intros tl' pkg' cg_path' cg' Htl' Hpkg' Hpath' Hload' doc.
    assert (tl' = tl) as -> by congruence.
    assert (pkg' = pkg) as -> by congruence.
    assert (cg_path' = cg_path) as -> by congruence.
    assert (cg' = cg) as -> by congruence.
    by apply external_bridge_doc_found.
  - intros tl rest Htl Hsq Hne Hdot Hsl Hrest Hrsl.
    apply process_external_bridge_again.
    intros tl' pkg cg_path cg Htl' Hpkg _ _ doc.
    assert (tl' = tl) as -> by congruence.
    pose proof (elem_of_pkg2tl _ _ _ Hpkg) as Hin.
    subst doc. rewrite Hsq.
    destruct (attach_modules
                (matches_external tl (pkg2tl a pkg) (tl +:+ "." +:+ rest))
                (simple_bridge b) (Partial.internal cg)).2 eqn:Hfound.
    + by apply external_bridge_doc_found.
    + apply external_bridge_doc_synthesized; [done| |].
      * by apply matches_synthesized.
      * by apply matches_bootstrap.
Qed.

(** A package [numpy:1.0] with the document of its module [/numpy/]:
    an internal bridge, an external bridge that finds its namespace and
    one that has to synthesize it, each applied twice. *)
Lemma augment_idempotent_witness :
  let none := Partial.mkMetadata None [] in
  let cg :=
    Partial.mkCallgraph "numpy" "1.0" 2
      [("/numpy/", Partial.mkModule "numpy/__init__.py"
                     [(0, Partial.mkNamespace "/numpy/" none);
                      (1, Partial.mkNamespace "/numpy/core.dot" none)])]
      [] [(0, 1)] [] in
  let fs : files := {[ "numpy.json" := cg ]} in
  let a := mkAugmentor [("numpy", "numpy:1.0")] {[ "numpy:1.0" := "numpy.json" ]}
             "numpy:1.0" ∅ in
  let b_int := mkBridgeRecord "/numpy/core.dot" "PyArray_Dot" "multiarray.so" in
  let b_found := mkBridgeRecord "//numpy//numpy.core.dot" "PyArray_Dot" "multiarray.so" in
  let b_new := mkBridgeRecord "//numpy//numpy.linalg.inv" "call_inv" "umath_linalg.so" in
  (exists a1, process_internal_bridge fs a b_int = Ok a1
              /\ process_internal_bridge fs a1 b_int = Ok a1)
  /\ (exists a1, process_external_bridge fs a b_found = Ok a1
                 /\ process_external_bridge fs a1 b_found = Ok a1)
  /\ (exists a1 d, process_external_bridge fs a b_new = Ok a1
                   /\ process_external_bridge fs a1 b_new = Ok a1
                   /\ cg_path2cg a1 !! "numpy.json" = Some d
                   /\ Partial.nodes d = 3).
Proof.
  intros none cg fs a b_int b_found b_new. split; [|split].
  - destruct (process_internal_bridge fs a b_int) as [a1|e] eqn:Hrun;
      [|vm_compute in Hrun; discriminate].
    exists a1. split; [done|].
    by apply (augment_idempotent fs a b_int a1).
  - destruct (process_external_bridge fs a b_found) as [a1|e] eqn:Hrun;
      [|vm_compute in Hrun; discriminate].
    exists a1. split; [done|].
    destruct (augment_idempotent fs a b_found a1) as (_ & Hfound & _).
    apply (Hfound "numpy" "numpy:1.0" "numpy.json" cg);
      [vm_compute; reflexivity..|exact Hrun].
  - destruct (process_external_bridge fs a b_new) as [a1|e] eqn:Hrun;
      [|vm_compute in Hrun; discriminate].
    assert (exists d, cg_path2cg a1 !! "numpy.json" = Some d /\ Partial.nodes d = 3)
      as (d & Hd & Hnodes).
    { vm_compute in Hrun. injection Hrun as <-. eexists. split; vm_compute; reflexivity. }
    exists a1, d. split; [done|]. split; [|done].
    destruct (augment_idempotent fs a b_new a1) as (_ & _ & Hnew & _).
    apply (Hnew "numpy" "linalg.inv");
      [vm_compute; reflexivity|vm_compute; reflexivity|discriminate
      |reflexivity|reflexivity|discriminate|reflexivity|exact Hrun].
Defined.

(** C5, the failing input: the [if not found:] block of
    [process_external_bridge] does not recognise the namespace it made.
    The top-level name [yaml] of the record is not the first component
    of the name [_yaml.get_version] behind it, and no namespace of the
    document carries that name: the first application synthesizes
    [/yaml/get_version()] under the key 1, the second application
    compares it as [yaml.get_version()], finds nothing again and
    synthesizes the same namespace once more under the key 2.  The
    document after two applications differs from the document after
    one. *)
Theorem augment_synthesizes_twice :
  let none := Partial.mkMetadata None [] in
  let cg :=
    Partial.mkCallgraph "pyyaml" "6.0" 1
      [("/yaml/", Partial.mkModule "yaml/__init__.py"
                    [(0, Partial.mkNamespace "/yaml/" none)])]
      [] [] [] in
  let fs : files := {[ "pyyaml.json" := cg ]} in
  let a := mkAugmentor [("yaml", "pyyaml:6.0"); ("_yaml", "pyyaml:6.0")]
             {[ "pyyaml:6.0" := "pyyaml.json" ]} "pyyaml:6.0" ∅ in
  let b := mkBridgeRecord "//yaml//_yaml.get_version" "get_version" "_yaml.so" in
  let sb := Stitched.mkBridge "get_version" "_yaml.so" in
  let new := Partial.mkNamespace "/yaml/get_version()" (Partial.mkMetadata (Some [sb]) []) in
  exists a1 a2 d1 d2,
    process_external_bridge fs a b = Ok a1
    /\ process_external_bridge fs a1 b = Ok a2
    /\ cg_path2cg a1 !! "pyyaml.json" = Some d1
    /\ cg_path2cg a2 !! "pyyaml.json" = Some d2
    /\ Partial.nodes d1 = 2 /\ Partial.nodes d2 = 3
    /\ Partial.all_namespaces (Partial.internal d1)
       = [(0, Partial.mkNamespace "/yaml/" none); (1, new)]
    /\ Partial.all_namespaces (Partial.internal d2)
       = [(0, Partial.mkNamespace "/yaml/" none); (1, new); (2, new)]
    /\ d2 <> d1.
Proof.
  intros none cg fs a b sb new.
  eexists _, _, _, _.
  split; [vm_compute; reflexivity|].
  split; [vm_compute; reflexivity|].
  split; [vm_compute; reflexivity|].
  split; [vm_compute; reflexivity|].
  split; [reflexivity|]. split; [reflexivity|].
  split; [reflexivity|]. split; [reflexivity|].
  intros Heq. apply (f_equal Partial.nodes) in Heq. discriminate.
Qed.

End augment_facts.

(** ** Node uniqueness *)

Lemma Forall2_fst_eq {A B} (P : A * B -> A * B -> Prop) l k :
  Forall2 P l k -> (forall e e', P e e' -> e'.1 = e.1) -> k.*1 = l.*1.
Proof.
  induction 1 as [|x y l k Hxy _ IH]; intros Hfst; [done|].
  rewrite !fmap_cons. f_equal; [by apply Hfst|by apply IH].
Qed.

(** C7 (as amended): the stitcher numbers the namespaces of its input
    from 0 without merging any, and the native merger adds one node per
    native symbol name and one per node of the stitched graph.  So ids
    are pairwise distinct, no two ids of nodes with a library carry the
    same name (hence none the same (name, owningLibrary) pair), and two
    distinct ids carry the same (name, owningPackage) pair only when two
    namespaces of the input with the same package identity normalise to
    the same name. *)
Theorem node_uniqueness (cgs : list Partial.callgraph) (st : Stitch.stitcher)
    (pycg : Stitched.callgraph) (socgs : list Native.callgraph)
    (u : Unify.unifier) :
  (Stitch.add_internal cgs Stitch.init = Ok st ->
   Stitch.final_nodes st = numbered (all_entries cgs) /\
   NoDup (Stitch.final_nodes st).*1 /\
   (NoDup ((fun e => (Stitch.newname_of (Partial.ns_name e.2), e.1))
             <$> all_entries cgs) ->
    forall i j v w,
      (i, v) ∈ Stitch.final_nodes st -> (j, w) ∈ Stitch.final_nodes st ->
      Stitched.URI v = Stitched.URI w ->
      Stitched.package v = Stitched.package w -> i = j)) /\
  (Unify.unify_state pycg socgs = Ok u ->
   NoDup (Unify.final_nodes u).*1 /\
   (forall i j v w,
      (i, v) ∈ Unify.final_nodes u -> (j, w) ∈ Unify.final_nodes u ->
      is_Some (Unified.library v) -> is_Some (Unified.library w) ->
      Unified.name v = Unified.name w -> i = j) /\
   (NoDup ((fun e => (Stitched.URI e.2, Stitched.package e.2))
             <$> Stitched.nodes pycg) ->
    forall i j v w,
      (i, v) ∈ Unify.final_nodes u -> (j, w) ∈ Unify.final_nodes u ->
      is_Some (Unified.package v) ->
      Unified.name v = Unified.name w ->
      Unified.package v = Unified.package w -> i = j)).
Proof.
  split.
  - intros Hok%add_internal_ok. destruct Hok as [Hn _ _ _].
    split_and!; [done|rewrite Hn; apply numbered_NoDup|].
    intros Hnd i j v w. rewrite Hn.
    intros (k & e & Hk & -> & ->)%elem_of_numbered
           (k' & e' & Hk' & -> & ->)%elem_of_numbered Huri Hpkg.
    f_equal. eapply NoDup_lookup; [exact Hnd| |]; rewrite list_lookup_fmap.
    + by rewrite Hk.
    + rewrite Hk'. simpl in *. by rewrite Huri, Hpkg.
  - intros (u0 & u1 & natives & Hload & Hpy & He & Hnodes & Hall)%unify_state_stages.
    apply load_socgs_ok in Hload as (Hwf0 & Hnat0 & _ & _).
    destruct (process_pycg_ok _ _ _ Hwf0 Hpy) as (Hwf1 & Hnodes1 & _).
    assert (forall i v, (i, v) ∈ natives ->
              Unified.package v = None /\
              Unify.n2idx u0 !! Unified.name v = Some i) as Hnatives.
    { intros i v [k Hk]%list_elem_of_lookup.
      destruct (Forall2_lookup_r _ _ _ _ _ Hall Hk)
        as ([i0 v0] & Hk0 & Hi0 & Hn0 & Hp0 & _).
      simpl in *. subst i0. apply list_elem_of_lookup_2 in Hk0.
      destruct (nat_nodes _ Hnat0 _ _ Hk0) as (_ & _ & Hn2i).
      split; [done|]. by rewrite Hn0. }
    assert (forall i v,
              (i, v) ∈ new_nodes (Unify.next_index u0) (Stitched.nodes pycg) ->
              exists k e, Stitched.nodes pycg !! k = Some e /\
                i = Unify.next_index u0 + Z.of_nat k /\ v = pycg_node e) as Hnews.
    { intros i v (k & e & [= -> ->] & Hk)%elem_of_lookup_imap. by exists k, e. }
    split_and!.
    + rewrite Hnodes, fmap_app.
      rewrite (Forall2_fst_eq _ _ _ Hall) by (by intros e e' [? _]).
      rewrite <- fmap_app, <- Hnodes1. by apply wf_nodup.
    + intros i j v w. rewrite Hnodes.
      intros [Hv|Hv]%elem_of_app [Hw|Hw]%elem_of_app [lv Hlv] [lw Hlw] Hname.
      * destruct (Hnatives _ _ Hv) as [_ Hi], (Hnatives _ _ Hw) as [_ Hj].
        rewrite Hname in Hi. congruence.
      * destruct (Hnews _ _ Hw) as (? & ? & _ & _ & ->). done.
      * destruct (Hnews _ _ Hv) as (? & ? & _ & _ & ->). done.
      * destruct (Hnews _ _ Hv) as (? & ? & _ & _ & ->). done.
    + intros Hnd i j v w. rewrite Hnodes.
      intros [Hv|Hv]%elem_of_app [Hw|Hw]%elem_of_app [pv Hpv] Hname Hpkg.
      * destruct (Hnatives _ _ Hv) as [Hnone _]. congruence.
      * destruct (Hnatives _ _ Hv) as [Hnone _]. congruence.
      * destruct (Hnatives _ _ Hw) as [Hnone _]. congruence.
      * destruct (Hnews _ _ Hv) as (k & e & Hk & -> & ->).
        destruct (Hnews _ _ Hw) as (k' & e' & Hk' & -> & ->).
        simpl in Hname, Hpkg. injection Hpkg as Hpkg.
        do 2 f_equal. eapply NoDup_lookup; [exact Hnd| |]; rewrite list_lookup_fmap.
        -- by rewrite Hk.
        -- rewrite Hk'. simpl. by rewrite Hname, Hpkg.
Qed.

Lemma node_uniqueness_witness :
  let cg := Partial.mkCallgraph "pkg" "1" 2
      [("/pkg/", Partial.mkModule "pkg/__init__.py"
          [(0, Partial.mkNamespace "/pkg/" (Partial.mkMetadata None []));
           (1, Partial.mkNamespace "/pkg/main()" (Partial.mkMetadata None []))])]
      [] [(0, 1)] [] in
  exists st u,
    Stitch.add_internal [cg] Stitch.init = Ok st /\
    Unify.unify_state (Stitch.final_cg st) [] = Ok u /\
    NoDup (Stitch.final_nodes st).*1 /\ NoDup (Unify.final_nodes u).*1.
Proof.
  intros cg.
  destruct (Stitch.add_internal [cg] Stitch.init) as [st|] eqn:Hst;
    [|by vm_compute in Hst].
  destruct (Unify.unify_state (Stitch.final_cg st) []) as [u|] eqn:Hu.
  2: { vm_compute in Hst. injection Hst as <-. by vm_compute in Hu. }
  exists st, u. split; [done|]. split; [done|].
  destruct (node_uniqueness [cg] st (Stitch.final_cg st) [] u) as [HS HU].
  destruct (HS Hst) as (_ & Hnd & _). destruct (HU Hu) as (Hnd' & _).
  split; [exact Hnd|exact Hnd'].
Defined.

(** C7 as stated fails: a module [pkg.util] and a function [util] of
    the package [pkg] normalise to the same name, and the unified graph
    holds the pair (pkg.util, pkg:1) under the ids 0 and 1. *)
Lemma node_uniqueness_counterexample :
  let cg := Partial.mkCallgraph "pkg" "1" 2
      [("/pkg.util/", Partial.mkModule "pkg/util.py"
          [(0, Partial.mkNamespace "/pkg.util/" (Partial.mkMetadata None []))]);
       ("/pkg/", Partial.mkModule "pkg/__init__.py"
          [(1, Partial.mkNamespace "/pkg/util()" (Partial.mkMetadata None []))])]
      [] [] [] in
  exists st u,
    Stitch.add_internal [cg] Stitch.init = Ok st /\
    Unify.unify_state (Stitch.final_cg st) [] = Ok u /\
    ~ (forall i j v w,
         (i, v) ∈ Unify.final_nodes u -> (j, w) ∈ Unify.final_nodes u ->
         Unified.name v = Unified.name w ->
         Unified.package v = Unified.package w -> i = j).
Proof.
  intros cg. eexists. eexists. split; [vm_compute; reflexivity|].
  split; [vm_compute; reflexivity|].
  intros Hall.
  specialize (Hall 0 1 (Unified.mkNode "pkg.util" (Some "pkg:1") None)
                       (Unified.mkNode "pkg.util" (Some "pkg:1") None)).
  assert (0 = 1) as Hbad; [|done].
  apply Hall; [|apply list_elem_of_further|..]; try apply list_elem_of_here; done.
Qed.

(** ** Further properties of the reachability detector *)

Section reach_more.
Import Unified Graph Reach.

(** A loop raises exactly what its body raises at the first item that
    does. *)
Lemma for_each_Raise {S X} (body : S -> X -> result S) l st err :
  for_each body l st = Raise err ->
  exists pre x post s, l = pre ++ x :: post /\
    for_each body pre st = Ok s /\ body s x = Raise err.
Proof.
  revert st. induction l as [|x l IH]; intros st; simpl; [done|].
  destruct (body st x) as [s1|e] eqn:Hb; simpl.
  - intros (pre & y & post & s & -> & Hpre & Hy)%IH.
    exists (x :: pre), y, post, s. simpl. rewrite Hb. simpl. done.
  - intros [= ->]. by exists [], x, l, st.
Qed.

Definition orphan (iv : Z * node) : Prop :=
  library iv.2 = None /\ package iv.2 = None.

Lemma create_graph_node_Raise t iv e :
  create_graph_node t iv = Raise e -> e = RuntimeError /\ orphan iv.
Proof.
  destruct iv as [i v]. unfold create_graph_node, orphan. simpl.
  destruct (library v); [done|]. destruct (package v); [done|].
  simpl. by intros [= <-].
Qed.

Lemma create_graph_node_orphan t iv :
  orphan iv -> create_graph_node t iv = Raise RuntimeError.
Proof.
  destruct iv as [i v]. unfold create_graph_node, orphan. simpl.
  by intros [-> ->].
Qed.

Lemma create_graph_nodes_Ok ns t0 t iv :
  for_each create_graph_node ns t0 = Ok t -> iv ∈ ns ->
  is_Some (library iv.2) \/ is_Some (package iv.2).
Proof.
  revert t0. induction ns as [|x ns IH]; intros t0; simpl.
  - by intros _ ?%elem_of_nil.
  - destruct (create_graph_node t0 x) as [t1|] eqn:Hx; simpl; [|done].
    intros Hrest [Heq|Hin]%elem_of_cons; [|by eapply IH].
    subst x. destruct iv as [i v]. unfold create_graph_node in Hx. simpl in *.
    destruct (library v); [by eauto|]. destruct (package v); [by eauto|done].
Qed.

(** [run] when the identity is well formed and the file is there: what
    is left is the node loop of [create_graph] and the stages behind
    it. *)
Lemma run_node_loop ident path fs cg :
  fs !! path = Some cg ->
  PyStr.has_char ":" ident || PyStr.has_char "/" ident = true ->
  forall e, run ident path fs = Raise e ->
            for_each create_graph_node (nodes cg) fresh_tables = Raise e.
Proof.
  intros Hfs Hid e Hrun.
  destruct (for_each create_graph_node (nodes cg) fresh_tables) as [t|e'] eqn:Ht.
  - destruct (run_total ident path fs cg Hfs Hid) as [d Hd]; [|congruence].
    intros iv Hin. by eapply create_graph_nodes_Ok.
  - revert Hrun. unfold run, init.
    destruct (if PyStr.has_char ":" ident then _ else _) as [[b pk]|] eqn:Hfmt; simpl.
    2: { destruct (PyStr.has_char ":" ident), (PyStr.has_char "/" ident); done. }
    rewrite decide_True by (by rewrite Hfs).
    unfold reach, load_callgraph. simpl. rewrite Hfs. simpl.
    unfold create_graph. simpl. fold fresh_tables. rewrite Ht. simpl. congruence.
Qed.

(** X1. With a well-formed identity and the document on disk, the
    detector fails in one way only: [RuntimeError], raised by
    [create_graph] exactly when some node of the document has neither a
    library nor a package.  No lookup of [find_entrypoints] and no graph
    query of [calculate_reachable] can fail. *)
Theorem reach_fails_only_on_orphans (ident path : string) (fs : Reach.files)
    (cg : Unified.callgraph) :
  fs !! path = Some cg ->
  PyStr.has_char ":" ident || PyStr.has_char "/" ident = true ->
  (forall e, Reach.run ident path fs = Raise e ->
     e = RuntimeError /\ exists iv, iv ∈ Unified.nodes cg /\ orphan iv) /\
  ((exists iv, iv ∈ Unified.nodes cg /\ orphan iv) ->
   Reach.run ident path fs = Raise RuntimeError) /\
  ((forall iv, iv ∈ Unified.nodes cg -> ~ orphan iv) ->
   exists d, Reach.run ident path fs = Ok d).
Proof.
  intros Hfs Hid. split_and!.
  - intros e Hrun. apply (run_node_loop _ _ _ _ Hfs Hid) in Hrun.
    apply for_each_Raise in Hrun as (pre & x & post & s & Hl & _ & Hx).
    apply create_graph_node_Raise in Hx as [-> Hx]. split; [done|].
    exists x. split; [|done]. rewrite Hl. apply elem_of_app. right. by left.
  - intros (iv & Hin & Horph).
    destruct (Reach.run ident path fs) as [d|e] eqn:Hrun.
    + apply run_stages in Hrun as (cg' & t & Hfs' & _ & _ & Ht & _).
      assert (cg' = cg) as -> by congruence.
      destruct (create_graph_nodes_Ok _ _ _ _ Ht Hin) as [[l Hl]|[p Hp]];
        destruct Horph; congruence.
    + apply (run_node_loop _ _ _ _ Hfs Hid) in Hrun.
      apply for_each_Raise in Hrun as (pre & x & post & s & _ & _ & Hx).
      by apply create_graph_node_Raise in Hx as [-> _].
  - intros Hno. apply (run_total _ _ _ _ Hfs Hid). intros [i v] Hin.
    specialize (Hno _ Hin). unfold orphan in Hno. simpl in *.
    destruct (library v); [by eauto|]. destruct (package v); [by eauto|].
    by destruct Hno.
Qed.

Lemma reach_fails_only_on_orphans_witness :
  let cg := Unified.mkCallgraph
     [(0, Unified.mkNode "app.main" (Some "app:1.0") None);
      (1, Unified.mkNode "mystery" None None)]
     [(0, 1)] in
  Reach.run "app:1.0" "unified.json" {[ "unified.json" := cg ]} = Raise RuntimeError.
Proof.
  intros cg.
  destruct (reach_fails_only_on_orphans "app:1.0" "unified.json"
              {[ "unified.json" := cg ]} cg) as (_ & Hraise & _);
    [reflexivity|reflexivity|].
  apply Hraise. exists (1, Unified.mkNode "mystery" None None).
  split; [apply list_elem_of_further, list_elem_of_here|by split].
Defined.

(** With pairwise distinct names, the entrypoints of a run. *)
Lemma entrypoints_exact ident path fs d :
  run ident path fs = Ok d ->
  NoDup ((fun iv => name iv.2) <$> nodes (callgraph d)) ->
  forall i, i ∈ entrypoints d <->
    exists v, (i, v) ∈ nodes (callgraph d) /\ library v = None /\
              package v = Some (d_package d).
Proof.
  intros (cg & t & Hfs & Hcg & Hpk & Ht & Hg & Hn2i & Hn2p & Heps & HR & Hout)%run_stages
         Hnd i.
  rewrite Hcg in *. pose proof (create_graph_nodes_ok _ _ Ht) as [Hv Ha Hi Hp].
  destruct (create_graph_nodes_exact _ _ Ht Hnd) as [Hxi Hxp].
  rewrite Heps. split.
  - intros (n & Hn & Hni). destruct (Hi _ _ Hni) as (v & Hin & <-).
    apply Hp in Hn as [_ (j & v' & Hin' & Hname & Hpkg & Hlib)].
    assert (v' = v) as ->.
    { apply list_elem_of_lookup in Hin as [a Ha'], Hin' as [b Hb'].
      assert (a = b) as ->; [|congruence].
      eapply NoDup_lookup; [exact Hnd| |]; rewrite list_lookup_fmap.
      - by rewrite Ha'.
      - rewrite Hb'. simpl. by rewrite Hname. }
    by exists v.
  - intros (v & Hin & Hlib & Hpkg). exists (name v).
    split; [|by apply Hxi]. by rewrite (Hxp _ _ Hin Hlib).
Qed.

Lemma run_identity_ok ident path fs d :
  run ident path fs = Ok d ->
  PyStr.has_char ":" ident || PyStr.has_char "/" ident = true.
Proof.
  unfold run, init.
  destruct (PyStr.has_char ":" ident), (PyStr.has_char "/" ident); done.
Qed.

Lemma NoDup_fmap_filter {A B} (f : A -> B) (P : A -> Prop)
    `{forall x, Decision (P x)} (l : list A) :
  NoDup (f <$> l) -> NoDup (f <$> filter P l).
Proof.
  induction l as [|x l IH]; [done|]. rewrite fmap_cons.
  intros [Hx Hl]%NoDup_cons. rewrite filter_cons. case_decide; [|by apply IH].
  rewrite fmap_cons. apply NoDup_cons. split; [|by apply IH].
  intros (y & Hy & [_ Hin]%list_elem_of_filter)%list_elem_of_fmap.
  apply Hx. apply list_elem_of_fmap. by exists y.
Qed.

(** X2. Reachability is idempotent: the detector run on its own output,
    for the same identity, returns that output unchanged (node names
    pairwise distinct, as the name-keyed tables of the detector need). *)
Theorem reach_idempotent (ident path path' : string) (fs : Reach.files)
    (d : Reach.detector) :
  Reach.run ident path fs = Ok d ->
  NoDup ((fun iv => Unified.name iv.2) <$> Unified.nodes (Reach.callgraph d)) ->
  exists d',
    Reach.run ident path' {[ path' := Reach.final_callgraph d ]} = Ok d' /\
    Reach.final_callgraph d' = Reach.final_callgraph d.
Proof.
  intros Hrun Hnd.
  pose proof (run_identity_ok _ _ _ _ Hrun) as Hid.
  pose proof (entrypoints_exact _ _ _ _ Hrun Hnd) as HE.
  pose proof Hrun as
    (cg & t & Hfs & Hcg & Hpk & Ht & Hg & Hn2i & Hn2p & Heps & HR & Hout)%run_stages.
  rewrite Hcg in *. pose proof (create_graph_nodes_ok _ _ Ht) as [Hv Ha Hi Hp].
  assert (forall a b, arc (graph d) a b <-> (a, b) ∈ edges cg) as Harc.
  { intros a b. unfold arc. rewrite Hg, elem_of_arcs_add_edges, Ha, elem_of_nil. tauto. }
  assert (forall a b, a ∈ reachable_idxs d -> arc (graph d) a b -> b ∈ reachable_idxs d) as Hclosed.
  { intros a b (e & He & Hr)%HR Hab. apply HR. exists e. split; [done|].
    by eapply rtc_r. }
  destruct (run_total ident path' ({[ path' := final_callgraph d ]} : files) (final_callgraph d)) as [d' Hrun'].
  { apply lookup_singleton_eq. }
  { done. }
  { intros iv Hin. rewrite Hout in Hin. simpl in Hin.
    apply list_elem_of_filter in Hin as [_ Hin].
    by eapply create_graph_nodes_Ok. }
  exists d'. split; [done|].
  assert (NoDup ((fun iv => name iv.2) <$> nodes (final_callgraph d))) as Hnd'.
  { rewrite Hout. simpl. by apply NoDup_fmap_filter. }
  pose proof Hrun' as
    (cg' & t' & Hfs' & Hcg' & Hpk' & Ht' & Hg' & _ & _ & _ & HR' & Hout')%run_stages.
  unfold files in Hfs'. rewrite lookup_singleton_eq in Hfs'. injection Hfs' as <-.
  pose proof (create_graph_nodes_ok _ _ Ht') as [_ Ha' _ _].
  rewrite <- Hcg' in Hnd'.
  pose proof (entrypoints_exact _ _ _ _ Hrun' Hnd') as HE'.
  rewrite Hcg' in HE'.
  assert (d_package d' = d_package d) as Hsame by congruence.
  assert (forall a b, arc (graph d') a b <-> (a, b) ∈ edges (final_callgraph d)) as Harc'.
  { intros a b. unfold arc. rewrite Hg', elem_of_arcs_add_edges, Ha', elem_of_nil. tauto. }
  assert (forall i, i ∈ entrypoints d' <-> i ∈ entrypoints d) as Hsame_eps.
  { intros i. rewrite HE, HE', Hsame. rewrite Hout. simpl. split.
    - intros (v & [_ Hin]%list_elem_of_filter & Hl & Hpkg). by exists v.
    - intros (v & Hin & Hl & Hpkg). exists v. split; [|done].
      apply list_elem_of_filter. split; [|done]. simpl.
      apply HR. exists i. split; [|done]. apply HE. by exists v. }
  assert (reachable_idxs d' = reachable_idxs d) as HRR.
  { apply set_eq. intros i. rewrite HR'. split.
    - intros (e & He%Hsame_eps & Hr). apply HR. exists e. split; [done|].
      eapply rtc_subrel; [|exact Hr]. intros a b Hab%Harc'.
      rewrite Hout in Hab. simpl in Hab.
      apply list_elem_of_filter in Hab as [_ Hab]. by apply Harc.
    - intros Hi'. pose proof Hi' as (e & He & Hr)%HR.
      exists e. split; [by apply Hsame_eps|].
      assert (e ∈ reachable_idxs d) as HeR by (apply HR; by exists e).
      clear He Hi'. induction Hr as [|a b c Hab _ IH]; [done|].
      assert (b ∈ reachable_idxs d) as HbR by (by eapply Hclosed).
      eapply rtc_l; [|by apply IH]. apply Harc'. rewrite Hout. simpl.
      apply list_elem_of_filter. split; [done|]. by apply Harc. }
  rewrite Hout', HRR. rewrite Hout. simpl. f_equal.
  - rewrite list_filter_filter. apply list_filter_iff. tauto.
  - rewrite list_filter_filter. apply list_filter_iff. tauto.
Qed.

Lemma reach_idempotent_witness :
  let cg := Unified.mkCallgraph
     [(0, Unified.mkNode "app.main" (Some "app:1.0") None);
      (1, Unified.mkNode "dep.f" (Some "dep:2.0") None);
      (2, Unified.mkNode "dep.unused" (Some "dep:2.0") None)]
     [(0, 1); (2, 1)] in
  exists d d',
    Reach.run "app:1.0" "unified.json" {[ "unified.json" := cg ]} = Ok d /\
    Reach.run "app:1.0" "reached.json" {[ "reached.json" := Reach.final_callgraph d ]}
      = Ok d' /\
    Reach.final_callgraph d' = Reach.final_callgraph d.
Proof.
  intros cg.
  destruct (Reach.run "app:1.0" "unified.json" {[ "unified.json" := cg ]})
    as [d|e] eqn:Hrun; [|by vm_compute in Hrun].
  assert (Reach.callgraph d = cg) as Hcgd.
  { apply run_stages in Hrun as (cg' & t & Hfs & Hcg & _).
    rewrite Hcg. unfold Reach.files in Hfs.
    rewrite lookup_singleton_eq in Hfs. injection Hfs as <-. reflexivity. }
  assert (NoDup ((fun iv => Unified.name iv.2) <$> Unified.nodes (Reach.callgraph d))) as Hnd.
  { rewrite Hcgd. apply (bool_decide_unpack _). vm_compute. reflexivity. }
  destruct (reach_idempotent "app:1.0" "unified.json" "reached.json" _ d Hrun Hnd)
    as (d' & Hrun' & Hsame).
  exists d, d'. split; [reflexivity|]. split; [exact Hrun'|exact Hsame].
Defined.
End reach_more.

(** ** Further properties of the call-chain calculator *)

Section sort_more.
Context {A : Type} (key : A -> Z).

Lemma insert_by_Permutation x l : PyList.insert_by key x l ≡ₚ x :: l.
Proof.
  induction l as [|y l IH]; simpl; [done|]. case_decide; [done|].
  rewrite IH. apply Permutation_swap.
Qed.

Lemma sorted_by_Permutation l : PyList.sorted_by key l ≡ₚ l.
Proof.
  unfold PyList.sorted_by. induction l as [|x l IH]; simpl; [done|].
  by rewrite insert_by_Permutation, IH.
Qed.

Lemma insert_by_Sorted x l :
  Sorted (fun a b => key a <= key b) l ->
  Sorted (fun a b => key a <= key b) (PyList.insert_by key x l).
Proof.
  induction 1 as [|y l Hl IH Hhd]; simpl.
  - by repeat constructor.
  - case_decide as Hxy.
    + constructor; [by constructor|]. by constructor.
    + constructor; [done|]. destruct l as [|z l]; simpl.
      * constructor. lia.
      * case_decide; constructor; [lia|]. by inversion Hhd.
Qed.

Lemma sorted_by_Sorted l :
  Sorted (fun a b => key a <= key b) (PyList.sorted_by key l).
Proof.
  unfold PyList.sorted_by. induction l as [|x l IH]; simpl; [constructor|].
  by apply insert_by_Sorted.
Qed.

End sort_more.

Lemma Sorted_weaken {A} (R R' : A -> A -> Prop) l :
  (forall a b, R a b -> R' a b) -> Sorted R l -> Sorted R' l.
Proof.
  intros HR. induction 1 as [|x l Hl IH Hhd]; constructor; [done|].
  destruct Hhd; constructor. by apply HR.
Qed.

Section chain_more.
Import Unified Chain.

Lemma Forall2_last {X Y} (P : X -> Y -> Prop) l k x :
  Forall2 P l k -> last l = Some x -> exists y, last k = Some y /\ P x y.
Proof.
  induction 1 as [|a b l k Hab Hlk IH]; [done|].
  destruct Hlk as [|a' b' l k Hab' Hlk].
  - simpl. intros [= <-]. by exists b.
  - intros Hl. apply IH in Hl as (y & Hy & HP). by exists y.
Qed.

(** X3. What a query returns, whichever shortest paths networkx picks:
    the chains come shortest first; the score is the number of chains
    returned over a positive count that is at least that number, so it
    lies between 0 and 1 and is 0 exactly when no chain is returned; and,
    node ids being pairwise distinct, every chain returned ends with the
    symbol asked for. *)
Theorem chains_shortest_first
    (sp : Graph.DiGraph -> Z -> Z -> option (list Z)) (path sym : string)
    (fs : Chain.files) (cg : Unified.callgraph) (chains : list (list string))
    (c : Q) :
  fs !! path = Some cg ->
  Chain.find_call_chains sp path sym fs = Ok (chains, c) ->
  Sorted (fun a b => (length a <= length b)%nat) chains /\
  (exists p : positive,
     c = (Z.of_nat (length chains) # p) /\ (length chains <= Pos.to_nat p)%nat) /\
  (shortest_path_contract sp -> NoDup (Unified.nodes cg).*1 ->
   forall ch, ch ∈ chains -> last ch = Some sym).
Proof.
  intros Hfs Hq. rewrite (find_call_chains_unfold sp _ _ _ _ Hfs) in Hq.
  cbv zeta in Hq.
  pose proof (chain_nodes_ok sym (nodes cg)) as [Hv Ha Hs1 Hs2 Hi Hinv].
  destruct (t_symbol_idx _) as [sidx|] eqn:Hsidx.
  2: { injection Hq as <- <-. split_and!.
       - constructor.
       - exists 1%positive. split; [done|]. simpl. lia.
       - by intros _ _ ch ?%elem_of_nil. }
  case_decide as Hz; [done|].
  destruct (map_result _ _) as [named|] eqn:Hnamed; simpl in Hq; [|done].
  injection Hq as <- <-.
  pose proof (map_result_Ok _ _ _ Hnamed) as Hall.
  pose proof (Forall2_length _ _ _ Hall) as Hlen.
  pose proof (sorted_by_Permutation chain_len named) as Hperm.
  split_and!.
  - eapply Sorted_weaken; [|apply (sorted_by_Sorted chain_len)].
    unfold chain_len. intros a b. lia.
  - eexists. split.
    + rewrite (Permutation_length Hperm), <- Hlen. reflexivity.
    + rewrite (Permutation_length Hperm), <- Hlen.
      rewrite Nat2Pos.id by done. apply length_omap_le.
  - intros Hsp Hnd ch Hin. rewrite Hperm in Hin.
    apply list_elem_of_lookup in Hin as [k Hk].
    destruct (Forall2_lookup_r _ _ _ _ _ Hall Hk) as (p & Hp & Hname).
    apply list_elem_of_lookup_2, list_elem_of_omap in Hp as (r & _ & Hch).
    apply (chain_to_sound sp Hsp) in Hch as (_ & _ & Hlast & _).
    apply map_result_Ok in Hname.
    destruct (Forall2_last _ _ _ _ Hname Hlast) as (n & Hn & Hlook).
    rewrite Hn. f_equal. simpl in Hlook.
    destruct (t_idx2n _ !! sidx) as [n'|] eqn:Hn'; [|done]. injection Hlook as <-.
    destruct (Hs2 _ eq_refl) as (v & Hin & Hv').
    destruct (Hinv _ _ Hn') as (v' & Hin' & Hv'').
    assert (v' = v) as ->; [|congruence].
    apply list_elem_of_lookup in Hin as [a Ha'], Hin' as [b Hb'].
    assert (a = b) as ->; [|congruence].
    eapply NoDup_lookup; [exact Hnd| |]; rewrite list_lookup_fmap.
    + by rewrite Ha'.
    + by rewrite Hb'.
Qed.

Lemma chains_shortest_first_witness :
  let cg := Unified.mkCallgraph
     [(0, Unified.mkNode "app.main" (Some "app:1.0") None);
      (1, Unified.mkNode "app.helper" (Some "app:1.0") None);
      (2, Unified.mkNode "dep.vuln" (Some "dep:2.0") None);
      (3, Unified.mkNode "app.cli" (Some "app:1.0") None)]
     [(0, 1); (1, 2); (3, 2)] in
  exists chains c,
    Chain.find_call_chains Graph.search_path "reached.json" "dep.vuln"
      {[ "reached.json" := cg ]}
      = Ok (chains, c) /\
    Sorted (fun a b => (length a <= length b)%nat) chains /\
    forall ch, ch ∈ chains -> last ch = Some "dep.vuln".
Proof.
  intros cg.
  destruct (Chain.find_call_chains Graph.search_path "reached.json" "dep.vuln"
              {[ "reached.json" := cg ]})
    as [[chains c]|e] eqn:Hq; [|by vm_compute in Hq].
  exists chains, c. split; [reflexivity|].
  destruct (chains_shortest_first Graph.search_path "reached.json" "dep.vuln"
              {[ "reached.json" := cg ]} cg chains c) as (Hsorted & _ & Hlast).
  - apply lookup_singleton_eq.
  - exact Hq.
  - split; [exact Hsorted|]. apply Hlast; [apply search_path_contract|].
    apply (bool_decide_unpack _). vm_compute. reflexivity.
Defined.

(** X4. [create_graph] on a fresh calculator: when several nodes carry
    the name asked for, the query is about the last of them in document
    order, and the status is -1 exactly when no node carries it. *)
Theorem query_targets_last_namesake (c : Chain.calculator) :
  Chain.symbol_idx c = None ->
  let matches := filter (fun iv => Unified.name iv.2 = Chain.symbol c)
                        (Unified.nodes (Chain.callgraph c)) in
  Chain.symbol_idx (Chain.create_graph c).1 = fst <$> last matches /\
  ((Chain.create_graph c).2 = -1 <-> matches = []) /\
  ((Chain.create_graph c).2 = 0 <-> matches <> []).
Proof.
  intros Hnone. cbv zeta. unfold create_graph. rewrite Hnone.
  pose proof (symbol_idx_last (symbol c) (nodes (callgraph c))
                (mkTables Graph.empty_graph None (n2idx c) (idx2n c) (n2pkg c)))
    as Hlast.
  simpl in Hlast.
  destruct (t_symbol_idx _) as [sidx|] eqn:Hs; simpl.
  - destruct (last _) as [iv|] eqn:Hl; [|done]. injection Hlast as ->.
    split_and!; [done| |].
    + split; [done|]. intros Hnil. by rewrite Hnil in Hl.
    + split; [|done]. intros _ Hnil. by rewrite Hnil in Hl.
  - destruct (last _) as [iv|] eqn:Hl; [done|]. apply last_None in Hl.
    split_and!; [done| |].
    + by split.
    + split; [done|]. intros Hne. by destruct Hne.
Qed.

Lemma query_targets_last_namesake_witness :
  let cg := Unified.mkCallgraph
     [(0, Unified.mkNode "tests" (Some "app:1") None);
      (1, Unified.mkNode "app.main" (Some "app:1") None);
      (2, Unified.mkNode "tests" (Some "dep:2") None)]
     [(1, 0); (1, 2)] in
  let c := Chain.mkCalculator "tests" "reached.json" None cg None ∅ ∅ ∅ None 0 0%Q [] in
  Chain.symbol_idx (Chain.create_graph c).1 = Some 2.
Proof.
  intros cg c.
  destruct (query_targets_last_namesake c eq_refl) as (Hidx & _).
  rewrite Hidx. reflexivity.
Defined.

End chain_more.

(** ** From the detector to the calculator *)

Section reach_chain.
Import Unified.

(** A document whose edges join ids of its node table. *)
Definition closed_edges (cg : Unified.callgraph) : Prop :=
  forall e, e ∈ edges cg -> e.1 ∈ (nodes cg).*1 /\ e.2 ∈ (nodes cg).*1.

(** On such a document a query ends in a result or in the division by
    zero of [find_callchains]; no table lookup fails. *)
Lemma find_call_chains_closed sp path sym fs cg :
  shortest_path_contract sp ->
  fs !! path = Some cg -> closed_edges cg ->
  (exists r, Chain.find_call_chains sp path sym fs = Ok r) \/
  Chain.find_call_chains sp path sym fs = Raise ZeroDivisionError.
Proof.
  intros Hsp Hfs Hwf.
  pose proof (chain_nodes_ok sym (nodes cg)) as [Hv Ha Hs1 Hs2 Hi Hinv].
  rewrite (find_call_chains_unfold sp _ _ _ _ Hfs). cbv zeta.
  set (t := foldl (Chain.create_graph_node sym) fresh_chain_tables (nodes cg)) in *.
  destruct (Chain.t_symbol_idx t) as [sidx|] eqn:Hsidx; [|left; by eexists].
  set (g := Graph.add_edges (Chain.t_graph t) (edges cg)).
  assert (forall a b, arc g a b <-> (a, b) ∈ edges cg) as Harc.
  { intros a b. unfold arc, g. rewrite elem_of_arcs_add_edges, Ha, elem_of_nil. tauto. }
  assert (forall x, x ∈ Graph.vertices g <-> x ∈ (nodes cg).*1) as Hvert.
  { intros x. unfold g. rewrite elem_of_vertices_add_edges, Hv. split; [|by left].
    intros [?|(e & He & [->| ->])]; [done|by apply (Hwf e)..]. }
  case_decide as Hz; [by right|]. left.
  destruct (map_result_total (Chain.name_chain (Chain.t_idx2n t))
              (omap (chain_to sp g sidx) (spec_roots g))) as (named & -> & _).
  { intros ch (r & Hr & Hch)%list_elem_of_omap.
    destruct (map_result_total (fun i => of_option (Chain.t_idx2n t !! i) KeyError) ch)
      as (nc & Hnc & _); [|by exists nc].
    intros i Hin. apply (chain_to_sound sp Hsp) in Hch as (Hw & Hh & _).
    assert (i ∈ (nodes cg).*1) as Hid.
    { apply (walk_elems g ch (fun x => x ∈ (nodes cg).*1) Hw); [| |done].
      - intros r' Hr'. assert (r' = r) as -> by congruence.
        apply Hvert. by apply elem_of_spec_roots in Hr as [? _].
      - intros a b Hab%Harc. by apply (Hwf _ Hab). }
    destruct (Hi _ Hid) as (v & _ & ->). by eexists. }
  simpl. by eexists.
Qed.

(** X5. The detector hands the calculator what it needs: when the edges
    of the unified graph join ids of its node table, so do the edges of
    the reachable subgraph, each of its nodes still carries a package or
    a library, and a chain query on it for any symbol either returns or
    ends in the [ZeroDivisionError] of a graph without roots -- never in
    a failed lookup --, whichever shortest paths networkx picks. *)
Theorem reach_output_feeds_chains
    (sp : Graph.DiGraph -> Z -> Z -> option (list Z))
    (ident path path' sym : string) (fs : Reach.files) (d : Reach.detector) :
  shortest_path_contract sp ->
  Reach.run ident path fs = Ok d ->
  closed_edges (Reach.callgraph d) ->
  let out := Reach.final_callgraph d in
  closed_edges out /\
  (forall iv, iv ∈ nodes out -> is_Some (library iv.2) \/ is_Some (package iv.2)) /\
  ((exists r, Chain.find_call_chains sp path' sym {[ path' := out ]} = Ok r) \/
   Chain.find_call_chains sp path' sym {[ path' := out ]}
   = Raise ZeroDivisionError).
Proof.
  intros Hsp Hrun Hwf. cbv zeta.
  pose proof Hrun as
    (cg & t & Hfs & Hcg & Hpk & Ht & Hg & Hn2i & Hn2p & Heps & HR & Hout)%run_stages.
  rewrite Hcg in *.
  assert (closed_edges (Reach.final_callgraph d)) as Hclosed.
  { intros [a b]. rewrite Hout. simpl.
    intros [[Ha Hb] Hin]%list_elem_of_filter. simpl in *.
    destruct (Hwf _ Hin) as [Ha' Hb']. simpl in *.
    assert (forall x, x ∈ Reach.reachable_idxs d -> x ∈ (nodes cg).*1 ->
              x ∈ (filter (fun iv : Z * node => iv.1 ∈ Reach.reachable_idxs d)
                          (nodes cg)).*1) as Hkeep.
    { intros x Hx ([i v] & -> & Hiv)%list_elem_of_fmap.
      apply list_elem_of_fmap. exists (i, v). split; [done|].
      by apply list_elem_of_filter. }
    split; by apply Hkeep. }
  split_and!; [done| |].
  - intros iv. rewrite Hout. simpl. intros [_ Hin]%list_elem_of_filter.
    by eapply create_graph_nodes_Ok.
  - apply (find_call_chains_closed sp _ _ _ (Reach.final_callgraph d)); [done| |done].
    unfold Chain.files. apply lookup_singleton_eq.
Qed.

Lemma reach_output_feeds_chains_witness :
  let cg := Unified.mkCallgraph
     [(0, Unified.mkNode "app.main" (Some "app:1.0") None);
      (1, Unified.mkNode "dep.f" (Some "dep:2.0") None);
      (2, Unified.mkNode "dep.unused" (Some "dep:2.0") None)]
     [(0, 1); (2, 1)] in
  exists d,
    Reach.run "app:1.0" "unified.json" {[ "unified.json" := cg ]} = Ok d /\
    closed_edges (Reach.final_callgraph d).
Proof.
  intros cg.
  destruct (Reach.run "app:1.0" "unified.json" {[ "unified.json" := cg ]})
    as [d|e] eqn:Hrun; [|by vm_compute in Hrun].
  exists d. split; [reflexivity|].
  assert (Reach.callgraph d = cg) as Hcgd.
  { apply run_stages in Hrun as (cg' & t & Hfs & Hcg & _).
    rewrite Hcg. unfold Reach.files in Hfs.
    rewrite lookup_singleton_eq in Hfs. injection Hfs as <-. reflexivity. }
  apply (reach_output_feeds_chains Graph.search_path "app:1.0" "unified.json"
           "reached.json" "dep.f" _ d search_path_contract Hrun).
  rewrite Hcgd. intros e He. apply list_elem_of_In in He. simpl in He.
  destruct He as [<-|[<-|[]]]; split; apply (bool_decide_unpack _); vm_compute;
    reflexivity.
Defined.

End reach_chain.

(** ** Further properties of the native library merger *)

Section unify_more.
Import Unify.

(** The ids in use. *)
Definition ids (u : unifier) : list Z := (final_nodes u).*1.

(** Edges and name table point at ids in use. *)
Record closed (u : unifier) : Prop := {
  cl_edges : forall e, e ∈ final_edges u -> e.1 ∈ ids u /\ e.2 ∈ ids u;
  cl_n2idx : forall nm i, n2idx u !! nm = Some i -> i ∈ ids u
}.

Lemma closed_init : closed init.
Proof. split; simpl; [by intros e ?%elem_of_nil|]. intros nm i. by rewrite lookup_empty. Qed.

Lemma ids_with_node name node u x :
  x ∈ ids (with_node name node u) <-> x = next_index u \/ x ∈ ids u.
Proof. unfold ids. simpl. by rewrite keys_set, elem_of_add_key. Qed.

Lemma closed_with_node name node u : closed u -> closed (with_node name node u).
Proof.
  intros [He Hn]. split.
  - intros e Hin. rewrite !ids_with_node. destruct (He e Hin). tauto.
  - intros nm i. rewrite ids_with_node. simpl.
    destruct (decide (nm = name)) as [->|Hne].
    + rewrite lookup_insert_eq. intros [= <-]. by left.
    + rewrite lookup_insert_ne by done. intros ?%Hn. by right.
Qed.

Lemma closed_with_edge e u :
  closed u -> e.1 ∈ ids u -> e.2 ∈ ids u -> closed (with_edge e u).
Proof.
  intros [He Hn] H1 H2. split; [|done].
  intros e'. simpl. intros [Hin| ->%list_elem_of_singleton]%elem_of_app; [by apply He|done].
Qed.

Lemma closed_set_egress name lib c u : closed u -> closed (set_egress name lib c u).
Proof. by intros [He Hn]. Qed.

(** After the node loop of one native document: every key has its new
    id, and that id is in use and named. *)
Lemma load_socg_nodes_closed lib u0 ns :
  closed u0 ->
  let r := foldl (load_socg_node lib) (u0, ∅) ns in
  closed r.1 /\
  (forall k, k ∈ ns.*1 -> is_Some (r.2 !! k)) /\
  (forall k i, r.2 !! k = Some i -> i ∈ ids r.1).
Proof.
  intros Hc0. cbv zeta.
  apply (foldl_inv (fun pre (r : unifier * gmap Z Z) =>
    closed r.1 /\
    (forall k, k ∈ pre.*1 -> is_Some (r.2 !! k)) /\
    (forall k i, r.2 !! k = Some i -> i ∈ ids r.1))).
  - split_and!; [done|by intros k ?%elem_of_nil|]. intros k i. simpl.
    by rewrite lookup_empty.
  - intros pre [k name] [u o2n] (Hc & Hdom & Hran). cbn [fst snd] in *.
    cbn [load_socg_node].
    destruct (n2idx u !! name) as [idx|] eqn:Hlook; cbn [fst snd].
    + split_and!.
      * by apply closed_set_egress.
      * intros k'. rewrite fmap_app, elem_of_app. simpl.
        rewrite list_elem_of_singleton. intros [Hk| ->].
        -- destruct (decide (k' = k)) as [->|Hne];
             [rewrite lookup_insert_eq; by eauto|].
           rewrite lookup_insert_ne by done. by apply Hdom.
        -- rewrite lookup_insert_eq. by eauto.
      * intros k' i. destruct (decide (k' = k)) as [->|Hne].
        -- rewrite lookup_insert_eq. intros [= <-]. by apply (cl_n2idx _ Hc name).
        -- rewrite lookup_insert_ne by done. apply Hran.
    + split_and!.
      * by apply closed_set_egress, closed_with_node.
      * intros k'. rewrite fmap_app, elem_of_app. simpl.
        rewrite list_elem_of_singleton. intros [Hk| ->].
        -- destruct (decide (k' = k)) as [->|Hne];
             [rewrite lookup_insert_eq; by eauto|].
           rewrite lookup_insert_ne by done. by apply Hdom.
        -- rewrite lookup_insert_eq. by eauto.
      * intros k' i. change (ids (set_egress name lib 0 ?u)) with (ids u).
        rewrite ids_with_node. destruct (decide (k' = k)) as [->|Hne].
        -- rewrite lookup_insert_eq. intros [= <-]. by left.
        -- rewrite lookup_insert_ne by done. intros ?%Hran. by right.
Qed.

(** One turn of the edge loop of a native document. *)
Lemma load_socg_edge_Ok lib o2n u e u' :
  load_socg_edge lib o2n u e = Ok u' ->
  exists i j, o2n !! e.1 = Some i /\ o2n !! e.2 = Some j /\
    final_nodes u' = final_nodes u /\ n2idx u' = n2idx u /\ idx2n u' = idx2n u /\
    next_index u' = next_index u /\
    final_edges u' = final_edges u ++ [(i, j)].
Proof.
  unfold load_socg_edge.
  destruct (o2n !! e.1) as [i|]; simpl; [|done].
  destruct (o2n !! e.2) as [j|]; simpl; [|done].
  destruct (idx2n u !! i) as [nm|]; simpl; [|done].
  destruct (ODict.get lib _); intros [= <-]; exists i, j; done.
Qed.

Lemma load_socg_edge_total lib o2n u e i j :
  o2n !! e.1 = Some i -> o2n !! e.2 = Some j -> is_Some (idx2n u !! i) ->
  exists u', load_socg_edge lib o2n u e = Ok u'.
Proof.
  intros Hi Hj [nm Hnm]. unfold load_socg_edge. rewrite Hi, Hj. simpl.
  rewrite Hnm. simpl. destruct (ODict.get lib _); by eauto.
Qed.

Lemma load_socg_edge_Raise lib o2n u e err :
  load_socg_edge lib o2n u e = Raise err -> err = KeyError.
Proof.
  unfold load_socg_edge.
  destruct (o2n !! e.1) as [i|]; simpl; [|by intros [= <-]].
  destruct (o2n !! e.2) as [j|]; simpl; [|by intros [= <-]].
  destruct (idx2n u !! i) as [nm|]; simpl; [|by intros [= <-]].
  by destruct (ODict.get lib _).
Qed.

(** Documents whose edges join keys of their own node table. *)
Definition native_closed (doc : Native.callgraph) : Prop :=
  forall e, e ∈ Native.edges doc ->
    e.1 ∈ (Native.nodes doc).*1 /\ e.2 ∈ (Native.nodes doc).*1.

Definition stitched_closed (pycg : Stitched.callgraph) : Prop :=
  forall e, e ∈ Stitched.edges pycg ->
    e.1 ∈ (Stitched.nodes pycg).*1 /\ e.2 ∈ (Stitched.nodes pycg).*1.

Lemma load_socg_edges_closed lib o2n es u u' :
  closed u -> (forall k i, o2n !! k = Some i -> i ∈ ids u) ->
  for_each (load_socg_edge lib o2n) es u = Ok u' ->
  closed u' /\ ids u' = ids u /\
  forall e, e ∈ es -> is_Some (o2n !! e.1) /\ is_Some (o2n !! e.2).
Proof.
  intros Hc Hran.
  apply (for_each_inv (fun pre u' =>
    closed u' /\ ids u' = ids u /\
    forall e, e ∈ pre -> is_Some (o2n !! e.1) /\ is_Some (o2n !! e.2))).
  - split_and!; [done..|]. by intros e ?%elem_of_nil.
  - intros pre e u1 u2 (Hc1 & Hids & Hall)
      (i & j & Hi & Hj & Hf & Hn & _ & _ & He)%load_socg_edge_Ok.
    assert (ids u2 = ids u) as Hids2 by (unfold ids in *; congruence).
    split_and!; [|done|].
    + split.
      * intros e'. rewrite He, Hids2.
        intros [Hin|[= ->]%list_elem_of_singleton]%elem_of_app.
        -- rewrite <- Hids. by apply (cl_edges _ Hc1).
        -- simpl. split; by eapply Hran.
      * intros nm k. rewrite Hn, Hids2, <- Hids. apply (cl_n2idx _ Hc1).
    + intros e' [Hin| ->%list_elem_of_singleton]%elem_of_app; [by apply Hall|].
      rewrite Hi, Hj. by eauto.
Qed.

Lemma load_socg_node_dom lib u0 ns k :
  is_Some ((foldl (load_socg_node lib) (u0, ∅) ns).2 !! k) -> k ∈ ns.*1.
Proof.
  apply (foldl_inv (fun pre (r : unifier * gmap Z Z) =>
           is_Some (r.2 !! k) -> k ∈ pre.*1)).
  - simpl. rewrite lookup_empty. by intros [? ?].
  - intros pre [k' name] [u o2n] IH. cbn [load_socg_node].
    rewrite fmap_app, elem_of_app. simpl. rewrite list_elem_of_singleton.
    destruct (n2idx u !! name); cbn [snd];
      (destruct (decide (k = k')) as [->|Hne]; [by right|]);
      rewrite lookup_insert_ne by done; intros ?%IH; by left.
Qed.

(** One native document: loading succeeds exactly when its edges join
    keys of its node table, a failure is a [KeyError], and edges and
    names keep pointing at ids in use. *)
Lemma load_socg_closed u doc :
  wf u -> native_ok u -> closed u ->
  (forall u', load_socg u doc = Ok u' -> closed u' /\ native_closed doc) /\
  (native_closed doc -> exists u', load_socg u doc = Ok u') /\
  (forall err, load_socg u doc = Raise err -> err = KeyError).
Proof.
  intros Hwf Hnat Hc. unfold load_socg.
  pose proof (load_socg_nodes_ok (Native.library doc) u (Native.nodes doc) Hwf Hnat)
    as [Hwf1 Hnat1 _ Ho2n _ _].
  pose proof (load_socg_nodes_closed (Native.library doc) u (Native.nodes doc) Hc)
    as (Hc1 & Hdom & Hran).
  pose proof (load_socg_node_dom (Native.library doc) u (Native.nodes doc)) as Hdom'.
  cbv zeta in *. destruct (foldl _ _ _) as [u1 o2n]. cbn [fst snd] in *.
  split_and!.
  - intros u' Hrun.
    apply load_socg_edges_closed in Hrun as (Hc' & _ & Hall); [|done..].
    split; [done|]. intros e He. destruct (Hall e He). split; by apply Hdom'.
  - intros Hcl.
    destruct (for_each_total (fun s => idx2n s = idx2n u1)
                (load_socg_edge (Native.library doc) o2n) (Native.edges doc) u1 eq_refl)
      as (u' & Hu' & _); [|by exists u'].
    intros s e Hs He. destruct (Hcl e He) as [[i Hi]%Hdom [j Hj]%Hdom].
    destruct (Ho2n _ _ Hi) as (nm & Hnm & _).
    destruct (load_socg_edge_total (Native.library doc) o2n s e i j Hi Hj) as [s' Hs'].
    { rewrite Hs. by eauto. }
    exists s'. split; [done|].
    apply load_socg_edge_Ok in Hs' as (? & ? & _ & _ & _ & _ & Hi2n & _). congruence.
  - intros err (pre & x & post & s & _ & _ & Hx)%for_each_Raise.
    by eapply load_socg_edge_Raise.
Qed.

Lemma load_socgs_closed docs :
  (forall u, load_socgs docs init = Ok u -> closed u /\ Forall native_closed docs) /\
  (Forall native_closed docs -> exists u, load_socgs docs init = Ok u) /\
  (forall err, load_socgs docs init = Raise err -> err = KeyError).
Proof.
  assert (forall pre u, load_socgs pre init = Ok u ->
            wf u /\ native_ok u /\ closed u /\ Forall native_closed pre) as Hinv.
  { intros pre u. unfold load_socgs.
    apply (for_each_inv (fun pre u =>
      wf u /\ native_ok u /\ closed u /\ Forall native_closed pre)).
    - split_and!; [apply wf_init|apply native_ok_init|apply closed_init|constructor].
    - intros pre' doc u1 u2 (Hwf & Hnat & Hc & Hall) Hstep.
      destruct (load_socg_ok _ _ _ Hwf Hnat Hstep) as (Hwf2 & Hnat2 & _).
      destruct (load_socg_closed u1 doc Hwf Hnat Hc) as (Hok & _ & _).
      destruct (Hok _ Hstep) as [Hc2 Hdoc].
      split_and!; [done..|]. apply Forall_app. split; [done|]. by constructor. }
  split_and!.
  - intros u Hu. by destruct (Hinv _ _ Hu) as (_ & _ & ? & ?).
  - intros Hall. unfold load_socgs.
    destruct (for_each_total (fun u => wf u /\ native_ok u /\ closed u)
                load_socg docs init) as (u & Hu & _); [| |by exists u].
    + split_and!; [apply wf_init|apply native_ok_init|apply closed_init].
    + intros s doc (Hwf & Hnat & Hc) Hin.
      destruct (load_socg_closed s doc Hwf Hnat Hc) as (Hok & Htot & _).
      destruct Htot as [s' Hs'].
      { rewrite Forall_forall in Hall. by apply Hall. }
      exists s'. split; [done|].
      destruct (load_socg_ok _ _ _ Hwf Hnat Hs') as (Hwf2 & Hnat2 & _).
      by destruct (Hok _ Hs').
  - intros err (pre & doc & post & s & _ & Hpre & Hdoc)%for_each_Raise.
    destruct (Hinv _ _ Hpre) as (Hwf & Hnat & Hc & _).
    destruct (load_socg_closed s doc Hwf Hnat Hc) as (_ & _ & Hraise).
    by apply Hraise.
Qed.

Lemma process_bridges_closed new_idx u bs :
  closed u -> new_idx ∈ ids u ->
  let u' := foldl (process_bridge new_idx) u bs in
  closed u' /\ ids u' = ids u.
Proof.
  intros Hc Hnew. cbv zeta.
  apply (foldl_inv (fun (pre : list Stitched.bridge) u' => closed u' /\ ids u' = ids u));
    [done|].
  intros pre b u1 [Hc1 Hids]. unfold process_bridge.
  destruct (n2idx u1 !! Stitched.b_symbol b) as [hop|] eqn:Hhop; [|done].
  split; [|done]. apply closed_set_egress, closed_with_edge; simpl; [done| |].
  - by rewrite Hids.
  - by apply (cl_n2idx _ Hc1 _ _ Hhop).
Qed.

Lemma process_pycg_nodes_closed u0 ns :
  closed u0 ->
  let r := foldl process_pycg_node (u0, ∅) ns in
  closed r.1 /\
  (forall k, k ∈ ns.*1 <-> is_Some (r.2 !! k)) /\
  (forall k i, r.2 !! k = Some i -> i ∈ ids r.1).
Proof.
  intros Hc0. cbv zeta.
  apply (foldl_inv (fun pre (r : unifier * gmap Z Z) =>
    closed r.1 /\
    (forall k, k ∈ pre.*1 <-> is_Some (r.2 !! k)) /\
    (forall k i, r.2 !! k = Some i -> i ∈ ids r.1))).
  - split_and!; [done| |].
    + intros k. simpl. rewrite lookup_empty. split; [by intros ?%elem_of_nil|].
      by intros [? ?].
    + intros k i. simpl. by rewrite lookup_empty.
  - intros pre [k nd] [u o2n] (Hc & Hdom & Hran). cbn [fst snd] in *.
    cbn [process_pycg_node].
    set (node := Unified.mkNode (Stitched.URI nd) (Some (Stitched.package nd)) None).
    set (u1 := with_node (Stitched.URI nd) node u).
    assert (closed u1) as Hc1 by (by apply closed_with_node).
    assert (next_index u ∈ ids u1) as Hnew.
    { apply ids_with_node. by left. }
    assert (exists u2,
      (match Stitched.bridges nd with
       | Some bs => foldl (process_bridge (next_index u)) u1 bs
       | None => u1
       end) = u2 /\ closed u2 /\ ids u2 = ids u1) as (u2 & -> & Hc2 & Hids2).
    { destruct (Stitched.bridges nd) as [bs|]; [|by exists u1].
      eexists. split; [done|]. by apply process_bridges_closed. }
    cbn [fst snd]. split_and!; [done| |].
    + intros k'. rewrite fmap_app, elem_of_app. simpl.
      rewrite list_elem_of_singleton. destruct (decide (k' = k)) as [->|Hne].
      * rewrite lookup_insert_eq. split; [by eauto|by right].
      * rewrite lookup_insert_ne by done. rewrite <- Hdom. tauto.
    + intros k' i. rewrite Hids2. destruct (decide (k' = k)) as [->|Hne].
      * rewrite lookup_insert_eq. by intros [= <-].
      * rewrite lookup_insert_ne by done. intros ?%Hran.
        apply ids_with_node. by right.
Qed.

Lemma process_pycg_closed pycg u0 :
  closed u0 ->
  (forall u, process_pycg pycg u0 = Ok u -> closed u /\ stitched_closed pycg) /\
  (stitched_closed pycg -> exists u, process_pycg pycg u0 = Ok u) /\
  (forall err, process_pycg pycg u0 = Raise err -> err = KeyError).
Proof.
  intros Hc0. unfold process_pycg.
  pose proof (process_pycg_nodes_closed u0 (Stitched.nodes pycg) Hc0)
    as (Hc1 & Hdom & Hran).
  cbv zeta in *. destruct (foldl _ _ _) as [u1 o2n]. cbn [fst snd] in *.
  split_and!.
  - intros u Hu.
    assert (closed u /\ ids u = ids u1 /\
            forall e : Z * Z, e ∈ Stitched.edges pycg ->
              e.1 ∈ (Stitched.nodes pycg).*1 /\ e.2 ∈ (Stitched.nodes pycg).*1)
      as (? & _ & ?); [|done].
    revert Hu. apply (for_each_inv (fun (pre : list (Z * Z)) u =>
      closed u /\ ids u = ids u1 /\
      forall e : Z * Z, e ∈ pre -> e.1 ∈ (Stitched.nodes pycg).*1 /\
                           e.2 ∈ (Stitched.nodes pycg).*1)).
    + split_and!; [done..|]. by intros e ?%elem_of_nil.
    + intros pre e ua ub (Ha & Hids & Hall) Hstep. unfold process_pycg_edge in Hstep.
      destruct (o2n !! e.1) as [i|] eqn:Hi; simpl in Hstep; [|done].
      destruct (o2n !! e.2) as [j|] eqn:Hj; simpl in Hstep; [|done].
      injection Hstep as <-. split_and!; [|done|].
      * apply closed_with_edge; simpl; [done|rewrite Hids; by eapply Hran..].
      * intros e' [Hin| ->%list_elem_of_singleton]%elem_of_app; [by apply Hall|].
        split; apply Hdom; by eauto.
  - intros Hcl.
    destruct (for_each_total (fun _ => True) (process_pycg_edge o2n)
                (Stitched.edges pycg) u1 I) as (u & Hu & _); [|by exists u].
    intros s e _ He. destruct (Hcl e He) as [[i Hi]%Hdom [j Hj]%Hdom].
    unfold process_pycg_edge. rewrite Hi, Hj. simpl. by eauto.
  - intros err (pre & e & post & s & _ & _ & He)%for_each_Raise.
    unfold process_pycg_edge in He.
    destruct (o2n !! e.1); simpl in He; [|by injection He as <-].
    destruct (o2n !! e.2); simpl in He; [|by injection He as <-]. done.
Qed.

Lemma with_bridges_not_nil n ks bs : ks <> [] -> with_bridges n ks bs <> [].
Proof.
  intros Hks. unfold with_bridges.
  apply (foldl_inv (fun (pre : list Stitched.bridge) ks' => ks' <> [])); [done|].
  intros pre b ks' Hks'. case_decide; [|done]. unfold add_key.
  case_decide; [done|]. by destruct ks'.
Qed.

Lemma decide_final_libs_closed u u' :
  decide_final_libs u = Ok u' -> closed u -> closed u'.
Proof.
  unfold decide_final_libs.
  destruct (map_result _ _) as [ns|] eqn:Hns; simpl; [|done].
  intros [= <-] [He Hn].
  assert (ns.*1 = (final_nodes u).*1) as Hids.
  { eapply Forall2_fst_eq; [by apply map_result_Ok|].
    intros [i v] e' Hd. unfold decide_final_lib in Hd.
    destruct (Unified.library v); [|by injection Hd as <-].
    destruct (final_library_of _); simpl in Hd; [|done]. by injection Hd as <-. }
  split; unfold ids; simpl; rewrite Hids; done.
Qed.

(** [decide_final_libs] cannot fail after the two loading stages: every
    node with a library has a tally, and a tally is never empty. *)
Lemma decide_final_libs_total pycg socgs u0 u1 :
  load_socgs socgs init = Ok u0 -> process_pycg pycg u0 = Ok u1 ->
  exists u, decide_final_libs u1 = Ok u.
Proof.
  intros Hload Hpy.
  apply load_socgs_ok in Hload as (Hwf0 & Hnat0 & _ & _).
  destruct (process_pycg_ok _ _ _ Hwf0 Hpy) as (Hwf1 & Hnodes1 & Hbr).
  unfold decide_final_libs.
  destruct (map_result_total (decide_final_lib u1) (final_nodes u1)) as (ns & -> & _);
    [|simpl; by eauto].
  intros [i v] Hin. unfold decide_final_lib.
  destruct (Unified.library v) as [lib|] eqn:Hlib; [|by eauto].
  rewrite Hnodes1 in Hin. apply elem_of_app in Hin as [Hin|Hin].
  2: { apply elem_of_lookup_imap in Hin as (k & nd & [= -> ->] & _). done. }
  destruct (nat_nodes _ Hnat0 _ _ Hin) as (_ & _ & Hn2i).
  assert (is_Some (n2idx u0 !! Unified.name v)) as Hsome by (by eauto).
  destruct (final_library_of_total (egress_of u1 (Unified.name v))) as [l ->];
    [|simpl; by eauto].
  destruct (Hbr _ Hsome) as [Hkeys _]. intros Hnil.
  rewrite Hnil in Hkeys. symmetry in Hkeys. revert Hkeys.
  apply with_bridges_not_nil. intros Hk0. apply fmap_nil_inv in Hk0.
  by apply (nat_tally _ Hnat0 _ Hsome).
Qed.

(** The merger and the shape of its input. *)
Lemma unify_closed_iff (pycg : Stitched.callgraph)
    (socgs : list Native.callgraph) :
  ((exists cg, Unify.unify pycg socgs = Ok cg) <->
   Forall native_closed socgs /\ stitched_closed pycg) /\
  (forall err, Unify.unify pycg socgs = Raise err -> err = KeyError).
Proof.
  destruct (load_socgs_closed socgs) as (Hl1 & Hl2 & Hl3).
  unfold unify, unify_state. split_and!; [split|].
  - intros [cg Hcg].
    destruct (load_socgs socgs init) as [u0|] eqn:Hload; simpl in Hcg; [|done].
    destruct (process_pycg pycg u0) as [u1|] eqn:Hpy; simpl in Hcg; [|done].
    destruct (Hl1 _ eq_refl) as [Hc0 Hdocs]. split; [done|].
    destruct (process_pycg_closed pycg u0 Hc0) as (Hp1 & _ & _).
    by destruct (Hp1 _ Hpy).
  - intros [Hdocs Hpycg]. destruct (Hl2 Hdocs) as [u0 Hload]. rewrite Hload. simpl.
    destruct (Hl1 _ Hload) as [Hc0 _].
    destruct (process_pycg_closed pycg u0 Hc0) as (_ & Hp2 & _).
    destruct (Hp2 Hpycg) as [u1 Hpy]. rewrite Hpy. simpl.
    destruct (decide_final_libs_total _ _ _ _ Hload Hpy) as [u ->]. simpl. by eauto.
  - intros err.
    destruct (load_socgs socgs init) as [u0|e0] eqn:Hload; simpl.
    2: { intros [= <-]. by apply Hl3. }
    destruct (Hl1 _ eq_refl) as [Hc0 _].
    destruct (process_pycg_closed pycg u0 Hc0) as (_ & _ & Hp3).
    destruct (process_pycg pycg u0) as [u1|e1] eqn:Hpy; simpl.
    2: { intros [= <-]. by apply Hp3. }
    destruct (decide_final_libs_total _ _ _ _ Hload Hpy) as [u ->]. simpl. done.
Qed.

(** X6. The merger succeeds exactly when every edge of every document
    it is given -- the native call graphs and the stitched graph of the
    interpreted side -- joins keys of the node table of that document;
    when it fails, it fails with the [KeyError] of such an edge.  In
    particular [decide_final_libs] never indexes an empty tally. *)
Theorem unify_succeeds_iff_closed (pycg : Stitched.callgraph)
    (socgs : list Native.callgraph) :
  ((exists cg, Unify.unify pycg socgs = Ok cg) <->
   Forall native_closed socgs /\ stitched_closed pycg) /\
  (forall err, Unify.unify pycg socgs = Raise err -> err = KeyError).
Proof. apply unify_closed_iff. Qed.

(** X7. What the merger writes is a well-formed unified graph: its edges
    join ids of its node table, every node is owned either by a library
    or by a package and never by both, and the reachability detector
    therefore runs on it to the end for every well-formed identity. *)
Theorem unify_output_well_formed (pycg : Stitched.callgraph)
    (socgs : list Native.callgraph) (cg : Unified.callgraph) :
  Unify.unify pycg socgs = Ok cg ->
  closed_edges cg /\
  (forall iv, iv ∈ Unified.nodes cg ->
     (is_Some (Unified.library iv.2) /\ Unified.package iv.2 = None) \/
     (Unified.library iv.2 = None /\ is_Some (Unified.package iv.2))) /\
  (forall ident path,
     PyStr.has_char ":" ident || PyStr.has_char "/" ident = true ->
     exists d, Reach.run ident path {[ path := cg ]} = Ok d).
Proof.
  unfold unify. intros Hcg.
  destruct (unify_state pycg socgs) as [u|] eqn:Hu; simpl in Hcg; [|done].
  injection Hcg as <-.
  assert (forall iv, iv ∈ final_nodes u ->
     (is_Some (Unified.library iv.2) /\ Unified.package iv.2 = None) \/
     (Unified.library iv.2 = None /\ is_Some (Unified.package iv.2))) as Howner.
  { pose proof Hu as (u0 & u1 & natives & _ & _ & _ & Hnodes & Hall)%unify_state_stages.
    intros iv. rewrite Hnodes. intros [Hin|Hin]%elem_of_app.
    - apply list_elem_of_lookup in Hin as [k Hk].
      destruct (Forall2_lookup_r _ _ _ _ _ Hall Hk) as (e & _ & _ & _ & Hp & l & Hl & _).
      left. rewrite Hl. by eauto.
    - apply elem_of_lookup_imap in Hin as (k & nd & -> & _). right. simpl. by eauto. }
  split_and!; [|done|].
  - unfold unify_state in Hu.
    destruct (load_socgs socgs init) as [u0|] eqn:Hload; simpl in Hu; [|done].
    destruct (process_pycg pycg u0) as [u1|] eqn:Hpy; simpl in Hu; [|done].
    destruct (load_socgs_closed socgs) as (Hl1 & _ & _).
    destruct (Hl1 _ Hload) as [Hc0 _].
    destruct (process_pycg_closed pycg u0 Hc0) as (Hp1 & _ & _).
    destruct (Hp1 _ Hpy) as [Hc1 _].
    pose proof (decide_final_libs_closed _ _ Hu Hc1) as [He _].
    intros e Hin. by apply He.
  - intros ident path Hid.
    apply (run_total ident path _ (Unified.mkCallgraph (final_nodes u) (final_edges u)));
      [unfold Reach.files; apply lookup_singleton_eq|done|].
    intros iv Hin. destruct (Howner _ Hin) as [[? _]|[_ ?]]; by eauto.
Qed.

Lemma unify_output_well_formed_witness :
  let pycg := Stitched.mkCallgraph
       [(0, Stitched.mkNode "pkg.bar" "pkg:1"
              (Some [Stitched.mkBridge "bar" "libc.so"]));
        (1, Stitched.mkNode "pkg.main" "pkg:1" None)] [(1, 0)] in
  let socgs := [Native.mkCallgraph "libc.so" [(0, "bar"); (1, "z")] [(0, 1)]] in
  exists cg, Unify.unify pycg socgs = Ok cg /\ closed_edges cg.
Proof.
  intros pycg socgs.
  destruct (Unify.unify pycg socgs) as [cg|] eqn:Hcg; [|by vm_compute in Hcg].
  exists cg. split; [reflexivity|].
  by destruct (unify_output_well_formed pycg socgs cg Hcg) as (Hclosed & _).
Defined.

(** *** Every edge of the input is kept *)

(** Loop invariant that knows where in the list the loop stands. *)
Lemma foldl_inv_split {S X} (P : list X -> S -> Prop) (f : S -> X -> S) l s0 :
  P [] s0 ->
  (forall pre x post s, l = pre ++ x :: post -> P pre s -> P (pre ++ [x]) (f s x)) ->
  P l (foldl f s0 l).
Proof.
  intros H0 Hstep.
  assert (forall pre post, l = pre ++ post -> P pre (foldl f s0 pre)) as Hgen.
  { induction pre as [|x pre IH] using rev_ind; intros post Hl; [done|].
    rewrite foldl_app. simpl. rewrite <- app_assoc in Hl. simpl in Hl.
    eapply Hstep; [exact Hl|]. by eapply IH. }
  apply (Hgen l []). by rewrite app_nil_r.
Qed.

Definition edges_kept (u u' : unifier) : Prop :=
  forall e, e ∈ final_edges u -> e ∈ final_edges u'.

Definition names_kept (u u' : unifier) : Prop :=
  forall nm i, n2idx u !! nm = Some i -> n2idx u' !! nm = Some i.

(** The node loop of a native document: a name keeps the id it has, and
    every entry of the table is sent to the id of its name. *)
Lemma load_socg_nodes_names lib u0 ns :
  NoDup ns.*1 ->
  let r := foldl (load_socg_node lib) (u0, ∅) ns in
  names_kept u0 r.1 /\ final_edges r.1 = final_edges u0 /\
  forall k nm, (k, nm) ∈ ns ->
    exists i, r.2 !! k = Some i /\ n2idx r.1 !! nm = Some i.
Proof.
  intros Hnd. cbv zeta.
  apply (foldl_inv_split (fun pre (r : unifier * gmap Z Z) =>
    names_kept u0 r.1 /\ final_edges r.1 = final_edges u0 /\
    forall k nm, (k, nm) ∈ pre ->
      exists i, r.2 !! k = Some i /\ n2idx r.1 !! nm = Some i)).
  - split_and!; [by intros ? ?|done|]. by intros k nm ?%elem_of_nil.
  - intros pre [k name] post [u o2n] Hl (Hkept & He & Hall). cbn [fst snd] in *.
    assert (forall k' nm, (k', nm) ∈ pre -> k' <> k) as Hfresh.
    { intros k' nm Hin ->. rewrite Hl, fmap_app, fmap_cons in Hnd.
      apply NoDup_app in Hnd as (_ & Hno & _). apply (Hno k).
      - apply list_elem_of_fmap. by exists (k, nm).
      - by left. }
    cbn [load_socg_node].
    destruct (n2idx u !! name) as [idx|] eqn:Hlook; cbn [fst snd].
    + split_and!; [done..|].
      intros k' nm [Hin|[= -> ->]%list_elem_of_singleton]%elem_of_app.
      * destruct (Hall _ _ Hin) as (i & Hi & Hn). exists i.
        rewrite lookup_insert_ne; [done|]. intros <-. by eapply Hfresh.
      * exists idx. by rewrite lookup_insert_eq.
    + split_and!.
      * intros nm i Hnm. simpl. rewrite lookup_insert_ne; [by apply Hkept|].
        intros <-. apply Hkept in Hnm. congruence.
      * done.
      * intros k' nm [Hin|[= -> ->]%list_elem_of_singleton]%elem_of_app.
        -- destruct (Hall _ _ Hin) as (i & Hi & Hn). exists i. simpl.
           rewrite lookup_insert_ne by (intros <-; by eapply Hfresh).
           split; [done|]. rewrite lookup_insert_ne; [done|]. congruence.
        -- exists (next_index u). simpl. by rewrite !lookup_insert_eq.
Qed.

Lemma load_socg_edges_kept lib o2n es u u' :
  for_each (load_socg_edge lib o2n) es u = Ok u' ->
  n2idx u' = n2idx u /\ edges_kept u u' /\
  forall e, e ∈ es -> exists i j, o2n !! e.1 = Some i /\ o2n !! e.2 = Some j /\
                                  (i, j) ∈ final_edges u'.
Proof.
  apply (for_each_inv (fun pre u' =>
    n2idx u' = n2idx u /\ edges_kept u u' /\
    forall e, e ∈ pre -> exists i j, o2n !! e.1 = Some i /\ o2n !! e.2 = Some j /\
                                     (i, j) ∈ final_edges u')).
  - split_and!; [done|by intros ?|]. by intros e ?%elem_of_nil.
  - intros pre e u1 u2 (Hn & Hk & Hall)
      (i & j & Hi & Hj & _ & Hn2 & _ & _ & He)%load_socg_edge_Ok.
    split_and!; [congruence| |].
    + intros e' Hin. rewrite He. apply elem_of_app. left. by apply Hk.
    + intros e' [Hin| ->%list_elem_of_singleton]%elem_of_app.
      * destruct (Hall _ Hin) as (i' & j' & ? & ? & ?). exists i', j'.
        split_and!; [done..|]. rewrite He. apply elem_of_app. by left.
      * exists i, j. split_and!; [done..|]. rewrite He. apply elem_of_app.
        right. by left.
Qed.

(** One native document with pairwise distinct keys: what was there
    stays, and each of its edges joins the ids of the names of its
    endpoints. *)
Lemma load_socg_edges u doc u' :
  NoDup (Native.nodes doc).*1 -> load_socg u doc = Ok u' ->
  names_kept u u' /\ edges_kept u u' /\
  forall a b na nb, (a, b) ∈ Native.edges doc ->
    (a, na) ∈ Native.nodes doc -> (b, nb) ∈ Native.nodes doc ->
    exists i j, n2idx u' !! na = Some i /\ n2idx u' !! nb = Some j /\
                (i, j) ∈ final_edges u'.
Proof.
  intros Hnd. unfold load_socg.
  pose proof (load_socg_nodes_names (Native.library doc) u (Native.nodes doc) Hnd)
    as (Hkept & He & Hall).
  cbv zeta in *. destruct (foldl _ _ _) as [u1 o2n]. cbn [fst snd] in *.
  intros (Hn & Hk & Hedges)%load_socg_edges_kept. split_and!.
  - intros nm i Hnm. rewrite Hn. by apply Hkept.
  - intros e Hin. apply Hk. by rewrite He.
  - intros a b na nb Hab Ha Hb.
    destruct (Hedges _ Hab) as (i & j & Hi & Hj & Hin). simpl in *.
    destruct (Hall _ _ Ha) as (i' & Hi' & Hna).
    destruct (Hall _ _ Hb) as (j' & Hj' & Hnb).
    exists i, j. rewrite Hn. split_and!; [congruence..|done].
Qed.

Lemma load_socgs_edges docs u :
  Forall (fun doc => NoDup (Native.nodes doc).*1) docs ->
  load_socgs docs init = Ok u ->
  forall doc a b na nb, doc ∈ docs -> (a, b) ∈ Native.edges doc ->
    (a, na) ∈ Native.nodes doc -> (b, nb) ∈ Native.nodes doc ->
    exists i j, n2idx u !! na = Some i /\ n2idx u !! nb = Some j /\
                (i, j) ∈ final_edges u.
Proof.
  intros Hnd Hrun. revert Hnd. unfold load_socgs in Hrun. revert Hrun.
  apply (for_each_inv (fun pre u =>
    Forall (fun doc => NoDup (Native.nodes doc).*1) pre ->
    forall doc a b na nb, doc ∈ pre -> (a, b) ∈ Native.edges doc ->
      (a, na) ∈ Native.nodes doc -> (b, nb) ∈ Native.nodes doc ->
      exists i j, n2idx u !! na = Some i /\ n2idx u !! nb = Some j /\
                  (i, j) ∈ final_edges u)).
  - by intros _ doc a b na nb ?%elem_of_nil.
  - intros pre doc u1 u2 IH Hstep [Hpre Hdoc]%Forall_app.
    rewrite Forall_singleton in Hdoc.
    destruct (load_socg_edges _ _ _ Hdoc Hstep) as (Hn & Hk & Hnew).
    intros doc' a b na nb [Hin| ->%list_elem_of_singleton]%elem_of_app Hab Ha Hb.
    + destruct (IH Hpre _ _ _ _ _ Hin Hab Ha Hb) as (i & j & Hi & Hj & He).
      exists i, j. split_and!; [by apply Hn..|by apply Hk].
    + by apply (Hnew a b).
Qed.

Lemma edges_kept_trans a b c : edges_kept a b -> edges_kept b c -> edges_kept a c.
Proof. intros H1 H2 e He. by apply H2, H1. Qed.

Lemma process_bridges_edges new_idx u bs :
  let u' := foldl (process_bridge new_idx) u bs in
  edges_kept u u' /\ n2idx u' = n2idx u /\ next_index u' = next_index u /\
  forall b j, b ∈ bs -> n2idx u !! Stitched.b_symbol b = Some j ->
              (new_idx, j) ∈ final_edges u'.
Proof.
  cbv zeta.
  apply (foldl_inv (fun pre u' =>
    edges_kept u u' /\ n2idx u' = n2idx u /\ next_index u' = next_index u /\
    forall b j, b ∈ pre -> n2idx u !! Stitched.b_symbol b = Some j ->
                (new_idx, j) ∈ final_edges u')).
  - split_and!; [by intros ?|done..|]. by intros b j ?%elem_of_nil.
  - intros pre b u1 (Hk & Hn & Hx & Hall). unfold process_bridge.
    destruct (n2idx u1 !! Stitched.b_symbol b) as [hop|] eqn:Hhop; simpl.
    + split_and!; [|done..|].
      * intros e He. apply elem_of_app. left. by apply Hk.
      * intros b' j [Hin| ->%list_elem_of_singleton]%elem_of_app Hj;
          apply elem_of_app; [left; by eapply Hall|right].
        rewrite Hn in Hhop. assert (j = hop) as -> by congruence. by left.
    + split_and!; [done..|].
      intros b' j [Hin| ->%list_elem_of_singleton]%elem_of_app Hj;
        [by eapply Hall|]. rewrite Hn in Hhop. congruence.
Qed.

Definition URIs (ns : list (Z * Stitched.node)) : list string :=
  (fun e => Stitched.URI e.2) <$> ns.

(** The node loop of [process_pycg]: the [k]-th node gets the id
    [next_index + k]; the names no node of the stitched graph carries
    keep their ids; and each bridge to such a name gives an edge from the
    node that carries the bridge to the id of the name. *)
Lemma process_pycg_nodes_edges u0 ns :
  let r := foldl process_pycg_node (u0, ∅) ns in
  edges_kept u0 r.1 /\
  next_index r.1 = next_index u0 + Z.of_nat (length ns) /\
  (forall s, s ∉ URIs ns -> n2idx r.1 !! s = n2idx u0 !! s) /\
  (NoDup ns.*1 ->
   forall k e, ns !! k = Some e -> r.2 !! e.1 = Some (next_index u0 + Z.of_nat k)) /\
  (forall k e b j, ns !! k = Some e -> b ∈ default [] (Stitched.bridges e.2) ->
     n2idx u0 !! Stitched.b_symbol b = Some j -> Stitched.b_symbol b ∉ URIs ns ->
     (next_index u0 + Z.of_nat k, j) ∈ final_edges r.1).
Proof.
  cbv zeta.
  apply (foldl_inv (fun pre (r : unifier * gmap Z Z) =>
    edges_kept u0 r.1 /\
    next_index r.1 = next_index u0 + Z.of_nat (length pre) /\
    (forall s, s ∉ URIs pre -> n2idx r.1 !! s = n2idx u0 !! s) /\
    (NoDup pre.*1 ->
     forall k e, pre !! k = Some e ->
       r.2 !! e.1 = Some (next_index u0 + Z.of_nat k)) /\
    (forall k e b j, pre !! k = Some e -> b ∈ default [] (Stitched.bridges e.2) ->
       n2idx u0 !! Stitched.b_symbol b = Some j -> Stitched.b_symbol b ∉ URIs pre ->
       (next_index u0 + Z.of_nat k, j) ∈ final_edges r.1))).
  - split_and!; [by intros ?|simpl; lia|done|by intros _ k e|by intros k e].
  - intros pre [key nd] [u o2n] (Hk & Hx & Hn & Ho & Hb). cbn [fst snd] in *.
    cbn [process_pycg_node].
    set (node := Unified.mkNode (Stitched.URI nd) (Some (Stitched.package nd)) None).
    set (u1 := with_node (Stitched.URI nd) node u).
    assert (exists u2,
      (match Stitched.bridges nd with
       | Some bs => foldl (process_bridge (next_index u)) u1 bs
       | None => u1
       end) = u2 /\
      edges_kept u1 u2 /\ n2idx u2 = n2idx u1 /\ next_index u2 = next_index u1 /\
      forall b j, b ∈ default [] (Stitched.bridges nd) ->
        n2idx u1 !! Stitched.b_symbol b = Some j ->
        (next_index u, j) ∈ final_edges u2) as (u2 & -> & Hk2 & Hn2 & Hx2 & Hb2).
    { destruct (Stitched.bridges nd) as [bs|]; simpl.
      - eexists. split; [done|]. apply process_bridges_edges.
      - exists u1. split_and!; [done|by intros ?|done..|]. by intros b j ?%elem_of_nil. }
    assert (forall s, s ∉ URIs (pre ++ [(key, nd)]) ->
              (s ∉ URIs pre) /\ s <> Stitched.URI nd) as Hsplit.
    { intros s Hs. unfold URIs in *. rewrite fmap_app, elem_of_app in Hs. simpl in Hs.
      rewrite list_elem_of_singleton in Hs. tauto. }
    cbn [fst snd]. split_and!.
    + intros e He. apply Hk2. simpl. by apply Hk.
    + rewrite Hx2. simpl. rewrite Hx, length_app. simpl. lia.
    + intros s [Hs Hne]%Hsplit. rewrite Hn2. simpl.
      rewrite lookup_insert_ne by done. by apply Hn.
    + rewrite fmap_app. intros (Hnd & Hfresh & _)%NoDup_app k e Hke.
      apply lookup_app_Some in Hke as [Hke|[Hlen Hke]].
      * rewrite lookup_insert_ne; [by apply Ho|].
        intros Heq. apply (Hfresh key); [|by left].
        apply list_elem_of_fmap. exists e. split; [done|].
        by eapply list_elem_of_lookup_2.
      * apply list_lookup_singleton_Some in Hke as [Hk0 <-]. simpl.
        rewrite lookup_insert_eq. f_equal. rewrite Hx. lia.
    + intros k e b j Hke Hin Hj [Hs Hne]%Hsplit.
      apply lookup_app_Some in Hke as [Hke|[Hlen Hke]].
      * apply Hk2. simpl. by eapply Hb.
      * apply list_lookup_singleton_Some in Hke as [Hk0 <-]. simpl in Hin.
        assert (next_index u0 + Z.of_nat k = next_index u) as -> by (rewrite Hx; lia).
        apply (Hb2 b j Hin). simpl. rewrite lookup_insert_ne by done.
        by rewrite Hn.
Qed.

Lemma process_pycg_edges pycg u0 u :
  process_pycg pycg u0 = Ok u ->
  let ns := Stitched.nodes pycg in
  let base := next_index u0 in
  edges_kept u0 u /\
  (forall k e b j, ns !! k = Some e -> b ∈ default [] (Stitched.bridges e.2) ->
     n2idx u0 !! Stitched.b_symbol b = Some j -> Stitched.b_symbol b ∉ URIs ns ->
     (base + Z.of_nat k, j) ∈ final_edges u) /\
  (NoDup ns.*1 ->
   forall a b ka kb ea eb, (a, b) ∈ Stitched.edges pycg ->
     ns !! ka = Some (a, ea) -> ns !! kb = Some (b, eb) ->
     (base + Z.of_nat ka, base + Z.of_nat kb) ∈ final_edges u).
Proof.
  unfold process_pycg. cbv zeta.
  pose proof (process_pycg_nodes_edges u0 (Stitched.nodes pycg))
    as (Hk & _ & _ & Ho & Hb).
  cbv zeta in *. destruct (foldl _ _ _) as [u1 o2n]. cbn [fst snd] in *.
  intros Hedges.
  assert (edges_kept u1 u /\
          forall e, e ∈ Stitched.edges pycg ->
            exists i j, o2n !! e.1 = Some i /\ o2n !! e.2 = Some j /\
                        (i, j) ∈ final_edges u) as [Hk1 Hall].
  { revert Hedges. apply (for_each_inv (fun pre u =>
      edges_kept u1 u /\
      forall e : Z * Z, e ∈ pre ->
        exists i j, o2n !! e.1 = Some i /\ o2n !! e.2 = Some j /\
                    (i, j) ∈ final_edges u)).
    - split; [by intros ?|]. by intros e ?%elem_of_nil.
    - intros pre e ua ub [Ha Hb'] Hstep. unfold process_pycg_edge in Hstep.
      destruct (o2n !! e.1) as [i|] eqn:Hi; simpl in Hstep; [|done].
      destruct (o2n !! e.2) as [j|] eqn:Hj; simpl in Hstep; [|done].
      injection Hstep as <-. split.
      + intros e' He'. simpl. apply elem_of_app. left. by apply Ha.
      + intros e' [Hin| ->%list_elem_of_singleton]%elem_of_app.
        * destruct (Hb' _ Hin) as (i' & j' & ? & ? & ?). exists i', j'.
          split_and!; [done..|]. simpl. apply elem_of_app. by left.
        * exists i, j. split_and!; [done..|]. simpl. apply elem_of_app.
          right. by left. }
  split_and!.
  - by eapply edges_kept_trans.
  - intros k e b j Hke Hin Hj Hs. apply Hk1. by eapply Hb.
  - intros Hnd a b ka kb ea eb Hab Hka Hkb.
    destruct (Hall _ Hab) as (i & j & Hi & Hj & Hin). simpl in *.
    pose proof (Ho Hnd _ _ Hka) as Ha'. pose proof (Ho Hnd _ _ Hkb) as Hb'.
    simpl in *. congruence.
Qed.

(** The stages of a successful [unify], with the edge list. *)
Lemma unify_stages pycg socgs cg :
  unify pycg socgs = Ok cg ->
  exists u0 u1 natives,
    load_socgs socgs init = Ok u0 /\ process_pycg pycg u0 = Ok u1 /\
    Unified.nodes cg = natives ++ new_nodes (next_index u0) (Stitched.nodes pycg) /\
    Unified.edges cg = final_edges u1 /\
    forall i v, (i, v) ∈ final_nodes u0 ->
      exists v', (i, v') ∈ natives /\ Unified.name v' = Unified.name v /\
                 is_Some (Unified.library v').
Proof.
  unfold unify. intros Hcg.
  destruct (unify_state pycg socgs) as [u|] eqn:Hu; simpl in Hcg; [|done].
  injection Hcg as <-.
  pose proof Hu as (u0 & u1 & natives & Hload & Hpy & _ & Hnodes & Hall)%unify_state_stages.
  exists u0, u1, natives. simpl. split_and!; [done..| |].
  - unfold unify_state in Hu. rewrite Hload in Hu. simpl in Hu.
    rewrite Hpy in Hu. simpl in Hu. unfold decide_final_libs in Hu.
    destruct (map_result _ _); simpl in Hu; [|done]. by injection Hu as <-.
  - intros i v Hin. apply list_elem_of_lookup in Hin as [k Hk].
    destruct (Forall2_lookup_l _ _ _ _ _ Hall Hk)
      as ([i' v'] & Hk' & Hi & Hn & _ & l & Hl & _).
    simpl in *. subst i'. exists v'. split_and!; [|done|by rewrite Hl].
    by eapply list_elem_of_lookup_2.
Qed.

(** X8. No edge of a native call graph is lost: for every edge of a
    native document (its keys pairwise distinct), the unified graph has
    an edge between the library-owned nodes that carry the names of its
    two endpoints. *)
Theorem unify_keeps_native_edges (pycg : Stitched.callgraph)
    (socgs : list Native.callgraph) (cg : Unified.callgraph) :
  Unify.unify pycg socgs = Ok cg ->
  Forall (fun doc => NoDup (Native.nodes doc).*1) socgs ->
  forall doc a b na nb,
    doc ∈ socgs -> (a, b) ∈ Native.edges doc ->
    (a, na) ∈ Native.nodes doc -> (b, nb) ∈ Native.nodes doc ->
    exists i j vi vj,
      (i, vi) ∈ Unified.nodes cg /\ Unified.name vi = na /\
      is_Some (Unified.library vi) /\
      (j, vj) ∈ Unified.nodes cg /\ Unified.name vj = nb /\
      is_Some (Unified.library vj) /\
      (i, j) ∈ Unified.edges cg.
Proof.
  intros (u0 & u1 & natives & Hload & Hpy & Hnodes & Hedges & Hnat)%unify_stages
         Hnd doc a b na nb Hdoc Hab Ha Hb.
  destruct (load_socgs_edges _ _ Hnd Hload _ _ _ _ _ Hdoc Hab Ha Hb)
    as (i & j & Hi & Hj & Hij).
  apply load_socgs_ok in Hload as (_ & Hnat0 & _ & _).
  destruct (nat_n2idx _ Hnat0 _ _ Hi) as (vi & Hvi & Hni).
  destruct (nat_n2idx _ Hnat0 _ _ Hj) as (vj & Hvj & Hnj).
  destruct (Hnat _ _ Hvi) as (vi' & Hvi' & Hni' & Hli).
  destruct (Hnat _ _ Hvj) as (vj' & Hvj' & Hnj' & Hlj).
  destruct (process_pycg_edges _ _ _ Hpy) as (Hkept & _).
  exists i, j, vi', vj'. rewrite Hnodes, Hedges.
  split_and!; [apply elem_of_app; by left|congruence|done
              |apply elem_of_app; by left|congruence|done|by apply Hkept].
Qed.

Lemma unify_keeps_native_edges_witness :
  let pycg := Stitched.mkCallgraph [] [] in
  let socgs := [Native.mkCallgraph "libc.so" [(0, "bar"); (1, "z")] [(0, 1)]] in
  exists cg i j vi vj, Unify.unify pycg socgs = Ok cg /\
    (i, vi) ∈ Unified.nodes cg /\ Unified.name vi = "bar" /\
    (j, vj) ∈ Unified.nodes cg /\ Unified.name vj = "z" /\
    (i, j) ∈ Unified.edges cg.
Proof.
  intros pycg socgs.
  destruct (Unify.unify pycg socgs) as [cg|] eqn:Hcg; [|by vm_compute in Hcg].
  destruct (unify_keeps_native_edges pycg socgs cg Hcg) with
    (doc := Native.mkCallgraph "libc.so" [(0, "bar"); (1, "z")] [(0, 1)])
    (a := 0) (b := 1) (na := "bar") (nb := "z")
    as (i & j & vi & vj & H1 & H2 & _ & H3 & H4 & _ & H5).
  - constructor; [|constructor]. apply (bool_decide_unpack _). vm_compute. reflexivity.
  - apply list_elem_of_here.
  - apply list_elem_of_here.
  - apply list_elem_of_here.
  - apply list_elem_of_further, list_elem_of_here.
  - exists cg, i, j, vi, vj. split; [reflexivity|].
    split; [exact H1|]. split; [exact H2|]. split; [exact H3|].
    split; [exact H4|exact H5].
Defined.

(** X9. No edge of the stitched graph is lost either: its [k]-th node
    becomes a package-owned node with the same name and package, and for
    every edge of the stitched graph (its keys pairwise distinct) the
    unified graph has the edge between the nodes made from its two
    endpoints. *)
Theorem unify_keeps_python_edges (pycg : Stitched.callgraph)
    (socgs : list Native.callgraph) (cg : Unified.callgraph) :
  Unify.unify pycg socgs = Ok cg ->
  NoDup (Stitched.nodes pycg).*1 ->
  forall a b na nb,
    (a, b) ∈ Stitched.edges pycg ->
    (a, na) ∈ Stitched.nodes pycg -> (b, nb) ∈ Stitched.nodes pycg ->
    exists i j,
      (i, Unified.mkNode (Stitched.URI na) (Some (Stitched.package na)) None)
        ∈ Unified.nodes cg /\
      (j, Unified.mkNode (Stitched.URI nb) (Some (Stitched.package nb)) None)
        ∈ Unified.nodes cg /\
      (i, j) ∈ Unified.edges cg.
Proof.
  intros (u0 & u1 & natives & Hload & Hpy & Hnodes & Hedges & Hnat)%unify_stages
         Hnd a b na nb Hab Ha Hb.
  apply list_elem_of_lookup in Ha as [ka Hka], Hb as [kb Hkb].
  destruct (process_pycg_edges _ _ _ Hpy) as (_ & _ & Hpyedges).
  exists (next_index u0 + Z.of_nat ka), (next_index u0 + Z.of_nat kb).
  rewrite Hnodes, Hedges. split_and!.
  - apply elem_of_app. right. apply elem_of_lookup_imap. by exists ka, (a, na).
  - apply elem_of_app. right. apply elem_of_lookup_imap. by exists kb, (b, nb).
  - by eapply (Hpyedges Hnd a b).
Qed.

Lemma unify_keeps_python_edges_witness :
  let pycg := Stitched.mkCallgraph
       [(0, Stitched.mkNode "pkg.bar" "pkg:1" None);
        (1, Stitched.mkNode "pkg.main" "pkg:1" None)] [(1, 0)] in
  let socgs := [Native.mkCallgraph "libc.so" [(0, "bar"); (1, "z")] [(0, 1)]] in
  exists cg i j, Unify.unify pycg socgs = Ok cg /\
    (i, Unified.mkNode "pkg.main" (Some "pkg:1") None) ∈ Unified.nodes cg /\
    (j, Unified.mkNode "pkg.bar" (Some "pkg:1") None) ∈ Unified.nodes cg /\
    (i, j) ∈ Unified.edges cg.
Proof.
  intros pycg socgs.
  destruct (Unify.unify pycg socgs) as [cg|] eqn:Hcg; [|by vm_compute in Hcg].
  destruct (unify_keeps_python_edges pycg socgs cg Hcg) with
    (a := 1) (b := 0) (na := Stitched.mkNode "pkg.main" "pkg:1" None)
    (nb := Stitched.mkNode "pkg.bar" "pkg:1" None) as (i & j & H1 & H2 & H3).
  - apply (bool_decide_unpack _). vm_compute. reflexivity.
  - apply list_elem_of_here.
  - apply list_elem_of_further, list_elem_of_here.
  - apply list_elem_of_here.
  - exists cg, i, j. split; [reflexivity|]. split; [exact H1|]. split; [exact H2|exact H3].
Defined.

(** X10. A bridge becomes a cross-language edge: when a node of the
    stitched graph carries a bridge whose symbol is a name of some native
    document, and no node of the stitched graph is itself called by that
    name, the unified graph has an edge from the package-owned node made
    from the carrier to a library-owned node named by the symbol. *)
Theorem unify_bridge_edges (pycg : Stitched.callgraph)
    (socgs : list Native.callgraph) (cg : Unified.callgraph) :
  Unify.unify pycg socgs = Ok cg ->
  forall key nd bs br doc,
    (key, nd) ∈ Stitched.nodes pycg -> Stitched.bridges nd = Some bs -> br ∈ bs ->
    doc ∈ socgs -> Stitched.b_symbol br ∈ (Native.nodes doc).*2 ->
    Stitched.b_symbol br ∉ URIs (Stitched.nodes pycg) ->
    exists i j w,
      (i, Unified.mkNode (Stitched.URI nd) (Some (Stitched.package nd)) None)
        ∈ Unified.nodes cg /\
      (j, w) ∈ Unified.nodes cg /\ Unified.name w = Stitched.b_symbol br /\
      is_Some (Unified.library w) /\
      (i, j) ∈ Unified.edges cg.
Proof.
  intros (u0 & u1 & natives & Hload & Hpy & Hnodes & Hedges & Hnat)%unify_stages
         key nd bs br doc Hin Hbs Hbr Hdoc Hsym Hfree.
  apply list_elem_of_lookup in Hin as [k Hk].
  destruct (process_pycg_edges _ _ _ Hpy) as (_ & Hbridges & _).
  apply load_socgs_ok in Hload as (_ & Hnat0 & _ & Hseen).
  destruct (Hseen _ _ Hdoc Hsym) as [j Hj].
  destruct (nat_n2idx _ Hnat0 _ _ Hj) as (v & Hv & Hname).
  destruct (Hnat _ _ Hv) as (w & Hw & Hnw & Hlw).
  exists (next_index u0 + Z.of_nat k), j, w. rewrite Hnodes, Hedges. split_and!.
  - apply elem_of_app. right. apply elem_of_lookup_imap. by exists k, (key, nd).
  - apply elem_of_app. by left.
  - congruence.
  - done.
  - eapply (Hbridges k (key, nd) br j); [done| |done..]. simpl. by rewrite Hbs.
Qed.

Lemma unify_bridge_edges_witness :
  let pycg := Stitched.mkCallgraph
       [(0, Stitched.mkNode "pkg.bar" "pkg:1"
              (Some [Stitched.mkBridge "bar" "libc.so"]))] [] in
  let socgs := [Native.mkCallgraph "libc.so" [(0, "bar"); (1, "z")] [(0, 1)]] in
  exists cg i j w, Unify.unify pycg socgs = Ok cg /\
    (i, Unified.mkNode "pkg.bar" (Some "pkg:1") None) ∈ Unified.nodes cg /\
    (j, w) ∈ Unified.nodes cg /\ Unified.name w = "bar" /\
    is_Some (Unified.library w) /\ (i, j) ∈ Unified.edges cg.
Proof.
  intros pycg socgs.
  destruct (Unify.unify pycg socgs) as [cg|] eqn:Hcg; [|by vm_compute in Hcg].
  destruct (unify_bridge_edges pycg socgs cg Hcg 0
              (Stitched.mkNode "pkg.bar" "pkg:1"
                 (Some [Stitched.mkBridge "bar" "libc.so"]))
              [Stitched.mkBridge "bar" "libc.so"] (Stitched.mkBridge "bar" "libc.so")
              (Native.mkCallgraph "libc.so" [(0, "bar"); (1, "z")] [(0, 1)]))
    as (i & j & w & H1 & H2 & H3 & H4 & H5).
  - apply list_elem_of_here.
  - reflexivity.
  - apply list_elem_of_here.
  - apply list_elem_of_here.
  - apply list_elem_of_here.
  - apply (bool_decide_unpack _). vm_compute. reflexivity.
  - exists cg, i, j, w. split; [reflexivity|]. split; [exact H1|]. split; [exact H2|].
    split; [exact H3|]. split; [exact H4|exact H5].
Defined.

End unify_more.

(** ** Further properties of the stitcher *)

Section stitch_more.
Import Stitch.

Definition sids (st : stitcher) : list Z := (final_nodes st).*1.

(** Edges, name table and index maps point at ids in use. *)
Record st_closed (st : stitcher) : Prop := {
  sc_edges : forall e, e ∈ final_edges st -> e.1 ∈ sids st /\ e.2 ∈ sids st;
  sc_n2idx : forall nm i, n2idx st !! nm = Some i -> i ∈ sids st;
  sc_idx2n : forall i, i ∈ sids st -> is_Some (idx2n st !! i);
  sc_old2new : forall pkg o2n k i,
    old2new st !! pkg = Some o2n -> o2n !! k = Some i -> i ∈ sids st
}.

Lemma st_closed_init : st_closed init.
Proof.
  split; simpl.
  - by intros e ?%elem_of_nil.
  - intros nm i. by rewrite lookup_empty.
  - by intros i ?%elem_of_nil.
  - intros pkg o2n k i. by rewrite lookup_empty.
Qed.

Lemma st_closed_with_edge e st :
  st_closed st -> e.1 ∈ sids st -> e.2 ∈ sids st -> st_closed (with_edge e st).
Proof.
  intros [He Hn Hi Ho] H1 H2. split; try done.
  intros e'. simpl. intros [Hin| ->%list_elem_of_singleton]%elem_of_app; [by apply He|done].
Qed.

(** Documents whose internal calls join indices of their internal
    namespaces. *)
Definition partial_closed (cg : Partial.callgraph) : Prop :=
  forall c, c ∈ Partial.internalCalls cg ->
    c.1 ∈ (Partial.all_namespaces (Partial.internal cg)).*1 /\
    c.2 ∈ (Partial.all_namespaces (Partial.internal cg)).*1.

Lemma add_internal_nss_closed pkg st nss :
  st_closed st ->
  let r := foldl (add_internal_ns pkg) (st, ∅) nss in
  st_closed r.1 /\ final_edges r.1 = final_edges st /\
  (forall x, x ∈ sids st -> x ∈ sids r.1) /\
  (forall k, k ∈ nss.*1 <-> is_Some (r.2 !! k)) /\
  (forall k i, r.2 !! k = Some i -> i ∈ sids r.1).
Proof.
  intros Hc0. cbv zeta.
  apply (foldl_inv (fun pre (r : stitcher * gmap Z Z) =>
    st_closed r.1 /\ final_edges r.1 = final_edges st /\
    (forall x, x ∈ sids st -> x ∈ sids r.1) /\
    (forall k, k ∈ pre.*1 <-> is_Some (r.2 !! k)) /\
    (forall k i, r.2 !! k = Some i -> i ∈ sids r.1))).
  - split_and!; [done..| |].
    + intros k. simpl. rewrite lookup_empty. split; [by intros ?%elem_of_nil|].
      by intros [? ?].
    + intros k i. simpl. by rewrite lookup_empty.
  - intros pre [oldidx vn] [s o2n] ([He Hn Hi Ho] & Hedges & Hmono & Hdom & Hran).
    cbn [fst snd] in *. cbn [add_internal_ns fst snd].
    assert (forall x, x ∈ sids (mkStitcher
              (ODict.set (next_index s)
                 (Stitched.mkNode (newname_of (Partial.ns_name vn)) pkg
                    (Partial.bridges (Partial.ns_metadata vn))) (final_nodes s))
              (final_edges s) (next_index s + 1)
              (<[newname_of (Partial.ns_name vn) := next_index s]> (n2idx s))
              (<[next_index s := newname_of (Partial.ns_name vn)]> (idx2n s))
              (n2fqn s) (old2new s) (num_externals_found s) (num_externals_missed s)
              (num_externals_ignored s) (num_None_dst s) (pynames_not_found s)
              (external_stats s)) <-> x = next_index s \/ x ∈ sids s) as Hids.
    { intros x. unfold sids. simpl. by rewrite keys_set, elem_of_add_key. }
    split_and!.
    + split; simpl.
      * intros e Hin. rewrite !Hids. destruct (He e Hin). tauto.
      * intros nm i. rewrite Hids.
        destruct (decide (nm = newname_of (Partial.ns_name vn))) as [->|Hne].
        -- rewrite lookup_insert_eq. intros [= <-]. by left.
        -- rewrite lookup_insert_ne by done. intros ?%Hn. by right.
      * intros i. rewrite Hids. destruct (decide (i = next_index s)) as [->|Hne].
        -- intros _. rewrite lookup_insert_eq. by eauto.
        -- rewrite lookup_insert_ne by done. intros [?|?]; [done|by apply Hi].
      * intros p o k i Hp Hk. apply Hids. right. by eapply Ho.
    + done.
    + intros x Hx. apply Hids. right. by apply Hmono.
    + intros k. rewrite fmap_app, elem_of_app. simpl.
      rewrite list_elem_of_singleton. destruct (decide (k = oldidx)) as [->|Hne].
      * rewrite lookup_insert_eq. split; [by eauto|by right].
      * rewrite lookup_insert_ne by done. rewrite <- Hdom. tauto.
    + intros k i. rewrite Hids. destruct (decide (k = oldidx)) as [->|Hne].
      * rewrite lookup_insert_eq. intros [= <-]. by left.
      * rewrite lookup_insert_ne by done. intros ?%Hran. by right.
Qed.

Lemma add_internal_call_closed o2n st call st' :
  st_closed st -> (forall k i, o2n !! k = Some i -> i ∈ sids st) ->
  add_internal_call o2n st call = Ok st' ->
  st_closed st' /\ sids st' = sids st /\ old2new st' = old2new st /\
  is_Some (o2n !! call.1) /\ is_Some (o2n !! call.2).
Proof.
  intros Hc Hran. unfold add_internal_call.
  destruct (o2n !! call.1) as [newsrc|] eqn:Hsrc; simpl; [|done].
  destruct (o2n !! call.2) as [newdst|] eqn:Hdst; simpl; [|done].
  destruct (idx2n st !! newdst) as [dstname|] eqn:Hname; simpl; [|done].
  assert (st_closed (with_edge (newsrc, newdst) st)) as Hc1.
  { apply st_closed_with_edge; simpl; [done|by eapply Hran..]. }
  destruct (n2idx st !! (dstname +:+ ".__init__")) as [dst_init|] eqn:Hinit;
    intros [= <-]; (split_and!; [|done|done|by eauto|by eauto]); [|done].
  apply st_closed_with_edge; simpl; [done|by eapply Hran|].
  by apply (sc_n2idx _ Hc _ _ Hinit).
Qed.

Lemma add_internal_call_total o2n st call :
  st_closed st -> (forall k i, o2n !! k = Some i -> i ∈ sids st) ->
  is_Some (o2n !! call.1) -> is_Some (o2n !! call.2) ->
  exists st', add_internal_call o2n st call = Ok st'.
Proof.
  intros Hc Hran [i Hi] [j Hj]. unfold add_internal_call. rewrite Hi, Hj. simpl.
  destruct (sc_idx2n _ Hc j) as [nm Hnm]; [by eapply Hran|].
  rewrite Hnm. simpl. destruct (n2idx st !! _); by eauto.
Qed.

Lemma add_internal_call_Raise o2n st call err :
  add_internal_call o2n st call = Raise err -> err = KeyError.
Proof.
  unfold add_internal_call.
  destruct (o2n !! call.1); simpl; [|by intros [= <-]].
  destruct (o2n !! call.2); simpl; [|by intros [= <-]].
  destruct (idx2n st !! _); simpl; [|by intros [= <-]].
  by destruct (n2idx st !! _).
Qed.

Lemma add_internal_cg_closed st cg :
  st_closed st ->
  (forall st', add_internal_cg st cg = Ok st' ->
     st_closed st' /\ partial_closed cg /\
     exists o2n, old2new st' !! package_of cg = Some o2n /\
       forall k, k ∈ (Partial.all_namespaces (Partial.internal cg)).*1 <->
                 is_Some (o2n !! k)) /\
  (partial_closed cg -> exists st', add_internal_cg st cg = Ok st') /\
  (forall err, add_internal_cg st cg = Raise err -> err = KeyError).
Proof.
  intros Hc. unfold add_internal_cg.
  pose proof (add_internal_nss_closed (package_of cg) st
                (Partial.all_namespaces (Partial.internal cg)) Hc)
    as (Hc1 & _ & Hmono & Hdom & Hran).
  cbv zeta in *. destruct (foldl _ _ _) as [st1 o2n]. cbn [fst snd] in *.
  split_and!.
  - intros st'.
    destruct (for_each _ _ st1) as [st2|] eqn:Hcalls; simpl; [|done].
    intros [= <-].
    assert (st_closed st2 /\ sids st2 = sids st1 /\ old2new st2 = old2new st1 /\
            forall c, c ∈ Partial.internalCalls cg ->
              is_Some (o2n !! c.1) /\ is_Some (o2n !! c.2))
      as (Hc2 & Hids & Hold & Hall).
    { revert Hcalls. apply (for_each_inv (fun pre s =>
        st_closed s /\ sids s = sids st1 /\ old2new s = old2new st1 /\
        forall c : Z * Z, c ∈ pre -> is_Some (o2n !! c.1) /\ is_Some (o2n !! c.2))).
      - split_and!; [done..|]. by intros c ?%elem_of_nil.
      - intros pre c s1 s2 (Hs1 & Hids1 & Hold1 & Hall1) Hstep.
        apply add_internal_call_closed in Hstep as (Hs2 & Hids2 & Hold2 & H1 & H2);
          [|done|by rewrite Hids1].
        split_and!; [done|congruence..|].
        intros c' [Hin| ->%list_elem_of_singleton]%elem_of_app; [by apply Hall1|done]. }
    split_and!.
    + destruct Hc2 as [He Hn Hi Ho]. split; try done. simpl.
      intros p o k i. destruct (decide (p = package_of cg)) as [->|Hne].
      * rewrite lookup_insert_eq. intros [= <-] Hk.
        change (i ∈ sids st2). rewrite Hids. by eapply Hran.
      * rewrite lookup_insert_ne by done. apply Ho.
    + intros c Hin. destruct (Hall c Hin). split; by apply Hdom.
    + exists o2n. simpl. by rewrite lookup_insert_eq.
  - intros Hcl.
    destruct (for_each_total (fun s => st_closed s /\ sids s = sids st1)
                (add_internal_call o2n) (Partial.internalCalls cg) st1)
      as (st2 & -> & _); [done| |simpl; by eauto].
    intros s c [Hs Hids] Hin. destruct (Hcl c Hin) as [H1%Hdom H2%Hdom].
    destruct (add_internal_call_total o2n s c Hs) as [s' Hs']; [by rewrite Hids|done..|].
    exists s'. split; [done|].
    apply add_internal_call_closed in Hs' as (? & ? & _); [|done|by rewrite Hids].
    split; [done|congruence].
  - intros err.
    destruct (for_each _ _ st1) as [st2|e] eqn:Hcalls; simpl; [done|].
    intros [= <-].
    apply for_each_Raise in Hcalls as (pre & c & post & s & _ & _ & Hc').
    by eapply add_internal_call_Raise.
Qed.

Lemma add_internal_closed cgs :
  (forall st, add_internal cgs init = Ok st ->
     st_closed st /\ Forall partial_closed cgs) /\
  (Forall partial_closed cgs -> exists st, add_internal cgs init = Ok st) /\
  (forall err, add_internal cgs init = Raise err -> err = KeyError).
Proof.
  assert (forall pre st, add_internal pre init = Ok st ->
            st_closed st /\ Forall partial_closed pre) as Hinv.
  { intros pre st. unfold add_internal.
    apply (for_each_inv (fun pre st => st_closed st /\ Forall partial_closed pre)).
    - split; [apply st_closed_init|constructor].
    - intros pre' cg s1 s2 [Hc Hall] Hstep.
      destruct (add_internal_cg_closed s1 cg Hc) as (Hok & _ & _).
      destruct (Hok _ Hstep) as (Hc2 & Hcg & _).
      split; [done|]. apply Forall_app. split; [done|]. by constructor. }
  split_and!.
  - exact (Hinv cgs).
  - intros Hall. unfold add_internal.
    destruct (for_each_total st_closed add_internal_cg cgs init)
      as (st & Hst & _); [apply st_closed_init| |by exists st].
    intros s cg Hc Hin. destruct (add_internal_cg_closed s cg Hc) as (Hok & Htot & _).
    destruct Htot as [s' Hs'].
    { rewrite Forall_forall in Hall. by apply Hall. }
    exists s'. split; [done|]. by destruct (Hok _ Hs').
  - intros err (pre & cg & post & s & _ & Hpre & Hcg)%for_each_Raise.
    destruct (Hinv _ _ Hpre) as [Hc _].
    destruct (add_internal_cg_closed s cg Hc) as (_ & _ & Hraise). by apply Hraise.
Qed.

(** X11. [add_internal] succeeds exactly when, in every document, each
    internal call joins indices of internal namespaces of that document;
    otherwise it stops with the [KeyError] of the first call that does
    not. *)
Theorem add_internal_succeeds_iff_closed (cgs : list Partial.callgraph) :
  ((exists st, Stitch.add_internal cgs Stitch.init = Ok st) <->
   Forall partial_closed cgs) /\
  (forall err, Stitch.add_internal cgs Stitch.init = Raise err -> err = KeyError).
Proof.
  destruct (add_internal_closed cgs) as (H1 & H2 & H3). split; [split|done].
  - intros [st Hst]. by destruct (H1 _ Hst).
  - done.
Qed.

Section resolve_more.
Variable STD : list string.
Variable SUF : list string.
Variable oracle : string -> option string.

(** The edges a scan has added all start at [newsrc] and end at an id
    of the name table. *)
Definition scan_ok (n2i : gmap string Z) (newsrc : Z) (E0 : list (Z * Z))
    (sc : scan) : Prop :=
  forall e, e ∈ s_edges sc ->
    e ∈ E0 \/ (e.1 = newsrc /\ exists nm, n2i !! nm = Some e.2).

Lemma try_options_ok n2i newsrc E0 sc opts :
  scan_ok n2i newsrc E0 sc ->
  scan_ok n2i newsrc E0 (foldl (try_option n2i newsrc) sc opts).
Proof.
  intros Hsc. apply (foldl_inv (fun (pre : list string) sc => scan_ok n2i newsrc E0 sc));
    [done|].
  intros pre nm sc' Hok. unfold try_option.
  destruct (n2i !! nm) as [d|] eqn:Hd; [|done].
  intros e. simpl. intros [Hin| ->%list_elem_of_singleton]%elem_of_app; [by apply Hok|].
  right. simpl. split; [done|]. by exists nm.
Qed.

Lemma try_dnames_ok n2i newsrc E0 sc dnames :
  scan_ok n2i newsrc E0 sc ->
  scan_ok n2i newsrc E0 (foldl (try_dname oracle n2i newsrc) sc dnames).
Proof.
  intros Hsc.
  apply (foldl_inv (fun (pre : list string) sc => scan_ok n2i newsrc E0 sc)); [done|].
  intros pre dname sc' Hok. unfold try_dname.
  destruct (s_n2fqn sc' !! dname) as [fqn|]; apply try_options_ok; exact Hok.
Qed.

Lemma resolve_call_live_closed pkg total t st fe me un s d st' fe' me' un' :
  st_closed st ->
  resolve_call_live oracle pkg total t st fe me un s d = Ok (st', fe', me', un') ->
  st_closed st' /\ final_nodes st' = final_nodes st.
Proof.
  intros Hc. unfold resolve_call_live.
  destruct (old2new st !! pkg) as [o2n|] eqn:Ho; simpl; [|done].
  destruct (o2n !! s) as [newsrc|] eqn:Hs; simpl; [|done].
  destruct (oldidx2extname t !! d) as [dstnames|]; simpl; [|by intros [= <- _ _ _]].
  pose proof (try_dnames_ok (n2idx st) newsrc (final_edges st)
                (mkScan (n2fqn st) (final_edges st) false fe (num_externals_found st))
                dstnames) as Hok.
  destruct (foldl _ _ dstnames) as [fq es fd fx nf] eqn:Hsc. simpl in *.
  assert (forall e, e ∈ es -> e.1 ∈ sids st /\ e.2 ∈ sids st) as Hes.
  { intros e He. destruct (Hok (fun e H => or_introl H) e He)
      as [Hin|[H1 (nm & Hnm)]].
    - by apply (sc_edges _ Hc).
    - split.
      + rewrite H1. by eapply (sc_old2new _ Hc).
      + by eapply (sc_n2idx _ Hc). }
  destruct Hc as [He Hn Hi Hold].
  destruct fd; simpl.
  - intros [= <- _ _ _]. split; [|done]. split; done.
  - destruct (head dstnames); simpl; [|done]. intros [= <- _ _ _].
    split; [|done]. split; done.
Qed.

Lemma resolve_call_closed pkg total t cs call cs' :
  st_closed (cs_st cs) ->
  resolve_call oracle pkg total t cs call = Ok cs' ->
  st_closed (cs_st cs') /\ final_nodes (cs_st cs') = final_nodes (cs_st cs).
Proof.
  intros Hc. unfold resolve_call.
  assert (st_closed (parse_call cs call).1.1 /\
          final_nodes (parse_call cs call).1.1 = final_nodes (cs_st cs)) as [Hp Hf].
  { destruct call as [[a|] [b|]]; simpl; try done;
      destruct Hc as [He Hn Hi Ho]; split; done. }
  destruct (parse_call cs call) as [[st src] dst]. simpl in *.
  destruct dst as [d|]; simpl; [|done].
  case_decide.
  - intros [= <-]. simpl. destruct Hp as [He Hn Hi Ho]. split; [|done]. split; done.
  - destruct src as [s|]; simpl; [|done].
    destruct (resolve_call_live _ _ _ _ _ _ _ _ _ _) as [[[[st1 fe] me] un]|] eqn:Hl;
      simpl; [|done].
    intros [= <-]. simpl.
    apply resolve_call_live_closed in Hl as [? ?]; [|done]. split; [done|congruence].
Qed.

Lemma resolve_externals_closed cgs st st' :
  st_closed st -> resolve_externals STD SUF oracle cgs st = Ok st' ->
  st_closed st' /\ final_nodes st' = final_nodes st.
Proof.
  intros Hc. unfold resolve_externals.
  destruct (for_each _ _ _) as [acc|] eqn:Hdocs; simpl; [|done]. intros [= <-].
  revert Hdocs.
  apply (for_each_inv
           (fun (pre : list Partial.callgraph)
                (acc : stitcher * (option Z * option Z)) =>
              st_closed acc.1 /\ final_nodes acc.1 = final_nodes st)); [done|].
  intros pre cg [s1 [src dst]] acc2 [Hc1 Hf1]. simpl in Hc1, Hf1.
  unfold resolve_externals_cg.
  destruct (for_each _ _ _) as [cs|] eqn:Hloop; simpl; [|done]. intros [= <-].
  simpl.
  assert (st_closed (cs_st cs) /\ final_nodes (cs_st cs) = final_nodes s1) as [? ?];
    [|split; [done|congruence]].
  revert Hloop.
  apply (for_each_inv (fun (pre : list (option Z * option Z)) cs =>
           st_closed (cs_st cs) /\ final_nodes (cs_st cs) = final_nodes s1)); [done|].
  intros pre' call cs1 cs2 [Hcs Hfs] Hstep.
  apply resolve_call_closed in Hstep as [? ?]; [|done]. split; [done|congruence].
Qed.

End resolve_more.

(** X12. What the stitcher writes is a well-formed stitched graph that
    the native merger accepts: [resolve_externals] adds no node, so the
    nodes are the internal namespaces of the input numbered from 0; every
    edge joins ids of the node table, also an edge made from a caller and
    a callee left over from an earlier call or document; and with native
    documents whose edges join keys of their own tables, [unify] runs on
    it without a failed lookup. *)
Theorem stitch_output_feeds_unify (STD SUF : list string)
    (oracle : string -> option string) (cgs : list Partial.callgraph)
    (st : Stitch.stitcher) :
  Stitch.stitch STD SUF oracle cgs = Ok st ->
  Stitch.final_nodes st = numbered (all_entries cgs) /\
  stitched_closed (Stitch.final_cg st) /\
  forall socgs, Forall native_closed socgs ->
    exists cg, Unify.unify (Stitch.final_cg st) socgs = Ok cg.
Proof.
  unfold stitch. intros Hrun.
  destruct (add_internal cgs init) as [st0|] eqn:Hadd; simpl in Hrun; [|done].
  destruct (add_internal_closed cgs) as (Hc & _ & _).
  destruct (Hc _ Hadd) as [Hc0 _].
  destruct (resolve_externals_closed _ _ _ _ _ _ Hc0 Hrun) as [Hc1 Hnodes].
  apply add_internal_ok in Hadd as [Hnum _ _ _].
  assert (stitched_closed (final_cg st)) as Hclosed.
  { intros e He. by apply (sc_edges _ Hc1). }
  split_and!; [congruence|done|].
  intros socgs Hdocs. by apply unify_closed_iff.
Qed.

Lemma stitch_output_feeds_unify_witness :
  let cg := Partial.mkCallgraph "pkg" "1" 3
      [("/pkg/", Partial.mkModule "pkg.py"
          [(0, Partial.mkNamespace "/pkg/" (Partial.mkMetadata None []));
           (1, Partial.mkNamespace "/pkg/f()" (Partial.mkMetadata None []))])]
      [("os", Partial.mkModule ""
          [(2, Partial.mkNamespace "//os//os.getcwd" (Partial.mkMetadata None []))])]
      [(0, 1)] [(Some 1, Some 2)] in
  exists st, Stitch.stitch ["os."] [] (fun _ => None) [cg] = Ok st /\
    stitched_closed (Stitch.final_cg st).
Proof.
  intros cg.
  destruct (Stitch.stitch ["os."] [] (fun _ => None) [cg]) as [st|] eqn:Hrun;
    [|by vm_compute in Hrun].
  exists st. split; [reflexivity|].
  by destruct (stitch_output_feeds_unify _ _ _ _ _ Hrun) as (_ & Hclosed & _).
Defined.

(** *** The counters of [resolve_externals] *)

Section counters.
Variable STD : list string.
Variable SUF : list string.
Variable oracle : string -> option string.

(** A scan counts a call as found once, however many names match. *)
Definition scan_counts (fe nf : Z) (sc : scan) : Prop :=
  (s_found sc = false /\ s_found_externals sc = fe /\ s_num_found sc = nf) \/
  (s_found sc = true /\ s_found_externals sc = fe + 1 /\ s_num_found sc = nf + 1).

Lemma try_options_counts n2i newsrc fe nf sc opts :
  scan_counts fe nf sc ->
  scan_counts fe nf (foldl (try_option n2i newsrc) sc opts).
Proof.
  intros Hsc. apply (foldl_inv (fun (pre : list string) sc => scan_counts fe nf sc));
    [done|].
  intros pre nm sc' Hok. unfold try_option.
  destruct (n2i !! nm) as [d|]; [|done].
  destruct Hok as [(Hf & H1 & H2)|(Hf & H1 & H2)]; right; simpl; rewrite Hf;
    (split_and!; [done|lia|lia]).
Qed.

Lemma try_dnames_counts n2i newsrc fe nf sc dnames :
  scan_counts fe nf sc ->
  scan_counts fe nf (foldl (try_dname oracle n2i newsrc) sc dnames).
Proof.
  intros Hsc.
  apply (foldl_inv (fun (pre : list string) sc => scan_counts fe nf sc)); [done|].
  intros pre dname sc' Hok. unfold try_dname.
  destruct (s_n2fqn sc' !! dname) as [fqn|]; apply try_options_counts; exact Hok.
Qed.

(** The outcomes of one external call that is not on the blacklist. *)
Lemma resolve_call_live_counts pkg tot t st fe me un s d st' fe' me' un' :
  resolve_call_live oracle pkg tot t st fe me un s d = Ok (st', fe', me', un') ->
  num_externals_ignored st' = num_externals_ignored st /\
  ((fe' = fe /\ me' = me /\
    num_externals_found st' = num_externals_found st /\
    num_externals_missed st' = num_externals_missed st /\
    external_stats st' = external_stats st) \/
   (fe' = fe + 1 /\ me' = me /\
    num_externals_found st' = num_externals_found st + 1 /\
    num_externals_missed st' = num_externals_missed st /\
    external_stats st' = external_stats st) \/
   (fe' = fe /\ me' = me + 1 /\
    num_externals_found st' = num_externals_found st /\
    num_externals_missed st' = num_externals_missed st + 1 /\
    external_stats st'
      = <[pkg := mkStats tot fe (me + 1) un']> (external_stats st))).
Proof.
  unfold resolve_call_live.
  destruct (old2new st !! pkg) as [o2n|]; simpl; [|done].
  destruct (o2n !! s) as [newsrc|]; simpl; [|done].
  destruct (oldidx2extname t !! d) as [dstnames|]; simpl.
  2: { intros [= <- <- <- <-]. split; [done|]. by left. }
  pose proof (try_dnames_counts (n2idx st) newsrc fe (num_externals_found st)
                (mkScan (n2fqn st) (final_edges st) false fe (num_externals_found st))
                dstnames) as Hcounts.
  destruct (foldl _ _ dstnames) as [fq es fd fx nf] eqn:Hsc.
  destruct Hcounts as [(Hf & H1 & H2)|(Hf & H1 & H2)]; [by left| |];
    simpl in *; subst fd fx nf.
  - destruct (head dstnames); simpl; [|done]. intros [= <- <- <- <-].
    split; [done|]. right. right. done.
  - intros [= <- <- <- <-]. split; [done|]. right. left. done.
Qed.

(** What the loop over the external calls of one document keeps. *)
Record tally_ok (pkg : string) (tot : nat) (st0 : stitcher) (n : Z)
    (cs : call_state) : Prop := {
  ta_found : num_externals_found (cs_st cs)
             = num_externals_found st0 + found_externals cs;
  ta_missed : num_externals_missed (cs_st cs)
              = num_externals_missed st0 + missed_externals cs;
  ta_nonneg : 0 <= found_externals cs /\ 0 <= missed_externals cs /\
              num_externals_ignored st0 <= num_externals_ignored (cs_st cs);
  ta_sum : found_externals cs + missed_externals cs
           + (num_externals_ignored (cs_st cs) - num_externals_ignored st0) <= n;
  ta_quiet : missed_externals cs = 0 ->
             external_stats (cs_st cs) = external_stats st0;
  ta_stats : missed_externals cs <> 0 ->
             exists s, external_stats (cs_st cs) = <[pkg := s]> (external_stats st0) /\
                       total s = tot /\ missed s = missed_externals cs /\
                       0 <= found s <= found_externals cs
}.

Lemma parse_call_counts cs call :
  let st := (parse_call cs call).1.1 in
  num_externals_found st = num_externals_found (cs_st cs) /\
  num_externals_missed st = num_externals_missed (cs_st cs) /\
  num_externals_ignored st = num_externals_ignored (cs_st cs) /\
  external_stats st = external_stats (cs_st cs).
Proof. by destruct call as [[a|] [b|]]. Qed.

Lemma resolve_call_tally pkg tot t st0 n cs call cs' :
  tally_ok pkg tot st0 n cs ->
  resolve_call oracle pkg tot t cs call = Ok cs' ->
  tally_ok pkg tot st0 (n + 1) cs'.
Proof.
  intros [Hf Hm (Hfe & Hme & Hig) Hsum Hq Hs]. unfold resolve_call.
  pose proof (parse_call_counts cs call) as (Pf & Pm & Pi & Ps). cbv zeta in *.
  destruct (parse_call cs call) as [[st src] dst]. simpl in *.
  destruct dst as [d|]; simpl; [|done].
  case_decide.
  - intros [= <-]. split; simpl; rewrite ?Pf, ?Pm, ?Pi, ?Ps; done || lia.
  - destruct src as [s|]; simpl; [|done].
    destruct (resolve_call_live _ _ _ _ _ _ _ _ _ _) as [[[[st1 fe] me] un]|] eqn:Hl;
      simpl; [|done].
    intros [= <-].
    apply resolve_call_live_counts in Hl
      as (Li & [(-> & -> & Lf & Lm & Ls)|[(-> & -> & Lf & Lm & Ls)|(-> & -> & Lf & Lm & Ls)]]);
      split; simpl; rewrite ?Lf, ?Lm, ?Li, ?Pf, ?Pm, ?Pi; try lia.
    + intros Hz. rewrite Ls, Ps. by apply Hq.
    + intros Hz. rewrite Ls, Ps. by apply Hs.
    + intros Hz. rewrite Ls, Ps. by apply Hq.
    + intros Hz. rewrite Ls, Ps. destruct (Hs Hz) as (s0 & H1 & H2 & H3 & H4).
      exists s0. split_and!; [done..|lia|lia].
    + intros _. rewrite Ls, Ps.
      destruct (decide (missed_externals cs = 0)) as [Hz|Hz].
      * rewrite (Hq Hz). eexists. split; [done|]. simpl. split_and!; [done..|lia|lia].
      * destruct (Hs Hz) as (s0 & -> & _). rewrite insert_insert_eq.
        eexists. split; [done|]. simpl. split_and!; [done..|lia|lia].
Qed.

Lemma resolve_externals_cg_tally st loc cg st' loc' :
  resolve_externals_cg STD SUF oracle (st, loc) cg = Ok (st', loc') ->
  exists cs, cs_st cs = st' /\
    tally_ok (package_of cg) (length (Partial.externalCalls cg)) st
      (Z.of_nat (length (Partial.externalCalls cg))) cs.
Proof.
  unfold resolve_externals_cg. destruct loc as [src dst].
  destruct (for_each _ _ _) as [cs|] eqn:Hloop; simpl; [|done]. intros [= <- <-].
  exists cs. split; [done|]. revert Hloop.
  apply (for_each_inv (fun (pre : list (option Z * option Z)) cs =>
           tally_ok (package_of cg) (length (Partial.externalCalls cg)) st
             (Z.of_nat (length pre)) cs)).
  - split; simpl; try done; try lia.
  - intros pre call cs1 cs2 Hok Hstep. rewrite length_app. simpl.
    replace (Z.of_nat (length pre + 1)) with (Z.of_nat (length pre) + 1) by lia.
    by eapply resolve_call_tally.
Qed.

End counters.

(** X13. The bookkeeping of one document in [resolve_externals],
    whatever caller and callee the documents before it left behind: the
    global counts of found and missed calls grow by the local counts;
    found, missed and ignored calls together never exceed the calls of
    the document; a document without a missed call leaves
    [external_stats] untouched -- it gets no entry at all --, and
    otherwise its entry is the one written at the last miss, with the
    number of calls of the document as total, the final number of misses,
    and the number of calls found up to that miss. *)
Theorem external_stats_written_on_miss (STD SUF : list string)
    (oracle : string -> option string) (st st' : Stitch.stitcher)
    (loc loc' : option Z * option Z) (cg : Partial.callgraph) :
  Stitch.resolve_externals_cg STD SUF oracle (st, loc) cg = Ok (st', loc') ->
  let calls := Z.of_nat (length (Partial.externalCalls cg)) in
  exists fe me : Z,
    0 <= fe /\ 0 <= me /\
    Stitch.num_externals_found st' = Stitch.num_externals_found st + fe /\
    Stitch.num_externals_missed st' = Stitch.num_externals_missed st + me /\
    Stitch.num_externals_ignored st <= Stitch.num_externals_ignored st' /\
    fe + me + (Stitch.num_externals_ignored st' - Stitch.num_externals_ignored st)
      <= calls /\
    (me = 0 -> Stitch.external_stats st' = Stitch.external_stats st) /\
    (me <> 0 ->
     exists s, Stitch.external_stats st'
               = <[Stitch.package_of cg := s]> (Stitch.external_stats st) /\
       Z.of_nat (Stitch.total s) = calls /\ Stitch.missed s = me /\
       0 <= Stitch.found s <= fe).
Proof.
  intros (cs & <- & [Hf Hm (Hfe & Hme & Hig) Hsum Hq Hs])%resolve_externals_cg_tally.
  cbv zeta. exists (found_externals cs), (missed_externals cs).
  split_and!; try done.
  intros Hz. destruct (Hs Hz) as (s & H1 & H2 & H3 & H4). exists s.
  split_and!; [done|by rewrite H2|done|lia|lia].
Qed.

(** A document whose only external call has a caller that does not
    convert, met with the caller 1 and the callee 2 of an earlier call:
    the call is handled as a call from 1 to 2, and missed. *)
Lemma external_stats_written_on_miss_witness :
  let cg := Partial.mkCallgraph "app" "1" 3
      [("/app/", Partial.mkModule "app.py"
          [(0, Partial.mkNamespace "/app/" (Partial.mkMetadata None []));
           (1, Partial.mkNamespace "/app/g()" (Partial.mkMetadata None []))])]
      [("dep", Partial.mkModule ""
          [(2, Partial.mkNamespace "//dep//dep.f" (Partial.mkMetadata None []))])]
      [(0, 1)] [(None, Some 2)] in
  exists st st' loc',
    Stitch.add_internal [cg] Stitch.init = Ok st /\
    Stitch.resolve_externals_cg [] [] (fun _ => None) (st, (Some 1, Some 2)) cg
      = Ok (st', loc') /\
    Stitch.num_externals_missed st' = 1 /\
    is_Some (Stitch.external_stats st' !! "app:1").
Proof.
  intros cg.
  destruct (Stitch.add_internal [cg] Stitch.init) as [st|] eqn:Hadd;
    [|by vm_compute in Hadd].
  destruct (Stitch.resolve_externals_cg [] [] (fun _ => None) (st, (Some 1, Some 2)) cg)
    as [[st' loc']|] eqn:Hres.
  2: { exfalso. vm_compute in Hadd. injection Hadd as <-. vm_compute in Hres.
       discriminate. }
  exists st, st', loc'. split; [reflexivity|]. split; [exact Hres|].
  assert (Stitch.num_externals_missed st = 0) as Hzero.
  { vm_compute in Hadd. injection Hadd as <-. reflexivity. }
  assert (Stitch.num_externals_missed st' = 1) as Hone.
  { pose proof Hres as Hres'. vm_compute in Hadd. injection Hadd as <-.
    vm_compute in Hres'. injection Hres' as <- _. reflexivity. }
  split; [exact Hone|].
  destruct (external_stats_written_on_miss _ _ _ _ _ _ _ _ Hres)
    as (fe & me & _ & _ & _ & Hm & _ & _ & _ & Hstats).
  destruct Hstats as (s & Hs & _); [lia|].
  rewrite Hs. change (Stitch.package_of cg) with "app:1".
  rewrite lookup_insert_eq. eexists. reflexivity.
Defined.

(** X14. A call whose endpoints [int] cannot convert is not skipped:
    it is counted in [num_None_dst] and then handled with the callee (and,
    when the caller does not convert either, the caller) of the call
    before it; when there is no call before it -- the first external call
    of the first document -- the variables are unbound and [stitch] ends
    in [UnboundLocalError]. *)
Theorem unparsable_call_not_skipped (STD SUF : list string)
    (oracle : string -> option string) :
  (forall pkg tot t cs a d,
     Stitch.cs_dst cs = Some d ->
     Stitch.resolve_call oracle pkg tot t cs (Some a, None)
     = Stitch.resolve_call oracle pkg tot t
         (Stitch.mkCallState (Stitch.bump_None_dst (Stitch.cs_st cs))
            (Stitch.cs_src cs) (Stitch.cs_dst cs) (Stitch.found_externals cs)
            (Stitch.missed_externals cs) (Stitch.unresolved cs))
         (Some a, Some d)) /\
  (forall pkg tot t cs x s d,
     Stitch.cs_src cs = Some s -> Stitch.cs_dst cs = Some d ->
     Stitch.resolve_call oracle pkg tot t cs (None, x)
     = Stitch.resolve_call oracle pkg tot t
         (Stitch.mkCallState (Stitch.bump_None_dst (Stitch.cs_st cs))
            (Stitch.cs_src cs) (Stitch.cs_dst cs) (Stitch.found_externals cs)
            (Stitch.missed_externals cs) (Stitch.unresolved cs))
         (Some s, Some d)) /\
  (forall cg cgs st0 call rest,
     Stitch.add_internal (cg :: cgs) Stitch.init = Ok st0 ->
     Partial.externalCalls cg = call :: rest ->
     call.1 = None \/ call.2 = None ->
     Stitch.stitch STD SUF oracle (cg :: cgs) = Raise UnboundLocalError).
Proof.
  split_and!.
  - intros pkg tot t cs a d Hd. unfold resolve_call. simpl. by rewrite Hd.
  - intros pkg tot t cs x s d Hs Hd. unfold resolve_call. simpl.
    by rewrite Hs, Hd.
  - intros cg cgs st0 call rest Hadd Hcalls Hnone. unfold stitch.
    rewrite Hadd. cbn [mbind result_bind]. unfold resolve_externals.
    cbn [for_each].
    assert (resolve_externals_cg STD SUF oracle (st0, (None, None)) cg
            = Raise UnboundLocalError) as ->; [|done].
    unfold resolve_externals_cg. rewrite Hcalls. cbn [for_each].
    unfold resolve_call at 1.
    destruct call as [[a|] [b|]]; simpl in *; try done; by destruct Hnone.
Qed.

Lemma unparsable_call_not_skipped_witness :
  let cg := Partial.mkCallgraph "app" "1" 2
      [("/app/", Partial.mkModule "app.py"
          [(0, Partial.mkNamespace "/app/" (Partial.mkMetadata None []))])]
      [("dep", Partial.mkModule ""
          [(1, Partial.mkNamespace "//dep//dep.f" (Partial.mkMetadata None []))])]
      [] [(Some 0, None)] in
  Stitch.stitch [] [] (fun _ => None) [cg] = Raise UnboundLocalError.
Proof.
  intros cg.
  destruct (Stitch.add_internal [cg] Stitch.init) as [st0|] eqn:Hadd;
    [|by vm_compute in Hadd].
  destruct (unparsable_call_not_skipped [] [] (fun _ => None)) as (_ & _ & Hfirst).
  apply (Hfirst cg [] st0 (Some 0, None) []); [exact Hadd|reflexivity|by right].
Defined.

End stitch_more.

(** ** Names *)

Section name_facts.
Import PyStr.
Local Arguments String.append !_ _ / : simpl nomatch.

(** [s.count(c)] *)
Fixpoint count_char (c : ascii) (s : string) : nat :=
  match s with
  | EmptyString => 0
  | String a s' => (if decide (a = c) then 1 else 0) + count_char c s'
  end.

Lemma length_split c (s : string) : length (split c s) = S (count_char c s).
Proof.
  induction s as [|a s IH]; simpl; [done|]. case_decide; simpl; [by rewrite IH|].
  destruct (split c s) as [|h t] eqn:Hs; [by apply split_not_nil in Hs|].
  simpl in *. lia.
Qed.

Lemma join_app sep (l1 l2 : list string) :
  l1 <> [] -> l2 <> [] ->
  join sep (l1 ++ l2) = join sep l1 +:+ sep +:+ join sep l2.
Proof.
  intros H1 H2. induction l1 as [|x l1 IH]; [done|].
  destruct l1 as [|y l1].
  - simpl. destruct l2; done.
  - change (join sep ((x :: y :: l1) ++ l2))
      with (x +:+ sep +:+ join sep ((y :: l1) ++ l2)).
    rewrite IH by done.
    change (join sep (x :: y :: l1)) with (x +:+ sep +:+ join sep (y :: l1)).
    by rewrite !string_app_assoc.
Qed.

(** X15. [get_import_name_pairs] cuts a dotted name at each of its dots
    and nowhere else: every pair it returns, put back together with a
    dot, is the name; there are as many pairs as the name has dots (none
    for a name without a dot); and the [k]-th pair has [k+1] components
    in its module part. *)
Theorem import_name_pairs_cut (import_name : string) :
  let pairs := Stitch.get_import_name_pairs import_name in
  (forall m rest, (m, rest) ∈ pairs -> m +:+ "." +:+ rest = import_name) /\
  length pairs = count_char "." import_name /\
  (forall k m rest, pairs !! k = Some (m, rest) ->
     m = join "." (take (S k) (split "." import_name)) /\
     rest = join "." (drop (S k) (split "." import_name))).
Proof.
  cbv zeta. unfold Stitch.get_import_name_pairs.
  pose proof (length_split "." import_name) as Hlen.
  set (parts := split "." import_name) in *.
  split_and!.
  - intros m rest (i & [= -> ->] & Hi%elem_of_seq)%list_elem_of_fmap.
    destruct i as [|i]; [lia|].
    rewrite <- (join_split "." import_name). fold parts.
    rewrite <- (take_drop (S i) parts) at 3.
    change (String "." "") with ".". rewrite join_app; [done| |].
    + destruct parts; [simpl in Hlen; lia|done].
    + intros Hnil. apply (f_equal length) in Hnil. rewrite length_drop in Hnil.
      simpl in Hnil. lia.
  - rewrite length_fmap, length_seq. lia.
  - intros k m rest. rewrite list_lookup_fmap.
    destruct (seq 1 (length parts - 1) !! k) as [i|] eqn:Hi; [|done].
    simpl. intros [= <- <-]. apply lookup_seq in Hi as [-> _]. done.
Qed.

Lemma has_char_replace (s : string) :
  has_char "/" (replace "/" "." s) = false.
Proof.
  induction s as [|a s IH]; simpl; [done|].
  destruct (decide (a = "/"%char)) as [->|Hne]; simpl.
  - exact IH.
  - by rewrite decide_False.
Qed.

Lemma has_char_lstrip c x (s : string) :
  has_char x s = false -> has_char x (lstrip c s) = false.
Proof.
  induction s as [|a s IH]; simpl; [done|].
  destruct (decide (a = x)); [done|]. intros Hs.
  destruct (decide (a = c)); [by apply IH|]. simpl. by rewrite decide_False.
Qed.

Lemma has_char_rstrip c x (s : string) :
  has_char x s = false -> has_char x (rstrip c s) = false.
Proof.
  induction s as [|a s IH]; simpl; [done|].
  destruct (decide (a = x)) as [|Hne]; [done|]. intros Hs. specialize (IH Hs).
  destruct (rstrip c s) as [|b r]; simpl in *.
  - destruct (decide (a = c)); simpl; [done|]. by rewrite decide_False.
  - by rewrite decide_False.
Qed.

Lemma has_char_removesuffix x (s p : string) :
  has_char x s = false -> has_char x (removesuffix s p) = false.
Proof.
  induction s as [|a s IH]; simpl.
  - by destruct (decide ("" = p)).
  - destruct (decide (String a s = p)); [done|].
    destruct (decide (a = x)) as [|Hne]; [done|]. intros Hs.
    destruct (endswith s p); simpl; rewrite decide_False by done; [by apply IH|done].
Qed.

Lemma rstrip_last c x (s : string) :
  x <> c -> rstrip c (s +:+ String x "") = s +:+ String x "".
Proof.
  intros Hx. induction s as [|a s IH]; simpl.
  - by rewrite decide_False.
  - rewrite IH. by destruct s.
Qed.

Lemma string_length_app (a b : string) :
  String.length (a +:+ b) = (String.length a + String.length b)%nat.
Proof. induction a as [|x a IH]; simpl; [done|]. by rewrite IH. Qed.

Lemma removesuffix_app (s p : string) :
  p <> "" -> removesuffix (s +:+ p) p = s.
Proof.
  intros Hp. induction s as [|a s IH]; simpl.
  - destruct p; [done|]. simpl. by rewrite decide_True.
  - rewrite decide_False.
    + by rewrite endswith_app, IH.
    + intros Heq. apply (f_equal String.length) in Heq. simpl in Heq.
      rewrite string_length_app in Heq. lia.
Qed.

(** X16. The name the stitcher gives a namespace never holds a slash;
    and a function namespace [/m/x()] of a module [m] (not empty, without
    slash, not starting with a dot) gets the dotted name [m.x]. *)
Theorem newname_of_dotted (ns m x : string) :
  has_char "/" (Stitch.newname_of ns) = false /\
  (m <> "" -> startswith m "." = false -> has_char "/" m = false ->
   has_char "/" x = false ->
   Stitch.newname_of ("/" +:+ m +:+ "/" +:+ x +:+ "()") = m +:+ "." +:+ x).
Proof.
  unfold Stitch.newname_of. split.
  - apply has_char_removesuffix, has_char_rstrip, has_char_lstrip, has_char_replace.
  - intros Hm Hdot Hsl Hx.
    assert (forall y : string, lstrip "." (String "." (m +:+ y)) = m +:+ y) as Hlstrip.
    { intros y. rewrite lstrip_same. destruct m as [|a m']; [done|].
      simpl in *. destruct (decide (a = "."%char)) as [->|Hne]; [by destruct m'|].
      done. }
    change ("/" +:+ m +:+ "/" +:+ x +:+ "()")
      with (String "/" (m +:+ String "/" (x +:+ "()"))).
    rewrite replace_same, replace_app, (replace_no_char _ _ m Hsl), replace_same,
      replace_app, (replace_no_char _ _ x Hx).
    change (replace "/" "." "()") with "()". rewrite Hlstrip.
    change (m +:+ String "." (x +:+ "()")) with (m +:+ "." +:+ x +:+ "(" +:+ ")").
    rewrite <- !string_app_assoc. rewrite rstrip_last by done.
    rewrite !string_app_assoc.
    change (m +:+ "." +:+ x +:+ "(" +:+ ")") with (m +:+ "." +:+ x +:+ "()").
    rewrite <- !string_app_assoc. by rewrite removesuffix_app.
Qed.

Lemma newname_of_dotted_witness :
  Stitch.newname_of "/numpy.core/dot()" = "numpy.core.dot".
Proof.
  destruct (newname_of_dotted "" "numpy.core" "dot") as [_ Hname].
  apply Hname; [discriminate|reflexivity..].
Defined.

End name_facts.

(** ** The augmenter's documents *)

Section augment_more.
Import Augment.
Local Arguments String.append !_ _ / : simpl nomatch.

(** A namespace that lists the bridge. *)
Definition holds (sb : Stitched.bridge) (n : Partial.namespace) : Prop :=
  exists bs, Partial.bridges (Partial.ns_metadata n) = Some bs /\ sb ∈ bs.

Definition doc_holds (sb : Stitched.bridge) (cg : Partial.callgraph) : Prop :=
  exists km kn, km ∈ Partial.internal cg /\ kn ∈ Partial.namespaces km.2 /\
    holds sb kn.2.

Lemma attach_holds sb n : holds sb (attach sb n).
Proof.
  unfold holds, attach. simpl.
  destruct (Partial.bridges (Partial.ns_metadata n)) as [old|].
  - case_decide; eexists; (split; [done|]); [done|].
    apply elem_of_app. right. by left.
  - eexists. split; [done|]. by left.
Qed.

Lemma attach_first_found P sb nss :
  (attach_first P sb nss).2 = true ->
  exists kn, kn ∈ (attach_first P sb nss).1 /\ holds sb kn.2.
Proof.
  induction nss as [|[k n] nss IH]; simpl; [done|].
  destruct (P n).
  - intros _. exists (k, attach sb n). split; [by left|apply attach_holds].
  - destruct (attach_first P sb nss) as [rest f]. simpl in *.
    intros (kn & Hin & Hh)%IH. exists kn. split; [by right|done].
Qed.

Lemma attach_modules_found P sb ms :
  (attach_modules P sb ms).2 = true ->
  exists km kn, km ∈ (attach_modules P sb ms).1 /\
    kn ∈ Partial.namespaces km.2 /\ holds sb kn.2.
Proof.
  induction ms as [|[k m] ms IH]; simpl; [done|].
  pose proof (attach_first_found P sb (Partial.namespaces m)) as H1.
  destruct (attach_first P sb (Partial.namespaces m)) as [nss f1].
  destruct (attach_modules P sb ms) as [rest f2]. simpl in *.
  destruct f1; simpl.
  - intros _. destruct (H1 eq_refl) as (kn & Hin & Hh).
    exists (k, Partial.mkModule (Partial.sourceFile m) nss), kn.
    split_and!; [by left|done|done].
  - intros (km & kn & Hkm & Hkn & Hh)%IH. exists km, kn.
    split_and!; [by right|done|done].
Qed.

Lemma elem_of_set_same {K V} `{EqDecision K} (k : K) (v : V) d :
  (k, v) ∈ ODict.set k v d.
Proof.
  induction d as [|[k' v'] d IH]; simpl; [by left|].
  case_decide; [by left|by right].
Qed.

Lemma elem_of_alter {K V} `{EqDecision K} (f : V -> V) (k : K) d :
  k ∈ d.*1 -> exists v, (k, f v) ∈ ODict.alter f k d.
Proof.
  induction d as [|[k' v'] d IH]; simpl; [by intros ?%elem_of_nil|].
  intros Hin. case_decide as Hk.
  - subst. exists v'. by left.
  - apply elem_of_cons in Hin as [Hin|Hin]; [done|].
    destruct (IH Hin) as [v Hv]. exists v. by right.
Qed.

Lemma synthesize_holds tl squashed sb cg :
  doc_holds sb (synthesize tl squashed sb cg).
Proof.
  rewrite synthesize_eq. cbv zeta.
  set (f k := fun m => Partial.mkModule (Partial.sourceFile m)
                 (ODict.set k (synthesized_ns tl squashed sb) (Partial.namespaces m))).
  assert (forall k ms n, ("/" +:+ tl +:+ "/") ∈ ms.*1 ->
            doc_holds sb (with_internal (ODict.alter (f k) ("/" +:+ tl +:+ "/") ms) n cg))
    as Hgen.
  { intros k ms n Hin. destruct (elem_of_alter (f k) _ _ Hin) as [m Hm].
    eexists _, (k, synthesized_ns tl squashed sb). split_and!; [exact Hm| |].
    - simpl. apply elem_of_set_same.
    - eexists. split; [done|]. by left. }
  case_decide as Hmod; apply Hgen; [done|].
  rewrite fmap_app. apply elem_of_app. right. by left.
Qed.

Lemma external_bridge_doc_holds tl tls squashed sb cg :
  doc_holds sb (external_bridge_doc tl tls squashed sb cg).
Proof.
  unfold external_bridge_doc.
  pose proof (attach_modules_found (matches_external tl tls squashed) sb
                (Partial.internal cg)) as Hf.
  destruct (attach_modules _ sb (Partial.internal cg)) as [ms [|]]; simpl in *.
  - destruct (Hf eq_refl) as (km & kn & H1 & H2 & H3). by exists km, kn.
  - apply synthesize_holds.
Qed.

(** X17. An external bridge whose top-level name leads to a document
    that can be loaded is always recorded: the document stored for that
    path afterwards has a namespace that lists the bridge, found or made
    up. *)
Theorem external_bridge_recorded fs a b tl pkg cg_path cg :
  pyname_to_tl_external (pyname b) = Ok tl ->
  ODict.get tl (tl2pkg a) = Some pkg ->
  pkg2aug a !! pkg = Some cg_path ->
  load fs a cg_path = Some cg ->
  exists a1 doc, process_external_bridge fs a b = Ok a1 /\
    cg_path2cg a1 !! cg_path = Some doc /\ doc_holds (simple_bridge b) doc.
Proof.
  intros Htl Hpkg Hpath Hload. unfold process_external_bridge.
  rewrite Htl. simpl. rewrite Hpkg. simpl. rewrite Hpath, Hload. simpl.
  eexists _, _. split_and!; [done| |apply external_bridge_doc_holds].
  simpl. by rewrite lookup_insert_eq.
Qed.

Lemma external_bridge_recorded_witness :
  let none := Partial.mkMetadata None [] in
  let cg :=
    Partial.mkCallgraph "numpy" "1.0" 2
      [("/numpy/", Partial.mkModule "numpy/__init__.py"
                     [(0, Partial.mkNamespace "/numpy/" none);
                      (1, Partial.mkNamespace "/numpy/core.dot" none)])]
      [] [(0, 1)] [] in
  let fs : files := {[ "numpy.json" := cg ]} in
  let a := mkAugmentor [("numpy", "numpy:1.0")] {[ "numpy:1.0" := "numpy.json" ]}
             "numpy:1.0" ∅ in
  let b := mkBridgeRecord "//numpy//numpy.linalg.inv" "call_inv" "umath_linalg.so" in
  exists a1 doc, process_external_bridge fs a b = Ok a1 /\
    cg_path2cg a1 !! "numpy.json" = Some doc /\ doc_holds (simple_bridge b) doc.
Proof.
  intros none cg fs a b.
  apply (external_bridge_recorded fs a b "numpy" "numpy:1.0" "numpy.json" cg);
    vm_compute; reflexivity.
Defined.

(** The keys of all internal namespaces of a document. *)
Definition ns_keys (cg : Partial.callgraph) : list Z :=
  (Partial.all_namespaces (Partial.internal cg)).*1.

Lemma attach_first_keys P sb nss : (attach_first P sb nss).1.*1 = nss.*1.
Proof.
  induction nss as [|[k n] nss IH]; simpl; [done|].
  destruct (P n); [done|].
  destruct (attach_first P sb nss) as [rest f]. simpl in *. by f_equal.
Qed.

Lemma attach_modules_keys P sb ms :
  (Partial.all_namespaces (attach_modules P sb ms).1).*1
  = (Partial.all_namespaces ms).*1.
Proof.
  induction ms as [|[k m] ms IH]; simpl; [done|].
  pose proof (attach_first_keys P sb (Partial.namespaces m)) as H1.
  destruct (attach_first P sb (Partial.namespaces m)) as [nss f1].
  destruct (attach_modules P sb ms) as [rest f2]. simpl in *.
  by rewrite !fmap_app, H1, IH.
Qed.

Lemma alter_split {K V} `{EqDecision K} (f : V -> V) (k : K) d :
  k ∈ d.*1 ->
  exists l1 v l2, d = l1 ++ (k, v) :: l2 /\ ODict.alter f k d = l1 ++ (k, f v) :: l2.
Proof.
  induction d as [|[k' v'] d IH]; simpl; [by intros ?%elem_of_nil|].
  intros Hin. case_decide as Hk.
  - subst. by exists [], v', d.
  - apply elem_of_cons in Hin as [Hin|Hin]; [done|].
    destruct (IH Hin) as (l1 & v & l2 & -> & ->).
    by exists ((k', v') :: l1), v, l2.
Qed.

Lemma alter_app_fresh {K V} `{EqDecision K} (f : V -> V) (k : K) (v : V) d :
  k ∉ d.*1 -> ODict.alter f k (d ++ [(k, v)]) = d ++ [(k, f v)].
Proof.
  induction d as [|[k' v'] d IH]; simpl.
  - intros _. by rewrite decide_True.
  - intros [Hne Hnin]%not_elem_of_cons. rewrite decide_False by done.
    by rewrite IH.
Qed.

Lemma all_namespaces_app ms1 ms2 :
  Partial.all_namespaces (ms1 ++ ms2)
  = Partial.all_namespaces ms1 ++ Partial.all_namespaces ms2.
Proof. unfold Partial.all_namespaces. apply flat_map_app. Qed.

Lemma all_namespaces_middle ms1 (k : string) m ms2 :
  Partial.all_namespaces (ms1 ++ (k, m) :: ms2)
  = Partial.all_namespaces ms1 ++ Partial.namespaces m ++ Partial.all_namespaces ms2.
Proof. by rewrite all_namespaces_app. Qed.

(** The keys after the [if not found:] block, for a document whose keys
    are below its node count. *)
Lemma synthesize_keys tl squashed sb cg :
  (forall k, k ∈ ns_keys cg -> k < Partial.nodes cg) ->
  let doc := synthesize tl squashed sb cg in
  (("/" +:+ tl +:+ "/") ∈ (Partial.internal cg).*1 ->
   Partial.nodes doc = Partial.nodes cg + 1 /\
   ns_keys doc ≡ₚ ns_keys cg ++ [Partial.nodes cg]) /\
  (("/" +:+ tl +:+ "/") ∉ (Partial.internal cg).*1 ->
   Partial.nodes doc = Partial.nodes cg + 2 /\
   ns_keys doc = ns_keys cg ++ [Partial.nodes cg; Partial.nodes cg + 1]).
Proof.
  intros Hlt doc. subst doc. rewrite synthesize_eq. cbv zeta. split; intros Hmod.
  - rewrite decide_True by done. split; [done|]. unfold ns_keys in *.
    cbn [Partial.internal with_internal].
    destruct (alter_split
      (fun m => Partial.mkModule (Partial.sourceFile m)
                  (ODict.set (Partial.nodes cg) (synthesized_ns tl squashed sb)
                     (Partial.namespaces m)))
      _ _ Hmod) as (l1 & m & l2 & Heq & ->).
    rewrite Heq in *. rewrite !all_namespaces_middle in *.
    cbn [Partial.namespaces]. rewrite set_fresh.
    + rewrite !fmap_app. simpl. solve_Permutation.
    + intros Hin. specialize (Hlt (Partial.nodes cg)). 
      assert (Partial.nodes cg < Partial.nodes cg); [|lia]. apply Hlt.
      rewrite !fmap_app, !elem_of_app. right. by left.
  - rewrite decide_False by done. split; [simpl; lia|]. unfold ns_keys.
    cbn [Partial.internal with_internal].
    rewrite alter_app_fresh by done. rewrite all_namespaces_app, fmap_app.
    f_equal. unfold Partial.all_namespaces. simpl.
    rewrite decide_False by lia. done.
Qed.

(** X18. In a document whose namespace keys are all below its node count,
    an external bridge overwrites nothing: the keys afterwards are the
    keys before and the next zero, one or two numbers (none when a
    namespace was found, one for a made-up namespace in a module that
    exists, two when the module is made up as well), the node count grows
    by as many, and keys that were distinct stay distinct. *)
Theorem external_bridge_numbering tl tls squashed sb cg :
  (forall k, k ∈ ns_keys cg -> k < Partial.nodes cg) ->
  exists n : nat,
    (n <= 2)%nat /\
    Partial.nodes (external_bridge_doc tl tls squashed sb cg)
    = Partial.nodes cg + Z.of_nat n /\
    ns_keys (external_bridge_doc tl tls squashed sb cg)
    ≡ₚ ns_keys cg ++ ((fun i => Partial.nodes cg + Z.of_nat i) <$> seq 0 n) /\
    (forall k, k ∈ ns_keys (external_bridge_doc tl tls squashed sb cg) ->
       k < Partial.nodes (external_bridge_doc tl tls squashed sb cg)) /\
    (NoDup (ns_keys cg) ->
     NoDup (ns_keys (external_bridge_doc tl tls squashed sb cg))).
Proof.
  intros Hlt.
  assert (exists n : nat, (n <= 2)%nat /\
    Partial.nodes (external_bridge_doc tl tls squashed sb cg)
    = Partial.nodes cg + Z.of_nat n /\
    ns_keys (external_bridge_doc tl tls squashed sb cg)
    ≡ₚ ns_keys cg ++ ((fun i => Partial.nodes cg + Z.of_nat i) <$> seq 0 n))
    as (n & Hn & Hnodes & Hperm).
  { unfold external_bridge_doc.
    pose proof (attach_modules_keys (matches_external tl tls squashed) sb
                  (Partial.internal cg)) as Hk.
    destruct (attach_modules _ sb (Partial.internal cg)) as [ms [|]]; simpl in Hk.
    - exists 0%nat. split_and!; [lia|simpl; lia|].
      unfold ns_keys. simpl. by rewrite Hk, app_nil_r.
    - set (cg1 := with_internal ms (Partial.nodes cg) cg).
      assert (ns_keys cg1 = ns_keys cg) as Hk1 by done.
      assert (forall k, k ∈ ns_keys cg1 -> k < Partial.nodes cg1) as Hlt1.
      { intros k. rewrite Hk1. apply Hlt. }
      destruct (synthesize_keys tl squashed sb cg1 Hlt1) as [Hin Hout].
      destruct (decide (("/" +:+ tl +:+ "/") ∈ (Partial.internal cg1).*1)) as [Hm|Hm].
      + destruct (Hin Hm) as [Hn Hp]. exists 1%nat.
        split_and!; [lia|rewrite Hn; simpl; lia|]. rewrite Hp, Hk1. simpl.
        by rewrite Z.add_0_r.
      + destruct (Hout Hm) as [Hn Hp]. exists 2%nat.
        split_and!; [lia|rewrite Hn; simpl; lia|]. rewrite Hp, Hk1. simpl.
        by rewrite Z.add_0_r. }
  exists n. split_and!; [done..| |].
  - intros k. rewrite Hperm, Hnodes, elem_of_app, list_elem_of_fmap.
    intros [Hk|(i & -> & Hi)]; [specialize (Hlt k Hk); lia|].
    apply elem_of_seq in Hi. lia.
  - intros Hnd. rewrite Hperm. apply NoDup_app. split_and!; [done| |].
    + intros k Hk (i & -> & Hi)%list_elem_of_fmap. specialize (Hlt _ Hk). lia.
    + apply NoDup_fmap_2; [|apply NoDup_seq]. intros i j. lia.
Qed.

Lemma external_bridge_numbering_witness :
  let none := Partial.mkMetadata None [] in
  let cg :=
    Partial.mkCallgraph "numpy" "1.0" 2
      [("/numpy/", Partial.mkModule "numpy/__init__.py"
                     [(0, Partial.mkNamespace "/numpy/" none);
                      (1, Partial.mkNamespace "/numpy/core.dot" none)])]
      [] [(0, 1)] [] in
  let sb := Stitched.mkBridge "call_inv" "umath_linalg.so" in
  let doc := external_bridge_doc "numpy" ["numpy"] "numpy.linalg.inv" sb cg in
  Partial.nodes doc = 3 /\ ns_keys doc = [0; 1; 2] /\
  exists n : nat,
    (n <= 2)%nat /\ Partial.nodes doc = Partial.nodes cg + Z.of_nat n /\
    ns_keys doc ≡ₚ ns_keys cg ++ ((fun i => Partial.nodes cg + Z.of_nat i) <$> seq 0 n) /\
    (forall k, k ∈ ns_keys doc -> k < Partial.nodes doc) /\
    (NoDup (ns_keys cg) -> NoDup (ns_keys doc)).
Proof.
  intros none cg sb doc. split; [reflexivity|]. split; [reflexivity|].
  apply (external_bridge_numbering "numpy" ["numpy"] "numpy.linalg.inv" sb cg).
  apply Forall_forall. repeat constructor.
Defined.

(** What augmenting may do to a namespace: put [()] behind its name and
    add bridges behind those it lists. *)
Definition kept (n n' : Partial.namespace) : Prop :=
  (Partial.ns_name n' = Partial.ns_name n \/
   Partial.ns_name n' = Partial.ns_name n +:+ "()") /\
  Partial.others (Partial.ns_metadata n') = Partial.others (Partial.ns_metadata n) /\
  forall bs, Partial.bridges (Partial.ns_metadata n) = Some bs ->
    exists bs', Partial.bridges (Partial.ns_metadata n') = Some bs' /\
      bs `prefix_of` bs'.

Lemma kept_refl n : kept n n.
Proof. split_and!; [by left|done|]. intros bs Hbs. by exists bs. Qed.

Lemma kept_attach sb n : kept n (attach sb n).
Proof.
  split_and!; [by left|done|]. intros bs Hbs. unfold attach. simpl.
  rewrite Hbs. case_decide; eexists; (split; [done|]); [done|].
  by apply prefix_app_r.
Qed.

Lemma kept_internal_ns pyname sb n : kept n (internal_ns pyname sb n).
Proof.
  unfold internal_ns. destruct (matches_internal pyname n); [|apply kept_refl].
  destruct (PyStr.endswith (Partial.ns_name n) "()"); [apply kept_attach|].
  split_and!; [by right|done|]. intros bs Hbs. unfold attach. simpl.
  rewrite Hbs. case_decide; eexists; (split; [done|]); [done|].
  by apply prefix_app_r.
Qed.

Lemma all_namespaces_map f ms :
  Partial.all_namespaces (map_namespaces f ms)
  = (fun kn => (kn.1, f kn.2)) <$> Partial.all_namespaces ms.
Proof.
  induction ms as [|[k m] ms IH]; simpl; [done|].
  unfold Partial.all_namespaces in *. simpl. by rewrite fmap_app, IH.
Qed.

Lemma attach_first_kept P sb nss kn :
  kn ∈ nss ->
  exists n', (kn.1, n') ∈ (attach_first P sb nss).1 /\
    (n' = kn.2 \/ n' = attach sb kn.2).
Proof.
  induction nss as [|[k n] nss IH]; simpl; [by intros ?%elem_of_nil|].
  intros Hin. destruct (P n) eqn:HP.
  - apply elem_of_cons in Hin as [->|Hin].
    + exists (attach sb n). split; [by left|by right].
    + exists kn.2. split; [right; by destruct kn|by left].
  - destruct (attach_first P sb nss) as [rest f]. simpl in *.
    apply elem_of_cons in Hin as [->|Hin].
    + exists n. split; [by left|by left].
    + destruct (IH Hin) as (n' & Hn' & Hk). exists n'. split; [by right|done].
Qed.

Lemma attach_modules_kept P sb ms kn :
  kn ∈ Partial.all_namespaces ms ->
  exists n', (kn.1, n') ∈ Partial.all_namespaces (attach_modules P sb ms).1 /\
    (n' = kn.2 \/ n' = attach sb kn.2).
Proof.
  induction ms as [|[k m] ms IH]; simpl; [by intros ?%elem_of_nil|].
  pose proof (attach_first_kept P sb (Partial.namespaces m) kn) as H1.
  destruct (attach_first P sb (Partial.namespaces m)) as [nss f1].
  destruct (attach_modules P sb ms) as [rest f2]. simpl in *.
  unfold Partial.all_namespaces in *. simpl.
  intros [Hin|Hin]%elem_of_app.
  - destruct (H1 Hin) as (n' & Hn' & Hk). exists n'.
    split; [|done]. apply elem_of_app. by left.
  - destruct (IH Hin) as (n' & Hn' & Hk). exists n'.
    split; [|done]. apply elem_of_app. by right.
Qed.

Lemma elem_of_set_other {K V} `{EqDecision K} (k k0 : K) (v v0 : V) d :
  (k, v) ∈ d -> k <> k0 -> (k, v) ∈ ODict.set k0 v0 d.
Proof.
  intros Hin Hne. induction d as [|[k' v'] d IH]; simpl.
  - by apply elem_of_nil in Hin.
  - apply elem_of_cons in Hin as [[= <- <-]|Hin].
    + rewrite decide_False by done. by left.
    + case_decide; right; [done|by apply IH].
Qed.

Lemma alter_set_kept modname k0 v0 ms kn :
  kn ∈ Partial.all_namespaces ms -> kn.1 <> k0 ->
  kn ∈ Partial.all_namespaces
         (ODict.alter (fun m => Partial.mkModule (Partial.sourceFile m)
                                  (ODict.set k0 v0 (Partial.namespaces m)))
            modname ms).
Proof.
  intros Hin Hne. induction ms as [|[k m] ms IH]; simpl; [done|].
  unfold Partial.all_namespaces in *. simpl in *.
  apply elem_of_app in Hin as [Hin|Hin]; case_decide; simpl;
    apply elem_of_app; [left|by left|by right|right; by apply IH].
  destruct kn. by apply elem_of_set_other.
Qed.

(** X19. Augmenting removes nothing.  After an internal bridge every
    namespace of the document is still there under its key, its name the
    same or with [()] behind it, its other metadata the same, and the
    bridges it listed still listed in front; after an external bridge the
    same holds with the name unchanged, for a document whose keys are
    below its node count. *)
Theorem augment_keeps_namespaces b tl tls squashed cg kn :
  kn ∈ Partial.all_namespaces (Partial.internal cg) ->
  (exists n', (kn.1, n') ∈ Partial.all_namespaces
                (Partial.internal (internal_bridge_doc b cg)) /\ kept kn.2 n') /\
  ((forall k, k ∈ ns_keys cg -> k < Partial.nodes cg) ->
   exists n', (kn.1, n') ∈ Partial.all_namespaces
                (Partial.internal
                   (external_bridge_doc tl tls squashed (simple_bridge b) cg)) /\
     kept kn.2 n' /\ Partial.ns_name n' = Partial.ns_name kn.2).
Proof.
  intros Hin. split.
  - exists (internal_ns (pyname b) (simple_bridge b) kn.2).
    split; [|apply kept_internal_ns].
    unfold internal_bridge_doc. cbn [Partial.internal with_internal].
    rewrite all_namespaces_map. apply list_elem_of_fmap. by exists kn.
  - intros Hlt. unfold external_bridge_doc.
    pose proof (attach_modules_kept (matches_external tl tls squashed)
                  (simple_bridge b) _ _ Hin) as (n' & Hn' & Hor).
    pose proof (attach_modules_keys (matches_external tl tls squashed)
                  (simple_bridge b) (Partial.internal cg)) as Hkeys.
    assert (kept kn.2 n' /\ Partial.ns_name n' = Partial.ns_name kn.2) as Hk.
    { destruct Hor as [->| ->]; (split; [|done]); [apply kept_refl|apply kept_attach]. }
    destruct (attach_modules _ (simple_bridge b) (Partial.internal cg)) as [ms [|]];
      simpl in *.
    + by exists n'.
    + exists n'. split; [|done]. rewrite synthesize_eq. cbv zeta.
      assert (kn.1 < Partial.nodes cg) as Hk1.
      { apply Hlt. unfold ns_keys. apply list_elem_of_fmap. by exists kn. }
      cbn [Partial.internal Partial.nodes with_internal].
      case_decide.
      * apply (alter_set_kept _ _ _ _ (kn.1, n')); [done|simpl; lia].
      * apply (alter_set_kept _ _ _ _ (kn.1, n')); [|simpl; lia].
        rewrite all_namespaces_app. apply elem_of_app. by left.
Qed.

Lemma augment_keeps_namespaces_witness :
  let none := Partial.mkMetadata None [] in
  let cg :=
    Partial.mkCallgraph "numpy" "1.0" 2
      [("/numpy/", Partial.mkModule "numpy/__init__.py"
                     [(0, Partial.mkNamespace "/numpy/" none);
                      (1, Partial.mkNamespace "/numpy/core.dot" none)])]
      [] [(0, 1)] [] in
  let b := mkBridgeRecord "/numpy/core.dot" "PyArray_Dot" "multiarray.so" in
  let kn := (1, Partial.mkNamespace "/numpy/core.dot" none) in
  (exists n', (kn.1, n') ∈ Partial.all_namespaces
                (Partial.internal (internal_bridge_doc b cg)) /\ kept kn.2 n') /\
  ((forall k, k ∈ ns_keys cg -> k < Partial.nodes cg) ->
   exists n', (kn.1, n') ∈ Partial.all_namespaces
                (Partial.internal
                   (external_bridge_doc "numpy" ["numpy"] "numpy.linalg.inv"
                      (simple_bridge b) cg)) /\
     kept kn.2 n' /\ Partial.ns_name n' = Partial.ns_name kn.2).
Proof.
  intros none cg b kn.
  apply (augment_keeps_namespaces b "numpy" ["numpy"] "numpy.linalg.inv" cg kn).
  unfold Partial.all_namespaces. simpl. repeat constructor.
Defined.

Lemma map_namespaces_id f ms :
  (forall kn, kn ∈ Partial.all_namespaces ms -> f kn.2 = kn.2) ->
  map_namespaces f ms = ms.
Proof.
  induction ms as [|[k m] ms IH]; simpl; [done|]. intros Hf.
  unfold Partial.all_namespaces in Hf. simpl in Hf.
  fold (map_namespaces f ms). rewrite IH.
  - f_equal. destruct m as [src nss]. simpl in *. do 2 f_equal.
    assert (forall kn, kn ∈ nss -> f kn.2 = kn.2) as Hnss.
    { intros kn Hkn. apply Hf, elem_of_app. by left. }
    clear Hf IH. induction nss as [|[kk n] nss IHn]; simpl; [done|].
    pose proof (Hnss (kk, n) ltac:(by left)) as Hn. simpl in Hn. rewrite Hn.
    f_equal. apply IHn.
    intros kn Hkn. apply Hnss. by right.
  - intros kn Hkn. apply Hf, elem_of_app. by right.
Qed.

(** X20. An internal bridge is recorded on every namespace that bears
    its name: afterwards every namespace named [pyname] or [pyname()]
    lists the bridge.  When no namespace bears the name the bridge is
    dropped and the document is as it was. *)
Theorem internal_bridge_effect b cg :
  (forall kn, kn ∈ Partial.all_namespaces
                (Partial.internal (internal_bridge_doc b cg)) ->
     Partial.ns_name kn.2 = pyname b \/ Partial.ns_name kn.2 = pyname b +:+ "()" ->
     holds (simple_bridge b) kn.2) /\
  ((forall kn, kn ∈ Partial.all_namespaces (Partial.internal cg) ->
      Partial.ns_name kn.2 <> pyname b /\
      Partial.ns_name kn.2 <> pyname b +:+ "()") ->
   internal_bridge_doc b cg = cg).
Proof.
  unfold internal_bridge_doc. cbn [Partial.internal with_internal]. split.
  - intros kn. rewrite all_namespaces_map.
    intros (kn0 & -> & Hin)%list_elem_of_fmap. simpl. unfold internal_ns.
    destruct (matches_internal (pyname b) kn0.2) eqn:Hm.
    + intros _. apply attach_holds.
    + unfold matches_internal in Hm. apply orb_false_iff in Hm as [H1 H2].
      apply bool_decide_eq_false in H1, H2. by intros [?|?].
  - intros Hno. rewrite map_namespaces_id; [by destruct cg|].
    intros kn Hkn. destruct (Hno kn Hkn) as [H1 H2]. unfold internal_ns.
    unfold matches_internal.
    by rewrite (bool_decide_eq_false_2 _ H1), (bool_decide_eq_false_2 _ H2).
Qed.

Lemma internal_bridge_effect_witness :
  let none := Partial.mkMetadata None [] in
  let cg :=
    Partial.mkCallgraph "numpy" "1.0" 2
      [("/numpy/", Partial.mkModule "numpy/__init__.py"
                     [(0, Partial.mkNamespace "/numpy/" none);
                      (1, Partial.mkNamespace "/numpy/core.dot" none)])]
      [] [(0, 1)] [] in
  let b := mkBridgeRecord "/numpy/linalg.inv" "call_inv" "umath_linalg.so" in
  internal_bridge_doc b cg = cg.
Proof.
  intros none cg b. destruct (internal_bridge_effect b cg) as [_ Hsame].
  apply Hsame. apply Forall_forall. unfold Partial.all_namespaces. simpl.
  repeat constructor; discriminate.
Defined.

(** *** The parts of an external name *)

Lemma startswith_nil (s : string) : PyStr.startswith s "" = true.
Proof. by destruct s. Qed.

Lemma split_dslash_cons2 a b (s : string) :
  PyStr.split_dslash (String a (String b s))
  = if decide (a = "/"%char /\ b = "/"%char) then "" :: PyStr.split_dslash s
    else match PyStr.split_dslash (String b s) with
         | [] => [String a ""]
         | h :: t => String a h :: t
         end.
Proof. done. Qed.

Lemma contains_cons2 a b (s : string) :
  PyStr.contains (String a (String b s)) "//"
  = if decide (a = "/"%char /\ b = "/"%char) then true
    else PyStr.contains (String b s) "//".
Proof.
  cbn [PyStr.contains PyStr.startswith]. rewrite startswith_nil.
  destruct (decide (a = "/"%char)), (decide (b = "/"%char));
    (rewrite decide_True by done) || (rewrite decide_False by tauto); done.
Qed.

Lemma split_dslash_not_nil (s : string) : PyStr.split_dslash s <> [].
Proof.
  induction s as [|a s IH]; [done|]. destruct s as [|b s]; [done|].
  rewrite split_dslash_cons2. case_decide; [done|].
  by destruct (PyStr.split_dslash (String b s)).
Qed.

Lemma split_dslash_none (s : string) :
  PyStr.contains s "//" = false -> PyStr.split_dslash s = [s].
Proof.
  induction s as [|a s IH]; [done|]. destruct s as [|b s]; [done|].
  rewrite contains_cons2, split_dslash_cons2. case_decide; [done|].
  intros Hc. by rewrite (IH Hc).
Qed.

Lemma split_dslash_some (s : string) :
  PyStr.contains s "//" = true -> (2 <= length (PyStr.split_dslash s))%nat.
Proof.
  induction s as [|a s IH]; [done|].
  destruct s as [|b s]; [simpl; by case_decide|].
  rewrite contains_cons2, split_dslash_cons2. case_decide.
  - intros _. pose proof (split_dslash_not_nil s).
    destruct (PyStr.split_dslash s); [done|simpl; lia].
  - intros Hc. specialize (IH Hc).
    destruct (PyStr.split_dslash (String b s)); simpl in *; lia.
Qed.

Lemma split_dslash_app (p rest : string) :
  PyStr.has_char "/" p = false ->
  PyStr.split_dslash (p +:+ "//" +:+ rest) = p :: PyStr.split_dslash rest.
Proof.
  induction p as [|a p IH]; [done|]. intros Hp. simpl in Hp.
  case_decide as Ha; [done|]. specialize (IH Hp).
  change (String a p +:+ "//" +:+ rest) with (String a (p +:+ "//" +:+ rest)).
  destruct (p +:+ "//" +:+ rest) as [|b s] eqn:Heq.
  - by destruct p.
  - rewrite split_dslash_cons2, decide_False by tauto. by rewrite IH.
Qed.

Lemma external_parts_none (s : string) :
  PyStr.contains s "//" = false -> pyname_to_tl_external s = Raise IndexError.
Proof. intros Hc. unfold pyname_to_tl_external. by rewrite (split_dslash_none _ Hc). Qed.

Lemma external_parts_total (s : string) :
  PyStr.contains s "//" = true -> exists t, pyname_to_tl_external s = Ok t.
Proof.
  intros Hc. unfold pyname_to_tl_external.
  pose proof (split_dslash_some _ Hc) as Hlen.
  destruct (PyStr.split_dslash s) as [|x [|t l]]; simpl in *; [lia..|].
  by exists t.
Qed.

(** X21. [pyname_to_tl_external] raises [IndexError] on a name without
    [//] and returns otherwise; on [//tl//rest], with no slash in [tl]
    and no [//] in [rest], the top-level name is [tl] and the name behind
    the last [//] is [rest]. *)
Theorem external_pyname_parts (s tl rest : string) :
  (PyStr.contains s "//" = false -> pyname_to_tl_external s = Raise IndexError) /\
  (PyStr.contains s "//" = true -> exists t, pyname_to_tl_external s = Ok t) /\
  (PyStr.has_char "/" tl = false -> PyStr.contains rest "//" = false ->
   pyname_to_tl_external ("//" +:+ tl +:+ "//" +:+ rest) = Ok tl /\
   pyname_to_squash_external ("//" +:+ tl +:+ "//" +:+ rest) = rest).
Proof.
  split_and!; [apply external_parts_none|apply external_parts_total|].
  unfold pyname_to_tl_external, pyname_to_squash_external.
  - intros Htl Hrest.
    change ("//" +:+ tl +:+ "//" +:+ rest) with ("" +:+ "//" +:+ (tl +:+ "//" +:+ rest)).
    rewrite (split_dslash_app "") by done.
    rewrite (split_dslash_app tl) by done.
    by rewrite (split_dslash_none _ Hrest).
Qed.

Lemma external_pyname_parts_witness :
  pyname_to_tl_external "/numpy/core.dot" = Raise IndexError /\
  pyname_to_tl_external "//numpy//numpy.core.dot" = Ok "numpy" /\
  pyname_to_squash_external "//numpy//numpy.core.dot" = "numpy.core.dot".
Proof.
  destruct (external_pyname_parts "/numpy/core.dot" "numpy" "numpy.core.dot")
    as (Hnone & _ & Hparts).
  split; [by apply Hnone|]. by apply Hparts.
Defined.

(** *** The loops of [augment] *)

(** The maps read at construction are never written. *)
Definition same_maps (a0 a : augmentor) : Prop :=
  tl2pkg a = tl2pkg a0 /\ pkg2aug a = pkg2aug a0 /\
  given_package a = given_package a0.

(** The documents loaded so far: each one belongs to a file that exists
    and that [pkg2aug] names, and has the property [R]. *)
Definition cache_ok (fs : files) (R : Partial.callgraph -> Prop)
    (a0 a : augmentor) : Prop :=
  same_maps a0 a /\
  forall p doc, cg_path2cg a !! p = Some doc ->
    is_Some (fs !! p) /\ (exists pkg, pkg2aug a0 !! pkg = Some p) /\ R doc.

Section cache.
Variable fs : files.
Variable R : Partial.callgraph -> Prop.
Hypothesis R_files : forall p cg, fs !! p = Some cg -> R cg.
Hypothesis R_internal : forall b cg, R cg -> R (internal_bridge_doc b cg).
Hypothesis R_external : forall tl tls squashed sb cg,
  R cg -> R (external_bridge_doc tl tls squashed sb cg).

Lemma load_cache_ok a0 a p cg :
  cache_ok fs R a0 a -> load fs a p = Some cg -> is_Some (fs !! p) /\ R cg.
Proof.
  intros [_ Hc]. unfold load.
  destruct (cg_path2cg a !! p) as [doc|] eqn:Hp.
  - intros [= ->]. destruct (Hc _ _ Hp) as (? & _ & ?). done.
  - intros Hf. split; [by eexists|by eapply R_files].
Qed.

Lemma store_cache_ok a0 a p pkg doc :
  cache_ok fs R a0 a -> is_Some (fs !! p) -> pkg2aug a0 !! pkg = Some p ->
  R doc -> cache_ok fs R a0 (store p doc a).
Proof.
  intros [Hm Hc] Hfs Hpkg HR. split; [done|]. intros q d. simpl.
  destruct (decide (q = p)) as [->|Hne].
  - rewrite lookup_insert_eq. intros [= <-]. split_and!; [done|by exists pkg|done].
  - rewrite lookup_insert_ne by done. apply Hc.
Qed.

Lemma process_internal_bridge_cache a0 a b a' :
  cache_ok fs R a0 a -> process_internal_bridge fs a b = Ok a' ->
  cache_ok fs R a0 a'.
Proof.
  intros Hc. unfold process_internal_bridge.
  destruct (pkg2aug a !! given_package a) as [p|] eqn:Hp; [|done]. simpl.
  destruct (load fs a p) as [cg|] eqn:Hl; intros [= <-]; [|done].
  destruct (load_cache_ok _ _ _ _ Hc Hl) as [Hfs HR].
  destruct Hc as [(H1 & H2 & H3) Hc]. rewrite H2 in Hp.
  eapply store_cache_ok; [by split|done|done|by apply R_internal].
Qed.

Lemma process_external_bridge_cache a0 a b a' :
  cache_ok fs R a0 a -> process_external_bridge fs a b = Ok a' ->
  cache_ok fs R a0 a'.
Proof.
  intros Hc. unfold process_external_bridge.
  destruct (pyname_to_tl_external (pyname b)) as [tl|e]; [|done]. simpl.
  destruct (ODict.get tl (tl2pkg a)) as [pkg|]; simpl; [|by intros [= <-]].
  destruct (pkg2aug a !! pkg) as [p|] eqn:Hp; [|by intros [= <-]].
  destruct (load fs a p) as [cg|] eqn:Hl; intros [= <-]; [|done].
  destruct (load_cache_ok _ _ _ _ Hc Hl) as [Hfs HR].
  destruct Hc as [(H1 & H2 & H3) Hc]. rewrite H2 in Hp.
  eapply store_cache_ok; [by split|done|done|by apply R_external].
Qed.

Lemma augment_cache a ints exts fs' :
  cg_path2cg a = ∅ ->
  Augment.augment fs a ints exts = Ok fs' ->
  exists a', cache_ok fs R a a' /\ fs' = cg_path2cg a' ∪ fs.
Proof.
  intros Hempty. unfold Augment.augment.
  destruct (for_each (process_internal_bridge fs) ints a) as [a1|e] eqn:H1; [|done].
  simpl.
  destruct (for_each (process_external_bridge fs) exts a1) as [a2|e] eqn:H2; [|done].
  simpl. intros [= <-]. exists a2. split; [|done].
  assert (cache_ok fs R a a1) as Hc1.
  { revert H1. apply (for_each_inv (fun _ s => cache_ok fs R a s)).
    - split; [done|]. intros p doc. by rewrite Hempty, lookup_empty.
    - intros _ b s s' Hs. by apply process_internal_bridge_cache. }
  revert H2. apply (for_each_inv (fun _ s => cache_ok fs R a s)); [done|].
  intros _ b s s' Hs. by apply process_external_bridge_cache.
Qed.

End cache.

(** X22. A run of [augment] creates no file and removes none, and every
    file whose document it changes is one that [pkg2aug] names. *)
Theorem augment_writes_only_named fs tl2pkg pkg2aug given ints exts fs' :
  Augment.augment fs (Augment.init tl2pkg pkg2aug given) ints exts = Ok fs' ->
  (forall p, is_Some (fs' !! p) <-> is_Some (fs !! p)) /\
  (forall p, fs' !! p <> fs !! p -> exists pkg, pkg2aug !! pkg = Some p).
Proof.
  intros Hrun.
  destruct (augment_cache fs (fun _ => True) (fun _ _ _ => I) (fun _ _ _ => I)
              (fun _ _ _ _ _ _ => I) (Augment.init tl2pkg pkg2aug given)
              ints exts fs' eq_refl Hrun) as (a' & [_ Hc] & ->).
  split; intros p.
  - rewrite (lookup_union (cg_path2cg a') fs p). destruct (cg_path2cg a' !! p) as [doc|] eqn:Hp.
    + destruct (Hc _ _ Hp) as ([c Hfs] & _). unfold files in *. rewrite Hfs.
      split; intros _; by eexists.
    + by rewrite (left_id None _).
  - rewrite (lookup_union (cg_path2cg a') fs p).
    destruct (cg_path2cg a' !! p) as [doc|] eqn:Hp.
    + intros _. by destruct (Hc _ _ Hp) as (_ & Hpkg & _).
    + by rewrite (left_id None _).
Qed.

Lemma augment_writes_only_named_witness :
  let none := Partial.mkMetadata None [] in
  let cg :=
    Partial.mkCallgraph "numpy" "1.0" 2
      [("/numpy/", Partial.mkModule "numpy/__init__.py"
                     [(0, Partial.mkNamespace "/numpy/" none);
                      (1, Partial.mkNamespace "/numpy/core.dot" none)])]
      [] [(0, 1)] [] in
  let fs : files := {[ "numpy.json" := cg ]} in
  let b_int := mkBridgeRecord "/numpy/core.dot" "PyArray_Dot" "multiarray.so" in
  let b_ext := mkBridgeRecord "//numpy//numpy.linalg.inv" "call_inv" "umath_linalg.so" in
  let b_far := mkBridgeRecord "//scipy//scipy.linalg.inv" "call_inv" "flapack.so" in
  exists fs',
    Augment.augment fs
      (Augment.init [("numpy", "numpy:1.0")] {[ "numpy:1.0" := "numpy.json" ]}
         "numpy:1.0")
      [b_int] [b_ext; b_far] = Ok fs' /\
    (forall p, is_Some (fs' !! p) <-> is_Some (fs !! p)) /\
    (forall p, fs' !! p <> fs !! p ->
       exists pkg, ({[ "numpy:1.0" := "numpy.json" ]} : gmap string string) !! pkg
                   = Some p).
Proof.
  intros none cg fs b_int b_ext b_far.
  destruct (Augment.augment fs
              (Augment.init [("numpy", "numpy:1.0")]
                 {[ "numpy:1.0" := "numpy.json" ]} "numpy:1.0")
              [b_int] [b_ext; b_far]) as [fs'|e] eqn:Hrun;
    [|vm_compute in Hrun; discriminate].
  exists fs'. split; [reflexivity|].
  exact (augment_writes_only_named fs _ _ _ _ _ fs' Hrun).
Defined.

(** *** Augmented documents and the stitcher *)

Lemma internal_bridge_doc_keys b cg : ns_keys (internal_bridge_doc b cg) = ns_keys cg.
Proof.
  unfold ns_keys, internal_bridge_doc. cbn [Partial.internal with_internal].
  rewrite all_namespaces_map, <- list_fmap_compose. by apply list_fmap_ext.
Qed.

Lemma alter_set_keys modname k0 v0 ms k :
  k ∈ (Partial.all_namespaces ms).*1 ->
  k ∈ (Partial.all_namespaces
         (ODict.alter (fun m => Partial.mkModule (Partial.sourceFile m)
                                  (ODict.set k0 v0 (Partial.namespaces m)))
            modname ms)).*1.
Proof.
  induction ms as [|[k' m] ms IH]; simpl; [done|].
  unfold Partial.all_namespaces in *. simpl. rewrite fmap_app, elem_of_app.
  intros Hin. case_decide; simpl; rewrite fmap_app, elem_of_app.
  - destruct Hin as [Hin|Hin]; [left|by right].
    rewrite keys_set. apply elem_of_add_key. by right.
  - destruct Hin as [Hin|Hin]; [by left|right; by apply IH].
Qed.

Lemma external_bridge_doc_keys tl tls squashed sb cg k :
  k ∈ ns_keys cg -> k ∈ ns_keys (external_bridge_doc tl tls squashed sb cg).
Proof.
  unfold external_bridge_doc, ns_keys.
  pose proof (attach_modules_keys (matches_external tl tls squashed) sb
                (Partial.internal cg)) as Hk.
  destruct (attach_modules _ sb (Partial.internal cg)) as [ms [|]]; simpl in Hk.
  - simpl. by rewrite Hk.
  - rewrite <- Hk. rewrite synthesize_eq. cbv zeta.
    cbn [Partial.internal Partial.nodes with_internal]. intros Hin.
    case_decide; apply alter_set_keys; [done|].
    rewrite all_namespaces_app, fmap_app. apply elem_of_app. by left.
Qed.

Lemma internal_bridge_doc_closed b cg :
  partial_closed cg -> partial_closed (internal_bridge_doc b cg).
Proof.
  intros Hc c Hin. fold (ns_keys (internal_bridge_doc b cg)).
  rewrite internal_bridge_doc_keys. by apply Hc.
Qed.

Lemma external_calls_same tl tls squashed sb cg :
  Partial.internalCalls (external_bridge_doc tl tls squashed sb cg)
  = Partial.internalCalls cg.
Proof.
  unfold external_bridge_doc.
  destruct (attach_modules _ sb (Partial.internal cg)) as [ms [|]]; [done|].
  rewrite synthesize_eq. cbv zeta. by case_decide.
Qed.

Lemma external_bridge_doc_closed tl tls squashed sb cg :
  partial_closed cg -> partial_closed (external_bridge_doc tl tls squashed sb cg).
Proof.
  intros Hc c. rewrite external_calls_same. intros Hin.
  destruct (Hc c Hin) as [H1 H2].
  split; by apply external_bridge_doc_keys.
Qed.

(** X23. Augmenting does not unsettle the stitcher: when the internal
    calls of every document on disk join keys of its namespaces, the same
    holds for every document after a run of [augment], and [add_internal]
    returns on any choice of them. *)
Theorem augment_output_feeds_stitch fs tl2pkg pkg2aug given ints exts fs' cgs :
  Augment.augment fs (Augment.init tl2pkg pkg2aug given) ints exts = Ok fs' ->
  (forall p cg, fs !! p = Some cg -> partial_closed cg) ->
  Forall (fun cg => exists p, fs' !! p = Some cg) cgs ->
  Forall partial_closed cgs /\
  exists st, Stitch.add_internal cgs Stitch.init = Ok st.
Proof.
  intros Hrun Hfs Hcgs.
  destruct (augment_cache fs partial_closed Hfs internal_bridge_doc_closed
              external_bridge_doc_closed (Augment.init tl2pkg pkg2aug given)
              ints exts fs' eq_refl Hrun) as (a' & [_ Hc] & ->).
  assert (Forall partial_closed cgs) as Hall.
  { eapply Forall_impl; [exact Hcgs|]. intros cg [p Hp]. simpl in Hp.
    rewrite (lookup_union (cg_path2cg a') fs p) in Hp.
    destruct (cg_path2cg a' !! p) as [doc|] eqn:Hd.
    - destruct (Hc _ _ Hd) as ([c Hfsp] & _ & Hcl). unfold files in *.
      rewrite Hfsp in Hp. by injection Hp as <-.
    - rewrite (left_id None _) in Hp. by eapply Hfs. }
  split; [done|]. by apply add_internal_closed.
Qed.

Lemma augment_output_feeds_stitch_witness :
  let none := Partial.mkMetadata None [] in
  let cg :=
    Partial.mkCallgraph "numpy" "1.0" 2
      [("/numpy/", Partial.mkModule "numpy/__init__.py"
                     [(0, Partial.mkNamespace "/numpy/" none);
                      (1, Partial.mkNamespace "/numpy/core.dot" none)])]
      [] [(0, 1)] [] in
  let fs : files := {[ "numpy.json" := cg ]} in
  let b_int := mkBridgeRecord "/numpy/core.dot" "PyArray_Dot" "multiarray.so" in
  let b_ext := mkBridgeRecord "//numpy//numpy.linalg.inv" "call_inv" "umath_linalg.so" in
  exists fs',
    Augment.augment fs
      (Augment.init [("numpy", "numpy:1.0")] {[ "numpy:1.0" := "numpy.json" ]}
         "numpy:1.0")
      [b_int] [b_ext] = Ok fs' /\
    forall doc, fs' !! "numpy.json" = Some doc ->
      Forall partial_closed [doc] /\
      exists st, Stitch.add_internal [doc] Stitch.init = Ok st.
Proof.
  intros none cg fs b_int b_ext.
  destruct (Augment.augment fs
              (Augment.init [("numpy", "numpy:1.0")]
                 {[ "numpy:1.0" := "numpy.json" ]} "numpy:1.0")
              [b_int] [b_ext]) as [fs'|e] eqn:Hrun;
    [|vm_compute in Hrun; discriminate].
  exists fs'. split; [reflexivity|]. intros doc Hdoc.
  apply (augment_output_feeds_stitch fs _ _ _ _ _ fs' [doc] Hrun).
  - intros p cg0 Hp. unfold fs, files in Hp.
    apply lookup_singleton_Some in Hp as [_ <-].
    intros c Hc. apply list_elem_of_singleton in Hc as ->.
    unfold Partial.all_namespaces. simpl. split; repeat constructor.
  - constructor; [|constructor]. exists "numpy.json". exact Hdoc.
Defined.

(** X24. A run of [augment] fails in two ways only: with [KeyError],
    when there is an internal bridge and [pkg2aug] has no entry for the
    given package; and with [IndexError], when the name of an external
    bridge has no [//].  Otherwise it returns. *)
Theorem augment_fails_only_on fs a ints exts :
  (forall e, Augment.augment fs a ints exts = Raise e ->
     (e = KeyError /\ ints <> [] /\ pkg2aug a !! given_package a = None) \/
     (e = IndexError /\
      exists b, b ∈ exts /\ PyStr.contains (pyname b) "//" = false)) /\
  ((ints = [] \/ is_Some (pkg2aug a !! given_package a)) ->
   (forall b, b ∈ exts -> PyStr.contains (pyname b) "//" = true) ->
   exists fs', Augment.augment fs a ints exts = Ok fs').
Proof.
  assert (forall s b s', process_internal_bridge fs s b = Ok s' -> same_maps a s ->
            same_maps a s') as Hint.
  { intros s b s'. unfold process_internal_bridge.
    destruct (pkg2aug s !! given_package s) as [p|]; [|done]. simpl.
    by destruct (load fs s p); intros [= <-]. }
  assert (forall s b s', process_external_bridge fs s b = Ok s' -> same_maps a s ->
            same_maps a s') as Hext.
  { intros s b s'. unfold process_external_bridge.
    destruct (pyname_to_tl_external (pyname b)) as [t|]; [|done]. simpl.
    destruct (ODict.get t (tl2pkg s)) as [pkg|]; simpl; [|by intros [= <-]].
    destruct (pkg2aug s !! pkg) as [p|]; [|by intros [= <-]].
    by destruct (load fs s p); intros [= <-]. }
  assert (forall l s, for_each (process_internal_bridge fs) l a = Ok s ->
            same_maps a s) as Hints.
  { intros l s. apply (for_each_inv (fun _ s => same_maps a s)); [done|].
    intros _ b s1 s2 Hs Hb. by eapply Hint. }
  assert (forall l s0 s, same_maps a s0 ->
            for_each (process_external_bridge fs) l s0 = Ok s -> same_maps a s)
    as Hexts.
  { intros l s0 s Hs0. apply (for_each_inv (fun _ s => same_maps a s)); [done|].
    intros _ b s1 s2 Hs Hb. by eapply Hext. }
  split.
  - intros e. unfold Augment.augment.
    destruct (for_each (process_internal_bridge fs) ints a) as [a1|e1] eqn:H1; simpl.
    + destruct (for_each (process_external_bridge fs) exts a1) as [a2|e2] eqn:H2;
        simpl; [done|]. intros [= ->]. right.
      destruct (for_each_Raise _ _ _ _ H2) as (pre & b & post & s & -> & _ & Hb).
      unfold process_external_bridge in Hb.
      destruct (PyStr.contains (pyname b) "//") eqn:Hc.
      * destruct (external_parts_total _ Hc) as [t Ht]. rewrite Ht in Hb.
        simpl in Hb. destruct (ODict.get t (tl2pkg s)) as [pkg|]; simpl in Hb; [|done].
        destruct (pkg2aug s !! pkg) as [p|]; [|done]. by destruct (load fs s p).
      * rewrite (external_parts_none _ Hc) in Hb. injection Hb as <-.
        split; [done|]. exists b. split; [|done].
        apply elem_of_app. right. by left.
    + intros [= ->]. left.
      destruct (for_each_Raise _ _ _ _ H1) as (pre & b & post & s & -> & Hpre & Hb).
      destruct (Hints _ _ Hpre) as (_ & Hp & Hg).
      unfold process_internal_bridge in Hb. rewrite Hp, Hg in Hb.
      destruct (pkg2aug a !! given_package a) as [p|] eqn:Hk; simpl in Hb.
      * by destruct (load fs s p).
      * injection Hb as <-. split_and!; [done| |done]. by destruct pre.
  - intros Hgiven Hexts_ok. unfold Augment.augment.
    destruct (for_each_total (fun s => same_maps a s) (process_internal_bridge fs)
                ints a) as (a1 & -> & Ha1); [done| |].
    { intros s b (H1 & H2 & H3) Hb. destruct Hgiven as [->|[p Hp]].
      - by apply elem_of_nil in Hb.
      - unfold process_internal_bridge. rewrite H2, H3, Hp. simpl.
        destruct (load fs s p); eexists; (split; [done|]); done. }
    simpl.
    destruct (for_each_total (fun s => same_maps a s) (process_external_bridge fs)
                exts a1) as (a2 & -> & Ha2); [done| |by eexists].
    intros s b Hs Hb. destruct (external_parts_total _ (Hexts_ok b Hb)) as [t Ht].
    assert (exists s', process_external_bridge fs s b = Ok s') as [s' Hs'].
    { unfold process_external_bridge. rewrite Ht. simpl.
      destruct (ODict.get t (tl2pkg s)) as [pkg|]; simpl; [|by eexists].
      destruct (pkg2aug s !! pkg) as [p|]; [|by eexists].
      destruct (load fs s p); by eexists. }
    exists s'. split; [done|]. by eapply Hext.
Qed.

Lemma augment_fails_only_on_witness :
  let none := Partial.mkMetadata None [] in
  let cg :=
    Partial.mkCallgraph "numpy" "1.0" 2
      [("/numpy/", Partial.mkModule "numpy/__init__.py"
                     [(0, Partial.mkNamespace "/numpy/" none);
                      (1, Partial.mkNamespace "/numpy/core.dot" none)])]
      [] [(0, 1)] [] in
  let fs : files := {[ "numpy.json" := cg ]} in
  let a := Augment.init [("numpy", "numpy:1.0")] {[ "numpy:1.0" := "numpy.json" ]}
             "numpy:1.0" in
  let b_int := mkBridgeRecord "/numpy/core.dot" "PyArray_Dot" "multiarray.so" in
  let b_ext := mkBridgeRecord "//numpy//numpy.linalg.inv" "call_inv" "umath_linalg.so" in
  (exists b, b ∈ [b_ext; b_int] /\ PyStr.contains (pyname b) "//" = false) /\
  (exists fs', Augment.augment fs a [b_int] [b_ext] = Ok fs').
Proof.
  intros none cg fs a b_int b_ext. split.
  - destruct (augment_fails_only_on fs a [b_int] [b_ext; b_int]) as [Hfail _].
    destruct (Hfail IndexError) as [(Hk & _)|(_ & Hb)];
      [vm_compute; reflexivity|discriminate|exact Hb].
  - destruct (augment_fails_only_on fs a [b_int] [b_ext]) as [_ Hok].
    apply Hok.
    + right. vm_compute. by eexists.
    + intros b Hb. apply list_elem_of_singleton in Hb as ->. reflexivity.
Defined.

End augment_more.

(** ** Examples *)

Example descendants_ex :
  Graph.descendants (Graph.mkDiGraph [0;1;2;3] [(0,1);(1,2);(2,0);(3,0)]) 0
  = Ok {[ 1; 2 ]}.
Proof. vm_compute. reflexivity. Qed.

Example shortest_ex :
  Graph.search_path (Graph.mkDiGraph [0;1;2;3] [(0,1);(1,2);(2,0);(3,0);(0,2)]) 3 2
  = Some [3;0;2].
Proof. vm_compute. reflexivity. Qed.

Example reach_ex :
  let cg := Unified.mkCallgraph
     [(0, Unified.mkNode "app.main" (Some "app:1.0") None);
      (1, Unified.mkNode "app.helper" (Some "app:1.0") None);
      (2, Unified.mkNode "dep.vuln" (Some "dep:2.0") None);
      (3, Unified.mkNode "dep.other" (Some "dep:2.0") None)]
     [(0, 1); (1, 2); (3, 2)] in
  Reach.final_callgraph <$> Reach.run "app:1.0" "u.json" {[ "u.json" := cg ]}
  = Ok (Unified.mkCallgraph
     [(0, Unified.mkNode "app.main" (Some "app:1.0") None);
      (1, Unified.mkNode "app.helper" (Some "app:1.0") None);
      (2, Unified.mkNode "dep.vuln" (Some "dep:2.0") None)]
     [(0, 1); (1, 2)]).
Proof. vm_compute. reflexivity. Qed.

Example chain_ex :
  let cg := Unified.mkCallgraph
     [(0, Unified.mkNode "app.main" (Some "app:1.0") None);
      (1, Unified.mkNode "app.helper" (Some "app:1.0") None);
      (2, Unified.mkNode "dep.vuln" (Some "dep:2.0") None)]
     [(0, 1); (1, 2)] in
  Chain.find_call_chains Graph.search_path "reached.json" "dep.vuln"
    {[ "reached.json" := cg ]}
  = Ok ([["app.main"; "app.helper"; "dep.vuln"]], 1 # 1).
Proof. vm_compute. reflexivity. Qed.

(** Two libraries define [foo]; [liba] records three outgoing edges of
    it and [libb] one: [libb] owns it. *)
Example fewer_egress_wins :
  Unify.unify (Stitched.mkCallgraph [] [])
    [Native.mkCallgraph "liba.so" [(0, "foo"); (1, "x")] [(0, 1); (0, 0); (0, 1)];
     Native.mkCallgraph "libb.so" [(0, "foo"); (1, "y")] [(0, 1)]]
  = Ok (Unified.mkCallgraph
          [(0, Unified.mkNode "foo" None (Some "libb.so"));
           (1, Unified.mkNode "x" None (Some "liba.so"));
           (2, Unified.mkNode "y" None (Some "libb.so"))]
          [(0, 1); (0, 0); (0, 1); (0, 2)]).
Proof. vm_compute. reflexivity. Qed.

(** [libc] defines [bar] and a bridge targets it there; [libd] defines
    [bar] with no outgoing edge: [libc] owns it. *)
Example bridge_target_wins :
  Unify.unify
    (Stitched.mkCallgraph
       [(0, Stitched.mkNode "pkg.bar" "pkg:1"
              (Some [Stitched.mkBridge "bar" "libc.so"]))] [])
    [Native.mkCallgraph "libd.so" [(0, "bar")] [];
     Native.mkCallgraph "libc.so" [(0, "bar"); (1, "z")] [(0, 1)]]
  = Ok (Unified.mkCallgraph
          [(0, Unified.mkNode "bar" None (Some "libc.so"));
           (1, Unified.mkNode "z" None (Some "libc.so"));
           (2, Unified.mkNode "pkg.bar" (Some "pkg:1") None)]
          [(0, 1); (2, 0)]).
Proof. vm_compute. reflexivity. Qed.

Example pystr_ex :
  PyStr.removesuffix (PyStr.rstrip "." (PyStr.lstrip "." (PyStr.replace "/" "." "/pkg.mod/Cls.f()"))) "()"
    = "pkg.mod.Cls.f" /\
  PyStr.split_dslash "//numpy//numpy.core.f" = [""; "numpy"; "numpy.core.f"] /\
  PyStr.split_dslash "///x" = [""; "/x"] /\
  PyStr.split "." "a.b..c" = ["a"; "b"; ""; "c"] /\
  PyStr.join "." ["a"; "b"; "c"] = "a.b.c" /\
  PyStr.rstrip "." "a.b.." = "a.b" /\
  PyStr.removesuffix "abc" "" = "abc" /\
  PyStr.contains "xnumpy.distutils.y" "numpy.distutils" = true /\
  PyStr.endswith "f()" "()" = true.
Proof. vm_compute. repeat split; reflexivity. Qed.

Example add_internal_ex :
  let cg := Partial.mkCallgraph "pkg" "1" 3
      [("/pkg/", Partial.mkModule "pkg.py"
          [(0, Partial.mkNamespace "/pkg/" (Partial.mkMetadata None []));
           (1, Partial.mkNamespace "/pkg/C" (Partial.mkMetadata None []));
           (2, Partial.mkNamespace "/pkg/C.__init__()" (Partial.mkMetadata None []))])]
      [] [(0, 1)] [] in
  (fun st => (Stitch.final_nodes st, Stitch.final_edges st))
    <$> Stitch.add_internal [cg] Stitch.init
  = Ok ([(0, Stitched.mkNode "pkg" "pkg:1" None);
         (1, Stitched.mkNode "pkg.C" "pkg:1" None);
         (2, Stitched.mkNode "pkg.C.__init__" "pkg:1" None)],
        [(0, 1); (0, 2)]).
Proof. vm_compute. reflexivity. Qed.

(** A call into the standard library is dropped and counted as ignored;
    a call into a stitched dependency becomes an edge. *)
Example stitch_ex :
  let app := Partial.mkCallgraph "app" "1" 1
      [("/app/", Partial.mkModule "app.py"
          [(0, Partial.mkNamespace "/app/" (Partial.mkMetadata None []))])]
      [("os", Partial.mkModule ""
          [(1, Partial.mkNamespace "//os//os.path.join" (Partial.mkMetadata None []))]);
       ("dep", Partial.mkModule ""
          [(2, Partial.mkNamespace "//dep//dep.f" (Partial.mkMetadata None []))])]
      [] [(Some 0, Some 1); (Some 0, Some 2)] in
  let dep := Partial.mkCallgraph "dep" "2" 1
      [("/dep/", Partial.mkModule "dep.py"
          [(0, Partial.mkNamespace "/dep/f()" (Partial.mkMetadata None []))])]
      [] [] [] in
  (fun st => (Stitch.final_edges st, Stitch.num_externals_found st,
              Stitch.num_externals_missed st, Stitch.num_externals_ignored st))
    <$> Stitch.stitch ["os."; "sys."] ["strip"; "join"] (fun _ => None) [app; dep]
  = Ok ([(0, 1)], 1, 0, 1).
Proof. vm_compute. reflexivity. Qed.

Example augment_ex :
  let cg := Partial.mkCallgraph "numpy" "1.0" 1
      [("/numpy/", Partial.mkModule "numpy/__init__.py"
          [(0, Partial.mkNamespace "/numpy/" (Partial.mkMetadata None []))])]
      [] [] [] in
  let sb := Stitched.mkBridge "array_dot" "numpy/core/_multiarray.so" in
  Partial.internal
    (Augment.external_bridge_doc "numpy" ["numpy"] "numpy.core.dot" sb cg)
  = [("/numpy/", Partial.mkModule "numpy/__init__.py"
        [(0, Partial.mkNamespace "/numpy/" (Partial.mkMetadata None []));
         (1, Partial.mkNamespace "/numpy/core.dot()"
               (Partial.mkMetadata (Some [sb]) []))])].
Proof. vm_compute. reflexivity. Qed.
